(** * Itok: plan compression and semantic chunking engines

    A shallow embedding of the TypeScript sources
      - [types/index.ts]                 (data model),
      - [types/schemas.ts]               (zod schema of a TaskPlan),
      - [tools/validate-plan-helpers.ts] (level policy, step merging, stats),
      - [tools/validate-plan.ts]         (the plan compressor),
      - [tools/plan-task.ts]             (only [toToonFriendly]),
      - [tools/chunking-helpers.ts]      (boundary detector, token estimator, ids),
      - [tools/code-chunking.ts]         (file-range chunking, dechunking),
      - [tools/code-chunking-impl.ts]    (sub-chunking of large symbols),
    followed by the properties of the specification that were checked
    against them.

    Conventions of the embedding.
      - A JavaScript string is a [string]; its characters are code units
        in the range 0..255.
      - Integral JavaScript numbers are [Z]; array lengths are [nat].
        Line numbers are taken as integers.  JavaScript computes with
        doubles, which hold every integer up to 2^53 in magnitude and round
        beyond: [chunkByFileRange], whose loop depends on it, has the
        rounding written out ([toDouble], [plus], [minus]); elsewhere the
        arithmetic on lines is that of [Z], as it is for doubles whose
        results stay within that range.
      - The numeric limits of the plan compressor are [JsNumber]s: the
        tool's input schema only accepts positive integers, but the exported
        functions take any number, test it for truthiness, compare it with
        array lengths, pass it to [slice] and print it.
      - [T | null] and optional fields are [option T].
      - A thrown exception is the [Throw] constructor of [result].
      - [Map<string, V>] is an association list in insertion order (the
        code iterates over its maps); [Set<string>] is a duplicate-free
        list in insertion order.
      - [Date.now()] and [Math.random()] are inputs of the functions that
        read them. *)

From Stdlib Require Import String Ascii List ZArith Lia Bool Arith PeanoNat.
From Stdlib Require Import Relations.Relation_Operators Relations.Operators_Properties.
From Stdlib Require Import DecimalString Decimal Sorting.Sorted Sorting.Permutation.
From Stdlib Require DecimalNat.
Import ListNotations.
Open Scope string_scope.
Open Scope nat_scope.
Open Scope list_scope.

Set Implicit Arguments.

(* ------------------------------------------------------------------ *)
(** * JavaScript runtime helpers                                        *)
(* ------------------------------------------------------------------ *)

(** Result of a computation that may throw, or whose [while] loop is still
    running when the fuel given to it is spent. *)
Inductive result (A : Type) : Type :=
| Ok (a : A)
| Throw (message : string)
| OutOfFuel.
Arguments Ok {A} a.
Arguments Throw {A} message.
Arguments OutOfFuel {A}.

Definition bind {A B : Type} (r : result A) (k : A -> result B) : result B :=
  match r with
  | Ok a => k a
  | Throw m => Throw m
  | OutOfFuel => OutOfFuel
  end.

Notation "x <- r ;; k" := (bind r (fun x => k))
  (at level 61, r at next level, right associativity).

Definition isOk {A : Type} (r : result A) : bool :=
  match r with Ok _ => true | _ => false end.

(** The double-quote character, used inside template literals. *)
Definition dquote : string := String (ascii_of_nat 34) EmptyString.

(** [`${n}`] for integral numbers. *)
Definition showZ (z : Z) : string := NilZero.string_of_int (Z.to_int z).
Definition showNat (n : nat) : string := NilZero.string_of_uint (Nat.to_uint n).

(** [xs.join(sep)] *)
Fixpoint join (sep : string) (xs : list string) : string :=
  match xs with
  | [] => EmptyString
  | [x] => x
  | x :: rest => (x ++ sep ++ join sep rest)%string
  end.

(** [s || d] on strings: the empty string is falsy. *)
Definition strOr (s : option string) (d : string) : string :=
  match s with
  | Some EmptyString => d
  | Some v => v
  | None => d
  end.

(** [Set<string>]: [has], [add], [new Set(xs)]. *)
Definition StringSet := list string.

Definition set_has (s : StringSet) (x : string) : bool :=
  existsb (String.eqb x) s.

Definition set_add (s : StringSet) (x : string) : StringSet :=
  if set_has s x then s else s ++ [x].

Definition set_of_list (xs : list string) : StringSet :=
  fold_left set_add xs [].

(** [Map<string, V>] in insertion order: [get], [set]. *)
Fixpoint map_get {V : Type} (m : list (string * V)) (k : string) : option V :=
  match m with
  | [] => None
  | (k', v) :: rest => if String.eqb k' k then Some v else map_get rest k
  end.

Fixpoint map_set {V : Type} (m : list (string * V)) (k : string) (v : V)
  : list (string * V) :=
  match m with
  | [] => [(k, v)]
  | (k', v') :: rest =>
      if String.eqb k' k then (k', v) :: rest else (k', v') :: map_set rest k v
  end.

(** [if (!m.has(key)) m.set(key, []); m.get(key).push(x)] *)
Fixpoint pushToGroup {A : Type} (groups : list (string * list A)) (key : string)
         (x : A) : list (string * list A) :=
  match groups with
  | [] => [(key, [x])]
  | (k, members) :: rest =>
      if String.eqb k key then (k, members ++ [x]) :: rest
      else (k, members) :: pushToGroup rest key x
  end.

(** Filling a [Map<string, A[]>] from a list, keyed by [keyOf]:
    [xs.forEach(x => { if (!m.has(k)) m.set(k, []); m.get(k).push(x) })]. *)
Definition groupBy {A : Type} (keyOf : A -> string) (xs : list A)
  : list (string * list A) :=
  fold_left (fun m x => pushToGroup m (keyOf x) x) xs [].

(** [xs.sort((a, b) => key(a) - key(b))]: a stable sort on an integer key. *)
Section StableSort.
Variable A : Type.
Variable key : A -> Z.

Fixpoint insertSorted (x : A) (sorted : list A) : list A :=
match sorted with
| [] => [x]
| y :: rest =>
if (key x <=? key y)%Z then x :: sorted else y :: insertSorted x rest
end.

Definition sortBy (xs : list A) : list A :=
fold_right insertSorted [] xs.
End StableSort.

(** [xs.slice(start, end)] with JavaScript's treatment of negative and
    out-of-range indices. *)
Definition relIndex (len : nat) (i : Z) : nat :=
  if (i <? 0)%Z then Z.to_nat (Z.max (Z.of_nat len + i) 0)
  else Nat.min (Z.to_nat i) len.

Definition slice {A : Type} (xs : list A) (start stop : Z) : list A :=
  let from := relIndex (length xs) start in
  let to := relIndex (length xs) stop in
  firstn (to - from) (skipn from xs).

(** A JavaScript number, as code observes it that only tests it for
    truthiness, compares it with array lengths, passes it to [slice] and
    prints it in a template literal.
      - [Int z] is the integer [z], of magnitude below 10^21 (from there on
        JavaScript prints a number with an exponent); [-0] is [Int 0].
      - [Frac below shown] is a number that is not an integer, strictly
        between [below] and [below + 1]: 0.5 is [Frac 0 "0.5"] and -0.5 is
        [Frac (-1) "-0.5"].
      - [Huge negative shown] is a number of magnitude 10^21 or more,
        infinite or not: [Infinity] is [Huge false "Infinity"].
    [shown] is the text that [String(x)] gives: the conversion of such
    numbers to text is not modelled, its result is carried along. *)
Inductive JsNumber : Type :=
| Int (z : Z)
| Frac (below : Z) (shown : string)
| Huge (negative : bool) (shown : string)
| NaN.

(** [!!x] *)
Definition isTruthy (x : JsNumber) : bool :=
  match x with
  | Int z => negb (z =? 0)%Z
  | NaN => false
  | _ => true
  end.

(** [`${x}`] *)
Definition showNumber (x : JsNumber) : string :=
  match x with
  | Int z => showZ z
  | Frac _ shown => shown
  | Huge _ shown => shown
  | NaN => "NaN"
  end.

(** [n > x] for an array length [n]. *)
Definition exceeds (n : nat) (x : JsNumber) : bool :=
  match x with
  | Int z => (z <? Z.of_nat n)%Z
  | Frac below _ => (below <? Z.of_nat n)%Z
  | Huge negative _ => negative
  | NaN => false
  end.

(** [n <= x] for an array length [n]. *)
Definition fits (n : nat) (x : JsNumber) : bool :=
  match x with
  | Int z => (Z.of_nat n <=? z)%Z
  | Frac below _ => (Z.of_nat n <=? below)%Z
  | Huge negative _ => negb negative
  | NaN => false
  end.

(** The index that [slice] makes of a number for an array of length [len]:
    the number is truncated towards zero, a negative index counts from the
    end, and the result is clamped to [0 .. len]. *)
Definition sliceIndex (len : nat) (x : JsNumber) : nat :=
  match x with
  | Int z => relIndex len z
  | Frac below _ => relIndex len (if (below <? 0)%Z then below + 1 else below)%Z
  | Huge negative _ => if negative then 0 else len
  | NaN => 0
  end.

(** [xs.slice(0, x)] and [xs.slice(x)] *)
Definition sliceTo {A : Type} (xs : list A) (x : JsNumber) : list A :=
  firstn (sliceIndex (length xs) x) xs.

Definition sliceFrom {A : Type} (xs : list A) (x : JsNumber) : list A :=
  skipn (sliceIndex (length xs) x) xs.

(* ------------------------------------------------------------------ *)
(** * Data model ([types/index.ts])                                     *)
(* ------------------------------------------------------------------ *)

Inductive PlanLevel : Type := Abstract | Planning | Execution.

Definition PlanLevel_eqb (a b : PlanLevel) : bool :=
  match a, b with
  | Abstract, Abstract | Planning, Planning | Execution, Execution => true
  | _, _ => false
  end.

Definition PlanLevel_value (l : PlanLevel) : Z :=
  match l with Abstract => 0 | Planning => 1 | Execution => 2 end.

Inductive StepKind : Type :=
| ClarifyGoal | GatherContext | ScanCode | DesignSolution
| EditCode | RunTests | Refine.

Definition StepKind_value (k : StepKind) : string :=
  match k with
  | ClarifyGoal => "clarify_goal"
  | GatherContext => "gather_context"
  | ScanCode => "scan_code"
  | DesignSolution => "design_solution"
  | EditCode => "edit_code"
  | RunTests => "run_tests"
  | Refine => "refine"
  end.

Inductive ScopeKind : Type := Global | Module_ | File | Symbol_.

Definition ScopeKind_value (k : ScopeKind) : string :=
  match k with
  | Global => "global"
  | Module_ => "module"
  | File => "file"
  | Symbol_ => "symbol"
  end.

Definition isGlobal (k : ScopeKind) : bool :=
  match k with Global => true | _ => false end.

Inductive TaskKind : Type := Bugfix | Feature | Refactor | Other.

Definition TaskKind_value (k : TaskKind) : string :=
  match k with
  | Bugfix => "bugfix"
  | Feature => "feature"
  | Refactor => "refactor"
  | Other => "other"
  end.

Inductive StepStatus : Type := Todo | InProgress | Done | Blocked.

Module PlanStep.
Record t : Type := mk {
id : string;
phaseId : string;
level : PlanLevel;
order : Z;
kind : StepKind;
title : string;
summary : string;
scopeId : option string;
dependencies : list string;
suggestedTools : list string;
status : option StepStatus
}.

(** [{ ...step, level }] and its siblings. *)
Definition with_level (s : t) (l : PlanLevel) : t :=
mk (id s) (phaseId s) l (order s) (kind s) (title s) (summary s)
 (scopeId s) (dependencies s) (suggestedTools s) (status s).

Definition with_scopeId (s : t) (sc : option string) : t :=
mk (id s) (phaseId s) (level s) (order s) (kind s) (title s) (summary s)
 sc (dependencies s) (suggestedTools s) (status s).

Definition with_dependencies (s : t) (deps : list string) : t :=
mk (id s) (phaseId s) (level s) (order s) (kind s) (title s) (summary s)
 (scopeId s) deps (suggestedTools s) (status s).

Definition with_phaseId (s : t) (p : string) : t :=
mk (id s) p (level s) (order s) (kind s) (title s) (summary s)
 (scopeId s) (dependencies s) (suggestedTools s) (status s).
End PlanStep.

Module PlanScope.
Record t : Type := mk {
id : string;
kind : ScopeKind;
label : string;
selector : string;
description : option string
}.
End PlanScope.

Module PlanPhase.
Record t : Type := mk {
id : string;
name : string;
level : PlanLevel;
order : Z;
summary : option string
}.
End PlanPhase.

Record TaskPlanMetadata : Type := mkMetadata {
  createdAt : option string;
  version : option string;
  notes : option string
}.

Module TaskPlan.
Record t : Type := mk {
goal : string;
taskKind : TaskKind;
contextSummary : option string;
phases : list PlanPhase.t;
scopes : list PlanScope.t;
steps : list PlanStep.t;
metadata : option TaskPlanMetadata
}.

Definition with_steps (p : t) (ss : list PlanStep.t) : t :=
mk (goal p) (taskKind p) (contextSummary p) (phases p) (scopes p) ss
 (metadata p).

Definition with_scopes_steps (p : t) (sc : list PlanScope.t)
 (ss : list PlanStep.t) : t :=
mk (goal p) (taskKind p) (contextSummary p) (phases p) sc ss (metadata p).

Definition with_phases_steps (p : t) (ph : list PlanPhase.t)
 (ss : list PlanStep.t) : t :=
mk (goal p) (taskKind p) (contextSummary p) ph (scopes p) ss (metadata p).
End TaskPlan.

Record ValidatePlanOptions : Type := mkOptions {
  targetMaxPhases : option JsNumber;
  targetMaxSteps : option JsNumber;
  maxMicroStepsPerPhase : option JsNumber
}.

Module PlanChange.
Record t : Type := mk {
type : string;
description : string;
componentId : option string
}.
End PlanChange.

Module PlanWarning.
Record t : Type := mk {
type : string;
message : string;
componentId : option string
}.
End PlanWarning.

Record PlanStats : Type := mkStats {
  phasesBefore : nat;
  phasesAfter : nat;
  stepsBefore : nat;
  stepsAfter : nat;
  chunksCreated : nat;
  stepsMerged : Z;
  levelsCorrected : nat;
  scopesReassigned : nat
}.

Module ValidatePlanResult.
Record t : Type := mk {
plan : TaskPlan.t;
warnings : list PlanWarning.t;
changes : list PlanChange.t;
stats : PlanStats;
toon : string
}.
End ValidatePlanResult.

(** A truthy optional limit: [undefined], [0] and [NaN] are falsy. *)
Definition truthy (limit : option JsNumber) : option JsNumber :=
  match limit with
  | Some x => if isTruthy x then Some x else None
  | None => None
  end.

(* ------------------------------------------------------------------ *)
(** * [types/schemas.ts]: the zod schema of a plan                      *)
(* ------------------------------------------------------------------ *)

Definition nonEmpty (s : string) : bool :=
  match s with EmptyString => false | _ => true end.

Definition planStepSchema (s : PlanStep.t) : bool :=
  nonEmpty (PlanStep.id s) && nonEmpty (PlanStep.phaseId s)
  && (0 <=? PlanStep.order s)%Z
  && nonEmpty (PlanStep.title s) && nonEmpty (PlanStep.summary s).

Definition planScopeSchema (s : PlanScope.t) : bool :=
  nonEmpty (PlanScope.id s) && nonEmpty (PlanScope.label s)
  && nonEmpty (PlanScope.selector s).

Definition planPhaseSchema (p : PlanPhase.t) : bool :=
  nonEmpty (PlanPhase.id p) && nonEmpty (PlanPhase.name p)
  && (0 <=? PlanPhase.order p)%Z.

Definition taskPlanSchema (data : TaskPlan.t) : bool :=
  nonEmpty (TaskPlan.goal data)
  && (1 <=? length (TaskPlan.phases data))
  && forallb planPhaseSchema (TaskPlan.phases data)
  && forallb planScopeSchema (TaskPlan.scopes data)
  && (1 <=? length (TaskPlan.steps data))
  && forallb planStepSchema (TaskPlan.steps data)
  (* all step phaseIds reference existing phases *)
  && (let phaseIds := set_of_list (map PlanPhase.id (TaskPlan.phases data)) in
      forallb (fun step => set_has phaseIds (PlanStep.phaseId step))
              (TaskPlan.steps data))
  (* all step scopeIds (if not null) reference existing scopes *)
  && (let scopeIds := set_of_list (map PlanScope.id (TaskPlan.scopes data)) in
      forallb (fun step =>
                 match PlanStep.scopeId step with
                 | None => true
                 | Some sc => set_has scopeIds sc
                 end)
              (TaskPlan.steps data))
  (* all step dependencies reference existing steps *)
  && (let stepIds := set_of_list (map PlanStep.id (TaskPlan.steps data)) in
      forallb (fun step => forallb (set_has stepIds) (PlanStep.dependencies step))
              (TaskPlan.steps data)).

(** [validateTaskPlan] parses with the schema: it returns the plan or throws. *)
Definition validateTaskPlan (data : TaskPlan.t) : result TaskPlan.t :=
  if taskPlanSchema data then Ok data else Throw "ZodError".

(* ------------------------------------------------------------------ *)
(** * [tools/validate-plan-helpers.ts]                                  *)
(* ------------------------------------------------------------------ *)

Definition getExpectedLevelForStepKind (kind : StepKind) (phaseLevel : PlanLevel)
  : PlanLevel :=
  match kind with
  | ClarifyGoal => Abstract
  | GatherContext | ScanCode | DesignSolution => Planning
  | EditCode | RunTests => Execution
  | Refine => phaseLevel
  end.

Definition mergeSteps (steps : list PlanStep.t) : result PlanStep.t :=
  match steps with
  | [] => Throw "Cannot merge empty array of steps"
  | [only] => Ok only
  | baseStep :: rest =>
      let summaries :=
        filter (fun s => 0 <? String.length s) (map PlanStep.summary steps) in
      let mergedSummary := join "; " summaries in
      let allTools := flat_map PlanStep.suggestedTools steps in
      let uniqueTools := set_of_list allTools in
      let allDeps := flat_map PlanStep.dependencies steps in
      let uniqueDeps := set_of_list allDeps in
      let minOrder :=
        fold_left Z.min (map PlanStep.order rest) (PlanStep.order baseStep) in
      Ok (PlanStep.mk
            (PlanStep.id baseStep)
            (PlanStep.phaseId baseStep)
            (PlanStep.level baseStep)
            minOrder
            (PlanStep.kind baseStep)
            (PlanStep.title baseStep ++ " (merged " ++ showNat (length steps)
               ++ " steps)")%string
            mergedSummary
            (PlanStep.scopeId baseStep)
            uniqueDeps
            uniqueTools
            (PlanStep.status baseStep))
  end.

Definition createPlanStats (planBefore planAfter : TaskPlan.t)
           (chunksCreated : nat) (stepsMerged : Z)
           (levelsCorrected scopesReassigned : nat) : PlanStats :=
  mkStats (length (TaskPlan.phases planBefore))
          (length (TaskPlan.phases planAfter))
          (length (TaskPlan.steps planBefore))
          (length (TaskPlan.steps planAfter))
          chunksCreated stepsMerged levelsCorrected scopesReassigned.

(* ------------------------------------------------------------------ *)
(** * [tools/plan-task.ts]: the compact tabular rendering               *)
(* ------------------------------------------------------------------ *)

Definition toToonFriendly (plan : TaskPlan.t) : string :=
  let header :=
    [("Goal: " ++ TaskPlan.goal plan)%string;
     ("TaskKind: " ++ TaskKind_value (TaskPlan.taskKind plan))%string]
    ++ match TaskPlan.contextSummary plan with
       | Some (String c rest) => [("Context: " ++ String c rest)%string]
       | _ => []
       end
    ++ [EmptyString] in
  let phaseLines :=
    ["Phases:"; "ID|Name|Level|Order|Summary"; "---|----|-----|-----|------"]
    ++ map (fun phase =>
              (PlanPhase.id phase ++ "|" ++ PlanPhase.name phase ++ "|"
               ++ showZ (PlanLevel_value (PlanPhase.level phase)) ++ "|"
               ++ showZ (PlanPhase.order phase) ++ "|"
               ++ strOr (PlanPhase.summary phase) EmptyString)%string)
           (TaskPlan.phases plan)
    ++ [EmptyString] in
  let scopeLines :=
    ["Scopes:"; "ID|Kind|Label|Selector"; "---|----|-----|--------"]
    ++ map (fun scope =>
              (PlanScope.id scope ++ "|"
               ++ ScopeKind_value (PlanScope.kind scope) ++ "|"
               ++ PlanScope.label scope ++ "|"
               ++ PlanScope.selector scope)%string)
           (TaskPlan.scopes plan)
    ++ [EmptyString] in
  let stepLines :=
    ["Steps:"; "ID|Phase|Level|Order|Kind|Title|Dependencies";
     "---|-----|-----|-----|----|-----|------------"]
    ++ map (fun step =>
              let deps := join "," (PlanStep.dependencies step) in
              (PlanStep.id step ++ "|" ++ PlanStep.phaseId step ++ "|"
               ++ showZ (PlanLevel_value (PlanStep.level step)) ++ "|"
               ++ showZ (PlanStep.order step) ++ "|"
               ++ StepKind_value (PlanStep.kind step) ++ "|"
               ++ PlanStep.title step ++ "|" ++ deps)%string)
           (TaskPlan.steps plan) in
  join (String (ascii_of_nat 10) EmptyString)
       (header ++ phaseLines ++ scopeLines ++ stepLines).

(* ------------------------------------------------------------------ *)
(** * [tools/validate-plan.ts]: the plan compressor                     *)
(* ------------------------------------------------------------------ *)

(** What every pipeline stage returns: [{ plan, changes }]. *)
Module Stage.
Record t : Type := mk {
plan : TaskPlan.t;
changes : list PlanChange.t
}.
End Stage.

(** ** Level validation *)

(** The callback of [plan.steps.map] in [validatePlanLevels], together with
    the change entries it pushes. *)
Definition correctStepLevel (phases : list PlanPhase.t) (step : PlanStep.t)
  : PlanStep.t * list PlanChange.t :=
  match find (fun p => String.eqb (PlanPhase.id p) (PlanStep.phaseId step))
             phases with
  | None => (step, [])
  | Some phase =>
      let expectedLevel :=
        getExpectedLevelForStepKind (PlanStep.kind step) (PlanPhase.level phase) in
      if negb (PlanLevel_eqb (PlanStep.level step) expectedLevel) then
        (PlanStep.with_level step expectedLevel,
         [PlanChange.mk "level_corrected"
            ("Changed step " ++ dquote ++ PlanStep.title step ++ dquote
             ++ " level from " ++ showZ (PlanLevel_value (PlanStep.level step))
             ++ " to " ++ showZ (PlanLevel_value expectedLevel))%string
            (Some (PlanStep.id step))])
      else (step, [])
  end.

Definition validatePlanLevels (plan : TaskPlan.t) : Stage.t :=
  let results := map (correctStepLevel (TaskPlan.phases plan)) (TaskPlan.steps plan) in
  let updatedSteps := map fst results in
  let changes := flat_map snd results in
  Stage.mk (TaskPlan.with_steps plan updatedSteps) changes.

(** ** Scope validation *)

(** The callback of [plan.steps.map] in [validatePlanScopes]. *)
Definition repairStepScope (validScopeIds : StringSet) (globalScopeId : string)
           (step : PlanStep.t) : PlanStep.t * list PlanChange.t :=
  match PlanStep.scopeId step with
  | None => (step, [])
  | Some sc =>
      if negb (set_has validScopeIds sc) then
        (PlanStep.with_scopeId step (Some globalScopeId),
         [PlanChange.mk "scope_reassigned"
            ("Reassigned step " ++ dquote ++ PlanStep.title step ++ dquote
             ++ " from invalid scope to global scope")%string
            (Some (PlanStep.id step))])
      else (step, [])
  end.

(** The global scope the steps are repaired against: the scopes after the
    "find or create" step, the id of the global scope, and the change
    recorded.  [now] is the value read from [Date.now()]. *)
Definition ensureGlobalScope (now : Z) (scopes : list PlanScope.t)
  : list PlanScope.t * string * list PlanChange.t :=
  match find (fun s => isGlobal (PlanScope.kind s)) scopes with
  | None =>
      let globalScopeId := ("scope-global-" ++ showZ now)%string in
      (scopes
         ++ [PlanScope.mk globalScopeId Global "Workspace" "workspace root"
               (Some "Entire workspace (auto-created)")],
       globalScopeId,
       [PlanChange.mk "scope_created" "Created missing global scope"
          (Some globalScopeId)])
  | Some existingGlobalScope =>
      (scopes, PlanScope.id existingGlobalScope, [])
  end.

Definition validatePlanScopes (now : Z) (plan : TaskPlan.t) : Stage.t :=
  let ensured := ensureGlobalScope now (TaskPlan.scopes plan) in
  let updatedScopes := fst (fst ensured) in
  let globalScopeId := snd (fst ensured) in
  let validScopeIds := set_of_list (map PlanScope.id updatedScopes) in
  let results :=
    map (repairStepScope validScopeIds globalScopeId) (TaskPlan.steps plan) in
  Stage.mk (TaskPlan.with_scopes_steps plan updatedScopes (map fst results))
           (snd ensured ++ flat_map snd results).

(** ** Dynamic chunking of execution-level steps *)

Definition groupKey (step : PlanStep.t) : string :=
  let scopeKey := strOr (PlanStep.scopeId step) "null" in
  (PlanStep.phaseId step ++ "|" ++ scopeKey ++ "|"
   ++ StepKind_value (PlanStep.kind step))%string.

Definition buildGroups (steps : list PlanStep.t)
  : list (string * list PlanStep.t) :=
  fold_left
    (fun groups step =>
       if PlanLevel_eqb (PlanStep.level step) Execution
       then pushToGroup groups (groupKey step) step
       else groups)
    steps [].

(** The accumulators of the merge loop. *)
Module MergeState.
Record t : Type := mk {
mergedSteps : list PlanStep.t;
processedStepIds : StringSet;
stepsToRemove : StringSet;
changes : list PlanChange.t
}.
Definition empty : t := mk [] [] [] [].
End MergeState.

(** A group within the limit: its steps are pushed unless already processed. *)
Definition keepGroup (st : MergeState.t) (groupSteps : list PlanStep.t)
  : MergeState.t :=
  fold_left
    (fun st step =>
       if negb (set_has (MergeState.processedStepIds st) (PlanStep.id step))
       then MergeState.mk (MergeState.mergedSteps st ++ [step])
                          (set_add (MergeState.processedStepIds st)
                                   (PlanStep.id step))
                          (MergeState.stepsToRemove st)
                          (MergeState.changes st)
       else st)
    groupSteps st.

(** A group over the limit: it is replaced by one merged step. *)
Definition mergeGroup (st : MergeState.t) (groupSteps : list PlanStep.t)
  : result MergeState.t :=
  mergedStep <- mergeSteps groupSteps ;;
  let pushed :=
    MergeState.mk (MergeState.mergedSteps st ++ [mergedStep])
                  (MergeState.processedStepIds st)
                  (MergeState.stepsToRemove st)
                  (MergeState.changes st) in
  let marked :=
    fold_left
      (fun st step =>
         MergeState.mk (MergeState.mergedSteps st)
                       (set_add (MergeState.processedStepIds st)
                                (PlanStep.id step))
                       (if negb (String.eqb (PlanStep.id step)
                                            (PlanStep.id mergedStep))
                        then set_add (MergeState.stepsToRemove st)
                                     (PlanStep.id step)
                        else MergeState.stepsToRemove st)
                       (MergeState.changes st))
      groupSteps pushed in
  Ok (MergeState.mk
        (MergeState.mergedSteps marked)
        (MergeState.processedStepIds marked)
        (MergeState.stepsToRemove marked)
        (MergeState.changes marked
           ++ [PlanChange.mk "steps_merged"
                 ("Merged " ++ showNat (length groupSteps)
                  ++ " steps into chunk: " ++ PlanStep.title mergedStep)%string
                 (Some (PlanStep.id mergedStep))])).

Definition processGroup (limit : JsNumber) (acc : result MergeState.t)
           (group : string * list PlanStep.t) : result MergeState.t :=
  st <- acc ;;
  let groupSteps := snd group in
  if fits (length groupSteps) limit then Ok (keepGroup st groupSteps)
  else mergeGroup st groupSteps.

(** The [oldId -> mergedId] redirection map. *)
Definition redirectGroup (limit : JsNumber) (mergedSteps : list PlanStep.t)
           (mergedStepIds : list (string * string))
           (group : string * list PlanStep.t) : list (string * string) :=
  let groupSteps := snd group in
  match groupSteps with
  | [] => mergedStepIds
  | first :: _ =>
      if exceeds (length groupSteps) limit then
        match find (fun s => String.eqb (PlanStep.id s) (PlanStep.id first))
                   mergedSteps with
        | Some mergedStep =>
            fold_left
              (fun m oldStep =>
                 if negb (String.eqb (PlanStep.id oldStep)
                                     (PlanStep.id mergedStep))
                 then map_set m (PlanStep.id oldStep) (PlanStep.id mergedStep)
                 else m)
              groupSteps mergedStepIds
        | None => mergedStepIds
        end
      else mergedStepIds
  end.

(** The callback that rewrites one step's dependencies. *)
Definition rewriteDependencies (mergedStepIds : list (string * string))
           (step : PlanStep.t) : PlanStep.t :=
  let updatedDeps :=
    map (fun depId => strOr (map_get mergedStepIds depId) depId)
        (PlanStep.dependencies step) in
  let uniqueDeps :=
    filter (fun id => negb (String.eqb id (PlanStep.id step)))
           (set_of_list updatedDeps) in
  PlanStep.with_dependencies step uniqueDeps.

Definition applyDynamicChunking (plan : TaskPlan.t)
           (maxMicroStepsPerPhase : option JsNumber) : result Stage.t :=
  match truthy maxMicroStepsPerPhase with
  | None => Ok (Stage.mk plan [])
  | Some limit =>
      let groups := buildGroups (TaskPlan.steps plan) in
      st <- fold_left (processGroup limit) groups (Ok MergeState.empty) ;;
      let mergedSteps :=
        MergeState.mergedSteps st
        ++ filter (fun step =>
                     negb (set_has (MergeState.processedStepIds st)
                                   (PlanStep.id step)))
                  (TaskPlan.steps plan) in
      let mergedStepIds :=
        fold_left (redirectGroup limit mergedSteps) groups [] in
      let finalSteps := map (rewriteDependencies mergedStepIds) mergedSteps in
      let finalStepsFiltered :=
        filter (fun step =>
                  negb (set_has (MergeState.stepsToRemove st) (PlanStep.id step)))
               finalSteps in
      Ok (Stage.mk (TaskPlan.with_steps plan finalStepsFiltered)
                   (MergeState.changes st))
  end.

(** ** Global limits *)

(** [step.dependencies = step.dependencies.filter(d => !removed.has(d))].
    The source assigns in place; this is the value the step holds afterwards
    (the effect on objects shared with the caller is modelled in the
    [Heap] module below). *)
Definition stripDependencies (removedStepIds : StringSet) (step : PlanStep.t)
  : PlanStep.t :=
  PlanStep.with_dependencies step
    (filter (fun depId => negb (set_has removedStepIds depId))
            (PlanStep.dependencies step)).

(** The body of [stepsByPhase.forEach]: accumulates [finalSteps] and
    [totalRemoved]. *)
Definition limitPhaseSteps (targetMaxSteps : JsNumber)
           (acc : list PlanStep.t * nat)
           (entry : string * list PlanStep.t) : list PlanStep.t * nat :=
  let finalSteps := fst acc in
  let totalRemoved := snd acc in
  let phaseSteps := snd entry in
  if exceeds (length phaseSteps) targetMaxSteps then
    let sortedSteps := sortBy PlanStep.order phaseSteps in
    let keptSteps := sliceTo sortedSteps targetMaxSteps in
    let removedSteps := sliceFrom sortedSteps targetMaxSteps in
    let removedStepIds := set_of_list (map PlanStep.id removedSteps) in
    (finalSteps ++ map (stripDependencies removedStepIds) keptSteps,
     totalRemoved + length removedSteps)
  else (finalSteps ++ phaseSteps, totalRemoved).

Definition groupByPhase (steps : list PlanStep.t)
  : list (string * list PlanStep.t) :=
  groupBy PlanStep.phaseId steps.

(** The phase limit: the phases and steps kept, and the change recorded. *)
Definition applyPhaseLimit (plan : TaskPlan.t)
           (targetMaxPhases : option JsNumber)
  : list PlanPhase.t * list PlanStep.t * list PlanChange.t :=
  match truthy targetMaxPhases with
  | Some maxPhases =>
      if exceeds (length (TaskPlan.phases plan)) maxPhases then
        let updatedPhases := sliceTo (TaskPlan.phases plan) maxPhases in
        let keptPhaseIds := set_of_list (map PlanPhase.id updatedPhases) in
        (updatedPhases,
         filter (fun step => set_has keptPhaseIds (PlanStep.phaseId step))
                (TaskPlan.steps plan),
         [PlanChange.mk "phases_truncated"
            ("Truncated plan from " ++ showNat (length (TaskPlan.phases plan))
             ++ " to " ++ showNumber maxPhases ++ " phases")%string
            None])
      else (TaskPlan.phases plan, TaskPlan.steps plan, [])
  | None => (TaskPlan.phases plan, TaskPlan.steps plan, [])
  end.

(** The step limit per phase: [finalSteps] and [totalRemoved]. *)
Definition applyStepLimit (maxSteps : JsNumber)
           (updatedSteps : list PlanStep.t) : list PlanStep.t * nat :=
  let stepsByPhase := groupByPhase updatedSteps in
  let limited := fold_left (limitPhaseSteps maxSteps) stepsByPhase ([], 0) in
  (* Ensure at least one step remains *)
  match fst limited, updatedSteps with
  | [], first :: _ => (fst limited ++ [first], length updatedSteps - 1)
  | _, _ => limited
  end.

Definition applyGlobalLimits (plan : TaskPlan.t)
           (targetMaxPhases targetMaxSteps : option JsNumber) : Stage.t :=
  (* Apply phase limit *)
  let phaseLimited := applyPhaseLimit plan targetMaxPhases in
  let updatedPhases := fst (fst phaseLimited) in
  let updatedSteps := snd (fst phaseLimited) in
  let changes := snd phaseLimited in
  (* Apply step limit per phase *)
  match truthy targetMaxSteps with
  | Some maxSteps =>
      let stepLimited := applyStepLimit maxSteps updatedSteps in
      let finalSteps := fst stepLimited in
      let totalRemoved := snd stepLimited in
      let changes :=
        if 0 <? totalRemoved then
          changes
          ++ [PlanChange.mk "steps_truncated"
                ("Truncated " ++ showNat totalRemoved
                 ++ " steps to respect maxSteps per phase limit")%string
                None]
        else changes in
      Stage.mk (TaskPlan.with_phases_steps plan updatedPhases finalSteps) changes
  | None =>
      Stage.mk (TaskPlan.with_phases_steps plan updatedPhases updatedSteps) changes
  end.

(** ** The orchestrator *)

(** [description.match(/Merged (\d+) steps/)] followed by [parseInt]: the
    leftmost occurrence of "Merged ", a maximal run of digits and " steps". *)
Definition isDigit (c : ascii) : bool :=
  let n := nat_of_ascii c in (48 <=? n) && (n <=? 57).

Fixpoint takeDigits (s : string) : string * string :=
  match s with
  | String c rest =>
      if isDigit c then
        let '(ds, tail) := takeDigits rest in (String c ds, tail)
      else (EmptyString, s)
  | EmptyString => (EmptyString, EmptyString)
  end.

Fixpoint parseInt10 (acc : Z) (digits : string) : Z :=
  match digits with
  | String c rest =>
      parseInt10 (10 * acc + Z.of_nat (nat_of_ascii c - 48))%Z rest
  | EmptyString => acc
  end.

Definition matchMergedAt (s : string) : option Z :=
  if String.prefix "Merged " s then
    let '(ds, tail) := takeDigits (substring 7 (String.length s - 7) s) in
    match ds with
    | EmptyString => None
    | _ => if String.prefix " steps" tail then Some (parseInt10 0 ds) else None
    end
  else None.

Fixpoint matchMerged (s : string) : option Z :=
  match matchMergedAt s with
  | Some n => Some n
  | None =>
      match s with
      | String _ rest => matchMerged rest
      | EmptyString => None
      end
  end.

Definition hasType (ty : string) (c : PlanChange.t) : bool :=
  String.eqb (PlanChange.type c) ty.

(** Step 5 of [validatePlan]: when truncation left no step, the first step
    of the plan as it was passed in is put back (moved to the first remaining
    phase when its own phase is gone). *)
Definition preserveFirstStep (planBefore currentPlan : TaskPlan.t)
  : TaskPlan.t * list PlanWarning.t :=
  match TaskPlan.steps currentPlan, TaskPlan.steps planBefore with
  | [], firstStep :: _ =>
      let firstPhase :=
        find (fun p => String.eqb (PlanPhase.id p) (PlanStep.phaseId firstStep))
             (TaskPlan.phases currentPlan) in
      let warning :=
        [PlanWarning.mk "steps_preserved"
           "Preserved at least one step to meet validation requirements"
           (Some (PlanStep.id firstStep))] in
      match firstPhase, TaskPlan.phases currentPlan with
      | None, [] => (currentPlan, [])
      | None, phase0 :: _ =>
          (TaskPlan.with_steps currentPlan
             [PlanStep.with_phaseId firstStep (PlanPhase.id phase0)],
           warning)
      | Some _, _ => (TaskPlan.with_steps currentPlan [firstStep], warning)
      end
  | _, _ => (currentPlan, [])
  end.

(** Step 6 of [validatePlan]: the final schema validation. *)
Definition finalValidation (currentPlan : TaskPlan.t)
  : TaskPlan.t * list PlanWarning.t :=
  match validateTaskPlan currentPlan with
  | Ok validated => (validated, [])
  | Throw message =>
      (currentPlan,
       [PlanWarning.mk "validation_error"
          ("Plan validation failed: " ++ message)%string None])
  | OutOfFuel => (currentPlan, [])
  end.

Definition computeStats (planBefore currentPlan : TaskPlan.t)
           (allChanges : list PlanChange.t) : PlanStats :=
  let merges := filter (hasType "steps_merged") allChanges in
  let chunksCreated := length merges in
  let stepsMerged :=
    fold_left
      (fun sum c =>
         (sum + match matchMerged (PlanChange.description c) with
                | Some n => n - 1
                | None => 0
                end)%Z)
      merges 0%Z in
  let levelsCorrected := length (filter (hasType "level_corrected") allChanges) in
  let scopesReassigned := length (filter (hasType "scope_reassigned") allChanges) in
  createPlanStats planBefore currentPlan chunksCreated stepsMerged
                  levelsCorrected scopesReassigned.

(** [now] is the value [Date.now()] returns during scope validation. *)
Definition validatePlan (now : Z) (plan : TaskPlan.t)
           (options : ValidatePlanOptions) : result ValidatePlanResult.t :=
  let planBefore := plan in
  (* Step 1: validate levels *)
  let levelResult := validatePlanLevels plan in
  (* Step 2: validate scopes *)
  let scopeResult := validatePlanScopes now (Stage.plan levelResult) in
  (* Step 3: apply dynamic chunking *)
  chunkingResult <-
    applyDynamicChunking (Stage.plan scopeResult)
                         (maxMicroStepsPerPhase options) ;;
  (* Step 4: apply global limits *)
  let limitsResult :=
    applyGlobalLimits (Stage.plan chunkingResult)
                      (targetMaxPhases options) (targetMaxSteps options) in
  let allChanges :=
    Stage.changes levelResult ++ Stage.changes scopeResult
    ++ Stage.changes chunkingResult ++ Stage.changes limitsResult in
  (* Step 5: ensure at least one step remains *)
  let preserved := preserveFirstStep planBefore (Stage.plan limitsResult) in
  (* Step 6: final validation *)
  let validated := finalValidation (fst preserved) in
  let currentPlan := fst validated in
  let allWarnings := snd preserved ++ snd validated in
  Ok (ValidatePlanResult.mk currentPlan allWarnings allChanges
        (computeStats planBefore currentPlan allChanges)
        (toToonFriendly currentPlan)).

(* ------------------------------------------------------------------ *)
(** * Code chunks ([types/index.ts])                                    *)
(* ------------------------------------------------------------------ *)

Inductive ChunkType : Type := Symbol | SubSymbol | FileRange | Summary.

Definition isSummary (t : ChunkType) : bool :=
  match t with Summary => true | _ => false end.

Module BlockInfo.
Record t : Type := mk {
type : string;
startLine : Z;
endLine : Z;
depth : Z
}.
End BlockInfo.

Module ChunkMetadata.
Record t : Type := mk {
type : ChunkType;
lineCount : Z;
estimatedTokens : option Z;
summary : option string;
symbolName : option string;
symbolKind : option string;
parentSymbolName : option string;
mergedFrom : option (list string)
}.
End ChunkMetadata.

Module CodeChunk.
Record t : Type := mk {
id : string;
filePath : string;
startLine : Z;
endLine : Z;
type : ChunkType;
metadata : ChunkMetadata.t;
content : option string;
blocks : option (list BlockInfo.t)
}.

Definition with_id (c : t) (i : string) : t :=
mk i (filePath c) (startLine c) (endLine c) (type c) (metadata c)
 (content c) (blocks c).
End CodeChunk.

(** The caller's options: every field is optional. *)
Module ChunkingOptions.
Record t : Type := mk {
maxChunksPerStep : option nat;
maxLinesPerChunk : option Z;
maxTokensPerChunk : option Z;
includeContent : option bool;
applyDechunking : option bool
}.
End ChunkingOptions.

(** The options after the defaults were filled in. *)
Module MergedOptions.
Record t : Type := mk {
maxChunksPerStep : nat;
maxLinesPerChunk : Z;
maxTokensPerChunk : option Z;
includeContent : bool;
applyDechunking : bool
}.
End MergedOptions.

(** The fields of a scope resolution that the chunk builder reads. *)
Module ScopeResolution.
Record t : Type := mk {
resolutionType : string;
symbolName : option string;
pathPattern : option string
}.
End ScopeResolution.

Module ChunkingStats.
Record t : Type := mk {
totalChunks : nat;
chunksMerged : Z;
totalLines : Z;
estimatedTokens : Z
}.
End ChunkingStats.

Module ChunkingResult.
Record t : Type := mk {
chunks : list CodeChunk.t;
stats : ChunkingStats.t;
warnings : list string
}.
End ChunkingResult.

(* ------------------------------------------------------------------ *)
(** * [tools/chunking-helpers.ts]                                       *)
(* ------------------------------------------------------------------ *)

(** ** String primitives used by the boundary detector *)

(** [\w] *)
Definition isWordChar (c : ascii) : bool :=
  let n := nat_of_ascii c in
  ((48 <=? n) && (n <=? 57)) || ((65 <=? n) && (n <=? 90))
  || ((97 <=? n) && (n <=? 122)) || (n =? 95).

(** [\s], and the characters removed by [trim] *)
Definition isWhiteSpace (c : ascii) : bool :=
  let n := nat_of_ascii c in
  ((9 <=? n) && (n <=? 13)) || (n =? 32) || (n =? 160).

Fixpoint dropWhiteSpace (s : string) : string :=
  match s with
  | String c rest => if isWhiteSpace c then dropWhiteSpace rest else s
  | EmptyString => EmptyString
  end.

Fixpoint dropPrefix (p s : string) : option string :=
  match p, s with
  | EmptyString, _ => Some s
  | String a p', String b s' => if Ascii.eqb a b then dropPrefix p' s' else None
  | String _ _, EmptyString => None
  end.

Definition startsWith (s p : string) : bool :=
  match dropPrefix p s with Some _ => true | None => false end.

Fixpoint includes (s sub : string) : bool :=
  startsWith s sub
  || match s with
     | String _ rest => includes rest sub
     | EmptyString => false
     end.

Fixpoint reverseOnto (s acc : string) : string :=
  match s with
  | String c rest => reverseOnto rest (String c acc)
  | EmptyString => acc
  end.

Definition trim (s : string) : string :=
  let trimmedStart := dropWhiteSpace s in
  reverseOnto (dropWhiteSpace (reverseOnto trimmedStart EmptyString)) EmptyString.

(** [code.split("\n")] *)
Fixpoint splitLinesFrom (current : string) (s : string) : list string :=
  match s with
  | String c rest =>
      if Ascii.eqb c (ascii_of_nat 10)
      then reverseOnto current EmptyString :: splitLinesFrom EmptyString rest
      else splitLinesFrom (String c current) rest
  | EmptyString => [reverseOnto current EmptyString]
  end.

Definition splitLines (code : string) : list string :=
  splitLinesFrom EmptyString code.

(** [(line.match(/c/g) || []).length] for a single character [c] *)
Fixpoint countChar (c : ascii) (s : string) : Z :=
  match s with
  | String d rest => ((if Ascii.eqb c d then 1 else 0) + countChar c rest)%Z
  | EmptyString => 0%Z
  end.

(** [/\bKEYWORD\s*D/.test(line)] where [D] is an escaped delimiter: the
    keyword starts at a word boundary and is followed by white space and
    the delimiter. *)
Definition keywordHere (keyword : string) (delim : ascii) (s : string) : bool :=
  match dropPrefix keyword s with
  | Some rest =>
      match dropWhiteSpace rest with
      | String d _ => Ascii.eqb d delim
      | EmptyString => false
      end
  | None => false
  end.

Fixpoint keywordFrom (keyword : string) (delim : ascii) (afterWordChar : bool)
         (s : string) : bool :=
  (negb afterWordChar && keywordHere keyword delim s)
  || match s with
     | String c rest => keywordFrom keyword delim (isWordChar c) rest
     | EmptyString => false
     end.

Definition testKeyword (keyword : string) (delim : ascii) (line : string) : bool :=
  keywordFrom keyword delim false line.

Definition openParen : ascii := ascii_of_nat 40.
Definition openBrace : ascii := ascii_of_nat 123.
Definition closeBrace : ascii := ascii_of_nat 125.

(** [blockPatterns], in the order in which they are tried. *)
Definition blockPatterns : list (string * ascii * string) :=
  [("if", openParen, "if");
   ("for", openParen, "for");
   ("while", openParen, "while");
   ("switch", openParen, "switch");
   ("try", openBrace, "try");
   ("catch", openParen, "catch");
   ("else", openBrace, "else")].

Definition blockStart (line : string) : option string :=
  match find (fun p => testKeyword (fst (fst p)) (snd (fst p)) line)
             blockPatterns with
  | Some p => Some (snd p)
  | None => None
  end.

(** ** The boundary detector *)

(** An entry of the nesting stack; the head of the list is its top. *)
Module Frame.
Record t : Type := mk {
type : string;
startLine : Z;
depth : Z
}.
End Frame.

Fixpoint detectBlocksFrom (lines : list string) (lineNum : Z)
         (stack : list Frame.t) (currentDepth : Z) (blocks : list BlockInfo.t)
  : list BlockInfo.t :=
  match lines with
  | [] => blocks
  | line :: rest =>
      (* check for block starts *)
      let '(stack, currentDepth) :=
        match blockStart line with
        | Some type =>
            (Frame.mk type lineNum currentDepth :: stack, (currentDepth + 1)%Z)
        | None => (stack, currentDepth)
        end in
      (* check for block end *)
      let netBraces := (countChar openBrace line - countChar closeBrace line)%Z in
      if (netBraces <? 0)%Z then
        match stack with
        | block :: stack' =>
            detectBlocksFrom rest (lineNum + 1)%Z stack'
              (Z.max 0 (currentDepth - 1))
              (blocks ++ [BlockInfo.mk (Frame.type block) (Frame.startLine block)
                                       lineNum (Frame.depth block)])
        | [] => detectBlocksFrom rest (lineNum + 1)%Z stack currentDepth blocks
        end
      else detectBlocksFrom rest (lineNum + 1)%Z stack currentDepth blocks
  end.

Definition detectLogicalBlocks (code : string) (startLine : Z)
  : list BlockInfo.t :=
  detectBlocksFrom (splitLines code) startLine [] 0%Z [].

Fixpoint commentBoundariesFrom (lines : list string) (lineNum : Z) : list Z :=
  match lines with
  | [] => []
  | rawLine :: rest =>
      let line := trim rawLine in
      (if startsWith line "//" || startsWith line "#" then [lineNum] else [])
      ++ (if includes line "/*" then [lineNum] else [])
      ++ (if includes line "*/" then [lineNum] else [])
      ++ commentBoundariesFrom rest (lineNum + 1)%Z
  end.

Definition findCommentBoundaries (code : string) (startLine : Z) : list Z :=
  commentBoundariesFrom (splitLines code) startLine.

(** ** The token estimator: [Math.ceil(code.length / 4)] *)
Definition estimateTokenCount (code : string) : Z :=
  Z.of_nat ((String.length code + 3) / 4).

(** ** Chunk ids *)

(** One reading of the clock and of the random source:
    [Date.now()] and [Math.random().toString(36).substring(2, 8)]. *)
Record IdSource : Type := mkIdSource {
  timestamp : Z;
  random : string
}.

Definition generateChunkId (src : IdSource) (prefix : string) (index : option nat)
  : string :=
  let indexPart :=
    match index with
    | Some i => ("-" ++ showNat i)%string
    | None => EmptyString
    end in
  (prefix ++ "-" ++ showZ (timestamp src) ++ "-" ++ random src ++ indexPart)%string.

(** ** Summaries of merged chunks *)

Definition describeChunk (chunk : CodeChunk.t) : string :=
  let lineCount := (CodeChunk.endLine chunk - CodeChunk.startLine chunk + 1)%Z in
  let range :=
    ("lines " ++ showZ (CodeChunk.startLine chunk) ++ "-"
     ++ showZ (CodeChunk.endLine chunk))%string in
  let named (what : string) :=
    (what ++ " (" ++ range ++ ", " ++ showZ lineCount ++ " lines)")%string in
  match ChunkMetadata.symbolName (CodeChunk.metadata chunk) with
  | Some (String c rest) => named (String c rest)
  | _ =>
      match ChunkMetadata.summary (CodeChunk.metadata chunk) with
      | Some (String c rest) => named (String c rest)
      | _ => (range ++ " (" ++ showZ lineCount ++ " lines)")%string
      end
  end.

Definition groupByFile (chunks : list CodeChunk.t)
  : list (string * list CodeChunk.t) :=
  groupBy CodeChunk.filePath chunks.

Definition generateChunkSummary (chunks : list CodeChunk.t) : string :=
  let byFile := groupByFile chunks in
  let summaries :=
    map (fun entry =>
           (fst entry ++ ": " ++ join ", " (map describeChunk (snd entry)))%string)
        byFile in
  ("Merged chunks: " ++ join "; " summaries)%string.

(* ------------------------------------------------------------------ *)
(** * [tools/code-chunking.ts]                                          *)
(* ------------------------------------------------------------------ *)

Definition DEFAULT_OPTIONS : MergedOptions.t :=
  MergedOptions.mk 5 100%Z None true true.

Definition orDefault {A : Type} (o : option A) (d : A) : A :=
  match o with Some v => v | None => d end.

Definition mergeOptions (options : option ChunkingOptions.t) : MergedOptions.t :=
  match options with
  | None => DEFAULT_OPTIONS
  | Some o =>
      MergedOptions.mk
        (orDefault (ChunkingOptions.maxChunksPerStep o)
                   (MergedOptions.maxChunksPerStep DEFAULT_OPTIONS))
        (orDefault (ChunkingOptions.maxLinesPerChunk o)
                   (MergedOptions.maxLinesPerChunk DEFAULT_OPTIONS))
        (ChunkingOptions.maxTokensPerChunk o)
        (orDefault (ChunkingOptions.includeContent o)
                   (MergedOptions.includeContent DEFAULT_OPTIONS))
        (orDefault (ChunkingOptions.applyDechunking o)
                   (MergedOptions.applyDechunking DEFAULT_OPTIONS))
  end.

Definition createSymbolChunk (src : IdSource) (filePath symbolName symbolKind : string)
           (startLine endLine : Z) (content : option string)
           (includeContent : bool) : CodeChunk.t :=
  let lineCount := (endLine - startLine + 1)%Z in
  let codeContent := strOr content EmptyString in
  let estimatedTokens := estimateTokenCount codeContent in
  CodeChunk.mk
    (generateChunkId src "symbol" None) filePath startLine endLine Symbol
    (ChunkMetadata.mk Symbol lineCount (Some estimatedTokens)
       (Some (symbolKind ++ " " ++ symbolName ++ " (" ++ showZ lineCount
              ++ " lines)")%string)
       (Some symbolName) (Some symbolKind) None None)
    (if includeContent then Some codeContent else None)
    None.

(** ** File-range chunking *)

(** [Number.MAX_SAFE_INTEGER], 2^53 - 1. *)
Definition MAX_SAFE_INTEGER : Z := 9007199254740991.

(** The double nearest to the integer [z].  An integer of magnitude up to
    2^53 is a double.  A larger one lies between two neighbouring multiples
    of [ulp], the power of two that leaves 53 significant bits; it is
    rounded to the nearer, and halfway to the one whose multiplier is even.
    (Magnitudes from 2^1024, where doubles become infinite, are outside this
    model.) *)
Definition toDouble (z : Z) : Z :=
  let a := Z.abs z in
  if (a <=? 2 ^ 53)%Z then z
  else
    let ulp := (2 ^ (Z.log2 a - 52))%Z in
    let q := (a / ulp)%Z in
    let r := (a mod ulp)%Z in
    let roundUp := (ulp <? 2 * r)%Z || ((ulp =? 2 * r)%Z && Z.odd q) in
    (Z.sgn z * ((if roundUp then q + 1 else q) * ulp))%Z.

(** [a + b] and [a - b] on doubles that hold integers. *)
Definition plus (a b : Z) : Z := toDouble (a + b).
Definition minus (a b : Z) : Z := toDouble (a - b).

(** The line numbers on which the arithmetic of [chunkByFileRange] is
    exact. *)
Definition lineNumber (z : Z) : Prop := (0 <= z <= MAX_SAFE_INTEGER)%Z.

(** [lineCount] is [endLine - startLine + 1], computed by the caller. *)
Definition fileRangeChunk (id filePath : string) (startLine endLine lineCount : Z)
  : CodeChunk.t :=
  CodeChunk.mk id filePath startLine endLine FileRange
    (ChunkMetadata.mk FileRange lineCount (Some 0%Z)
       (Some ("File range: lines " ++ showZ startLine ++ "-" ++ showZ endLine
              ++ " (" ++ showZ lineCount ++ " lines)")%string)
       None None None None)
    None None.

(** The [while (currentStart <= endLine)] loop of [chunkByFileRange]; [ids k]
    is what the [k]-th call of [generateChunkId] reads. *)
Fixpoint fileWindows (fuel : nat) (ids : nat -> IdSource) (filePath : string)
         (maxLines endLine currentStart : Z) (chunkIndex : nat)
  : result (list CodeChunk.t) :=
  if (currentStart <=? endLine)%Z then
    match fuel with
    | O => OutOfFuel
    | S fuel' =>
        let currentEnd := Z.min (minus (plus currentStart maxLines) 1) endLine in
        let chunkLineCount := plus (minus currentEnd currentStart) 1 in
        let chunk :=
          fileRangeChunk (generateChunkId (ids chunkIndex) "file" (Some chunkIndex))
                         filePath currentStart currentEnd chunkLineCount in
        rest <- fileWindows fuel' ids filePath maxLines endLine
                            (plus currentEnd 1) (S chunkIndex) ;;
        Ok (chunk :: rest)
    end
  else Ok [].

Definition chunkByFileRange (fuel : nat) (ids : nat -> IdSource)
           (filePath : string) (startLine endLine : Z)
           (options : option ChunkingOptions.t) : result (list CodeChunk.t) :=
  let opts := mergeOptions options in
  let lineCount := plus (minus endLine startLine) 1 in
  if (lineCount <=? MergedOptions.maxLinesPerChunk opts)%Z then
    Ok [fileRangeChunk (generateChunkId (ids 0) "file" None)
                       filePath startLine endLine lineCount]
  else
    fileWindows fuel ids filePath (MergedOptions.maxLinesPerChunk opts)
                endLine startLine 0.

(** ** Dechunking *)

(** The accumulators of the merge loop of [applyDechunking]; [idCalls] counts
    the calls of [generateChunkId] made so far. *)
Module Dechunk.
Record t : Type := mk {
mergedChunks : list CodeChunk.t;
warnings : list string;
idCalls : nat
}.
Definition empty : t := mk [] [] 0.
End Dechunk.

(** The Summary chunk that replaces a batch of more than one chunk. *)
Definition summaryChunk (src : IdSource) (filePath : string)
           (chunksToMerge : list CodeChunk.t)
           (firstChunk lastChunk : CodeChunk.t) : CodeChunk.t :=
  let totalLines :=
    (CodeChunk.endLine lastChunk - CodeChunk.startLine firstChunk + 1)%Z in
  let summary := generateChunkSummary chunksToMerge in
  CodeChunk.mk
    (generateChunkId src "merged" None) filePath
    (CodeChunk.startLine firstChunk) (CodeChunk.endLine lastChunk) Summary
    (ChunkMetadata.mk Summary totalLines
       (Some (fold_left
                (fun sum c =>
                   (sum + orDefault (ChunkMetadata.estimatedTokens
                                       (CodeChunk.metadata c)) 0)%Z)
                chunksToMerge 0%Z))
       (Some summary) None None None
       (Some (map CodeChunk.id chunksToMerge)))
    None None.

(** The [while (i < fileChunks.length)] loop over one file's sorted chunks;
    [remaining] is [fileChunks.slice(i)].  Every iteration consumes at least
    one chunk or throws, so [length remaining] iterations always suffice. *)
Fixpoint mergeFileChunks (fuel : nat) (ids : nat -> IdSource) (limit : nat)
         (filePath : string) (remaining : list CodeChunk.t) (st : Dechunk.t)
  : result Dechunk.t :=
  match remaining with
  | [] => Ok st
  | _ :: after =>
      match fuel with
      | O => OutOfFuel
      | S fuel' =>
          (* collect chunks to merge (up to limit) *)
          let chunksToMerge := firstn limit remaining in
          match chunksToMerge with
          | [single] =>
              mergeFileChunks fuel' ids limit filePath after
                (Dechunk.mk (Dechunk.mergedChunks st ++ [single])
                            (Dechunk.warnings st) (Dechunk.idCalls st))
          | [] =>
              Throw "TypeError: Cannot read properties of undefined (reading 'endLine')"
          | firstChunk :: _ =>
              let lastChunk := last chunksToMerge firstChunk in
              let merged :=
                summaryChunk (ids (Dechunk.idCalls st)) filePath chunksToMerge
                             firstChunk lastChunk in
              let warning :=
                ("Merged " ++ showNat (length chunksToMerge)
                 ++ " chunks into summary (lines "
                 ++ showZ (CodeChunk.startLine firstChunk) ++ "-"
                 ++ showZ (CodeChunk.endLine lastChunk) ++ ")")%string in
              mergeFileChunks fuel' ids limit filePath
                (skipn (length chunksToMerge) remaining)
                (Dechunk.mk (Dechunk.mergedChunks st ++ [merged])
                            (Dechunk.warnings st ++ [warning])
                            (S (Dechunk.idCalls st)))
          end
      end
  end.

(** The body of [for (const [filePath, fileChunks] of byFile.entries())]. *)
Definition dechunkFile (ids : nat -> IdSource) (limit : nat)
           (acc : result Dechunk.t) (entry : string * list CodeChunk.t)
  : result Dechunk.t :=
  st <- acc ;;
  let fileChunks := sortBy CodeChunk.startLine (snd entry) in
  mergeFileChunks (length fileChunks) ids limit (fst entry) fileChunks st.

Definition applyDechunking (ids : nat -> IdSource) (chunks : list CodeChunk.t)
           (options : MergedOptions.t)
  : result (list CodeChunk.t * list string) :=
  if length chunks <=? MergedOptions.maxChunksPerStep options then
    Ok (chunks, [])
  else
    let byFile := groupByFile chunks in
    st <- fold_left (dechunkFile ids (MergedOptions.maxChunksPerStep options))
                    byFile (Ok Dechunk.empty) ;;
    Ok (Dechunk.mergedChunks st, Dechunk.warnings st).

(** ** Symbol chunking (placeholder for the index lookup) *)

Definition chunkBySymbol (ids : nat -> IdSource) (scope : ScopeResolution.t)
           (options : option ChunkingOptions.t) : result ChunkingResult.t :=
  let opts := mergeOptions options in
  let '(chunks, warnings) :=
    match ScopeResolution.symbolName scope with
    | Some (String c rest) =>
        ([createSymbolChunk (ids 0) "unknown.ts" (String c rest) "function"
                            1%Z 50%Z None (MergedOptions.includeContent opts)],
         [])
    | _ => ([], ["No symbol information available in scope resolution"])
    end in
  dechunked <-
    (if MergedOptions.applyDechunking opts
        && (MergedOptions.maxChunksPerStep opts <? length chunks)
     then applyDechunking (fun k => ids (length chunks + k)) chunks opts
     else Ok (chunks, [])) ;;
  let finalChunks := fst dechunked in
  let warnings := warnings ++ snd dechunked in
  let totalLines :=
    fold_left (fun sum chunk =>
                 (sum + ChunkMetadata.lineCount (CodeChunk.metadata chunk))%Z)
              finalChunks 0%Z in
  let estimatedTokens :=
    fold_left (fun sum chunk =>
                 (sum + orDefault (ChunkMetadata.estimatedTokens
                                     (CodeChunk.metadata chunk)) 0)%Z)
              finalChunks 0%Z in
  Ok (ChunkingResult.mk finalChunks
        (ChunkingStats.mk (length finalChunks)
           (Z.of_nat (length chunks) - Z.of_nat (length finalChunks))%Z
           totalLines estimatedTokens)
        warnings).

(* ------------------------------------------------------------------ *)
(** * [tools/code-chunking-impl.ts]                                     *)
(* ------------------------------------------------------------------ *)

(** [new Set<number>(...)] followed by [Array.from(...).sort((a, b) => a - b)] *)
Definition zset_add (s : list Z) (x : Z) : list Z :=
  if existsb (Z.eqb x) s then s else s ++ [x].

Definition sortedBoundariesOf (candidates : list Z) : list Z :=
  sortBy (fun z => z) (fold_left zset_add candidates []).

Section ChunkLargeSymbol.
Variable ids : nat -> IdSource.
Variables filePath symbolName symbolKind : string.
Variable startLine : Z.
Variable lines : list string.
Variable blocks : list BlockInfo.t.
Variable maxLines : Z.
Variable withContent : bool.

(** The object pushed for the lines [from .. to] as sub-chunk number
[chunkIndex]. *)
Definition subChunk (from to : Z) (chunkIndex : nat) : CodeChunk.t :=
let lineCount := (to - from + 1)%Z in
let code :=
join (String (ascii_of_nat 10) EmptyString)
 (slice lines (from - startLine) (to - startLine + 1)) in
CodeChunk.mk
(generateChunkId (ids chunkIndex) "sub-symbol" (Some chunkIndex))
filePath from to SubSymbol
(ChunkMetadata.mk SubSymbol lineCount (Some (estimateTokenCount code))
 (Some ("Sub-chunk of " ++ symbolKind ++ " " ++ symbolName ++ ": lines "
++ showZ from ++ "-" ++ showZ to)%string)
 (Some (symbolName ++ " (part " ++ showNat (chunkIndex + 1) ++ ")")%string)
 (Some symbolKind) (Some symbolName) None)
(if withContent then Some code else None)
(Some (filter (fun b => (from <=? BlockInfo.startLine b)%Z
              && (BlockInfo.endLine b <=? to)%Z)
    blocks)).

(** The inner [while (currentStart <= chunkEnd)] loop. *)
Fixpoint symbolWindows (fuel : nat) (chunkEnd currentStart : Z)
 (chunkIndex : nat) : result (list CodeChunk.t) :=
if (currentStart <=? chunkEnd)%Z then
match fuel with
| O => OutOfFuel
| S fuel' =>
let currentEnd := Z.min (currentStart + maxLines - 1) chunkEnd in
rest <- symbolWindows fuel' chunkEnd (currentEnd + 1)%Z (S chunkIndex) ;;
Ok (subChunk currentStart currentEnd chunkIndex :: rest)
end
else Ok [].

(** The [for] loop over consecutive pairs of [sortedBoundaries];
the argument is [sortedBoundaries.slice(i)]. *)
Fixpoint walkBoundaries (fuel : nat) (boundaries : list Z) (chunkIndex : nat)
: result (list CodeChunk.t) :=
match boundaries with
| chunkStart :: ((chunkEnd :: later) as tail) =>
let chunkLineCount := (chunkEnd - chunkStart + 1)%Z in
let beforeLastPair := match later with [] => false | _ => true end in
if (chunkLineCount <? 5)%Z && beforeLastPair then
walkBoundaries fuel tail chunkIndex
else if (maxLines <? chunkLineCount)%Z then
windows <- symbolWindows fuel chunkEnd chunkStart chunkIndex ;;
rest <- walkBoundaries fuel tail (chunkIndex + length windows) ;;
Ok (windows ++ rest)
else
rest <- walkBoundaries fuel tail (S chunkIndex) ;;
Ok (subChunk chunkStart chunkEnd chunkIndex :: rest)
| _ => Ok []
end.
End ChunkLargeSymbol.

Definition DEFAULT_LARGE_SYMBOL_OPTIONS : Z * bool := (100%Z, true).

(** The candidate boundary lines of a symbol, in insertion order. *)
Definition boundaryCandidates (startLine endLine : Z) (blocks : list BlockInfo.t)
           (commentBoundaries : list Z) : list Z :=
  [startLine]
  ++ flat_map (fun b => [BlockInfo.startLine b; BlockInfo.endLine b]) blocks
  ++ commentBoundaries
  ++ [endLine].

(** The [opts] of [chunkLargeSymbol]: the line limit and the content flag. *)
Definition largeSymbolOptions (options : option ChunkingOptions.t) : Z * bool :=
  (match options with
   | Some o => orDefault (ChunkingOptions.maxLinesPerChunk o)
                         (fst DEFAULT_LARGE_SYMBOL_OPTIONS)
   | None => fst DEFAULT_LARGE_SYMBOL_OPTIONS
   end,
   match options with
   | Some o => orDefault (ChunkingOptions.includeContent o)
                         (snd DEFAULT_LARGE_SYMBOL_OPTIONS)
   | None => snd DEFAULT_LARGE_SYMBOL_OPTIONS
   end).

(** [sortedBoundaries]: the symbol's first and last line, the first and last
    line of every detected block, and the comment lines. *)
Definition sortedBoundaries (startLine endLine : Z) (code : string) : list Z :=
  sortedBoundariesOf
    (boundaryCandidates startLine endLine (detectLogicalBlocks code startLine)
                        (findCommentBoundaries code startLine)).

(** [fuel] bounds the number of iterations of each inner [while] loop. *)
Definition chunkLargeSymbol (fuel : nat) (ids : nat -> IdSource)
           (filePath symbolName symbolKind : string) (startLine endLine : Z)
           (code : string) (options : option ChunkingOptions.t)
  : result (list CodeChunk.t) :=
  let opts := largeSymbolOptions options in
  let lines := splitLines code in
  let blocks := detectLogicalBlocks code startLine in
  walkBoundaries ids filePath symbolName symbolKind startLine lines blocks
                 (fst opts) (snd opts) fuel
                 (sortedBoundaries startLine endLine code) 0.

(* ------------------------------------------------------------------ *)
(** * Step objects as shared references                                 *)
(* ------------------------------------------------------------------ *)

(** The functions above give the value of what [validate-plan.ts] returns.
    Two places of the source assign to a field of an existing step object
    ([step.dependencies = ...] in [applyGlobalLimits] and
    [firstStep.phaseId = ...] in [validatePlan]).  To observe what the
    caller's plan holds after a call, the step objects are placed in a store
    and a plan holds references to them. *)
Module Heap.
Record t : Type := mk {
cells : nat -> PlanStep.t;
next : nat
}.

Definition read (h : t) (r : nat) : PlanStep.t := cells h r.

Definition write (h : t) (r : nat) (s : PlanStep.t) : t :=
mk (fun r' => if Nat.eqb r' r then s else cells h r') (next h).

(** A new object: [{ ...step, field }], or an object built by a parser. *)
Definition alloc (h : t) (s : PlanStep.t) : t * nat :=
(mk (fun r' => if Nat.eqb r' (next h) then s else cells h r') (S (next h)),
 next h).

Fixpoint allocAll (h : t) (ss : list PlanStep.t) : t * list nat :=
match ss with
| [] => (h, [])
| s :: rest =>
let first := alloc h s in
let others := allocAll (fst first) rest in
(fst others, snd first :: snd others)
end.

Definition deref (h : t) (refs : list nat) : list PlanStep.t :=
map (read h) refs.
End Heap.

(** A plan object: the [steps] array holds references. *)
Module PlanObj.
Record t : Type := mk {
goal : string;
taskKind : TaskKind;
contextSummary : option string;
phases : list PlanPhase.t;
scopes : list PlanScope.t;
steps : list nat;
metadata : option TaskPlanMetadata
}.

(** The plan value an observer reads through the references. *)
Definition snapshot (h : Heap.t) (p : t) : TaskPlan.t :=
TaskPlan.mk (goal p) (taskKind p) (contextSummary p) (phases p) (scopes p)
(Heap.deref h (steps p)) (metadata p).

(** A plan whose step objects are all distinct, as a parser builds it. *)
Definition load (h : Heap.t) (plan : TaskPlan.t) : Heap.t * t :=
let fresh := Heap.allocAll h (TaskPlan.steps plan) in
(fst fresh,
 mk (TaskPlan.goal plan) (TaskPlan.taskKind plan)
(TaskPlan.contextSummary plan) (TaskPlan.phases plan)
(TaskPlan.scopes plan) (snd fresh) (TaskPlan.metadata plan)).

Definition with_steps (p : t) (refs : list nat) : t :=
mk (goal p) (taskKind p) (contextSummary p) (phases p) (scopes p) refs
 (metadata p).

(** Every step of the plan is an object of the store. *)
Definition allocated (h : Heap.t) (p : t) : bool :=
forallb (fun r => r <? Heap.next h) (steps p).
End PlanObj.

Module Shared.
Definition emptyHeap (default : PlanStep.t) : Heap.t :=
Heap.mk (fun _ => default) 0.

(** [steps.map(callback)] where the callback returns its argument itself
when it records no change and a new object otherwise. *)
Fixpoint mapSteps (callback : PlanStep.t -> PlanStep.t * list PlanChange.t)
 (h : Heap.t) (refs : list nat) : Heap.t * list nat :=
match refs with
| [] => (h, [])
| r :: rest =>
let returned := callback (Heap.read h r) in
let stored :=
match snd returned with
| [] => (h, r)
| _ => Heap.alloc h (fst returned)
end in
let mapped := mapSteps callback (fst stored) rest in
(fst mapped, snd stored :: snd mapped)
end.

Definition validatePlanLevels (h : Heap.t) (plan : PlanObj.t)
: Heap.t * PlanObj.t :=
let mapped :=
mapSteps (correctStepLevel (PlanObj.phases plan)) h (PlanObj.steps plan) in
(fst mapped, PlanObj.with_steps plan (snd mapped)).

Definition validatePlanScopes (now : Z) (h : Heap.t) (plan : PlanObj.t)
: Heap.t * PlanObj.t :=
let ensured := ensureGlobalScope now (PlanObj.scopes plan) in
let updatedScopes := fst (fst ensured) in
let globalScopeId := snd (fst ensured) in
let validScopeIds := set_of_list (map PlanScope.id updatedScopes) in
let mapped :=
mapSteps (repairStepScope validScopeIds globalScopeId) h
 (PlanObj.steps plan) in
(fst mapped,
 PlanObj.mk (PlanObj.goal plan) (PlanObj.taskKind plan)
(PlanObj.contextSummary plan) (PlanObj.phases plan)
updatedScopes (snd mapped) (PlanObj.metadata plan)).

(** Dynamic chunking reads the step objects and never assigns to them;
without a limit it returns the plan object it was given, with a limit
every step of its result is a new object ([{ ...step, dependencies }]). *)
Definition applyDynamicChunking (h : Heap.t) (plan : PlanObj.t)
 (maxMicroStepsPerPhase : option JsNumber)
: result (Heap.t * PlanObj.t) :=
match truthy maxMicroStepsPerPhase with
| None => Ok (h, plan)
| Some _ =>
chunked <- applyDynamicChunking (PlanObj.snapshot h plan)
                        maxMicroStepsPerPhase ;;
let fresh := Heap.allocAll h (TaskPlan.steps (Stage.plan chunked)) in
Ok (fst fresh, PlanObj.with_steps plan (snd fresh))
end.

(** [keptSteps.forEach(step => { step.dependencies = ... })] *)
Definition stripInPlace (removedStepIds : StringSet) (h : Heap.t)
 (keptSteps : list nat) : Heap.t :=
fold_left
(fun h r => Heap.write h r (stripDependencies removedStepIds (Heap.read h r)))
keptSteps h.

(** The body of [stepsByPhase.forEach]: the heap and [finalSteps]. *)
Definition limitPhaseSteps (targetMaxSteps : JsNumber)
 (acc : Heap.t * list nat) (entry : string * list nat) : Heap.t * list nat :=
let h := fst acc in
let finalSteps := snd acc in
let phaseSteps := snd entry in
if exceeds (length phaseSteps) targetMaxSteps then
let sortedSteps :=
sortBy (fun r => PlanStep.order (Heap.read h r)) phaseSteps in
let keptSteps := sliceTo sortedSteps targetMaxSteps in
let removedSteps := sliceFrom sortedSteps targetMaxSteps in
let removedStepIds :=
set_of_list (map (fun r => PlanStep.id (Heap.read h r)) removedSteps) in
(stripInPlace removedStepIds h keptSteps, finalSteps ++ keptSteps)
else (h, finalSteps ++ phaseSteps).

Definition groupByPhase (h : Heap.t) (steps : list nat)
: list (string * list nat) :=
groupBy (fun r => PlanStep.phaseId (Heap.read h r)) steps.

Definition applyPhaseLimit (h : Heap.t) (plan : PlanObj.t)
 (targetMaxPhases : option JsNumber) : list PlanPhase.t * list nat :=
match truthy targetMaxPhases with
| Some maxPhases =>
if exceeds (length (PlanObj.phases plan)) maxPhases then
let updatedPhases := sliceTo (PlanObj.phases plan) maxPhases in
let keptPhaseIds := set_of_list (map PlanPhase.id updatedPhases) in
(updatedPhases,
 filter (fun r => set_has keptPhaseIds
                    (PlanStep.phaseId (Heap.read h r)))
  (PlanObj.steps plan))
else (PlanObj.phases plan, PlanObj.steps plan)
| None => (PlanObj.phases plan, PlanObj.steps plan)
end.

Definition applyStepLimit (maxSteps : JsNumber) (h : Heap.t)
 (updatedSteps : list nat) : Heap.t * list nat :=
let stepsByPhase := groupByPhase h updatedSteps in
let limited := fold_left (limitPhaseSteps maxSteps) stepsByPhase (h, []) in
match snd limited, updatedSteps with
| [], first :: _ => (fst limited, snd limited ++ [first])
| _, _ => limited
end.

Definition applyGlobalLimits (h : Heap.t) (plan : PlanObj.t)
 (targetMaxPhases targetMaxSteps : option JsNumber)
: Heap.t * PlanObj.t :=
let phaseLimited := applyPhaseLimit h plan targetMaxPhases in
let updatedPhases := fst phaseLimited in
let updatedSteps := snd phaseLimited in
let limitedPlan (steps : list nat) :=
PlanObj.mk (PlanObj.goal plan) (PlanObj.taskKind plan)
 (PlanObj.contextSummary plan) updatedPhases
 (PlanObj.scopes plan) steps (PlanObj.metadata plan) in
match truthy targetMaxSteps with
| Some maxSteps =>
let stepLimited := applyStepLimit maxSteps h updatedSteps in
(fst stepLimited, limitedPlan (snd stepLimited))
| None => (h, limitedPlan updatedSteps)
end.

(** Step 5 of [validatePlan]: [firstStep.phaseId = ...] assigns to the
first step object of the plan that was passed in. *)
Definition preserveFirstStep (h : Heap.t) (planBefore currentPlan : PlanObj.t)
: Heap.t * PlanObj.t :=
match PlanObj.steps currentPlan, PlanObj.steps planBefore with
| [], firstStep :: _ =>
let firstPhase :=
find (fun p => String.eqb (PlanPhase.id p)
                    (PlanStep.phaseId (Heap.read h firstStep)))
 (PlanObj.phases currentPlan) in
match firstPhase, PlanObj.phases currentPlan with
| None, [] => (h, currentPlan)
| None, phase0 :: _ =>
(Heap.write h firstStep
 (PlanStep.with_phaseId (Heap.read h firstStep)
                      (PlanPhase.id phase0)),
 PlanObj.with_steps currentPlan [firstStep])
| Some _, _ => (h, PlanObj.with_steps currentPlan [firstStep])
end
| _, _ => (h, currentPlan)
end.

(** Step 6: the schema parser returns a copy when the plan is valid. *)
Definition finalValidation (h : Heap.t) (currentPlan : PlanObj.t)
: Heap.t * PlanObj.t :=
match validateTaskPlan (PlanObj.snapshot h currentPlan) with
| Ok validated =>
let fresh := Heap.allocAll h (TaskPlan.steps validated) in
(fst fresh, PlanObj.with_steps currentPlan (snd fresh))
| _ => (h, currentPlan)
end.

(** The orchestrator: the store after the call and the plan object it
returns. *)
Definition validatePlan (now : Z) (h : Heap.t) (plan : PlanObj.t)
 (options : ValidatePlanOptions) : result (Heap.t * PlanObj.t) :=
let planBefore := plan in
let levelResult := validatePlanLevels h plan in
let scopeResult :=
validatePlanScopes now (fst levelResult) (snd levelResult) in
chunkingResult <-
applyDynamicChunking (fst scopeResult) (snd scopeResult)
           (maxMicroStepsPerPhase options) ;;
let limitsResult :=
applyGlobalLimits (fst chunkingResult) (snd chunkingResult)
        (targetMaxPhases options) (targetMaxSteps options) in
let preserved :=
preserveFirstStep (fst limitsResult) planBefore (snd limitsResult) in
Ok (finalValidation (fst preserved) (snd preserved)).
End Shared.

(* ------------------------------------------------------------------ *)
(** * [tools/plan-task-helpers.ts]                                      *)
(* ------------------------------------------------------------------ *)


Definition StepKind_eqb (a b : StepKind) : bool :=
  String.eqb (StepKind_value a) (StepKind_value b).

Definition getStepLevel (stepKind : StepKind) (phaseLevel : PlanLevel)
  : PlanLevel :=
  if StepKind_eqb stepKind ClarifyGoal then Abstract
  else if StepKind_eqb stepKind EditCode || StepKind_eqb stepKind RunTests
  then Execution
  else if StepKind_eqb stepKind GatherContext
          || StepKind_eqb stepKind ScanCode
          || StepKind_eqb stepKind DesignSolution
  then Planning
  else if StepKind_eqb stepKind Refine then phaseLevel
  else phaseLevel.



(* ------------------------------------------------------------------ *)
(** * [tools/plan-task.ts]                                              *)
(* ------------------------------------------------------------------ *)

(** [toLowerCase] on the code units 0..255: the letters A-Z and the
    Latin-1 capitals U+00C0..U+00DE (without the sign U+00D7). *)
Definition lowerChar (c : ascii) : ascii :=
  let n := nat_of_ascii c in
  if ((65 <=? n) && (n <=? 90))
     || ((192 <=? n) && (n <=? 222) && negb (n =? 215))
  then ascii_of_nat (n + 32)
  else c.

Fixpoint toLowerCase (s : string) : string :=
  match s with
  | String c rest => String (lowerChar c) (toLowerCase rest)
  | EmptyString => EmptyString
  end.

Module PlanTaskArgs.
Record t : Type := mk {
goal : string;
context : option string;
taskKind : option TaskKind;
maxPhases : option Z;
maxSteps : option Z
}.
End PlanTaskArgs.

Definition bugfixKeywords : list string :=
  ["bugfix"; "fix"; "bug"; "error"; "issue"; "broken"; "crash"; "fail"].

Definition featureKeywords : list string :=
  ["add"; "implement"; "create"; "feature"; "new"; "build"].

Definition refactorKeywords : list string :=
  ["refactor"; "restructure"; "redesign"; "improve"; "optimize"; "cleanup"].

Definition inferTaskKind (goal : string) : TaskKind :=
  let lowerGoal := toLowerCase goal in
  if existsb (fun keyword => includes lowerGoal keyword) bugfixKeywords
  then Bugfix
  else if existsb (fun keyword => includes lowerGoal keyword) featureKeywords
  then Feature
  else if existsb (fun keyword => includes lowerGoal keyword) refactorKeywords
  then Refactor
  else Other.










(* ------------------------------------------------------------------ *)
(** * [tools/scope-resolver.ts]                                         *)
(* ------------------------------------------------------------------ *)

(** [plan.scopes.find((s) => s.id === step.scopeId) || null] *)
Definition getStepScope (step : PlanStep.t) (plan : TaskPlan.t)
  : option PlanScope.t :=
  match PlanStep.scopeId step with
  | None => None
  | Some scopeId =>
      find (fun s => String.eqb (PlanScope.id s) scopeId) (TaskPlan.scopes plan)
  end.

(* ------------------------------------------------------------------ *)
(** * [tools/execute-plan-helpers.ts]                                   *)
(* ------------------------------------------------------------------ *)

(** [new Map(entries)]: a later entry replaces the value of an earlier one
    with the same key. *)
Definition map_of_list {V : Type} (entries : list (string * V))
  : list (string * V) :=
  fold_left (fun m entry => map_set m (fst entry) (snd entry)) entries [].

Definition isDone (status : option StepStatus) : bool :=
  match status with Some Done => true | _ => false end.

Definition isStepExecutable (step : PlanStep.t) (plan : TaskPlan.t) : bool :=
  match PlanStep.status step with
  | Some InProgress | Some Done => false
  | Some Blocked => false
  | _ =>
      match PlanStep.dependencies step with
      | [] => true
      | dependencies =>
          let stepMap :=
            map_of_list (map (fun s => (PlanStep.id s, s)) (TaskPlan.steps plan)) in
          forallb (fun depId =>
                     match map_get stepMap depId with
                     | Some dep => isDone (PlanStep.status dep)
                     | None => false
                     end)
                  dependencies
      end
  end.

(** [xs.sort(compare)] for a comparator that orders the elements
    consistently: the sort is stable, so the result is the one of any stable
    sort.  (When [compare] answers 0 for a pair it cannot order, as the
    comparator below does for a step whose phase is missing, the order is
    left to the engine; the properties proved about the order assume that
    every phase is found.) *)
Section ComparatorSort.
Variable A : Type.
Variable compare : A -> A -> Z.

Fixpoint insertWith (x : A) (sorted : list A) : list A :=
match sorted with
| [] => [x]
| y :: rest =>
if (compare x y <=? 0)%Z then x :: sorted else y :: insertWith x rest
end.

Definition sortWith (xs : list A) : list A :=
fold_right insertWith [] xs.
End ComparatorSort.

(** The comparator of [getExecutableSteps]: phase order, then step order. *)
Definition byPhaseThenOrder (phaseMap : list (string * PlanPhase.t))
           (a b : PlanStep.t) : Z :=
  match map_get phaseMap (PlanStep.phaseId a),
        map_get phaseMap (PlanStep.phaseId b) with
  | Some phaseA, Some phaseB =>
      if negb (PlanPhase.order phaseA =? PlanPhase.order phaseB)%Z
      then (PlanPhase.order phaseA - PlanPhase.order phaseB)%Z
      else (PlanStep.order a - PlanStep.order b)%Z
  | _, _ => 0%Z
  end.

Definition getExecutableSteps (plan : TaskPlan.t) : list PlanStep.t :=
  let executableSteps :=
    filter (fun step => isStepExecutable step plan) (TaskPlan.steps plan) in
  let phaseMap :=
    map_of_list (map (fun p => (PlanPhase.id p, p)) (TaskPlan.phases plan)) in
  sortWith (byPhaseThenOrder phaseMap) executableSteps.

Definition getNextExecutableStep (plan : TaskPlan.t) : option PlanStep.t :=
  match getExecutableSteps plan with
  | first :: _ => Some first
  | [] => None
  end.

Definition with_status (s : PlanStep.t) (status : StepStatus) : PlanStep.t :=
  PlanStep.mk (PlanStep.id s) (PlanStep.phaseId s) (PlanStep.level s)
              (PlanStep.order s) (PlanStep.kind s) (PlanStep.title s)
              (PlanStep.summary s) (PlanStep.scopeId s)
              (PlanStep.dependencies s) (PlanStep.suggestedTools s)
              (Some status).

(** [updatedSteps[stepIndex] = { ...updatedSteps[stepIndex], status }] at the
    index of the first step whose id is [stepId]; [None] when
    [findIndex] returns -1. *)
Fixpoint setStatusOfFirst (steps : list PlanStep.t) (stepId : string)
         (status : StepStatus) : option (list PlanStep.t) :=
  match steps with
  | [] => None
  | s :: rest =>
      if String.eqb (PlanStep.id s) stepId
      then Some (with_status s status :: rest)
      else match setStatusOfFirst rest stepId status with
           | Some updated => Some (s :: updated)
           | None => None
           end
  end.

Definition updateStepStatus (plan : TaskPlan.t) (stepId : string)
           (status : StepStatus) : result TaskPlan.t :=
  match setStatusOfFirst (TaskPlan.steps plan) stepId status with
  | None =>
      Throw ("Step with id " ++ dquote ++ stepId ++ dquote
             ++ " not found in plan")%string
  | Some updatedSteps => validateTaskPlan (TaskPlan.with_steps plan updatedSteps)
  end.

Definition markStepInProgress (plan : TaskPlan.t) (stepId : string)
  : result TaskPlan.t :=
  updateStepStatus plan stepId InProgress.

Definition markStepDone (plan : TaskPlan.t) (stepId : string)
  : result TaskPlan.t :=
  updateStepStatus plan stepId Done.

Definition markStepBlocked (plan : TaskPlan.t) (stepId : string)
           (reason : option string) : result TaskPlan.t :=
  updateStepStatus plan stepId Blocked.

(* ------------------------------------------------------------------ *)
(** * Predicates of the specification                                   *)
(* ------------------------------------------------------------------ *)

(** ** Plans *)

Definition stepIds (steps : list PlanStep.t) : list string :=
  map PlanStep.id steps.

(** No dangling edge: every dependency id is the id of a step of the plan. *)
Definition noDanglingDependencies (steps : list PlanStep.t) : bool :=
  forallb (fun step =>
             forallb (fun depId => existsb (String.eqb depId) (stepIds steps))
                     (PlanStep.dependencies step))
          steps.

(** The dependency relation restricted to the step ids present in the plan:
    [dependsOn steps x y] when the step [x] lists [y] and [y] is present. *)
Definition dependsOn (steps : list PlanStep.t) (x y : string) : Prop :=
  exists step,
    In step steps /\ PlanStep.id step = x
    /\ In y (PlanStep.dependencies step) /\ In y (stepIds steps).

Definition acyclic (steps : list PlanStep.t) : Prop :=
  forall x, ~ clos_trans string (dependsOn steps) x x.

(** A change of the given type is recorded among [changes]. *)
Definition recorded (type : string) (changes : list PlanChange.t) : bool :=
  existsb (hasType type) changes.

(** Every step of [out] has the id and scope of a step of [input]. *)
Definition descends (out input : list PlanStep.t) : Prop :=
  forall t, In t out ->
    exists s, In s input
              /\ PlanStep.id t = PlanStep.id s
              /\ PlanStep.scopeId t = PlanStep.scopeId s.

(** Every step of [out] has the id of a step of [input] and lists only
    dependencies which that step lists. *)
Definition shrinks (out input : list PlanStep.t) : Prop :=
  forall t, In t out ->
    exists s, In s input
              /\ PlanStep.id t = PlanStep.id s
              /\ incl (PlanStep.dependencies t) (PlanStep.dependencies s).

Definition globalScopeCount (scopes : list PlanScope.t) : nat :=
  length (filter (fun s => isGlobal (PlanScope.kind s)) scopes).

(** The step's [scopeId] is null or the id of one of [scopes]. *)
Definition scopeResolved (scopes : list PlanScope.t) (step : PlanStep.t) : bool :=
  match PlanStep.scopeId step with
  | None => true
  | Some sc => existsb (fun s => String.eqb (PlanScope.id s) sc) scopes
  end.

Definition scopesResolved (plan : TaskPlan.t) : bool :=
  forallb (scopeResolved (TaskPlan.scopes plan)) (TaskPlan.steps plan).

Definition firstStepScopeResolved (plan : TaskPlan.t) : bool :=
  match TaskPlan.steps plan with
  | first :: _ => scopeResolved (TaskPlan.scopes plan) first
  | [] => true
  end.

(** ** Groups *)

Definition hasKey {A : Type} (keyOf : A -> string) (k : string) (x : A) : bool :=
  String.eqb (keyOf x) k.

(** What holds of a [Map<string, A[]>] once the elements [seen] were pushed
    into it: one entry per key, holding the elements of that key in the
    order in which they were seen. *)
Record grouped {A : Type} (keyOf : A -> string) (seen : list A)
       (m : list (string * list A)) : Prop := {
  grouped_keys : NoDup (map fst m);
  grouped_members :
    forall k g, In (k, g) m -> g = filter (hasKey keyOf k) seen /\ g <> [];
  grouped_total : forall x, In x seen -> In (keyOf x) (map fst m)
}.

(** ** Chunks *)

(** A chunk with its generated id blanked out. *)
Definition eraseId (c : CodeChunk.t) : CodeChunk.t :=
  CodeChunk.with_id c EmptyString.

Definition chunksOfFile (filePath : string) (chunks : list CodeChunk.t)
  : list CodeChunk.t :=
  filter (fun c => String.eqb (CodeChunk.filePath c) filePath) chunks.

(** The number of batches of at most [n] items that [m] items fill. *)
Definition ceilDiv (m n : nat) : nat := (m + n - 1) / n.

Definition minStartLine (first : CodeChunk.t) (others : list CodeChunk.t) : Z :=
  fold_left Z.min (map CodeChunk.startLine others) (CodeChunk.startLine first).

Definition maxEndLine (first : CodeChunk.t) (others : list CodeChunk.t) : Z :=
  fold_left Z.max (map CodeChunk.endLine others) (CodeChunk.endLine first).

(** The end lines do not decrease along the list (as for chunks that do not
    enclose one another, taken by increasing start line). *)
Definition endsAscending (chunks : list CodeChunk.t) : Prop :=
  StronglySorted (fun a b => (CodeChunk.endLine a <= CodeChunk.endLine b)%Z) chunks.

(** The start lines do not decrease along the list. *)
Definition startsAscending (chunks : list CodeChunk.t) : Prop :=
  StronglySorted (fun a b => (CodeChunk.startLine a <= CodeChunk.startLine b)%Z)
                 chunks.

(** [c] is the Summary chunk built from the contributors [first :: others],
    in that order. *)
Definition summarizes (c : CodeChunk.t) (first : CodeChunk.t)
           (others : list CodeChunk.t) : Prop :=
  CodeChunk.type c = Summary
  /\ ChunkMetadata.mergedFrom (CodeChunk.metadata c)
     = Some (map CodeChunk.id (first :: others))
  /\ CodeChunk.startLine c = minStartLine first others
  /\ CodeChunk.endLine c = CodeChunk.endLine (last others first)
  /\ (endsAscending (first :: others) ->
      CodeChunk.endLine c = maxEndLine first others).

(** ** Sub-chunks of a large symbol *)

(** [lo] and [hi] are neighbours in the list of boundaries. *)
Definition consecutive (lo hi : Z) (boundaries : list Z) : Prop :=
  exists before after, boundaries = before ++ lo :: hi :: after.

(** The sub-chunk [c] of the symbol [parent] spans a closed interval inside
    [lo .. hi] and is at most [maxLines] lines long. *)
Definition inSpan (lo hi maxLines : Z) (parent : string) (c : CodeChunk.t)
  : Prop :=
  (lo <= CodeChunk.startLine c)%Z
  /\ (CodeChunk.startLine c <= CodeChunk.endLine c)%Z
  /\ (CodeChunk.endLine c <= hi)%Z
  /\ ChunkMetadata.lineCount (CodeChunk.metadata c)
     = (CodeChunk.endLine c - CodeChunk.startLine c + 1)%Z
  /\ (ChunkMetadata.lineCount (CodeChunk.metadata c) <= maxLines)%Z
  /\ CodeChunk.type c = SubSymbol
  /\ ChunkMetadata.parentSymbolName (CodeChunk.metadata c) = Some parent.

(** ... inside a pair of neighbouring boundaries. *)
Definition betweenBoundaries (boundaries : list Z) (maxLines : Z)
           (parent : string) (c : CodeChunk.t) : Prop :=
  exists lo hi,
    consecutive lo hi boundaries /\ inSpan lo hi maxLines parent c.

(** The span [lo .. hi] is shorter than five lines and boundaries follow
    [hi]: it is not the last pair. *)
Definition omitted (lo hi : Z) (after : list Z) : bool :=
  (hi - lo + 1 <? 5)%Z && match after with [] => false | _ => true end.

Definition span (c : CodeChunk.t) : Z * Z :=
  (CodeChunk.startLine c, CodeChunk.endLine c).

(** The chunks start at [lo], follow one another without gap or overlap,
    and end at [hi]. *)
Fixpoint tiles (lo hi : Z) (chunks : list CodeChunk.t) : Prop :=
  match chunks with
  | [] => lo = (hi + 1)%Z
  | c :: rest =>
      CodeChunk.startLine c = lo
      /\ (lo <= CodeChunk.endLine c <= hi)%Z
      /\ tiles (CodeChunk.endLine c + 1) hi rest
  end.

(** What is pushed for the pair of boundaries [lo], [hi]: nothing when the
    pair is omitted, one sub-chunk for the whole span when it fits the
    limit, and otherwise windows that follow one another from [lo] to
    [hi]. *)
Definition spanChunks (lo hi : Z) (after : list Z) (maxLines : Z)
           (emitted : list CodeChunk.t) : Prop :=
  if omitted lo hi after then emitted = []
  else if (maxLines <? hi - lo + 1)%Z then tiles lo hi emitted
  else map span emitted = [(lo, hi)].

(** The chunks whose span contains [line]. *)
Definition chunksAt (line : Z) (chunks : list CodeChunk.t) : list CodeChunk.t :=
  filter (fun c => (CodeChunk.startLine c <=? line)%Z
                   && (line <=? CodeChunk.endLine c)%Z)
         chunks.

(** Two results agree: both end normally with related values, both throw
    the same error, or both are out of fuel. *)
Definition agree {A B : Type} (R : A -> B -> Prop) (r : result A)
           (r' : result B) : Prop :=
  match r, r' with
  | Ok a, Ok b => R a b
  | Throw message, Throw message' => message = message'
  | OutOfFuel, OutOfFuel => True
  | _, _ => False
  end.

(** Two chunk lists are equal up to the generated ids. *)
Definition sameChunks (a b : list CodeChunk.t) : Prop :=
  map eraseId a = map eraseId b.

(** Two states of the merge loop hold the same chunks up to their ids. *)
Definition sameDechunk (a b : Dechunk.t) : Prop :=
  sameChunks (Dechunk.mergedChunks a) (Dechunk.mergedChunks b)
  /\ Dechunk.warnings a = Dechunk.warnings b.

(** The outputs of [applyDechunking]: chunks equal up to their ids, and the
    same warnings. *)
Definition sameDechunked (a b : list CodeChunk.t * list string) : Prop :=
  sameChunks (fst a) (fst b) /\ snd a = snd b.

Definition sameChunkingResult (a b : ChunkingResult.t) : Prop :=
  sameChunks (ChunkingResult.chunks a) (ChunkingResult.chunks b)
  /\ ChunkingResult.stats a = ChunkingResult.stats b
  /\ ChunkingResult.warnings a = ChunkingResult.warnings b.

(** The chunks of a result with their generated ids blanked out. *)
Definition eraseIds (r : result (list CodeChunk.t)) : result (list CodeChunk.t) :=
  match r with
  | Ok chunks => Ok (map eraseId chunks)
  | Throw message => Throw message
  | OutOfFuel => OutOfFuel
  end.


(** ** Plans the validator has nothing to correct *)

(** Every step whose phase is found has the level the policy expects. *)
Definition levelsFollowPolicy (plan : TaskPlan.t) : bool :=
  forallb
    (fun step =>
       match find (fun p => String.eqb (PlanPhase.id p) (PlanStep.phaseId step))
                  (TaskPlan.phases plan) with
       | Some phase =>
           PlanLevel_eqb (PlanStep.level step)
                         (getExpectedLevelForStepKind (PlanStep.kind step)
                                                      (PlanPhase.level phase))
       | None => true
       end)
    (TaskPlan.steps plan).

Definition hasGlobalScope (plan : TaskPlan.t) : bool :=
  existsb (fun s => isGlobal (PlanScope.kind s)) (TaskPlan.scopes plan).

(** An array length or a count, as a number. *)
Definition natural (n : nat) : JsNumber := Int (Z.of_nat n).

(** A limit of the compressor as the input schema of its tool accepts it
    ([z.number().int().positive().optional()]): absent or a positive
    integer. *)
Definition schemaAccepts (limit : option JsNumber) : Prop :=
  match limit with
  | None => True
  | Some (Int z) => (1 <= z)%Z
  | Some _ => False
  end.

(** The phase limit leaves a phase of a plan that has [len] of them: the
    limit is falsy, or [len] does not exceed it, or [slice(0, limit)] of
    [len] phases is not empty (the limit is 1 or more, or it is negative and
    greater than [- len]). *)
Definition leavesAPhase (len : nat) (limit : option JsNumber) : bool :=
  match truthy limit with
  | Some x => negb (exceeds len x) || (0 <? sliceIndex len x)
  | None => true
  end.



(** ** Execution *)

(** The step that a [Map] filled from the steps holds for an id: the last
    step of the list with that id. *)
Definition lastWithId (steps : list PlanStep.t) (id : string)
  : option PlanStep.t :=
  find (fun s => String.eqb (PlanStep.id s) id) (List.rev steps).

(** A step that has not been started: its status is [todo] or absent. *)
Definition notStarted (step : PlanStep.t) : Prop :=
  PlanStep.status step = None \/ PlanStep.status step = Some Todo.

(** The steps that carry an id. *)
Definition stepsWithId (id : string) (steps : list PlanStep.t)
  : list PlanStep.t :=
  filter (fun s => String.eqb (PlanStep.id s) id) steps.

(** Status updates applied one after the other, each to the plan that the
    one before returned. *)
Fixpoint runUpdates (plan : TaskPlan.t) (updates : list (string * StepStatus))
  : result TaskPlan.t :=
  match updates with
  | [] => Ok plan
  | (stepId, status) :: rest =>
      updated <- updateStepStatus plan stepId status ;;
      runUpdates updated rest
  end.

(** Every dependency of a step names a step that comes before it. *)
Fixpoint dependenciesComeFirst (earlier : list string) (steps : list PlanStep.t)
  : Prop :=
  match steps with
  | [] => True
  | s :: rest =>
      (forall d, In d (PlanStep.dependencies s) -> In d earlier)
      /\ dependenciesComeFirst (earlier ++ [PlanStep.id s]) rest
  end.

(** A plan that can be executed in the order of its steps: it passes the
    schema, its step ids are distinct, every dependency names an earlier
    step, and no step is in progress or blocked. *)
Definition wellOrdered (plan : TaskPlan.t) : Prop :=
  taskPlanSchema plan = true
  /\ NoDup (map PlanStep.id (TaskPlan.steps plan))
  /\ dependenciesComeFirst [] (TaskPlan.steps plan)
  /\ forall step, In step (TaskPlan.steps plan) ->
       PlanStep.status step <> Some InProgress
       /\ PlanStep.status step <> Some Blocked.

(** The number of steps that are done. *)
Definition doneCount (plan : TaskPlan.t) : nat :=
  length (filter (fun s => isDone (PlanStep.status s)) (TaskPlan.steps plan)).


(** ** Detected blocks *)


(** ** Keywords *)

(** One of the keywords occurs in the goal, as a part of it and whatever the
    case of its letters. *)
Definition mentions (goal : string) (keywords : list string) : Prop :=
  exists keyword pre post,
    In keyword keywords /\ toLowerCase goal = (pre ++ keyword ++ post)%string.

(** ** Roles *)

(** [t] has the phase, the level and the kind of [s]. *)
Definition sameRole (t s : PlanStep.t) : Prop :=
  PlanStep.phaseId t = PlanStep.phaseId s
  /\ PlanStep.level t = PlanStep.level s
  /\ PlanStep.kind t = PlanStep.kind s.

(** The execution-level steps that carry a group key (phase, scope and
    kind). *)
Definition executionStepsOf (key : string) (steps : list PlanStep.t)
  : list PlanStep.t :=
  filter (fun step => PlanLevel_eqb (PlanStep.level step) Execution
                      && String.eqb (groupKey step) key)
         steps.

(** What the merge loop of [applyDynamicChunking] pushes for a group: its
    steps when the group is within the limit, else the one step they are
    merged into. *)
Definition chunkOf (limit : JsNumber) (groupSteps : list PlanStep.t)
  : list PlanStep.t :=
  if fits (length groupSteps) limit then groupSteps
  else match mergeSteps groupSteps with
       | Ok merged => [merged]
       | _ => []
       end.

(** The id [d] of a step that was merged away is redirected to [v]: [d] is
    the id of a step of a group over the limit, other than its first step,
    and [v] is the id of that first step. *)
Definition redirects (limit : JsNumber)
           (groups : list (string * list PlanStep.t)) (d v : string) : Prop :=
  exists g first rest,
    In g groups /\ snd g = first :: rest
    /\ exceeds (length (snd g)) limit = true
    /\ In d (stepIds rest) /\ v = PlanStep.id first.

(** ** What the statistics count *)

(** The phase of the step is found and the level of the step is not the one
    the policy expects. *)
Definition levelOutOfPolicy (phases : list PlanPhase.t) (step : PlanStep.t)
  : bool :=
  match find (fun p => String.eqb (PlanPhase.id p) (PlanStep.phaseId step))
             phases with
  | Some phase =>
      negb (PlanLevel_eqb (PlanStep.level step)
                          (getExpectedLevelForStepKind (PlanStep.kind step)
                                                       (PlanPhase.level phase)))
  | None => false
  end.

(** The groups of execution-level steps that are over the limit. *)
Definition overLimitGroups (limit : option JsNumber)
           (steps : list PlanStep.t) : list (string * list PlanStep.t) :=
  match truthy limit with
  | Some x => filter (fun g => exceeds (length (snd g)) x) (buildGroups steps)
  | None => []
  end.

(** The number of steps that merging the groups takes away: all but one of
    each group. *)
Definition mergedAway (groups : list (string * list PlanStep.t)) : Z :=
  fold_left (fun sum g => (sum + (Z.of_nat (length (snd g)) - 1))%Z) groups 0%Z.

(** A merge is recorded with the size of the group in its description. *)
Definition recordsMerge (g : string * list PlanStep.t) (c : PlanChange.t)
  : Prop :=
  PlanChange.type c = "steps_merged"
  /\ exists title,
       PlanChange.description c
       = ("Merged " ++ showNat (length (snd g)) ++ " steps into chunk: "
          ++ title)%string.

(** ** Limits *)

(** The steps of the phase [phaseId]. *)
Definition stepsOfPhase (phaseId : string) (steps : list PlanStep.t)
  : list PlanStep.t :=
  filter (hasKey PlanStep.phaseId phaseId) steps.

(* ------------------------------------------------------------------ *)
(** * Sample inputs                                                     *)
(* ------------------------------------------------------------------ *)

Module Sample.
Definition phase (id : string) (order : Z) : PlanPhase.t :=
PlanPhase.mk id id Execution order None.

Definition step (id phaseId : string) (kind : StepKind) (order : Z)
 (dependencies : list string) : PlanStep.t :=
PlanStep.mk id phaseId Execution order kind id id None dependencies [] None.

Definition workspace : PlanScope.t :=
PlanScope.mk "ws" Global "Workspace" "workspace root" None.

Definition plan (phases : list PlanPhase.t) (scopes : list PlanScope.t)
 (steps : list PlanStep.t) : TaskPlan.t :=
TaskPlan.mk "goal" Other None phases scopes steps None.

Definition noLimits : ValidatePlanOptions := mkOptions None None None.

(** edit, test, edit in one phase: each step depends on the one before. *)
Definition editTestEdit : TaskPlan.t :=
plan [phase "p1" 0] [workspace]
 [step "a" "p1" EditCode 0 [];
step "b" "p1" RunTests 1 ["a"];
step "c" "p1" EditCode 2 ["b"]].

(** Two phases; the step of the second phase depends on the last step of
the first. *)
Definition twoPhases : TaskPlan.t :=
plan [phase "p1" 0; phase "p2" 1] [workspace]
 [step "a" "p1" EditCode 0 [];
step "b" "p1" RunTests 1 ["a"];
step "c" "p2" EditCode 0 ["b"]].

(** One phase; the first step lists the second one as a dependency. *)
Definition forwardDependency : TaskPlan.t :=
plan [phase "p1" 0] [workspace]
 [step "a" "p1" EditCode 0 ["b"];
step "b" "p1" RunTests 1 []].

(** All the steps are in the second phase. *)
Definition lateSteps : TaskPlan.t :=
plan [phase "p1" 0; phase "p2" 1] [workspace]
 [step "a" "p2" EditCode 0 [];
step "b" "p2" RunTests 1 ["a"]].

Definition otherWorkspace : PlanScope.t :=
PlanScope.mk "ws2" Global "Second workspace" "workspace root" None.

Definition twoGlobals : TaskPlan.t :=
plan [phase "p1" 0] [workspace; otherWorkspace]
 [step "a" "p1" EditCode 0 []].

Definition noGlobal : TaskPlan.t :=
plan [phase "p1" 0] [] [step "a" "p1" EditCode 0 []].

(** A planning-level step followed by the execution-level step that depends
on it. *)
Definition scanThenEdit : TaskPlan.t :=
plan [phase "p1" 0] [workspace]
 [PlanStep.mk "a" "p1" Planning 0 ScanCode "a" "a" None [] [] None;
step "b" "p1" EditCode 1 ["a"]].

(** A step of the second phase that names a scope. *)
Definition scoped (id scopeId : string) (order : Z) : PlanStep.t :=
PlanStep.with_scopeId (step id "p2" EditCode order []) (Some scopeId).

(** The only step names a scope that the plan does not have. *)
Definition strayScope : TaskPlan.t :=
plan [phase "p1" 0; phase "p2" 1] [workspace] [scoped "a" "gone" 0].

(** The first step names the workspace, the second a scope that the plan
does not have. *)
Definition strayScopeLater : TaskPlan.t :=
plan [phase "p1" 0; phase "p2" 1] [workspace]
 [scoped "a" "ws" 0; scoped "b" "gone" 1].

(** Two groups of two steps; the id [x] is used in both. *)
Definition sharedId : TaskPlan.t :=
plan [phase "p1" 0] [workspace]
 [step "x" "p1" EditCode 0 [];
step "y" "p1" EditCode 1 ["x"];
step "z" "p1" RunTests 2 ["y"];
step "x" "p1" RunTests 3 []].

(** Two phases whose steps are numbered from 1 in each phase. *)
Definition repeatedIds : TaskPlan.t :=
plan [phase "p1" 0; phase "p2" 1] [workspace]
 [step "s1" "p1" EditCode 1 [];
step "s2" "p1" RunTests 2 ["s1"];
step "s1" "p2" EditCode 1 ["s2"];
step "s2" "p2" RunTests 2 ["s1"]].

(** Chunks. *)
Definition chunk (id filePath : string) (startLine endLine : Z) : CodeChunk.t :=
CodeChunk.mk id filePath startLine endLine Symbol
(ChunkMetadata.mk Symbol (endLine - startLine + 1)%Z None None
 (Some id) None None None)
None None.

(** Three chunks of one file, not in the order of their lines. *)
Definition threeChunks : list CodeChunk.t :=
[chunk "c3" "test.ts" 21 30; chunk "c1" "test.ts" 1 10;
 chunk "c2" "test.ts" 11 20].

(** [n] consecutive ten-line chunks of one file, as in the test suite. *)
Definition tenLineChunks (n : nat) : list CodeChunk.t :=
map (fun i => chunk ("chunk-" ++ showNat i)%string "test.ts"
        (Z.of_nat i * 10 + 1)%Z ((Z.of_nat i + 1) * 10)%Z)
(seq 0 n).

Definition options (maxChunksPerStep : nat) : MergedOptions.t :=
MergedOptions.mk maxChunksPerStep 100%Z None true true.

Definition blank : PlanStep.t := step EmptyString EmptyString Refine 0 [].

(** The plan as a caller holds it: every step is an object of its own. *)
Definition loaded (p : TaskPlan.t) : Heap.t * PlanObj.t :=
PlanObj.load (Shared.emptyHeap blank) p.

Definition stepsPerPhase (n : Z) : ValidatePlanOptions :=
mkOptions None (Some (Int n)) None.

Definition phasesAtMost (n : Z) : ValidatePlanOptions :=
mkOptions (Some (Int n)) None None.

(** [n] lines of text, the [k]-th of which (counting from 1) is a comment. *)
Definition linesWithComment (n k : nat) : string :=
join (String (ascii_of_nat 10) EmptyString)
 (map (fun i => if Nat.eqb i k then "// note" else "work();") (seq 1 n)).

(** [n] lines of text, the [k]-th and the [l]-th of which are comments. *)
Definition linesWithComments (n k l : nat) : string :=
join (String (ascii_of_nat 10) EmptyString)
 (map (fun i => if Nat.eqb i k || Nat.eqb i l then "// note" else "work();")
      (seq 1 n)).



Definition maxLines (n : Z) : option ChunkingOptions.t :=
Some (ChunkingOptions.mk None (Some n) None (Some false) None).

Definition clock (t : Z) (k : nat) : IdSource :=
mkIdSource t "abcdef".

(** A chunk that encloses the one that starts after it. *)
Definition nested : list CodeChunk.t :=
[chunk "outer" "test.ts" 1 100; chunk "inner" "test.ts" 10 20;
 chunk "other" "lib.ts" 1 10].
End Sample.

(* ================================================================== *)
(** * Properties                                                        *)
(* ================================================================== *)

(** ** Lists, sets and maps *)

Lemma NoDup_app_disjoint (A : Type) (l1 l2 : list A) :
  NoDup (l1 ++ l2) -> forall a, In a l1 -> ~ In a l2.
Proof.
  induction l1 as [| x l1 IH]; simpl; intros Hnd a Ha; [destruct Ha |].
  inversion Hnd as [| ? ? Hnotin Hrest]; subst.
  destruct Ha as [<- | Ha].
  - intros Hin. apply Hnotin, in_app_iff. now right.
  - now apply IH.
Qed.

(** In a list whose images under [f] are distinct, [f] is injective. *)
Lemma NoDup_map_injective (A B : Type) (f : A -> B) (l : list A) (x y : A) :
  NoDup (map f l) -> In x l -> In y l -> f x = f y -> x = y.
Proof.
  induction l as [| a l IH]; simpl; intros Hnd Hx Hy Heq; [destruct Hx |].
  inversion Hnd as [| ? ? Hnotin Hrest]; subst.
  destruct Hx as [<- | Hx], Hy as [<- | Hy]; auto.
  - exfalso. apply Hnotin. rewrite Heq. now apply in_map.
  - exfalso. apply Hnotin. rewrite <- Heq. now apply in_map.
Qed.

Lemma set_has_In (s : StringSet) (x : string) :
  set_has s x = true <-> In x s.
Proof.
  unfold set_has. rewrite existsb_exists. split.
  - intros [y [Hy Heq]]. apply String.eqb_eq in Heq. now subst.
  - intros H. exists x. split; [assumption | apply String.eqb_refl].
Qed.

Lemma set_has_false (s : StringSet) (x : string) :
  set_has s x = false <-> ~ In x s.
Proof.
  rewrite <- set_has_In. destruct (set_has s x); split; congruence.
Qed.

Lemma set_add_In (s : StringSet) (x y : string) :
  In y (set_add s x) <-> In y s \/ y = x.
Proof.
  unfold set_add. destruct (set_has s x) eqn:E.
  - apply set_has_In in E. split; [tauto |]. intros [H | ->]; assumption.
  - rewrite in_app_iff. simpl. intuition (subst; auto).
Qed.

Lemma fold_set_add_In (xs : list string) (acc : StringSet) (y : string) :
  In y (fold_left set_add xs acc) <-> In y acc \/ In y xs.
Proof.
  revert acc. induction xs as [| x xs IH]; intros acc; simpl.
  - tauto.
  - rewrite IH, set_add_In. intuition (subst; auto).
Qed.

Lemma set_of_list_In (xs : list string) (y : string) :
  In y (set_of_list xs) <-> In y xs.
Proof.
  unfold set_of_list. rewrite fold_set_add_In. simpl. tauto.
Qed.

Lemma set_has_of_list (xs : list string) (y : string) :
  set_has (set_of_list xs) y = true <-> In y xs.
Proof. now rewrite set_has_In, set_of_list_In. Qed.

Lemma PlanLevel_eqb_eq (a b : PlanLevel) : PlanLevel_eqb a b = true <-> a = b.
Proof. destruct a, b; simpl; split; congruence. Qed.

Lemma PlanLevel_eqb_refl (a : PlanLevel) : PlanLevel_eqb a a = true.
Proof. now destruct a. Qed.

(** ** Level validation *)

Lemma correctStepLevel_id phases step :
  PlanStep.id (fst (correctStepLevel phases step)) = PlanStep.id step.
Proof.
  unfold correctStepLevel.
  destruct (find _ phases); [| reflexivity].
  now destruct (negb _).
Qed.

Lemma correctStepLevel_dependencies phases step :
  PlanStep.dependencies (fst (correctStepLevel phases step))
  = PlanStep.dependencies step.
Proof.
  unfold correctStepLevel.
  destruct (find _ phases); [| reflexivity].
  now destruct (negb _).
Qed.


Lemma correctStepLevel_scopeId phases step :
  PlanStep.scopeId (fst (correctStepLevel phases step)) = PlanStep.scopeId step.
Proof.
  unfold correctStepLevel.
  destruct (find _ phases); [| reflexivity].
  now destruct (negb _).
Qed.

(** A corrected step is a fixed point of the correction. *)
Lemma correctStepLevel_stable phases step :
  correctStepLevel phases (fst (correctStepLevel phases step))
  = (fst (correctStepLevel phases step), []).
Proof.
  unfold correctStepLevel at 2 3.
  destruct (find _ phases) as [phase |] eqn:Hfind.
  - destruct (negb _) eqn:Hneq; simpl.
    + unfold correctStepLevel. simpl. rewrite Hfind.
      now rewrite PlanLevel_eqb_refl.
    + unfold correctStepLevel. now rewrite Hfind, Hneq.
  - simpl. unfold correctStepLevel. now rewrite Hfind.
Qed.

Lemma flat_map_no_changes (A B : Type) (l : list A) :
  flat_map snd (map (fun s : A => (s, @nil B)) l) = [].
Proof. induction l; simpl; auto. Qed.

Lemma map_fst_unchanged (A B : Type) (l : list A) :
  map fst (map (fun s : A => (s, @nil B)) l) = l.
Proof. induction l; simpl; congruence. Qed.

(** C8. The level policy is a fixed table: the expected level is determined
    by the step kind alone, except for [Refine], which takes the level of its
    phase; so a given (kind, phase level) pair always yields the same level.
    Level validation is idempotent: run on its own output it records no
    change and returns the same steps. *)
Theorem C8_level_policy_table_and_idempotence :
  (forall phaseLevel,
      getExpectedLevelForStepKind ClarifyGoal phaseLevel = Abstract
      /\ getExpectedLevelForStepKind GatherContext phaseLevel = Planning
      /\ getExpectedLevelForStepKind ScanCode phaseLevel = Planning
      /\ getExpectedLevelForStepKind DesignSolution phaseLevel = Planning
      /\ getExpectedLevelForStepKind EditCode phaseLevel = Execution
      /\ getExpectedLevelForStepKind RunTests phaseLevel = Execution
      /\ getExpectedLevelForStepKind Refine phaseLevel = phaseLevel)
  /\ (forall plan : TaskPlan.t,
         let corrected := Stage.plan (validatePlanLevels plan) in
         Stage.changes (validatePlanLevels corrected) = []
         /\ Stage.plan (validatePlanLevels corrected) = corrected).
Proof.
  split.
  - intros phaseLevel. repeat split.
  - intros plan. cbn zeta.
    unfold validatePlanLevels. simpl.
    set (phases := TaskPlan.phases plan).
    assert (Hmap : map (correctStepLevel phases)
                       (map fst (map (correctStepLevel phases) (TaskPlan.steps plan)))
                   = map (fun s => (s, []))
                         (map fst (map (correctStepLevel phases) (TaskPlan.steps plan)))).
    { induction (TaskPlan.steps plan) as [| s ss IH]; simpl.
      - reflexivity.
      - now rewrite correctStepLevel_stable, IH. }
    rewrite Hmap. split.
    + apply flat_map_no_changes.
    + unfold TaskPlan.with_steps. simpl. f_equal.
      apply map_fst_unchanged.
Qed.

(** ** Grouping *)

Lemma pushToGroup_nonempty (A : Type) (groups : list (string * list A)) key (x : A) :
  Forall (fun g => snd g <> []) groups ->
  Forall (fun g => snd g <> []) (pushToGroup groups key x).
Proof.
  induction groups as [| [k members] rest IH]; simpl; intros H.
  - constructor; [simpl; discriminate | constructor].
  - inversion H as [| ? ? Hhd Htl]; subst.
    destruct (String.eqb k key).
    + constructor; [| assumption]. simpl. now destruct members.
    + constructor; [assumption | now apply IH].
Qed.

Lemma buildGroups_nonempty steps :
  Forall (fun g => snd g <> []) (buildGroups steps).
Proof.
  unfold buildGroups.
  assert (H : forall acc : list (string * list PlanStep.t),
             Forall (fun g => snd g <> []) acc ->
             Forall (fun g => snd g <> [])
               (fold_left
                  (fun groups step =>
                     if PlanLevel_eqb (PlanStep.level step) Execution
                     then pushToGroup groups (groupKey step) step
                     else groups) steps acc)).
  { induction steps as [| s ss IH]; simpl; intros acc Hacc.
    - assumption.
    - apply IH. destruct (PlanLevel_eqb _ _); [| assumption].
      now apply pushToGroup_nonempty. }
  apply H. constructor.
Qed.

(** ** Totality of the compressor *)

Lemma mergeSteps_nonempty steps :
  steps <> [] -> exists merged, mergeSteps steps = Ok merged.
Proof.
  destruct steps as [| s [| s' rest]]; intros H.
  - congruence.
  - now exists s.
  - simpl. eexists. reflexivity.
Qed.

Lemma processGroups_ok limit groups :
  Forall (fun g : string * list PlanStep.t => snd g <> []) groups ->
  forall st, exists st', fold_left (processGroup limit) groups (Ok st) = Ok st'.
Proof.
  induction groups as [| g rest IH]; simpl; intros H st.
  - now exists st.
  - inversion H as [| ? ? Hg Hrest]; subst.
    destruct (fits (length (snd g)) limit).
    + now apply IH.
    + unfold mergeGroup.
      destruct (mergeSteps_nonempty Hg) as [merged ->]. simpl.
      now apply IH.
Qed.

Lemma applyDynamicChunking_ok plan limit :
  exists stage, applyDynamicChunking plan limit = Ok stage.
Proof.
  unfold applyDynamicChunking.
  destruct (truthy limit) as [n |].
  - destruct (processGroups_ok n (buildGroups_nonempty (TaskPlan.steps plan))
                               MergeState.empty) as [st ->].
    simpl. eexists. reflexivity.
  - eexists. reflexivity.
Qed.

Lemma applyDynamicChunking_phases plan limit stage :
  applyDynamicChunking plan limit = Ok stage ->
  TaskPlan.phases (Stage.plan stage) = TaskPlan.phases plan
  /\ TaskPlan.scopes (Stage.plan stage) = TaskPlan.scopes plan.
Proof.
  unfold applyDynamicChunking.
  destruct (truthy limit) as [n |].
  - destruct (fold_left _ _ _); simpl; try discriminate.
    intros [= <-]. now simpl.
  - intros [= <-]. now simpl.
Qed.

(** ** Numbers as limits *)

Lemma truthy_Some limit x :
  truthy limit = Some x -> limit = Some x /\ isTruthy x = true.
Proof.
  destruct limit as [y |]; cbn; [| discriminate].
  destruct (isTruthy y) eqn:Hy; intros [= <-]. now split.
Qed.

Lemma fits_exceeds n x : isTruthy x = true -> fits n x = negb (exceeds n x).
Proof.
  destruct x as [z | below shown | negative shown |]; cbn; intros Hx;
    try discriminate; try reflexivity.
  - destruct (Z.of_nat n <=? z)%Z eqn:E, (z <? Z.of_nat n)%Z eqn:E';
      try reflexivity; lia.
  - destruct (Z.of_nat n <=? below)%Z eqn:E, (below <? Z.of_nat n)%Z eqn:E';
      try reflexivity; lia.
Qed.

Lemma exceeds_iff n x :
  isTruthy x = true -> (exceeds n x = true <-> fits n x = false).
Proof.
  intros Hx. rewrite (@fits_exceeds n x Hx). now destruct (exceeds n x).
Qed.

Lemma exceeds_natural m n : exceeds m (natural n) = (n <? m).
Proof.
  unfold exceeds, natural. destruct (n <? m) eqn:E.
  - apply Nat.ltb_lt in E. apply Z.ltb_lt. lia.
  - apply Nat.ltb_ge in E. apply Z.ltb_ge. lia.
Qed.

Lemma fits_natural m n : fits m (natural n) = (m <=? n).
Proof.
  unfold fits, natural. destruct (m <=? n) eqn:E.
  - apply Nat.leb_le in E. apply Z.leb_le. lia.
  - apply Nat.leb_gt in E. apply Z.leb_gt. lia.
Qed.

Lemma sliceIndex_natural len n : sliceIndex len (natural n) = Nat.min n len.
Proof.
  unfold sliceIndex, natural, relIndex.
  destruct (Z.of_nat n <? 0)%Z eqn:E; [lia |]. now rewrite Nat2Z.id.
Qed.

Lemma sliceIndex_le len x : sliceIndex len x <= len.
Proof.
  assert (Hrel : forall i, relIndex len i <= len).
  { intros i. unfold relIndex. destruct (i <? 0)%Z eqn:E; lia. }
  destruct x as [z | below shown | [] shown |]; cbn; auto; lia.
Qed.

Lemma sliceTo_natural {A : Type} (xs : list A) n :
  sliceTo xs (natural n) = firstn n xs.
Proof.
  unfold sliceTo. rewrite sliceIndex_natural.
  destruct (Nat.le_ge_cases n (length xs)) as [Hle | Hge].
  - now rewrite Nat.min_l.
  - rewrite Nat.min_r by exact Hge. now rewrite !firstn_all2.
Qed.

Lemma sliceFrom_natural {A : Type} (xs : list A) n :
  sliceFrom xs (natural n) = skipn n xs.
Proof.
  unfold sliceFrom. rewrite sliceIndex_natural.
  destruct (Nat.le_ge_cases n (length xs)) as [Hle | Hge].
  - now rewrite Nat.min_l.
  - rewrite Nat.min_r by exact Hge. now rewrite !skipn_all2.
Qed.

Lemma slice_parts {A : Type} (xs : list A) x : sliceTo xs x ++ sliceFrom xs x = xs.
Proof. apply firstn_skipn. Qed.

Lemma schemaAccepts_natural limit :
  schemaAccepts limit ->
  limit = None \/ exists n, limit = Some (natural (S n)).
Proof.
  destruct limit as [[z | | |] |]; cbn; intros H; try contradiction;
    [right | now left].
  exists (Z.to_nat (z - 1)). unfold natural. do 2 f_equal. lia.
Qed.

Lemma truthy_natural n : truthy (Some (natural (S n))) = Some (natural (S n)).
Proof. reflexivity. Qed.

Lemma schemaAccepts_leaves len limit :
  0 < len -> schemaAccepts limit -> leavesAPhase len limit = true.
Proof.
  intros Hlen Hok. destruct (schemaAccepts_natural _ Hok) as [-> | [n ->]];
    [reflexivity |].
  unfold leavesAPhase. rewrite truthy_natural, sliceIndex_natural.
  apply orb_true_iff. right. apply Nat.ltb_lt. lia.
Qed.

Lemma applyGlobalLimits_phases plan maxPhases maxSteps :
  TaskPlan.phases (Stage.plan (applyGlobalLimits plan maxPhases maxSteps))
  = fst (fst (applyPhaseLimit plan maxPhases)).
Proof.
  unfold applyGlobalLimits. destruct (truthy maxSteps); reflexivity.
Qed.

Lemma applyGlobalLimits_scopes plan maxPhases maxSteps :
  TaskPlan.scopes (Stage.plan (applyGlobalLimits plan maxPhases maxSteps))
  = TaskPlan.scopes plan.
Proof.
  unfold applyGlobalLimits. destruct (truthy maxSteps); reflexivity.
Qed.

Lemma applyPhaseLimit_nonempty plan maxPhases :
  TaskPlan.phases plan <> [] ->
  leavesAPhase (length (TaskPlan.phases plan)) maxPhases = true ->
  fst (fst (applyPhaseLimit plan maxPhases)) <> [].
Proof.
  intros Hne. unfold applyPhaseLimit, leavesAPhase.
  destruct (truthy maxPhases) as [x |]; [| intros _; assumption].
  destruct (exceeds (length (TaskPlan.phases plan)) x); [| intros _; assumption].
  cbn [negb orb fst]. intros Hkept%Nat.ltb_lt. unfold sliceTo.
  destruct (sliceIndex _ x); [lia |].
  destruct (TaskPlan.phases plan); [congruence | discriminate].
Qed.

Lemma applyPhaseLimit_empty plan maxPhases :
  leavesAPhase (length (TaskPlan.phases plan)) maxPhases = false ->
  fst (fst (applyPhaseLimit plan maxPhases)) = []
  /\ snd (fst (applyPhaseLimit plan maxPhases)) = [].
Proof.
  unfold applyPhaseLimit, leavesAPhase.
  destruct (truthy maxPhases) as [x |]; [| discriminate].
  destruct (exceeds (length (TaskPlan.phases plan)) x); [| discriminate].
  cbn [negb orb fst snd]. intros Hnone%Nat.ltb_ge. unfold sliceTo.
  replace (sliceIndex (length (TaskPlan.phases plan)) x) with 0 by lia.
  cbn. split; [reflexivity |].
  induction (TaskPlan.steps plan) as [| s ss IH]; [reflexivity | exact IH].
Qed.

Lemma preserveFirstStep_phases planBefore currentPlan :
  TaskPlan.phases (fst (preserveFirstStep planBefore currentPlan))
  = TaskPlan.phases currentPlan.
Proof.
  unfold preserveFirstStep.
  destruct (TaskPlan.steps currentPlan); [| reflexivity].
  destruct (TaskPlan.steps planBefore); [reflexivity |].
  destruct (find _ _); [reflexivity |].
  destruct (TaskPlan.phases currentPlan) eqn:E; simpl; congruence.
Qed.

Lemma preserveFirstStep_scopes planBefore currentPlan :
  TaskPlan.scopes (fst (preserveFirstStep planBefore currentPlan))
  = TaskPlan.scopes currentPlan.
Proof.
  unfold preserveFirstStep.
  destruct (TaskPlan.steps currentPlan); [| reflexivity].
  destruct (TaskPlan.steps planBefore); [reflexivity |].
  destruct (find _ _); [reflexivity |].
  now destruct (TaskPlan.phases currentPlan).
Qed.

(** The safety net leaves a step whenever the plan passed in had one and a
    phase remains. *)
Lemma preserveFirstStep_steps planBefore currentPlan :
  TaskPlan.steps planBefore <> [] ->
  TaskPlan.phases currentPlan <> [] ->
  TaskPlan.steps (fst (preserveFirstStep planBefore currentPlan)) <> [].
Proof.
  intros Hsteps Hphases. unfold preserveFirstStep.
  destruct (TaskPlan.steps currentPlan) eqn:Hcur.
  - destruct (TaskPlan.steps planBefore); [congruence |].
    destruct (find _ _); [simpl; discriminate |].
    destruct (TaskPlan.phases currentPlan); [congruence | simpl; discriminate].
  - simpl. rewrite Hcur. discriminate.
Qed.

Lemma finalValidation_plan currentPlan :
  fst (finalValidation currentPlan) = currentPlan.
Proof.
  unfold finalValidation, validateTaskPlan.
  now destruct (taskPlanSchema currentPlan).
Qed.

Lemma applyStepLimit_nil maxSteps : applyStepLimit maxSteps [] = ([], 0).
Proof. reflexivity. Qed.

(** The phases and steps that [validatePlan] returns, from the stage of the
    global limits. *)
Lemma validatePlan_limited now plan options :
  exists chunked r,
    applyDynamicChunking
      (Stage.plan (validatePlanScopes now (Stage.plan (validatePlanLevels plan))))
      (maxMicroStepsPerPhase options) = Ok chunked
    /\ validatePlan now plan options = Ok r
    /\ TaskPlan.phases (Stage.plan chunked) = TaskPlan.phases plan
    /\ ValidatePlanResult.plan r
       = fst (preserveFirstStep plan
                (Stage.plan (applyGlobalLimits (Stage.plan chunked)
                               (targetMaxPhases options)
                               (targetMaxSteps options)))).
Proof.
  unfold validatePlan.
  destruct (applyDynamicChunking_ok
              (Stage.plan (validatePlanScopes now (Stage.plan (validatePlanLevels plan))))
              (maxMicroStepsPerPhase options)) as [chunked Hchunk].
  rewrite Hchunk. cbn [bind]. eexists. eexists. split; [reflexivity |].
  split; [reflexivity |]. cbn [ValidatePlanResult.plan].
  rewrite finalValidation_plan. split; [| reflexivity].
  apply applyDynamicChunking_phases in Hchunk. now destruct Hchunk as [-> _].
Qed.

(** C2 (amended). A plan with at least one phase and one step is compressed
    without an exception, whatever numbers the limits are.  The result has
    at least one phase and one step when the phase limit leaves a phase:
    [targetMaxPhases] is absent, 0 or NaN, or not below the number of
    phases, or [slice(0, targetMaxPhases)] keeps a phase.  That is so for
    every limit the input schema of the tool accepts (a positive integer),
    with any [targetMaxSteps] and [maxMicroStepsPerPhase].  When the phase
    limit leaves no phase, the result has no phase and no step. *)
Theorem C2_validatePlan_never_empty (now : Z) (plan : TaskPlan.t)
        (options : ValidatePlanOptions) :
  TaskPlan.phases plan <> [] ->
  TaskPlan.steps plan <> [] ->
  exists r,
    validatePlan now plan options = Ok r
    /\ (schemaAccepts (targetMaxPhases options)
        \/ leavesAPhase (length (TaskPlan.phases plan))
                        (targetMaxPhases options) = true ->
        TaskPlan.phases (ValidatePlanResult.plan r) <> []
        /\ TaskPlan.steps (ValidatePlanResult.plan r) <> [])
    /\ (leavesAPhase (length (TaskPlan.phases plan))
                     (targetMaxPhases options) = false ->
        TaskPlan.phases (ValidatePlanResult.plan r) = []
        /\ TaskPlan.steps (ValidatePlanResult.plan r) = []).
Proof.
  intros Hphases Hsteps.
  destruct (validatePlan_limited now plan options)
    as [chunked [r [_ [Hrun [Hph Hplan]]]]].
  exists r. split; [exact Hrun |]. rewrite Hplan.
  set (limited := applyGlobalLimits (Stage.plan chunked)
                    (targetMaxPhases options) (targetMaxSteps options)).
  assert (Hlimited : TaskPlan.phases (Stage.plan limited)
                     = fst (fst (applyPhaseLimit (Stage.plan chunked)
                                   (targetMaxPhases options))))
    by apply applyGlobalLimits_phases.
  split.
  - intros Hleaves.
    assert (Hkept : leavesAPhase (length (TaskPlan.phases plan))
                                 (targetMaxPhases options) = true).
    { destruct Hleaves as [Hok | Hkept]; [| exact Hkept].
      apply schemaAccepts_leaves; [| exact Hok].
      destruct (TaskPlan.phases plan); [congruence | cbn; lia]. }
    assert (Hne : TaskPlan.phases (Stage.plan limited) <> []).
    { rewrite Hlimited. apply applyPhaseLimit_nonempty; rewrite Hph; assumption. }
    split.
    + now rewrite preserveFirstStep_phases.
    + now apply preserveFirstStep_steps.
  - intros Hnone. rewrite <- Hph in Hnone.
    destruct (applyPhaseLimit_empty _ _ Hnone) as [Hnophase Hnostep].
    assert (Hempty : TaskPlan.phases (Stage.plan limited) = []
                     /\ TaskPlan.steps (Stage.plan limited) = []).
    { split; [now rewrite Hlimited |].
      subst limited. unfold applyGlobalLimits. rewrite Hnostep.
      destruct (truthy (targetMaxSteps options)); reflexivity. }
    destruct Hempty as [He1 He2].
    unfold preserveFirstStep. rewrite He1, He2.
    destruct (TaskPlan.steps plan); cbn; now split.
Qed.

(** ** Merging *)

Lemma C2_witness :
  exists r,
    validatePlan 0 Sample.lateSteps (Sample.phasesAtMost 1) = Ok r
    /\ TaskPlan.phases (ValidatePlanResult.plan r) <> []
    /\ TaskPlan.steps (ValidatePlanResult.plan r) <> [].
Proof.
  destruct (@C2_validatePlan_never_empty 0 Sample.lateSteps
              (Sample.phasesAtMost 1)) as [r [Hrun [Hkept _]]];
    [cbn; discriminate | cbn; discriminate |].
  exists r. split; [exact Hrun |]. apply Hkept. left. cbn. lia.
Defined.

(** C2 as stated does not hold for every number: with a phase limit of -1
    (or of 0.5) a valid plan with one phase comes back without phase and
    without step. *)
Lemma C2_counterexample :
  taskPlanSchema Sample.editTestEdit = true
  /\ TaskPlan.phases Sample.editTestEdit <> []
  /\ TaskPlan.steps Sample.editTestEdit <> []
  /\ (exists r,
        validatePlan 0 Sample.editTestEdit (Sample.phasesAtMost (-1)) = Ok r
        /\ TaskPlan.phases (ValidatePlanResult.plan r) = []
        /\ TaskPlan.steps (ValidatePlanResult.plan r) = [])
  /\ (exists r,
        validatePlan 0 Sample.editTestEdit
          (mkOptions (Some (Frac 0 "0.5")) None None) = Ok r
        /\ TaskPlan.phases (ValidatePlanResult.plan r) = []
        /\ TaskPlan.steps (ValidatePlanResult.plan r) = []).
Proof.
  split; [reflexivity |]. split; [discriminate |]. split; [discriminate |].
  split; eexists; (split; [reflexivity |]); split; reflexivity.
Qed.

(** ** Scope validation *)

Lemma filter_app_length (A : Type) (f : A -> bool) (l1 l2 : list A) :
  length (filter f (l1 ++ l2)) = length (filter f l1) + length (filter f l2).
Proof. now rewrite filter_app, length_app. Qed.

Lemma find_none_filter (A : Type) (f : A -> bool) (l : list A) :
  find f l = None -> filter f l = [].
Proof.
  induction l as [| a l IH]; simpl; [reflexivity |].
  destruct (f a); [discriminate | assumption].
Qed.

Lemma find_some_filter (A : Type) (f : A -> bool) (l : list A) (a : A) :
  find f l = Some a -> 1 <= length (filter f l).
Proof.
  induction l as [| b l IH]; simpl; [discriminate |].
  destruct (f b); simpl; [lia | assumption].
Qed.

Lemma ensureGlobalScope_count now scopes :
  let updated := fst (fst (ensureGlobalScope now scopes)) in
  1 <= globalScopeCount updated
  /\ (globalScopeCount scopes <= 1 -> globalScopeCount updated = 1).
Proof.
  unfold ensureGlobalScope, globalScopeCount.
  destruct (find _ scopes) as [g |] eqn:Hfind; simpl.
  - apply find_some_filter in Hfind. lia.
  - rewrite filter_app_length. apply find_none_filter in Hfind.
    rewrite Hfind. simpl. lia.
Qed.

(** The id of the global scope the steps are reassigned to is the id of one
    of the scopes. *)
Lemma ensureGlobalScope_id now scopes :
  In (snd (fst (ensureGlobalScope now scopes)))
     (map PlanScope.id (fst (fst (ensureGlobalScope now scopes)))).
Proof.
  unfold ensureGlobalScope.
  destruct (find _ scopes) as [g |] eqn:Hfind; simpl.
  - apply find_some in Hfind. apply in_map. tauto.
  - rewrite map_app, in_app_iff. right. now left.
Qed.

Lemma ensureGlobalScope_incl now scopes s :
  In s scopes -> In s (fst (fst (ensureGlobalScope now scopes))).
Proof.
  unfold ensureGlobalScope.
  destruct (find _ scopes); simpl; [tauto |].
  rewrite in_app_iff. tauto.
Qed.

Lemma scopeResolved_iff scopes step :
  scopeResolved scopes step = true
  <-> PlanStep.scopeId step = None
      \/ exists sc, PlanStep.scopeId step = Some sc /\ In sc (map PlanScope.id scopes).
Proof.
  unfold scopeResolved. destruct (PlanStep.scopeId step) as [sc |].
  - rewrite existsb_exists. split.
    + intros [s [Hin Heq]]. apply String.eqb_eq in Heq. subst.
      right. eexists. split; [reflexivity |]. now apply in_map.
    + intros [H | [sc' [[= <-] Hin]]]; [discriminate |].
      apply in_map_iff in Hin. destruct Hin as [s [<- Hin]].
      exists s. split; [assumption | apply String.eqb_refl].
  - split; auto.
Qed.

Lemma scopeResolved_incl scopes scopes' step :
  (forall s, In s scopes -> In s scopes') ->
  scopeResolved scopes step = true -> scopeResolved scopes' step = true.
Proof.
  intros Hincl. rewrite !scopeResolved_iff.
  intros [H | [sc [H Hin]]]; [now left | right].
  exists sc. split; [assumption |].
  apply in_map_iff in Hin. destruct Hin as [s [<- Hin]].
  apply in_map. auto.
Qed.

Lemma repairStepScope_resolved scopes globalScopeId step :
  In globalScopeId (map PlanScope.id scopes) ->
  scopeResolved scopes
    (fst (repairStepScope (set_of_list (map PlanScope.id scopes)) globalScopeId step))
  = true.
Proof.
  intros Hglobal. unfold repairStepScope.
  destruct (PlanStep.scopeId step) as [sc |] eqn:Hsc.
  - destruct (set_has _ sc) eqn:Hhas; simpl.
    + apply scopeResolved_iff. right. exists sc. split; [assumption |].
      now apply set_has_of_list.
    + apply scopeResolved_iff. right. exists globalScopeId. now split.
  - simpl. apply scopeResolved_iff. now left.
Qed.

Lemma validatePlanScopes_resolved now plan :
  scopesResolved (Stage.plan (validatePlanScopes now plan)) = true.
Proof.
  unfold scopesResolved, validatePlanScopes. simpl.
  apply forallb_forall. intros step Hin.
  rewrite map_map in Hin. apply in_map_iff in Hin.
  destruct Hin as [s [<- _]].
  apply repairStepScope_resolved, ensureGlobalScope_id.
Qed.

(** ** Grouping by a string key *)

Section GroupBy.
Variable A : Type.

Lemma pushToGroup_keys (m : list (string * list A)) k x k' :
In k' (map fst (pushToGroup m k x)) <-> In k' (map fst m) \/ k' = k.
Proof.
induction m as [| [k0 g0] rest IH]; simpl.
- intuition.
- destruct (String.eqb k0 k) eqn:E; simpl.
+ apply String.eqb_eq in E. subst. intuition.
+ rewrite IH. intuition.
Qed.

Lemma pushToGroup_NoDup (m : list (string * list A)) k x :
NoDup (map fst m) -> NoDup (map fst (pushToGroup m k x)).
Proof.
induction m as [| [k0 g0] rest IH]; simpl; intros H.
- constructor; [intros [] | constructor].
- inversion H as [| ? ? Hnotin Hrest]; subst.
destruct (String.eqb k0 k) eqn:E; simpl.
+ now constructor.
+ constructor; [| now apply IH].
rewrite pushToGroup_keys. intros [Hin | ->]; [contradiction |].
now rewrite String.eqb_refl in E.
Qed.

Lemma pushToGroup_In (m : list (string * list A)) k x k' g' :
NoDup (map fst m) ->
In (k', g') (pushToGroup m k x) ->
(k' <> k /\ In (k', g') m)
\/ (k' = k /\ ((exists g, In (k, g) m /\ g' = g ++ [x])
   \/ (~ In k (map fst m) /\ g' = [x]))).
Proof.
induction m as [| [k0 g0] rest IH]; simpl; intros Hnd Hin.
- destruct Hin as [[= <- <-] | []]. right. split; [reflexivity |].
right. split; [tauto | reflexivity].
- inversion Hnd as [| ? ? Hnotin Hrest]; subst.
destruct (String.eqb k0 k) eqn:E.
+ apply String.eqb_eq in E. subst k0.
destruct Hin as [[= <- <-] | Hin].
* right. split; [reflexivity |]. left. exists g0. split; [now left | reflexivity].
* left. split; [| now right].
intros ->. apply Hnotin. apply (in_map fst) in Hin. exact Hin.
+ apply String.eqb_neq in E.
destruct Hin as [[= <- <-] | Hin].
* left. split; [assumption | now left].
* destruct (IH Hrest Hin) as [[Hneq H] | [-> [[g [H ->]] | [H ->]]]].
-- left. split; [assumption | now right].
-- right. split; [reflexivity |]. left. exists g. split; [now right | reflexivity].
-- right. split; [reflexivity |]. right. split; [| reflexivity].
 intros [H' | H']; [now apply E | now apply H].
Qed.

Variable keyOf : A -> string.

Local Abbreviation hasKey := (hasKey keyOf).
Local Abbreviation grouped := (grouped keyOf).

Lemma filter_hasKey_snoc k seen x :
filter (hasKey k) (seen ++ [x])
= filter (hasKey k) seen ++ (if hasKey k x then [x] else []).
Proof. rewrite filter_app. simpl. now destruct (hasKey k x). Qed.

Lemma grouped_push seen m x :
grouped seen m -> grouped (seen ++ [x]) (pushToGroup m (keyOf x) x).
Proof.
intros [Hkeys Hmembers Htotal]. constructor.
- now apply pushToGroup_NoDup.
- intros k g Hin. rewrite filter_hasKey_snoc.
apply pushToGroup_In in Hin; [| assumption].
destruct Hin as [[Hneq Hin] | [-> [[g0 [Hin ->]] | [Hnotin ->]]]].
+ destruct (Hmembers _ _ Hin) as [-> Hne].
assert (Hx : hasKey k x = false).
{ unfold hasKey. apply String.eqb_neq. congruence. }
rewrite Hx, app_nil_r. now split.
+ destruct (Hmembers _ _ Hin) as [-> Hne].
assert (Hx : hasKey (keyOf x) x = true) by apply String.eqb_refl.
rewrite Hx. split; [reflexivity |].
now destruct (filter _ seen).
+ assert (Hx : hasKey (keyOf x) x = true) by apply String.eqb_refl.
rewrite Hx.
assert (Hempty : filter (hasKey (keyOf x)) seen = []).
{ destruct (filter (hasKey (keyOf x)) seen) as [| y ys] eqn:Hf; [reflexivity |].
exfalso. apply Hnotin.
assert (Hy : In y (filter (hasKey (keyOf x)) seen)) by (rewrite Hf; now left).
apply filter_In in Hy. destruct Hy as [Hy Hkey].
apply String.eqb_eq in Hkey. rewrite <- Hkey. now apply Htotal. }
rewrite Hempty. split; [reflexivity | discriminate].
- intros y Hy. rewrite pushToGroup_keys.
apply in_app_iff in Hy. destruct Hy as [Hy | [<- | []]]; [left | right]; auto.
Qed.

Lemma grouped_fold xs : forall seen m,
grouped seen m ->
grouped (seen ++ xs) (fold_left (fun m x => pushToGroup m (keyOf x) x) xs m).
Proof.
induction xs as [| x xs IH]; simpl; intros seen m H.
- now rewrite app_nil_r.
- replace (seen ++ x :: xs) with ((seen ++ [x]) ++ xs)
by (now rewrite <- app_assoc).
apply IH. now apply grouped_push.
Qed.

Theorem groupBy_grouped xs : grouped xs (groupBy keyOf xs).
Proof.
apply (grouped_fold xs (seen := []) (m := [])).
constructor; simpl; [constructor | tauto | tauto].
Qed.

(** Every element is in the group of its key. *)
Lemma groupBy_complete xs x :
In x xs -> exists g, In (keyOf x, g) (groupBy keyOf xs) /\ In x g.
Proof.
intros Hx. destruct (groupBy_grouped xs) as [_ Hmembers Htotal].
specialize (Htotal _ Hx). apply in_map_iff in Htotal.
destruct Htotal as [[k g] [Hk Hin]]. simpl in Hk. subst k.
exists g. split; [assumption |].
destruct (Hmembers _ _ Hin) as [-> _].
apply filter_In. split; [assumption | apply String.eqb_refl].
Qed.

Lemma groupBy_sound xs k g x :
In (k, g) (groupBy keyOf xs) -> In x g -> In x xs /\ keyOf x = k.
Proof.
intros Hin Hx. destruct (groupBy_grouped xs) as [_ Hmembers _].
destruct (Hmembers _ _ Hin) as [-> _].
apply filter_In in Hx. destruct Hx as [Hx Hkey].
apply String.eqb_eq in Hkey. now split.
Qed.

Lemma groupBy_unique xs k g g' :
In (k, g) (groupBy keyOf xs) -> In (k, g') (groupBy keyOf xs) -> g = g'.
Proof.
intros H H'. destruct (groupBy_grouped xs) as [_ Hmembers _].
destruct (Hmembers _ _ H) as [-> _]. now destruct (Hmembers _ _ H') as [-> _].
Qed.
End GroupBy.

Lemma buildGroups_groupBy steps :
  buildGroups steps
  = groupBy groupKey
      (filter (fun s => PlanLevel_eqb (PlanStep.level s) Execution) steps).
Proof.
  unfold buildGroups, groupBy. generalize (@nil (string * list PlanStep.t)).
  induction steps as [| s ss IH]; simpl; intros acc; [reflexivity |].
  destruct (PlanLevel_eqb _ _); simpl; apply IH.
Qed.

(** ** The merge loop of dynamic chunking *)

Lemma mergeSteps_identity first rest merged :
  mergeSteps (first :: rest) = Ok merged ->
  PlanStep.id merged = PlanStep.id first
  /\ PlanStep.scopeId merged = PlanStep.scopeId first
  /\ PlanStep.phaseId merged = PlanStep.phaseId first
  /\ (forall d, In d (PlanStep.dependencies merged) ->
                exists s, In s (first :: rest) /\ In d (PlanStep.dependencies s)).
Proof.
  destruct rest as [| second rest]; simpl; intros [= <-].
  - repeat split; try reflexivity. intros d Hd. exists first. split; [now left | assumption].
  - simpl. repeat split; try reflexivity.
    intros d Hd. simpl in Hd. apply (proj1 (set_of_list_In _ _)) in Hd.
    apply (in_flat_map PlanStep.dependencies (first :: second :: rest)).
    exact Hd.
Qed.

Lemma keepGroup_spec groupSteps : forall st,
  let st' := keepGroup st groupSteps in
  (forall u, In u (MergeState.mergedSteps st') ->
             In u (MergeState.mergedSteps st) \/ In u groupSteps)
  /\ (forall u, In u (MergeState.mergedSteps st) -> In u (MergeState.mergedSteps st'))
  /\ MergeState.stepsToRemove st' = MergeState.stepsToRemove st
  /\ MergeState.changes st' = MergeState.changes st
  /\ (forall x, In x (MergeState.processedStepIds st') <->
                In x (MergeState.processedStepIds st) \/ In x (stepIds groupSteps)).
Proof.
  induction groupSteps as [| s ss IH]; intros st; cbn zeta.
  - simpl. intuition.
  - unfold keepGroup. simpl fold_left. fold (keepGroup
      (if negb (set_has (MergeState.processedStepIds st) (PlanStep.id s))
       then MergeState.mk (MergeState.mergedSteps st ++ [s])
              (set_add (MergeState.processedStepIds st) (PlanStep.id s))
              (MergeState.stepsToRemove st) (MergeState.changes st)
       else st) ss).
    match goal with |- context [keepGroup ?x ss] => set (st1 := x) end.
    destruct (IH st1) as [H1 [H2 [H3 [H4 H5]]]].
    assert (Hmerged : forall u, In u (MergeState.mergedSteps st1) <->
                                In u (MergeState.mergedSteps st)
                                \/ (u = s /\ set_has (MergeState.processedStepIds st)
                                                     (PlanStep.id s) = false)).
    { subst st1. intros u. destruct (set_has _ _); simpl.
      - intuition congruence.
      - rewrite in_app_iff. simpl. intuition. }
    assert (Hproc : forall x, In x (MergeState.processedStepIds st1) <->
                              In x (MergeState.processedStepIds st) \/ x = PlanStep.id s).
    { subst st1. intros x. destruct (set_has _ _) eqn:E; simpl.
      - apply set_has_In in E. intuition congruence.
      - apply set_add_In. }
    assert (Hrem : MergeState.stepsToRemove st1 = MergeState.stepsToRemove st
                   /\ MergeState.changes st1 = MergeState.changes st).
    { subst st1. now destruct (set_has _ _). }
    repeat split.
    + intros u Hu. destruct (H1 u Hu) as [Hu' | Hu']; [| right; now right].
      apply Hmerged in Hu'. destruct Hu' as [Hu' | [-> _]]; [now left | right; now left].
    + intros u Hu. apply H2, Hmerged. now left.
    + rewrite H3. apply Hrem.
    + rewrite H4. apply Hrem.
    + intros Hx. apply H5 in Hx. rewrite Hproc in Hx. simpl. intuition.
    + intros Hx. apply H5. rewrite Hproc. simpl in Hx. intuition.
Qed.

(** When no id of the group was processed before and the ids of the group are
    distinct, every step of the group is pushed. *)
Lemma keepGroup_fresh groupSteps : forall st,
  NoDup (stepIds groupSteps) ->
  (forall x, In x (stepIds groupSteps) -> ~ In x (MergeState.processedStepIds st)) ->
  MergeState.mergedSteps (keepGroup st groupSteps)
  = MergeState.mergedSteps st ++ groupSteps.
Proof.
  induction groupSteps as [| s ss IH]; intros st Hnd Hfresh.
  - simpl. now rewrite app_nil_r.
  - inversion Hnd as [| ? ? Hnotin Hnd']; subst.
    unfold keepGroup. simpl fold_left.
    assert (Hs : set_has (MergeState.processedStepIds st) (PlanStep.id s) = false).
    { apply set_has_false. apply Hfresh. now left. }
    rewrite Hs. simpl negb. cbv iota.
    change (fold_left _ ss ?x) with (keepGroup x ss).
    rewrite IH; simpl.
    + now rewrite <- app_assoc.
    + assumption.
    + intros x Hx Hin. apply set_add_In in Hin. destruct Hin as [Hin | ->].
      * apply (Hfresh x); [now right | assumption].
      * contradiction.
Qed.

Lemma mergeGroup_marks groupSteps mergedId : forall st,
  let marked :=
    fold_left
      (fun st step =>
         MergeState.mk (MergeState.mergedSteps st)
                       (set_add (MergeState.processedStepIds st) (PlanStep.id step))
                       (if negb (String.eqb (PlanStep.id step) mergedId)
                        then set_add (MergeState.stepsToRemove st) (PlanStep.id step)
                        else MergeState.stepsToRemove st)
                       (MergeState.changes st))
      groupSteps st in
  MergeState.mergedSteps marked = MergeState.mergedSteps st
  /\ MergeState.changes marked = MergeState.changes st
  /\ (forall x, In x (MergeState.processedStepIds marked) <->
                In x (MergeState.processedStepIds st) \/ In x (stepIds groupSteps))
  /\ (forall x, In x (MergeState.stepsToRemove marked) <->
                In x (MergeState.stepsToRemove st)
                \/ (In x (stepIds groupSteps) /\ x <> mergedId)).
Proof.
  induction groupSteps as [| s ss IH]; intros st; cbn zeta.
  - simpl. intuition.
  - simpl fold_left.
    match goal with |- context [fold_left _ ss ?x] => set (st1 := x) end.
    destruct (IH st1) as [H1 [H2 [H3 H4]]].
    repeat split.
    + now rewrite H1.
    + now rewrite H2.
    + intros Hx. apply H3 in Hx. subst st1. simpl in Hx.
      rewrite set_add_In in Hx. simpl. intuition.
    + intros Hx. apply H3. subst st1. simpl. rewrite set_add_In.
      simpl in Hx. intuition.
    + intros Hx. apply H4 in Hx. subst st1. simpl in Hx. simpl.
      destruct (String.eqb (PlanStep.id s) mergedId) eqn:E; simpl in Hx.
      * intuition.
      * apply String.eqb_neq in E. rewrite set_add_In in Hx.
        intuition (subst; auto).
    + intros Hx. apply H4. subst st1. simpl. simpl in Hx.
      destruct (String.eqb (PlanStep.id s) mergedId) eqn:E; simpl.
      * apply String.eqb_eq in E. intuition congruence.
      * rewrite set_add_In. intuition.
Qed.

Lemma mergeGroup_spec st groupSteps st' :
  mergeGroup st groupSteps = Ok st' ->
  exists merged,
    mergeSteps groupSteps = Ok merged
    /\ MergeState.mergedSteps st' = MergeState.mergedSteps st ++ [merged]
    /\ (exists change, MergeState.changes st' = MergeState.changes st ++ [change]
                       /\ PlanChange.type change = "steps_merged")
    /\ (forall x, In x (MergeState.processedStepIds st') <->
                  In x (MergeState.processedStepIds st) \/ In x (stepIds groupSteps))
    /\ (forall x, In x (MergeState.stepsToRemove st') <->
                  In x (MergeState.stepsToRemove st)
                  \/ (In x (stepIds groupSteps) /\ x <> PlanStep.id merged)).
Proof.
  unfold mergeGroup. destruct (mergeSteps groupSteps) as [merged | |] eqn:Hm;
    simpl; try discriminate.
  intros [= <-]. exists merged. split; [reflexivity |]. simpl.
  match goal with |- context [fold_left ?f groupSteps ?x] =>
    destruct (mergeGroup_marks groupSteps (PlanStep.id merged) x) as [H1 [H2 [H3 H4]]]
  end.
  cbn zeta in *. simpl in *.
  rewrite H1. split; [reflexivity |]. split.
  - eexists. split; [rewrite H2; reflexivity | reflexivity].
  - split; assumption.
Qed.

(** One iteration of [groups.forEach]. *)
Lemma processGroup_spec limit st group st' :
  processGroup limit (Ok st) group = Ok st' ->
  (fits (length (snd group)) limit = true /\ st' = keepGroup st (snd group))
  \/ (fits (length (snd group)) limit = false
      /\ mergeGroup st (snd group) = Ok st').
Proof.
  unfold processGroup. simpl.
  destruct (fits (length (snd group)) limit) eqn:E.
  - intros [= <-]. now left.
  - intros H. now right.
Qed.

Lemma processGroup_throw limit group message :
  fold_left (processGroup limit) group (Throw message) = Throw message.
Proof. induction group; simpl; auto. Qed.

Lemma processGroup_fuel limit group :
  fold_left (processGroup limit) group OutOfFuel = OutOfFuel.
Proof. induction group; simpl; auto. Qed.

Lemma processGroups_step limit group groups st final :
  fold_left (processGroup limit) (group :: groups) (Ok st) = Ok final ->
  exists st1,
    processGroup limit (Ok st) group = Ok st1
    /\ fold_left (processGroup limit) groups (Ok st1) = Ok final.
Proof.
  cbn [fold_left]. destruct (processGroup limit (Ok st) group) as [st1 | m |] eqn:E.
  - intros H. now exists st1.
  - now rewrite processGroup_throw.
  - now rewrite processGroup_fuel.
Qed.

(** Where the contents of the accumulators come from. *)
Lemma processGroups_sound limit groups : forall st final,
  fold_left (processGroup limit) groups (Ok st) = Ok final ->
  (forall u, In u (MergeState.mergedSteps final) ->
     In u (MergeState.mergedSteps st)
     \/ exists g, In g groups
                  /\ ((fits (length (snd g)) limit = true /\ In u (snd g))
                      \/ (fits (length (snd g)) limit = false
                          /\ mergeSteps (snd g) = Ok u)))
  /\ (forall r, In r (MergeState.stepsToRemove final) ->
        In r (MergeState.stepsToRemove st)
        \/ exists g merged, In g groups /\ fits (length (snd g)) limit = false
                            /\ mergeSteps (snd g) = Ok merged
                            /\ In r (stepIds (snd g)) /\ r <> PlanStep.id merged)
  /\ (forall x, In x (MergeState.processedStepIds final) ->
        In x (MergeState.processedStepIds st)
        \/ exists g, In g groups /\ In x (stepIds (snd g))).
Proof.
  induction groups as [| g groups IH]; intros st final Hfold.
  - simpl in Hfold. injection Hfold as <-. repeat split; auto.
  - apply processGroups_step in Hfold. destruct Hfold as [st1 [Hstep Hfold]].
    destruct (IH _ _ Hfold) as [Hm [Hr Hp]].
    apply processGroup_spec in Hstep.
    destruct Hstep as [[Hlen ->] | [Hlen Hmerge]].
    + destruct (keepGroup_spec (snd g) st) as [K1 [K2 [K3 [K4 K5]]]].
      cbn zeta in *. repeat split.
      * intros u Hu. destruct (Hm u Hu) as [Hu' | [g' [Hg' H]]].
        -- destruct (K1 u Hu') as [? | ?]; [now left |].
           right. exists g. split; [now left | left; now split].
        -- right. exists g'. split; [now right | assumption].
      * intros r Hin. destruct (Hr r Hin) as [Hr' | [g' [m [Hg' H]]]].
        -- left. now rewrite <- K3.
        -- right. exists g', m. split; [now right | assumption].
      * intros x Hx. destruct (Hp x Hx) as [Hx' | [g' [Hg' H]]].
        -- apply K5 in Hx'. destruct Hx' as [? | ?]; [now left |].
           right. exists g. split; [now left | assumption].
        -- right. exists g'. split; [now right | assumption].
    + apply mergeGroup_spec in Hmerge.
      destruct Hmerge as [merged [Hms [M1 [_ [M3 M4]]]]].
      repeat split.
      * intros u Hu. destruct (Hm u Hu) as [Hu' | [g' [Hg' H]]].
        -- rewrite M1 in Hu'. apply in_app_iff in Hu'.
           destruct Hu' as [? | [<- | []]]; [now left |].
           right. exists g. split; [now left | right; now split].
        -- right. exists g'. split; [now right | assumption].
      * intros r Hin. destruct (Hr r Hin) as [Hr' | [g' [m [Hg' H]]]].
        -- apply M4 in Hr'. destruct Hr' as [? | [? ?]]; [now left |].
           right. exists g, merged. split; [now left | auto].
        -- right. exists g', m. split; [now right | assumption].
      * intros x Hx. destruct (Hp x Hx) as [Hx' | [g' [Hg' H]]].
        -- apply M3 in Hx'. destruct Hx' as [? | ?]; [now left |].
           right. exists g. split; [now left | assumption].
        -- right. exists g'. split; [now right | assumption].
Qed.

(** The accumulators only grow. *)
Lemma processGroups_mono limit groups : forall st final,
  fold_left (processGroup limit) groups (Ok st) = Ok final ->
  (forall u, In u (MergeState.mergedSteps st) -> In u (MergeState.mergedSteps final))
  /\ (forall r, In r (MergeState.stepsToRemove st) ->
                In r (MergeState.stepsToRemove final))
  /\ (forall x, In x (MergeState.processedStepIds st) ->
                In x (MergeState.processedStepIds final)).
Proof.
  induction groups as [| g groups IH]; intros st final Hfold.
  - simpl in Hfold. injection Hfold as <-. auto.
  - apply processGroups_step in Hfold. destruct Hfold as [st1 [Hstep Hfold]].
    destruct (IH _ _ Hfold) as [Hm [Hr Hp]].
    apply processGroup_spec in Hstep.
    destruct Hstep as [[Hlen ->] | [Hlen Hmerge]].
    + destruct (keepGroup_spec (snd g) st) as [K1 [K2 [K3 [K4 K5]]]].
      cbn zeta in *. repeat split.
      * intros u Hu. apply Hm, K2, Hu.
      * intros r Hin. apply Hr. now rewrite K3.
      * intros x Hx. apply Hp, K5. now left.
    + apply mergeGroup_spec in Hmerge.
      destruct Hmerge as [merged [Hms [M1 [_ [M3 M4]]]]].
      repeat split.
      * intros u Hu. apply Hm. rewrite M1, in_app_iff. now left.
      * intros r Hin. apply Hr, M4. now left.
      * intros x Hx. apply Hp, M3. now left.
Qed.

(** With distinct step ids, nothing is lost: every step of a group within
    the limit is pushed, and a group over the limit leaves its merged step
    and marks its other steps for removal. *)
Lemma processGroups_complete limit groups : forall st final,
  fold_left (processGroup limit) groups (Ok st) = Ok final ->
  NoDup (flat_map (fun g => stepIds (snd g)) groups) ->
  (forall g x, In g groups -> In x (stepIds (snd g)) ->
               ~ In x (MergeState.processedStepIds st)) ->
  forall g, In g groups ->
    (fits (length (snd g)) limit = true ->
     forall s, In s (snd g) -> In s (MergeState.mergedSteps final))
    /\ (fits (length (snd g)) limit = false ->
        exists merged,
          mergeSteps (snd g) = Ok merged
          /\ In merged (MergeState.mergedSteps final)
          /\ forall x, In x (stepIds (snd g)) -> x <> PlanStep.id merged ->
                       In x (MergeState.stepsToRemove final)).
Proof.
  induction groups as [| g0 groups IH]; intros st final Hfold Hnd Hfresh g Hg.
  - destruct Hg.
  - apply processGroups_step in Hfold. destruct Hfold as [st1 [Hstep Hfold]].
    simpl in Hnd. apply NoDup_app_remove_l in Hnd as Hnd'.
    assert (Hdisj : forall x, In x (stepIds (snd g0)) ->
                              forall g', In g' groups -> ~ In x (stepIds (snd g'))).
    { intros x Hx g' Hg' Hx'.
      apply (NoDup_app_disjoint _ _ Hnd x Hx).
      apply in_flat_map. now exists g'. }
    assert (Hnd0 : NoDup (stepIds (snd g0))).
    { now apply NoDup_app_remove_r in Hnd. }
    destruct (processGroups_mono _ _ _ Hfold) as [Mm [Mr Mp]].
    apply processGroup_spec in Hstep.
    destruct Hg as [<- | Hg].
    + (* the group processed now *)
      destruct Hstep as [[Hlen ->] | [Hlen Hmerge]].
      * split; [| congruence]. intros _ s Hs. apply Mm.
        rewrite keepGroup_fresh.
        -- apply in_app_iff. now right.
        -- assumption.
        -- intros x Hx. apply (Hfresh g0); [now left | assumption].
      * split; [congruence |]. intros _.
        apply mergeGroup_spec in Hmerge.
        destruct Hmerge as [merged [Hms [M1 [_ [M3 M4]]]]].
        exists merged. split; [assumption |]. split.
        -- apply Mm. rewrite M1, in_app_iff. right. now left.
        -- intros x Hx Hneq. apply Mr, M4. right. now split.
    + (* a later group *)
      apply (IH st1 final Hfold Hnd'); [| assumption].
      intros g' x Hg' Hx Hin.
      assert (Hcases : In x (MergeState.processedStepIds st)
                       \/ In x (stepIds (snd g0))).
      { destruct Hstep as [[Hlen ->] | [Hlen Hmerge]].
        - now apply (keepGroup_spec (snd g0) st).
        - apply mergeGroup_spec in Hmerge.
          destruct Hmerge as [merged [Hms [M1 [_ [M3 M4]]]]]. now apply M3. }
      destruct Hcases as [Hc | Hc].
      * apply (Hfresh g' x); [now right | assumption | assumption].
      * now apply (Hdisj x Hc g' Hg').
Qed.

(** ** The redirection map *)

Lemma map_get_set (V : Type) (m : list (string * V)) k v k' :
  map_get (map_set m k v) k'
  = if String.eqb k k' then Some v else map_get m k'.
Proof.
  induction m as [| [k0 v0] rest IH]; simpl.
  - reflexivity.
  - destruct (String.eqb k0 k) eqn:E; simpl.
    + apply String.eqb_eq in E. subst k0.
      now destruct (String.eqb k k').
    + rewrite IH. destruct (String.eqb k0 k') eqn:E'; [| reflexivity].
      apply String.eqb_eq in E'. subst k0. now rewrite String.eqb_sym, E.
Qed.

(** The entries written for one merged group. *)
Lemma redirect_members mergedId groupSteps : forall m r,
  map_get
    (fold_left
       (fun m oldStep =>
          if negb (String.eqb (PlanStep.id oldStep) mergedId)
          then map_set m (PlanStep.id oldStep) mergedId else m)
       groupSteps m) r
  = if existsb (String.eqb r) (stepIds groupSteps) && negb (String.eqb r mergedId)
    then Some mergedId else map_get m r.
Proof.
  induction groupSteps as [| s ss IH]; intros m r; simpl.
  - reflexivity.
  - rewrite IH. destruct (existsb (String.eqb r) (stepIds ss)) eqn:Hex; simpl.
    + rewrite orb_true_r. simpl.
      destruct (negb (String.eqb r mergedId)) eqn:Hr; [reflexivity |].
      destruct (negb (String.eqb (PlanStep.id s) mergedId)) eqn:Hs; [| reflexivity].
      rewrite map_get_set.
      destruct (String.eqb (PlanStep.id s) r) eqn:E; [| reflexivity].
      apply String.eqb_eq in E. subst r. rewrite Hs in Hr. discriminate.
    + rewrite orb_false_r.
      destruct (String.eqb r (PlanStep.id s)) eqn:E; simpl.
      * apply String.eqb_eq in E. subst r.
        destruct (negb (String.eqb (PlanStep.id s) mergedId)); [| reflexivity].
        now rewrite map_get_set, String.eqb_refl.
      * destruct (negb (String.eqb (PlanStep.id s) mergedId)); [| reflexivity].
        rewrite map_get_set, String.eqb_sym, E. reflexivity.
Qed.

Lemma redirectGroup_spec limit mergedSteps m group r :
  map_get (redirectGroup limit mergedSteps m group) r
  = match snd group with
    | first :: _ =>
        if exceeds (length (snd group)) limit
           && existsb (String.eqb (PlanStep.id first)) (stepIds mergedSteps)
           && existsb (String.eqb r) (stepIds (snd group))
           && negb (String.eqb r (PlanStep.id first))
        then Some (PlanStep.id first)
        else map_get m r
    | [] => map_get m r
    end.
Proof.
  unfold redirectGroup. destruct (snd group) as [| first rest] eqn:Hg; [reflexivity |].
  destruct (exceeds (length (first :: rest)) limit); [| reflexivity]. simpl andb.
  destruct (find _ mergedSteps) as [mergedStep |] eqn:Hfind.
  - assert (Hid : PlanStep.id mergedStep = PlanStep.id first).
    { apply find_some in Hfind. now apply String.eqb_eq. }
    assert (Hex : existsb (String.eqb (PlanStep.id first)) (stepIds mergedSteps) = true).
    { apply existsb_exists. exists (PlanStep.id mergedStep). split.
      - apply in_map. now apply find_some in Hfind.
      - rewrite Hid. apply String.eqb_refl. }
    rewrite Hex, Hid. simpl andb. apply redirect_members.
  - assert (Hex : existsb (String.eqb (PlanStep.id first)) (stepIds mergedSteps) = false).
    { destruct (existsb _ _) eqn:E; [| reflexivity]. exfalso.
      apply existsb_exists in E. destruct E as [x [Hx Heq]].
      apply String.eqb_eq in Heq. subst x.
      apply in_map_iff in Hx. destruct Hx as [u [Hu Hin]].
      apply (find_none _ _ Hfind) in Hin.
      rewrite Hu, String.eqb_refl in Hin. discriminate. }
    now rewrite Hex.
Qed.

(** Every entry of the map sends a step of a merged group, other than its
    first step, to the id of that first step. *)
Lemma redirect_sound limit mergedSteps groups : forall m r v,
  map_get (fold_left (redirectGroup limit mergedSteps) groups m) r = Some v ->
  map_get m r = Some v
  \/ exists g first rest,
       In g groups /\ snd g = first :: rest
       /\ exceeds (length (snd g)) limit = true
       /\ v = PlanStep.id first /\ In r (stepIds (snd g)) /\ r <> v.
Proof.
  induction groups as [| g groups IH]; simpl; intros m r v H; [now left |].
  apply IH in H. destruct H as [H | [g' [first [rest [Hg' H]]]]].
  - rewrite redirectGroup_spec in H.
    destruct (snd g) as [| first rest] eqn:Hg; [now left |].
    match type of H with (if ?c then _ else _) = _ => destruct c eqn:Hc end;
      [| now left].
    injection H as <-. right. exists g, first, rest.
    apply andb_prop in Hc. destruct Hc as [Hc Hneq].
    apply andb_prop in Hc. destruct Hc as [Hc Hin].
    apply andb_prop in Hc. destruct Hc as [Hlen _].
    rewrite Hg.
    repeat split; auto.
    + apply existsb_exists in Hin. destruct Hin as [x [Hx Heq]].
      apply String.eqb_eq in Heq. now subst.
    + intros ->. rewrite String.eqb_refl in Hneq. discriminate.
  - right. exists g', first, rest. split; [now right | assumption].
Qed.

Lemma redirect_keeps limit mergedSteps groups : forall m r,
  map_get m r <> None ->
  map_get (fold_left (redirectGroup limit mergedSteps) groups m) r <> None.
Proof.
  induction groups as [| g groups IH]; simpl; intros m r H; [assumption |].
  apply IH. rewrite redirectGroup_spec.
  destruct (snd g); [assumption |].
  now destruct (_ && _).
Qed.

(** Every step of a merged group other than its first step has an entry. *)
Lemma redirect_complete limit mergedSteps groups : forall m g first rest r,
  In g groups -> snd g = first :: rest ->
  exceeds (length (snd g)) limit = true ->
  In (PlanStep.id first) (stepIds mergedSteps) ->
  In r (stepIds (snd g)) -> r <> PlanStep.id first ->
  map_get (fold_left (redirectGroup limit mergedSteps) groups m) r <> None.
Proof.
  induction groups as [| g0 groups IH]; simpl;
    intros m g first rest r Hg Hsnd Hlen Hfirst Hr Hneq; [destruct Hg |].
  destruct Hg as [-> | Hg].
  - apply redirect_keeps. rewrite redirectGroup_spec, Hsnd.
    rewrite <- Hsnd at 1.
    rewrite Hlen.
    assert (H1 : existsb (String.eqb (PlanStep.id first)) (stepIds mergedSteps) = true).
    { apply existsb_exists. exists (PlanStep.id first).
      split; [assumption | apply String.eqb_refl]. }
    assert (H2 : existsb (String.eqb r) (stepIds (first :: rest)) = true).
    { apply existsb_exists. exists r. rewrite <- Hsnd.
      split; [assumption | apply String.eqb_refl]. }
    apply String.eqb_neq in Hneq.
    rewrite H1, H2, Hneq. discriminate.
  - now apply (IH _ g first rest).
Qed.

(** ** Dependency integrity of dynamic chunking *)

Lemma NoDup_map_filter (A B : Type) (image : A -> B) (keep : A -> bool)
      (xs : list A) :
  NoDup (map image xs) -> NoDup (map image (filter keep xs)).
Proof.
  induction xs as [| x xs IH]; simpl; intros Hdistinct; [constructor |].
  inversion Hdistinct as [| ? ? Hfresh Hrest]; subst.
  destruct (keep x); simpl; [| now apply IH].
  constructor; [| now apply IH].
  intros Hin. apply Hfresh. apply in_map_iff in Hin.
  destruct Hin as [y [Hy Hin]]. apply filter_In in Hin.
  rewrite <- Hy. apply in_map. tauto.
Qed.

Lemma noDangling_iff steps :
  noDanglingDependencies steps = true
  <-> forall s d, In s steps -> In d (PlanStep.dependencies s) ->
                  In d (stepIds steps).
Proof.
  unfold noDanglingDependencies. rewrite forallb_forall. split.
  - intros H s d Hs Hd. specialize (H s Hs). rewrite forallb_forall in H.
    specialize (H d Hd). apply existsb_exists in H.
    destruct H as [x [Hx Heq]]. apply String.eqb_eq in Heq. now subst.
  - intros H s Hs. apply forallb_forall. intros d Hd.
    apply existsb_exists. exists d. split; [eauto | apply String.eqb_refl].
Qed.

(** The ids of the members of all groups are distinct when those of the
    grouped elements are. *)
Lemma grouped_ids_NoDup (keyOf : PlanStep.t -> string) xs m :
  NoDup (map fst m) ->
  (forall k g, In (k, g) m -> g = filter (hasKey keyOf k) xs) ->
  NoDup (stepIds xs) ->
  NoDup (flat_map (fun g => stepIds (snd g)) m).
Proof.
  intros Hkeys Hmem Hnd.
  induction m as [| [k g] rest IH]; simpl; [constructor |].
  inversion Hkeys as [| ? ? Hnotin Hrest]; subst.
  apply NoDup_app.
  - rewrite (Hmem k g); [| now left]. now apply NoDup_map_filter.
  - apply IH; [assumption |]. intros k' g' Hin. apply Hmem. now right.
  - intros a Ha Ha'. apply in_flat_map in Ha'. destruct Ha' as [[k' g'] [Hg' Ha']].
    simpl in Ha'. rewrite (Hmem k g) in Ha; [| now left].
    rewrite (Hmem k' g') in Ha'; [| now right].
    apply in_map_iff in Ha. destruct Ha as [x [Hx Hxin]].
    apply in_map_iff in Ha'. destruct Ha' as [y [Hy Hyin]].
    apply filter_In in Hxin. destruct Hxin as [Hxin Hxk].
    apply filter_In in Hyin. destruct Hyin as [Hyin Hyk].
    assert (x = y).
    { apply (NoDup_map_injective PlanStep.id xs); auto. congruence. }
    subst y. apply String.eqb_eq in Hxk, Hyk.
    apply Hnotin. apply (in_map fst) in Hg'. simpl in Hg'. congruence.
Qed.

Section ChunkingIntegrity.
Variable steps : list PlanStep.t.
Variable limit : JsNumber.
Variable st : MergeState.t.

Let groups := buildGroups steps.
Let mergedSteps :=
MergeState.mergedSteps st
++ filter (fun step => negb (set_has (MergeState.processedStepIds st)
                         (PlanStep.id step))) steps.
Let mergedStepIds := fold_left (redirectGroup limit mergedSteps) groups [].

Hypothesis Htruthy : isTruthy limit = true.
Hypothesis Hfold :
fold_left (processGroup limit) groups (Ok MergeState.empty) = Ok st.
Hypothesis Hdistinct : NoDup (stepIds steps).

Lemma group_member k g s :
In (k, g) groups -> In s g -> In s steps /\ groupKey s = k.
Proof using Type.
unfold groups. rewrite buildGroups_groupBy. intros Hg Hs.
destruct (groupBy_sound _ _ _ _ _ Hg Hs) as [Hin Hkey].
apply filter_In in Hin. tauto.
Qed.

Lemma group_first g first rest :
In g groups -> snd g = first :: rest -> In first steps /\ groupKey first = fst g.
Proof using Type.
intros Hg Hsnd. destruct g as [k members]. simpl in *. subst members.
apply (group_member _ _ _ Hg). now left.
Qed.

Lemma groups_distinct : NoDup (flat_map (fun g => stepIds (snd g)) groups).
Proof using Hdistinct.
unfold groups. rewrite buildGroups_groupBy.
set (exec := filter _ steps).
destruct (groupBy_grouped groupKey exec) as [Hkeys Hmem _].
apply (grouped_ids_NoDup groupKey exec).
- assumption.
- intros k g Hin. now apply Hmem.
- now apply NoDup_map_filter.
Qed.

(** Two groups that hold a step of the same id are the same group. *)
Lemma same_id_same_group g g' s s' :
In g groups -> In g' groups -> In s (snd g) -> In s' (snd g') ->
PlanStep.id s = PlanStep.id s' -> g = g' /\ s = s'.
Proof using Hdistinct.
intros Hg Hg' Hs Hs' Hid. destruct g as [k m], g' as [k' m']. simpl in *.
destruct (group_member _ _ _ Hg Hs) as [Hin Hk].
destruct (group_member _ _ _ Hg' Hs') as [Hin' Hk'].
assert (s = s') by (now apply (NoDup_map_injective PlanStep.id steps)).
subst s'. split; [| reflexivity].
subst k k'. f_equal.
unfold groups in Hg, Hg'. rewrite buildGroups_groupBy in Hg, Hg'.
now apply (groupBy_unique _ _ _ _ _ Hg Hg').
Qed.

(** Every pushed step has the id of a step of the plan, and only lists
dependencies that steps of the plan list. *)
Lemma merged_provenance u :
In u mergedSteps ->
exists s, In s steps
/\ PlanStep.id u = PlanStep.id s
/\ PlanStep.scopeId u = PlanStep.scopeId s
/\ forall d, In d (PlanStep.dependencies u) ->
           exists s', In s' steps /\ In d (PlanStep.dependencies s').
Proof using Hfold.
unfold mergedSteps. rewrite in_app_iff. intros [Hu | Hu].
- destruct (processGroups_sound _ _ _ Hfold) as [Hm _].
destruct (Hm u Hu) as [[] | [[k g] [Hg [[_ Hin] | [_ Hmerge]]]]]; simpl in *.
+ destruct (group_member _ _ _ Hg Hin) as [Hs _]. exists u.
repeat split; auto. intros d Hd. now exists u.
+ destruct g as [| first rest]; [discriminate |].
destruct (mergeSteps_identity _ _ Hmerge) as [Hid [Hsc [_ Hdeps]]].
exists first. split; [apply (group_member _ _ _ Hg); now left |].
repeat split; auto.
intros d Hd. destruct (Hdeps d Hd) as [s' [Hs' Hd']].
exists s'. split; [apply (group_member _ _ _ Hg Hs') | assumption].
- apply filter_In in Hu. destruct Hu as [Hu _]. exists u.
repeat split; auto. intros d Hd. now exists u.
Qed.

(** A step whose id is not marked for removal is still there after the
merge loop. *)
Lemma kept_present s :
In s steps -> ~ In (PlanStep.id s) (MergeState.stepsToRemove st) ->
In (PlanStep.id s) (stepIds mergedSteps).
Proof using Hfold Hdistinct.
intros Hs Hkept. unfold mergedSteps, stepIds. rewrite map_app, in_app_iff.
destruct (set_has (MergeState.processedStepIds st) (PlanStep.id s)) eqn:Hproc.
- left. apply set_has_In in Hproc.
destruct (processGroups_sound _ _ _ Hfold) as [_ [_ Hp]].
destruct (Hp _ Hproc) as [[] | [g [Hg Hin]]].
apply in_map_iff in Hin. destruct Hin as [s' [Hid Hs']].
assert (s' = s).
{ destruct g as [k m]. destruct (group_member _ _ _ Hg Hs') as [Hin' _].
now apply (NoDup_map_injective PlanStep.id steps). }
subst s'.
assert (Hfresh : forall g x, In g groups -> In x (stepIds (snd g)) ->
                   ~ In x (MergeState.processedStepIds MergeState.empty)).
{ intros ? ? _ _ []. }
destruct (processGroups_complete _ _ _ Hfold groups_distinct Hfresh g Hg)
as [Hwithin Hover].
destruct (fits (length (snd g)) limit) eqn:Hlen.
+ apply in_map. now apply Hwithin.
+ destruct (Hover eq_refl) as [merged [Hmerge [Hin Hrem]]].
destruct (string_dec (PlanStep.id s) (PlanStep.id merged)) as [Heq | Hneq].
* rewrite Heq. now apply in_map.
* exfalso. apply Hkept. apply Hrem; [| assumption]. now apply in_map.
- right. apply in_map. apply filter_In. split; [assumption |].
now rewrite Hproc.
Qed.

(** An id marked for removal has an entry in the redirection map. *)
Lemma removed_redirected r :
In r (MergeState.stepsToRemove st) -> map_get mergedStepIds r <> None.
Proof using Htruthy Hfold Hdistinct.
intros Hr. destruct (processGroups_sound _ _ _ Hfold) as [_ [Hrem _]].
destruct (Hrem r Hr) as [[] | [g [merged [Hg [Hlen [Hmerge [Hin Hneq]]]]]]].
pose proof (proj2 (@exceeds_iff (length (snd g)) limit Htruthy) Hlen) as Hover'.
destruct (snd g) as [| first rest] eqn:Hsnd; [discriminate |].
destruct (mergeSteps_identity _ _ Hmerge) as [Hid _].
unfold mergedStepIds.
apply redirect_complete with (g := g) (first := first) (rest := rest); auto.
- now rewrite Hsnd.
- assert (Hfresh : forall g x, In g groups -> In x (stepIds (snd g)) ->
                   ~ In x (MergeState.processedStepIds MergeState.empty)).
{ intros ? ? _ _ []. }
destruct (processGroups_complete _ _ _ Hfold groups_distinct Hfresh g Hg)
as [_ Hover].
rewrite Hsnd in Hover. destruct (Hover Hlen) as [merged' [Hmerge' [Hin' _]]].
assert (merged' = merged) by congruence. subst merged'.
rewrite <- Hid. unfold mergedSteps, stepIds. rewrite map_app, in_app_iff.
left. now apply in_map.
- now rewrite Hsnd.
- congruence.
Qed.

(** The targets of the redirection map are ids of steps that are kept. *)
Lemma redirect_target r v :
map_get mergedStepIds r = Some v ->
(exists s, In s steps /\ PlanStep.id s = v)
/\ ~ In v (MergeState.stepsToRemove st).
Proof using Hfold Hdistinct.
intros Hget. unfold mergedStepIds in Hget.
apply redirect_sound in Hget.
destruct Hget as [H | [g [first [rest [Hg [Hsnd [Hlen [-> [Hin Hneq]]]]]]]]];
[discriminate |].
destruct (group_first g Hg Hsnd) as [Hfirst _].
split; [now exists first |].
intros Hrem. destruct (processGroups_sound _ _ _ Hfold) as [_ [Hr _]].
destruct (Hr _ Hrem) as [[] | [g' [merged [Hg' [Hlen' [Hmerge [Hin' Hneq']]]]]]].
apply in_map_iff in Hin'. destruct Hin' as [s' [Hid' Hs']].
assert (Hs : In first (snd g)) by (rewrite Hsnd; now left).
destruct (same_id_same_group g' g s' first Hg' Hg Hs' Hs Hid') as [-> ->].
rewrite Hsnd in Hmerge.
destruct (mergeSteps_identity _ _ Hmerge) as [Hid _]. congruence.
Qed.
End ChunkingIntegrity.

Lemma rewriteDependencies_id m step :
  PlanStep.id (rewriteDependencies m step) = PlanStep.id step.
Proof. reflexivity. Qed.

Lemma rewriteDependencies_scopeId m step :
  PlanStep.scopeId (rewriteDependencies m step) = PlanStep.scopeId step.
Proof. reflexivity. Qed.

Lemma rewriteDependencies_deps m step d :
  In d (PlanStep.dependencies (rewriteDependencies m step)) ->
  exists d0, In d0 (PlanStep.dependencies step)
             /\ d = strOr (map_get m d0) d0.
Proof.
  unfold rewriteDependencies. simpl. intros Hd.
  apply filter_In in Hd. destruct Hd as [Hd _].
  apply (proj1 (set_of_list_In _ _)) in Hd. apply in_map_iff in Hd.
  destruct Hd as [d0 [Heq Hd0]]. exists d0. now split.
Qed.

Lemma strOr_Some v d : v <> EmptyString -> strOr (Some v) d = v.
Proof. destruct v; [congruence | reflexivity]. Qed.

Lemma nonEmpty_true s : nonEmpty s = true <-> s <> EmptyString.
Proof. destruct s; simpl; split; congruence. Qed.

(** What [applyDynamicChunking] returns when a limit is given. *)
Lemma applyDynamicChunking_limit plan limit n stage :
  truthy limit = Some n ->
  applyDynamicChunking plan limit = Ok stage ->
  exists st,
    fold_left (processGroup n) (buildGroups (TaskPlan.steps plan))
              (Ok MergeState.empty) = Ok st
    /\ Stage.changes stage = MergeState.changes st
    /\ Stage.plan stage
       = TaskPlan.with_steps plan
           (filter (fun step => negb (set_has (MergeState.stepsToRemove st)
                                              (PlanStep.id step)))
              (map (rewriteDependencies
                      (fold_left
                         (redirectGroup n
                            (MergeState.mergedSteps st
                             ++ filter (fun step =>
                                          negb (set_has (MergeState.processedStepIds st)
                                                        (PlanStep.id step)))
                                       (TaskPlan.steps plan)))
                         (buildGroups (TaskPlan.steps plan)) []))
                   (MergeState.mergedSteps st
                    ++ filter (fun step =>
                                 negb (set_has (MergeState.processedStepIds st)
                                               (PlanStep.id step)))
                              (TaskPlan.steps plan)))).
Proof.
  unfold applyDynamicChunking. intros ->.
  destruct (fold_left _ _ _) as [st | |]; simpl; try discriminate.
  intros [= <-]. exists st. repeat split.
Qed.

Lemma applyDynamicChunking_off plan limit :
  truthy limit = None -> applyDynamicChunking plan limit = Ok (Stage.mk plan []).
Proof. unfold applyDynamicChunking. now intros ->. Qed.

(** Merging keeps the dependency edges inside the plan: with distinct,
    non-empty step ids, a plan without dangling edge is chunked into a plan
    without dangling edge, and a plan with a step into a plan with a step. *)
Theorem applyDynamicChunking_integrity plan limit stage :
  NoDup (stepIds (TaskPlan.steps plan)) ->
  (forall s, In s (TaskPlan.steps plan) -> PlanStep.id s <> EmptyString) ->
  noDanglingDependencies (TaskPlan.steps plan) = true ->
  applyDynamicChunking plan limit = Ok stage ->
  noDanglingDependencies (TaskPlan.steps (Stage.plan stage)) = true
  /\ (TaskPlan.steps plan <> [] -> TaskPlan.steps (Stage.plan stage) <> []).
Proof.
  intros Hdistinct Hids Hinput Hchunk.
  destruct (truthy limit) as [n |] eqn:Hlimit.
  2:{ rewrite (applyDynamicChunking_off _ _ Hlimit) in Hchunk.
      injection Hchunk as <-. now split. }
  destruct (applyDynamicChunking_limit _ _ Hlimit Hchunk) as [st [Hfold [_ ->]]].
  simpl. set (steps := TaskPlan.steps plan) in *.
  set (mergedSteps := MergeState.mergedSteps st ++ _).
  set (m := fold_left _ _ _).
  set (out := filter _ _).
  rewrite noDangling_iff in Hinput.
  (* every id of the plan that is not removed is the id of a step of the result *)
  assert (Hpresent : forall s, In s steps ->
                               ~ In (PlanStep.id s) (MergeState.stepsToRemove st) ->
                               In (PlanStep.id s) (stepIds out)).
  { intros s Hs Hkept.
    pose proof (@kept_present steps n st Hfold Hdistinct s Hs Hkept) as Hin.
    apply in_map_iff in Hin. destruct Hin as [u [Hid Hu]].
    apply in_map_iff. exists (rewriteDependencies m u). split; [exact Hid |].
    apply filter_In. split; [now apply in_map |].
    rewrite rewriteDependencies_id, Hid.
    apply negb_true_iff. now apply set_has_false. }
  (* every id of the plan is redirected to the id of a step of the result *)
  assert (Hredirect : forall s, In s steps ->
                                In (strOr (map_get m (PlanStep.id s)) (PlanStep.id s))
                                   (stepIds out)).
  { intros s Hs. destruct (map_get m (PlanStep.id s)) as [v |] eqn:Hget.
    - destruct (@redirect_target steps n st Hfold Hdistinct _ _ Hget)
        as [[s' [Hs' <-]] Hkept].
      rewrite strOr_Some; [| now apply Hids]. now apply Hpresent.
    - simpl. apply Hpresent; [assumption |]. intros Hrem.
      now apply (@removed_redirected steps n st
                   (proj2 (truthy_Some _ Hlimit)) Hfold Hdistinct _ Hrem). }
  split.
  - apply noDangling_iff. intros t d Ht Hd.
    apply filter_In in Ht. destruct Ht as [Ht _].
    apply in_map_iff in Ht. destruct Ht as [u [<- Hu]].
    apply rewriteDependencies_deps in Hd. destruct Hd as [d0 [Hd0 ->]].
    destruct (@merged_provenance steps n st Hfold u Hu) as [_ [_ [_ [_ Hdeps]]]].
    destruct (Hdeps d0 Hd0) as [s' [Hs' Hd']].
    specialize (Hinput s' d0 Hs' Hd'). apply in_map_iff in Hinput.
    destruct Hinput as [s0 [<- Hs0]]. now apply Hredirect.
  - intros Hne Hout. destruct steps as [| s rest] eqn:Hsteps; [congruence |].
    assert (Hin : In (strOr (map_get m (PlanStep.id s)) (PlanStep.id s)) (stepIds out)).
    { apply Hredirect. now left. }
    rewrite Hout in Hin. destruct Hin.
Qed.

(** ** Level and scope validation leave the dependency graph alone *)

Lemma repairStepScope_id valid globalId step :
  PlanStep.id (fst (repairStepScope valid globalId step)) = PlanStep.id step.
Proof.
  unfold repairStepScope. destruct (PlanStep.scopeId step); [| reflexivity].
  now destruct (negb _).
Qed.

Lemma repairStepScope_dependencies valid globalId step :
  PlanStep.dependencies (fst (repairStepScope valid globalId step))
  = PlanStep.dependencies step.
Proof.
  unfold repairStepScope. destruct (PlanStep.scopeId step); [| reflexivity].
  now destruct (negb _).
Qed.

Lemma validatePlanLevels_edges plan :
  let out := TaskPlan.steps (Stage.plan (validatePlanLevels plan)) in
  stepIds out = stepIds (TaskPlan.steps plan)
  /\ map PlanStep.dependencies out = map PlanStep.dependencies (TaskPlan.steps plan).
Proof.
  unfold validatePlanLevels, stepIds. simpl. rewrite !map_map. split.
  - apply map_ext. intros s. apply correctStepLevel_id.
  - apply map_ext. intros s. apply correctStepLevel_dependencies.
Qed.

Lemma validatePlanScopes_edges now plan :
  let out := TaskPlan.steps (Stage.plan (validatePlanScopes now plan)) in
  stepIds out = stepIds (TaskPlan.steps plan)
  /\ map PlanStep.dependencies out = map PlanStep.dependencies (TaskPlan.steps plan).
Proof.
  unfold validatePlanScopes, stepIds. simpl. rewrite !map_map. split.
  - apply map_ext. intros s. apply repairStepScope_id.
  - apply map_ext. intros s. apply repairStepScope_dependencies.
Qed.

Lemma forallb_map_comp (A B : Type) (f : B -> bool) (g : A -> B) (l : list A) :
  forallb f (map g l) = forallb (fun x => f (g x)) l.
Proof. induction l; simpl; [reflexivity | now f_equal]. Qed.

Lemma noDangling_edges steps steps' :
  stepIds steps' = stepIds steps ->
  map PlanStep.dependencies steps' = map PlanStep.dependencies steps ->
  noDanglingDependencies steps' = noDanglingDependencies steps.
Proof.
  intros Hids Hdeps. unfold noDanglingDependencies. rewrite Hids.
  rewrite <- (forallb_map_comp
                (forallb (fun depId => existsb (String.eqb depId) (stepIds steps)))
                PlanStep.dependencies steps').
  rewrite <- (forallb_map_comp
                (forallb (fun depId => existsb (String.eqb depId) (stepIds steps)))
                PlanStep.dependencies steps).
  now rewrite Hdeps.
Qed.

(** The validity of the plan passed in, as far as the dependency graph is
    concerned, carries over to the plan that reaches dynamic chunking. *)
Lemma validated_edges now plan :
  let validated :=
    Stage.plan (validatePlanScopes now (Stage.plan (validatePlanLevels plan))) in
  stepIds (TaskPlan.steps validated) = stepIds (TaskPlan.steps plan)
  /\ map PlanStep.dependencies (TaskPlan.steps validated)
     = map PlanStep.dependencies (TaskPlan.steps plan).
Proof.
  cbn zeta.
  destruct (validatePlanScopes_edges now (Stage.plan (validatePlanLevels plan)))
    as [H1 H2].
  destruct (validatePlanLevels_edges plan) as [H3 H4].
  cbn zeta in *. split; congruence.
Qed.

(** ** Sorting *)

Section SortBy.
Variable A : Type.
Variable key : A -> Z.

Lemma insertSorted_In x y (sorted : list A) :
In y (insertSorted key x sorted) <-> y = x \/ In y sorted.
Proof.
induction sorted as [| z rest IH]; simpl.
- intuition.
- destruct (key x <=? key z)%Z; simpl; [intuition |].
rewrite IH. intuition.
Qed.

Lemma insertSorted_length x (sorted : list A) :
length (insertSorted key x sorted) = S (length sorted).
Proof.
induction sorted as [| z rest IH]; simpl; [reflexivity |].
destruct (key x <=? key z)%Z; simpl; [reflexivity | now rewrite IH].
Qed.

Lemma sortBy_In y (xs : list A) : In y (sortBy key xs) <-> In y xs.
Proof.
induction xs as [| x xs IH]; simpl; [tauto |].
rewrite insertSorted_In, IH. intuition.
Qed.

Lemma sortBy_length (xs : list A) : length (sortBy key xs) = length xs.
Proof.
induction xs as [| x xs IH]; simpl; [reflexivity |].
now rewrite insertSorted_length, IH.
Qed.
End SortBy.

(** ** Global limits *)

Lemma in_firstn (A : Type) (n : nat) (l : list A) (x : A) :
  In x (firstn n l) -> In x l.
Proof.
  revert l. induction n as [| n IH]; intros [| a l]; simpl; try tauto.
  intros [H | H]; auto.
Qed.

Lemma in_skipn (A : Type) (n : nat) (l : list A) (x : A) :
  In x (skipn n l) -> In x l.
Proof.
  revert l. induction n as [| n IH]; intros [| a l]; simpl; try tauto.
  intros H. right. now apply IH.
Qed.

Lemma in_sliceTo (A : Type) (l : list A) (x : JsNumber) (a : A) :
  In a (sliceTo l x) -> In a l.
Proof. apply in_firstn. Qed.

Lemma in_sliceFrom (A : Type) (l : list A) (x : JsNumber) (a : A) :
  In a (sliceFrom l x) -> In a l.
Proof. apply in_skipn. Qed.

(** An array that is longer than a number loses an element to
    [slice(0, x)], unless it is empty (and the number negative). *)
Lemma exceeds_sliceIndex len x :
  exceeds len x = true -> 0 < len -> sliceIndex len x < len.
Proof.
  assert (Hrel : forall i, (i < Z.of_nat len)%Z -> 0 < len -> relIndex len i < len).
  { intros i Hi Hlen. unfold relIndex. destruct (i <? 0)%Z eqn:E; lia. }
  destruct x as [z | below shown | [] shown |]; cbn [exceeds sliceIndex];
    intros Hover Hlen; try discriminate; try lia.
  - apply Hrel; [| exact Hlen]. now apply Z.ltb_lt.
  - apply Z.ltb_lt in Hover. apply Hrel; [| exact Hlen].
    destruct (below <? 0)%Z eqn:E; lia.
Qed.

Lemma sliceFrom_length (A : Type) (l : list A) x :
  length (sliceFrom l x) = length l - sliceIndex (length l) x.
Proof. apply length_skipn. Qed.

Lemma sliceTo_length (A : Type) (l : list A) x :
  length (sliceTo l x) = sliceIndex (length l) x.
Proof.
  unfold sliceTo. rewrite length_firstn. pose proof (sliceIndex_le (length l) x).
  lia.
Qed.

Lemma limitPhaseSteps_within maxSteps acc g :
  exceeds (length (snd g)) maxSteps = false ->
  limitPhaseSteps maxSteps acc g = (fst acc ++ snd g, snd acc).
Proof. unfold limitPhaseSteps. now intros ->. Qed.

Lemma limitPhaseSteps_over maxSteps acc g :
  exceeds (length (snd g)) maxSteps = true ->
  limitPhaseSteps maxSteps acc g
  = (fst acc
     ++ map (stripDependencies
               (set_of_list
                  (map PlanStep.id
                       (sliceFrom (sortBy PlanStep.order (snd g)) maxSteps))))
            (sliceTo (sortBy PlanStep.order (snd g)) maxSteps),
     snd acc + length (sliceFrom (sortBy PlanStep.order (snd g)) maxSteps)).
Proof. unfold limitPhaseSteps. now intros ->. Qed.

Lemma limitPhaseSteps_empty maxSteps acc g :
  snd g = [] -> limitPhaseSteps maxSteps acc g = (fst acc ++ snd g, snd acc).
Proof.
  intros Hg. unfold limitPhaseSteps. rewrite Hg.
  destruct (exceeds _ _); [| reflexivity].
  unfold sliceTo, sliceFrom. cbn [sortBy fold_right length].
  rewrite firstn_nil, skipn_nil. cbn. now rewrite Nat.add_0_r.
Qed.

(** Each step kept by the limits is a step of the input, possibly with
    fewer dependencies; when nothing was counted as removed, the steps are
    those of the groups, unchanged. *)
Lemma limitPhaseSteps_fold maxSteps groups : forall acc,
  let out := fold_left (limitPhaseSteps maxSteps) groups acc in
  (forall t, In t (fst out) ->
     In t (fst acc)
     \/ exists g s, In g groups /\ In s (snd g)
                    /\ PlanStep.id t = PlanStep.id s
                    /\ PlanStep.scopeId t = PlanStep.scopeId s
                    /\ forall d, In d (PlanStep.dependencies t) ->
                                 In d (PlanStep.dependencies s))
  /\ snd acc <= snd out
  /\ (snd out = snd acc ->
      forall t, In t (fst out) <->
                In t (fst acc) \/ exists g, In g groups /\ In t (snd g)).
Proof.
  induction groups as [| g groups IH]; intros acc; cbn zeta.
  - simpl. split; [auto |]. split; [lia |]. intros _ t. split; [auto |].
    intros [H | [g [[] _]]]. assumption.
  - simpl fold_left.
    destruct (IH (limitPhaseSteps maxSteps acc g)) as [H1 [H2 H3]].
    cbn zeta in *.
    assert (Hcases : (exceeds (length (snd g)) maxSteps = true /\ snd g <> [])
                     \/ limitPhaseSteps maxSteps acc g
                        = (fst acc ++ snd g, snd acc)).
    { destruct (exceeds (length (snd g)) maxSteps) eqn:Hlen.
      - assert (Hnil : snd g = [] \/ snd g <> [])
          by (destruct (snd g); [now left | right; discriminate]).
        destruct Hnil as [Hg | Hg].
        + right. now apply limitPhaseSteps_empty.
        + left. now split.
      - right. now apply limitPhaseSteps_within. }
    destruct Hcases as [[Hlen Hne] | Hlen].
    + rewrite (limitPhaseSteps_over _ acc _ Hlen) in *. simpl in H1, H2, H3.
      assert (Hremoved : 0 < length (sliceFrom (sortBy PlanStep.order (snd g))
                                                maxSteps)).
      { rewrite sliceFrom_length, sortBy_length.
        assert (Hpos : 0 < length (snd g))
          by (destruct (snd g); [congruence | cbn; lia]).
        pose proof (@exceeds_sliceIndex _ _ Hlen Hpos). lia. }
      split; [| split; [lia | intros Heq; lia]].
      intros t Ht. destruct (H1 t Ht) as [Hin | [g' [s [Hg' H]]]].
      * apply in_app_iff in Hin. destruct Hin as [Hin | Hin]; [now left |].
        right. apply in_map_iff in Hin. destruct Hin as [s [<- Hs]].
        apply in_sliceTo, sortBy_In in Hs. exists g, s.
        split; [now left |]. split; [assumption |].
        repeat split. intros d Hd. simpl in Hd. apply filter_In in Hd. tauto.
      * right. exists g', s. split; [now right | assumption].
    + rewrite Hlen in *. simpl in H1, H2, H3.
      split; [| split; [assumption |]].
      * intros t Ht. destruct (H1 t Ht) as [Hin | [g' [s [Hg' H]]]].
        -- apply in_app_iff in Hin. destruct Hin as [Hin | Hin]; [now left |].
           right. exists g, t. split; [now left |]. split; [assumption |].
           repeat split. auto.
        -- right. exists g', s. split; [now right | assumption].
      * intros Heq t. rewrite (H3 Heq t), in_app_iff. split.
        -- intros [[H | H] | [g' [Hg' H]]]; auto.
           ++ right. exists g. split; [now left | assumption].
           ++ right. exists g'. split; [now right | assumption].
        -- intros [H | [g' [[<- | Hg'] H]]]; auto.
           right. now exists g'.
Qed.

Lemma applyStepLimit_provenance maxSteps steps t :
  In t (fst (applyStepLimit maxSteps steps)) ->
  exists s, In s steps
            /\ PlanStep.id t = PlanStep.id s
            /\ PlanStep.scopeId t = PlanStep.scopeId s
            /\ incl (PlanStep.dependencies t) (PlanStep.dependencies s).
Proof.
  unfold applyStepLimit.
  destruct (limitPhaseSteps_fold maxSteps (groupByPhase steps) ([], 0)) as [H1 _].
  cbn zeta in H1. simpl in H1.
  assert (Hfold : forall t,
             In t (fst (fold_left (limitPhaseSteps maxSteps) (groupByPhase steps) ([], 0))) ->
             exists s, In s steps /\ PlanStep.id t = PlanStep.id s
                       /\ PlanStep.scopeId t = PlanStep.scopeId s
                       /\ incl (PlanStep.dependencies t) (PlanStep.dependencies s)).
  { intros t' Ht'. destruct (H1 t' Ht') as [[] | [[k g] [s [Hg [Hs [Hid [Hsc Hd]]]]]]].
    exists s. split; [| auto].
    now apply (groupBy_sound PlanStep.phaseId steps k g s Hg Hs). }
  set (limited := fold_left _ _ _) in *. clearbody limited.
  destruct (fst limited) as [| x xs] eqn:Hfst.
  - destruct steps as [| first rest]; simpl.
    + rewrite Hfst. intros [].
    + intros [<- | []]. exists first.
      split; [now left |]. repeat split. apply incl_refl.
  - destruct steps as [| first rest]; intros Ht; apply Hfold;
      rewrite <- Hfst; exact Ht.
Qed.

Lemma applyStepLimit_untruncated maxSteps steps :
  snd (applyStepLimit maxSteps steps) = 0 ->
  forall t, In t (fst (applyStepLimit maxSteps steps)) <-> In t steps.
Proof.
  unfold applyStepLimit.
  destruct (limitPhaseSteps_fold maxSteps (groupByPhase steps) ([], 0)) as [_ [_ H3]].
  cbn zeta in H3. simpl in H3.
  assert (Hfold : snd (fold_left (limitPhaseSteps maxSteps) (groupByPhase steps) ([], 0)) = 0 ->
                  forall t,
                    In t (fst (fold_left (limitPhaseSteps maxSteps)
                                 (groupByPhase steps) ([], 0))) <-> In t steps).
  { intros Hzero t. rewrite (H3 Hzero t). split.
    - intros [[] | [[k g] [Hg Ht]]].
      now apply (groupBy_sound PlanStep.phaseId steps k g t Hg Ht).
    - intros Ht. right.
      destruct (groupBy_complete PlanStep.phaseId steps t Ht) as [g [Hg Hin]].
      now exists (PlanStep.phaseId t, g). }
  set (limited := fold_left _ _ _) in *. clearbody limited.
  destruct (fst limited) as [| x xs] eqn:Hfst.
  - destruct steps as [| first rest]; simpl.
    + intros Hzero t. rewrite Hfst. tauto.
    + intros Hzero t. destruct rest; [| simpl in Hzero; lia]. simpl. tauto.
  - destruct steps as [| first rest]; intros Hzero t;
      rewrite <- (Hfold Hzero t), Hfst; tauto.
Qed.

Lemma applyPhaseLimit_steps plan maxPhases t :
  In t (snd (fst (applyPhaseLimit plan maxPhases))) -> In t (TaskPlan.steps plan).
Proof.
  unfold applyPhaseLimit. destruct (truthy maxPhases); [| auto].
  destruct (exceeds _ _); simpl; [| auto]. intros H. apply filter_In in H. tauto.
Qed.

Lemma applyPhaseLimit_untruncated plan maxPhases :
  recorded "phases_truncated" (snd (applyPhaseLimit plan maxPhases)) = false ->
  applyPhaseLimit plan maxPhases = (TaskPlan.phases plan, TaskPlan.steps plan, []).
Proof.
  unfold applyPhaseLimit. destruct (truthy maxPhases); [| reflexivity].
  destruct (exceeds _ _); [| reflexivity]. simpl. discriminate.
Qed.

Lemma recorded_app type changes changes' :
  recorded type (changes ++ changes')
  = recorded type changes || recorded type changes'.
Proof. unfold recorded. apply existsb_app. Qed.

(** Truncation only removes steps and dependencies. *)
Lemma applyGlobalLimits_provenance plan maxPhases maxSteps t :
  In t (TaskPlan.steps (Stage.plan (applyGlobalLimits plan maxPhases maxSteps))) ->
  exists s, In s (TaskPlan.steps plan)
            /\ PlanStep.id t = PlanStep.id s
            /\ PlanStep.scopeId t = PlanStep.scopeId s
            /\ incl (PlanStep.dependencies t) (PlanStep.dependencies s).
Proof.
  unfold applyGlobalLimits. destruct (truthy maxSteps) as [n |]; simpl.
  - intros Ht. apply applyStepLimit_provenance in Ht.
    destruct Ht as [s [Hs H]]. exists s. split; [| assumption].
    now apply (applyPhaseLimit_steps plan maxPhases).
  - intros Ht. exists t. split; [now apply (applyPhaseLimit_steps plan maxPhases) |].
    repeat split. apply incl_refl.
Qed.

(** When no truncation is recorded, the limits keep every step as it is. *)
Lemma applyGlobalLimits_untruncated plan maxPhases maxSteps :
  let limited := applyGlobalLimits plan maxPhases maxSteps in
  recorded "phases_truncated" (Stage.changes limited) = false ->
  recorded "steps_truncated" (Stage.changes limited) = false ->
  forall t, In t (TaskPlan.steps (Stage.plan limited)) <-> In t (TaskPlan.steps plan).
Proof.
  cbn zeta. unfold applyGlobalLimits.
  destruct (truthy maxSteps) as [n |]; simpl.
  - destruct (0 <? snd (applyStepLimit n _)) eqn:Hremoved.
    + rewrite !recorded_app. simpl. intros _ H.
      rewrite orb_true_r in H. discriminate.
    + intros Hphase _. rewrite (applyPhaseLimit_untruncated _ _ Hphase). simpl.
      rewrite (applyPhaseLimit_untruncated _ _ Hphase) in Hremoved. simpl in Hremoved.
      apply Nat.ltb_ge in Hremoved.
      apply applyStepLimit_untruncated. lia.
  - intros Hphase _. rewrite (applyPhaseLimit_untruncated _ _ Hphase). simpl. tauto.
Qed.

(** ** Dynamic chunking when no group is merged *)

Lemma processGroups_unmerged limit groups : forall st final,
  fold_left (processGroup limit) groups (Ok st) = Ok final ->
  recorded "steps_merged" (MergeState.changes final) = false ->
  Forall (fun g => fits (length (snd g)) limit = true) groups.
Proof.
  induction groups as [| g groups IH]; intros st final Hfold Hnone; [constructor |].
  apply processGroups_step in Hfold. destruct Hfold as [st1 [Hstep Hfold]].
  assert (Hgrow : forall groups st final,
             fold_left (processGroup limit) groups (Ok st) = Ok final ->
             recorded "steps_merged" (MergeState.changes st) = true ->
             recorded "steps_merged" (MergeState.changes final) = true).
  { clear. induction groups as [| g groups IH]; intros st final Hfold Hrec.
    - simpl in Hfold. now injection Hfold as <-.
    - apply processGroups_step in Hfold. destruct Hfold as [st1 [Hstep Hfold]].
      apply (IH _ _ Hfold). apply processGroup_spec in Hstep.
      destruct Hstep as [[_ ->] | [_ Hmerge]].
      + destruct (keepGroup_spec (snd g) st) as [_ [_ [_ [K4 _]]]].
        cbn zeta in K4. now rewrite K4.
      + apply mergeGroup_spec in Hmerge.
        destruct Hmerge as [merged [_ [_ [[change [-> _]] _]]]].
        rewrite recorded_app, Hrec. reflexivity. }
  apply processGroup_spec in Hstep. destruct Hstep as [[Hlen ->] | [Hlen Hmerge]].
  - constructor; [assumption |]. now apply (IH _ _ Hfold).
  - exfalso. apply mergeGroup_spec in Hmerge.
    destruct Hmerge as [merged [_ [_ [[change [Hch Hty]] _]]]].
    assert (Hrec : recorded "steps_merged" (MergeState.changes st1) = true).
    { rewrite Hch, recorded_app. apply orb_true_iff. right.
      unfold recorded. simpl. unfold hasType. rewrite Hty. reflexivity. }
    rewrite (Hgrow _ _ _ Hfold Hrec) in Hnone. discriminate.
Qed.

(** Every step of the chunked plan has the id and scope of a step of the
    plan; when no merge is recorded it also lists only dependencies which
    that step lists. *)
Theorem applyDynamicChunking_provenance plan limit stage :
  applyDynamicChunking plan limit = Ok stage ->
  descends (TaskPlan.steps (Stage.plan stage)) (TaskPlan.steps plan)
  /\ (recorded "steps_merged" (Stage.changes stage) = false ->
      shrinks (TaskPlan.steps (Stage.plan stage)) (TaskPlan.steps plan)).
Proof.
  intros Hchunk. destruct (truthy limit) as [n |] eqn:Hlimit.
  2:{ rewrite (applyDynamicChunking_off _ _ Hlimit) in Hchunk.
      injection Hchunk as <-. simpl. split.
      - intros t Ht. exists t. auto.
      - intros _ t Ht. exists t. repeat split; auto. apply incl_refl. }
  destruct (applyDynamicChunking_limit _ _ Hlimit Hchunk) as [st [Hfold [Hch ->]]].
  simpl. set (steps := TaskPlan.steps plan) in *. split.
  - intros t Ht. apply filter_In in Ht. destruct Ht as [Ht _].
    apply in_map_iff in Ht. destruct Ht as [u [<- Hu]].
    destruct (@merged_provenance steps n st Hfold u Hu) as [s [Hs [Hid [Hsc _]]]].
    exists s. auto.
  - rewrite Hch. intros Hnone.
    pose proof (processGroups_unmerged _ _ _ Hfold Hnone) as Hwithin.
    rewrite Forall_forall in Hwithin.
    intros t Ht. apply filter_In in Ht. destruct Ht as [Ht _].
    apply in_map_iff in Ht. destruct Ht as [u [<- Hu]].
    assert (Hin : In u steps).
    { apply in_app_iff in Hu. destruct Hu as [Hu | Hu].
      - destruct (processGroups_sound _ _ _ Hfold) as [Hm _].
        destruct (Hm u Hu) as [[] | [[k g] [Hg [[_ Hmem] | [Hlen _]]]]].
        + now apply (@group_member steps k g u Hg Hmem).
        + specialize (Hwithin _ Hg). cbn [snd] in Hwithin, Hlen. congruence.
      - apply filter_In in Hu. tauto. }
    exists u. split; [assumption |]. split; [reflexivity |].
    intros d Hd. apply rewriteDependencies_deps in Hd.
    destruct Hd as [d0 [Hd0 ->]].
    destruct (map_get _ d0) as [v |] eqn:Hget; [| exact Hd0].
    exfalso. apply redirect_sound in Hget.
    destruct Hget as [Hget | [g [first [rest [Hg [_ [Hlen _]]]]]]]; [discriminate |].
    specialize (Hwithin _ Hg). cbn beta in Hwithin.
    apply (@exceeds_iff _ _ (proj2 (truthy_Some _ Hlimit))) in Hlen. congruence.
Qed.

(** ** The safety net and the orchestrator *)

Lemma preserveFirstStep_cases planBefore currentPlan t :
  In t (TaskPlan.steps (fst (preserveFirstStep planBefore currentPlan))) ->
  In t (TaskPlan.steps currentPlan)
  \/ (TaskPlan.steps currentPlan = []
      /\ exists first rest,
           TaskPlan.steps planBefore = first :: rest
           /\ PlanStep.id t = PlanStep.id first
           /\ PlanStep.scopeId t = PlanStep.scopeId first
           /\ PlanStep.dependencies t = PlanStep.dependencies first).
Proof.
  unfold preserveFirstStep.
  destruct (TaskPlan.steps currentPlan) as [| c cs] eqn:Hcur.
  - destruct (TaskPlan.steps planBefore) as [| first rest] eqn:Hbefore.
    + simpl. rewrite Hcur. tauto.
    + destruct (find _ _).
      * simpl. intros [<- | []]. right. split; [reflexivity |].
        exists first, rest. auto.
      * destruct (TaskPlan.phases currentPlan); simpl.
        -- rewrite Hcur. tauto.
        -- intros [<- | []]. right. split; [reflexivity |].
           exists first, rest. auto.
  - simpl. rewrite Hcur. tauto.
Qed.

Lemma preserveFirstStep_nonempty planBefore currentPlan :
  TaskPlan.steps currentPlan <> [] ->
  fst (preserveFirstStep planBefore currentPlan) = currentPlan.
Proof.
  unfold preserveFirstStep. destruct (TaskPlan.steps currentPlan); [congruence |].
  reflexivity.
Qed.

(** The plan and the changes [validatePlan] returns, stage by stage. *)
Lemma validatePlan_stages now plan options :
  let validated :=
    validatePlanScopes now (Stage.plan (validatePlanLevels plan)) in
  exists chunked r,
    applyDynamicChunking (Stage.plan validated) (maxMicroStepsPerPhase options)
    = Ok chunked
    /\ validatePlan now plan options = Ok r
    /\ let limited :=
         applyGlobalLimits (Stage.plan chunked) (targetMaxPhases options)
                           (targetMaxSteps options) in
       ValidatePlanResult.plan r = fst (preserveFirstStep plan (Stage.plan limited))
       /\ ValidatePlanResult.changes r
          = Stage.changes (validatePlanLevels plan) ++ Stage.changes validated
            ++ Stage.changes chunked ++ Stage.changes limited.
Proof.
  cbn zeta. unfold validatePlan.
  destruct (applyDynamicChunking_ok
              (Stage.plan (validatePlanScopes now (Stage.plan (validatePlanLevels plan))))
              (maxMicroStepsPerPhase options)) as [chunked Hchunk].
  rewrite Hchunk. simpl. eexists. eexists. split; [reflexivity |].
  split; [reflexivity |]. simpl. now rewrite finalValidation_plan.
Qed.

(** What the schema guarantees about the steps of a valid plan. *)
Lemma taskPlanSchema_steps plan :
  taskPlanSchema plan = true ->
  TaskPlan.steps plan <> []
  /\ TaskPlan.phases plan <> []
  /\ (forall s, In s (TaskPlan.steps plan) -> PlanStep.id s <> EmptyString)
  /\ noDanglingDependencies (TaskPlan.steps plan) = true.
Proof.
  unfold taskPlanSchema. intros H.
  repeat (apply andb_prop in H; destruct H as [H ?]).
  repeat split.
  - destruct (TaskPlan.steps plan); [discriminate | discriminate].
  - destruct (TaskPlan.phases plan); [discriminate | discriminate].
  - intros s Hs.
    match goal with Hsteps : forallb planStepSchema _ = true |- _ =>
      rewrite forallb_forall in Hsteps; specialize (Hsteps s Hs);
      unfold planStepSchema in Hsteps
    end.
    repeat (match goal with Hb : _ && _ = true |- _ =>
              apply andb_prop in Hb; destruct Hb end).
    now apply nonEmpty_true.
  - apply noDangling_iff. intros s d Hs Hd.
    match goal with Hdeps : forallb (fun step => forallb _ (PlanStep.dependencies step)) _ = true |- _ =>
      rewrite forallb_forall in Hdeps; specialize (Hdeps s Hs);
      rewrite forallb_forall in Hdeps; specialize (Hdeps d Hd)
    end.
    now apply set_has_of_list.
Qed.

(** ** Acyclicity *)

Lemma shrinks_trans l1 l2 l3 : shrinks l1 l2 -> shrinks l2 l3 -> shrinks l1 l3.
Proof.
  intros H12 H23 t Ht. destruct (H12 t Ht) as [s [Hs [Hid Hd]]].
  destruct (H23 s Hs) as [s' [Hs' [Hid' Hd']]].
  exists s'. split; [assumption |]. split; [congruence |].
  intros d Hin. auto.
Qed.

Lemma shrinks_dependsOn out input x y :
  shrinks out input -> dependsOn out x y -> dependsOn input x y.
Proof.
  intros Hsh [t [Ht [Hid [Hy Hpresent]]]].
  destruct (Hsh t Ht) as [s [Hs [Hids Hdeps]]].
  exists s. split; [assumption |]. split; [congruence |].
  split; [now apply Hdeps |].
  apply in_map_iff in Hpresent. destruct Hpresent as [t' [Hid' Ht']].
  destruct (Hsh t' Ht') as [s' [Hs' [Hids' _]]].
  apply in_map_iff. exists s'. split; [congruence | assumption].
Qed.

(** A plan whose steps come from an acyclic plan, with fewer dependencies,
    is acyclic. *)
Lemma shrinks_acyclic out input :
  shrinks out input -> acyclic input -> acyclic out.
Proof.
  intros Hsh Hacyclic x Hcycle. apply (Hacyclic x).
  assert (H : forall a b, clos_trans string (dependsOn out) a b ->
                          clos_trans string (dependsOn input) a b).
  { intros a b Hab. induction Hab as [a b Hab | a b c _ IH1 _ IH2].
    - apply t_step. eapply shrinks_dependsOn; eauto.
    - now apply t_trans with b. }
  now apply H.
Qed.

(** A ranking of the step ids that decreases along every dependency edge
    shows that a plan is acyclic. *)
Lemma ranked_acyclic (rank : string -> nat) steps :
  (forall x y, dependsOn steps x y -> rank y < rank x) -> acyclic steps.
Proof.
  intros Hrank x Hcycle.
  assert (H : forall a b, clos_trans string (dependsOn steps) a b -> rank b < rank a).
  { intros a b Hab. induction Hab as [a b Hab | a b c _ IH1 _ IH2].
    - now apply Hrank.
    - lia. }
  specialize (H x x Hcycle). lia.
Qed.

Lemma validated_shrinks now plan :
  shrinks
    (TaskPlan.steps
       (Stage.plan (validatePlanScopes now (Stage.plan (validatePlanLevels plan)))))
    (TaskPlan.steps plan).
Proof.
  intros t Ht. unfold validatePlanScopes, validatePlanLevels in Ht. simpl in Ht.
  rewrite !map_map in Ht. apply in_map_iff in Ht. destruct Ht as [s [<- Hs]].
  exists s. split; [assumption |].
  rewrite repairStepScope_id, correctStepLevel_id.
  rewrite repairStepScope_dependencies, correctStepLevel_dependencies.
  split; [reflexivity | apply incl_refl].
Qed.

Lemma noDangling_equiv steps steps' :
  (forall t, In t steps' <-> In t steps) ->
  noDanglingDependencies steps = true -> noDanglingDependencies steps' = true.
Proof.
  intros Hequiv. rewrite !noDangling_iff. intros H s d Hs Hd.
  apply Hequiv in Hs. specialize (H s d Hs Hd).
  apply in_map_iff in H. destruct H as [s' [<- Hs']].
  apply in_map. now apply Hequiv.
Qed.

(** ** Dynamic chunking when no merge is recorded: no id is lost *)

Lemma keepGroup_represented groupSteps : forall st,
  (forall x, In x (MergeState.processedStepIds st) ->
             In x (stepIds (MergeState.mergedSteps st))) ->
  forall x, In x (MergeState.processedStepIds (keepGroup st groupSteps)) ->
            In x (stepIds (MergeState.mergedSteps (keepGroup st groupSteps))).
Proof.
  unfold keepGroup. induction groupSteps as [| s rest IH]; intros st Hinv;
    cbn [fold_left]; [exact Hinv |].
  apply IH.
  destruct (negb (set_has (MergeState.processedStepIds st) (PlanStep.id s)));
    [| exact Hinv].
  cbn [MergeState.processedStepIds MergeState.mergedSteps]. intros x Hx.
  unfold stepIds. rewrite map_app, in_app_iff.
  apply set_add_In in Hx. destruct Hx as [Hx | ->].
  - left. now apply Hinv.
  - right. now left.
Qed.

Lemma processGroups_represented limit groups : forall st final,
  Forall (fun g => fits (length (snd g)) limit = true) groups ->
  fold_left (processGroup limit) groups (Ok st) = Ok final ->
  (forall x, In x (MergeState.processedStepIds st) ->
             In x (stepIds (MergeState.mergedSteps st))) ->
  (forall x, In x (MergeState.processedStepIds final) ->
             In x (stepIds (MergeState.mergedSteps final)))
  /\ MergeState.stepsToRemove final = MergeState.stepsToRemove st.
Proof.
  induction groups as [| g groups IH]; intros st final Hall Hfold Hinv.
  - cbn in Hfold. injection Hfold as <-. now split.
  - inversion Hall as [| ? ? Hg Hrest]; subst.
    apply processGroups_step in Hfold. destruct Hfold as [st1 [Hstep Hfold]].
    apply processGroup_spec in Hstep.
    destruct Hstep as [[_ ->] | [Hover _]]; [| congruence].
    destruct (IH _ _ Hrest Hfold (@keepGroup_represented (snd g) st Hinv))
      as [Hfinal Hremoved].
    split; [exact Hfinal |]. rewrite Hremoved.
    now destruct (keepGroup_spec (snd g) st) as [_ [_ [K3 _]]].
Qed.

(** When no merge is recorded, every step id of the plan is still the id of
    a step of the chunked plan, also when ids repeat. *)
Lemma applyDynamicChunking_unmerged plan limit stage :
  applyDynamicChunking plan limit = Ok stage ->
  recorded "steps_merged" (Stage.changes stage) = false ->
  forall s, In s (TaskPlan.steps plan) ->
            In (PlanStep.id s) (stepIds (TaskPlan.steps (Stage.plan stage))).
Proof.
  intros Hchunk Hnone s Hs. destruct (truthy limit) as [n |] eqn:Hlimit.
  2:{ rewrite (applyDynamicChunking_off _ _ Hlimit) in Hchunk.
      injection Hchunk as <-. cbn. now apply in_map. }
  destruct (applyDynamicChunking_limit _ _ Hlimit Hchunk) as [st [Hfold [Hch ->]]].
  rewrite Hch in Hnone.
  pose proof (processGroups_unmerged _ _ _ Hfold Hnone) as Hwithin.
  destruct (@processGroups_represented _ _ _ _ Hwithin Hfold) as [Hinv Hremoved];
    [intros x [] |].
  cbn [MergeState.empty MergeState.stepsToRemove] in Hremoved.
  cbn [TaskPlan.with_steps TaskPlan.steps]. rewrite Hremoved.
  assert (Hkeep : forall l : list PlanStep.t,
            filter (fun step => negb (set_has [] (PlanStep.id step))) l = l).
  { induction l as [| u l IH]; [reflexivity |]. cbn [filter].
    change (set_has [] (PlanStep.id u)) with false. cbn [negb]. now f_equal. }
  rewrite Hkeep.
  unfold stepIds. rewrite map_map.
  rewrite (map_ext _ PlanStep.id) by (intros u; apply rewriteDependencies_id).
  rewrite map_app, in_app_iff.
  destruct (set_has (MergeState.processedStepIds st) (PlanStep.id s)) eqn:Hproc.
  - left. apply Hinv. now apply set_has_In.
  - right. apply in_map. apply filter_In. split; [exact Hs |]. now rewrite Hproc.
Qed.

(** C1 (amended). For every plan accepted by the schema and every
    combination of limits, whatever numbers they are, [validatePlan] returns
    a plan such that
    - if the result records no truncation (no [phases_truncated] and no
      [steps_truncated] change) and either the step ids of the input are
      distinct or the result records no merge, every dependency id of its
      steps is the id of one of its steps: merging redirects the edges to
      the surviving step;
    - if the result records no merge (no [steps_merged] change) and the
      dependency relation of the input is acyclic, so is the dependency
      relation of the result restricted to the step ids present. *)
Theorem C1_dependency_integrity (now : Z) (plan : TaskPlan.t)
        (options : ValidatePlanOptions) :
  taskPlanSchema plan = true ->
  exists r,
    validatePlan now plan options = Ok r
    /\ (recorded "phases_truncated" (ValidatePlanResult.changes r) = false ->
        recorded "steps_truncated" (ValidatePlanResult.changes r) = false ->
        NoDup (stepIds (TaskPlan.steps plan))
        \/ recorded "steps_merged" (ValidatePlanResult.changes r) = false ->
        noDanglingDependencies (TaskPlan.steps (ValidatePlanResult.plan r)) = true)
    /\ (recorded "steps_merged" (ValidatePlanResult.changes r) = false ->
        acyclic (TaskPlan.steps plan) ->
        acyclic (TaskPlan.steps (ValidatePlanResult.plan r))).
Proof.
  intros Hschema.
  destruct (taskPlanSchema_steps _ Hschema) as [Hsteps [Hphases [Hids Hedges]]].
  destruct (validatePlan_stages now plan options)
    as [chunked [r [Hchunk [Hrun [Hplan Hchanges]]]]].
  cbn zeta in *. exists r. split; [exact Hrun |].
  set (validated := Stage.plan (validatePlanScopes now (Stage.plan (validatePlanLevels plan)))) in *.
  set (limited := applyGlobalLimits (Stage.plan chunked) (targetMaxPhases options)
                                    (targetMaxSteps options)) in *.
  destruct (validated_edges now plan) as [Hsameids Hsamedeps]. cbn zeta in *.
  fold validated in Hsameids, Hsamedeps.
  rewrite Hplan, Hchanges. rewrite !recorded_app. split.
  - (* no dangling edge *)
    intros Hphase Hstep Hcase.
    repeat (apply orb_false_iff in Hphase; destruct Hphase as [? Hphase]).
    repeat (apply orb_false_iff in Hstep; destruct Hstep as [? Hstep]).
    assert (Hvalidated : noDanglingDependencies (TaskPlan.steps validated) = true)
      by now rewrite (noDangling_edges _ _ Hsameids Hsamedeps).
    assert (Hin : noDanglingDependencies (TaskPlan.steps (Stage.plan chunked)) = true
                  /\ (TaskPlan.steps validated <> [] ->
                      TaskPlan.steps (Stage.plan chunked) <> [])).
    { destruct Hcase as [Hdistinct | Hmerged].
      - apply (applyDynamicChunking_integrity validated (maxMicroStepsPerPhase options)).
        + now rewrite Hsameids.
        + intros s Hs. apply (in_map PlanStep.id) in Hs.
          fold (stepIds (TaskPlan.steps validated)) in Hs. rewrite Hsameids in Hs.
          apply in_map_iff in Hs. destruct Hs as [s0 [<- Hs0]]. now apply Hids.
        + exact Hvalidated.
        + exact Hchunk.
      - repeat (apply orb_false_iff in Hmerged; destruct Hmerged as [? Hmerged]).
        assert (Hnone : recorded "steps_merged" (Stage.changes chunked) = false)
          by assumption.
        pose proof (@applyDynamicChunking_unmerged _ _ _ Hchunk Hnone) as Hkept.
        destruct (applyDynamicChunking_provenance _ _ Hchunk) as [_ Hshrink].
        specialize (Hshrink Hnone). split.
        + apply noDangling_iff. intros t d Ht Hd.
          destruct (Hshrink t Ht) as [s [Hs [_ Hdeps]]].
          rewrite noDangling_iff in Hvalidated.
          pose proof (Hvalidated s d Hs (Hdeps d Hd)) as Hid.
          apply in_map_iff in Hid. destruct Hid as [s' [<- Hs']].
          now apply Hkept.
        + intros Hne Hempty.
          destruct (TaskPlan.steps validated) as [| s ss] eqn:Hv; [congruence |].
          assert (Hs : In (PlanStep.id s)
                          (stepIds (TaskPlan.steps (Stage.plan chunked))))
            by (apply Hkept; now left).
          rewrite Hempty in Hs. destruct Hs. }
    destruct Hin as [Hnd Hne].
    pose proof (applyGlobalLimits_untruncated (Stage.plan chunked)
                  (targetMaxPhases options) (targetMaxSteps options) Hphase Hstep)
      as Hequiv.
    fold limited in Hequiv.
    assert (Hlimited : TaskPlan.steps (Stage.plan limited) <> []).
    { assert (Hv : TaskPlan.steps validated <> []).
      { intros Hv. apply Hsteps. apply (f_equal (@length _)) in Hsameids.
        unfold stepIds in Hsameids. rewrite !length_map, Hv in Hsameids.
        now destruct (TaskPlan.steps plan). }
      specialize (Hne Hv). intros Hempty.
      destruct (TaskPlan.steps (Stage.plan chunked)) as [| c cs]; [congruence |].
      assert (Hc : In c (TaskPlan.steps (Stage.plan limited))) by (apply Hequiv; now left).
      rewrite Hempty in Hc. destruct Hc. }
    rewrite (preserveFirstStep_nonempty plan _ Hlimited).
    eapply noDangling_equiv; eauto.
  - (* acyclicity *)
    intros Hmerged Hacyclic.
    repeat (apply orb_false_iff in Hmerged; destruct Hmerged as [? Hmerged]).
    apply shrinks_acyclic with (input := TaskPlan.steps plan); [| assumption].
    destruct (applyDynamicChunking_provenance _ _ Hchunk) as [_ Hshrink].
    assert (Hchain : shrinks (TaskPlan.steps (Stage.plan limited)) (TaskPlan.steps plan)).
    { apply shrinks_trans with (TaskPlan.steps (Stage.plan chunked)).
      - intros t Ht. apply applyGlobalLimits_provenance in Ht.
        destruct Ht as [s [Hs [Hid [_ Hd]]]]. exists s. auto.
      - apply shrinks_trans with (TaskPlan.steps validated).
        + now apply Hshrink.
        + apply validated_shrinks. }
    intros t Ht. apply preserveFirstStep_cases in Ht.
    destruct Ht as [Ht | [_ [first [rest [Hbefore [Hid [_ Hdeps]]]]]]].
    + now apply Hchain.
    + exists first. split; [rewrite Hbefore; now left |].
      split; [assumption |]. rewrite Hdeps. apply incl_refl.
Qed.

Lemma editTestEdit_acyclic : acyclic (TaskPlan.steps Sample.editTestEdit).
Proof.
  apply (ranked_acyclic
           (fun x => if String.eqb x "a" then 0 else if String.eqb x "b" then 1 else 2)).
  intros x y [step [Hin [<- [Hy _]]]]. simpl in Hin.
  destruct Hin as [<- | [<- | [<- | []]]]; simpl in Hy.
  - destruct Hy.
  - destruct Hy as [<- | []]. simpl. lia.
  - destruct Hy as [<- | []]. simpl. lia.
Qed.

(** A run that merges ([a] and [c] into [a]) and a run that truncates (the
    phase keeps two of its three steps). *)
Lemma C1_witness :
  (exists r,
      validatePlan 0 Sample.editTestEdit (mkOptions None None (Some (Int 1)))
      = Ok r
      /\ recorded "steps_merged" (ValidatePlanResult.changes r) = true
      /\ stepIds (TaskPlan.steps (ValidatePlanResult.plan r)) = ["a"; "b"]
      /\ noDanglingDependencies (TaskPlan.steps (ValidatePlanResult.plan r))
         = true)
  /\ (exists r,
         validatePlan 0 Sample.editTestEdit (Sample.stepsPerPhase 2) = Ok r
         /\ recorded "steps_truncated" (ValidatePlanResult.changes r) = true
         /\ stepIds (TaskPlan.steps (ValidatePlanResult.plan r)) = ["a"; "b"]
         /\ acyclic (TaskPlan.steps (ValidatePlanResult.plan r))).
Proof.
  split.
  - destruct (@C1_dependency_integrity 0 Sample.editTestEdit
                (mkOptions None None (Some (Int 1))) eq_refl)
      as [r [Hrun [Hedges _]]].
    exists r. split; [exact Hrun |].
    vm_compute in Hrun. injection Hrun as <-.
    split; [reflexivity |]. split; [reflexivity |].
    apply Hedges; [reflexivity | reflexivity |]. left.
    repeat constructor; simpl; intuition discriminate.
  - destruct (@C1_dependency_integrity 0 Sample.editTestEdit
                (Sample.stepsPerPhase 2) eq_refl)
      as [r [Hrun [_ Hacyclic]]].
    exists r. split; [exact Hrun |].
    vm_compute in Hrun. injection Hrun as <-.
    split; [reflexivity |]. split; [reflexivity |].
    apply Hacyclic; [reflexivity | exact editTestEdit_acyclic].
Defined.


(** The claim as stated fails when steps are merged.  Of the three steps
    edit [a], test [b] (after [a]), edit [c] (after [b]), the two edits are
    merged into [a], which then depends on [b], which depends on [a].  And
    when an id is used twice, merging can remove the step an edge was
    redirected to: of edit [x], edit [y], test [z] (after [y]), test [x],
    the edits are merged into [x] and the tests into [z]; the second merge
    marks the id [x] for removal, so that only [z] is left, with its edge to
    [y] redirected to [x].  No truncation is recorded in either run. *)
Lemma C1_counterexample :
  (taskPlanSchema Sample.editTestEdit = true
   /\ acyclic (TaskPlan.steps Sample.editTestEdit)
   /\ exists r,
        validatePlan 0 Sample.editTestEdit (mkOptions None None (Some (Int 1)))
        = Ok r
        /\ ~ acyclic (TaskPlan.steps (ValidatePlanResult.plan r)))
  /\ (taskPlanSchema Sample.sharedId = true
      /\ exists r,
           validatePlan 0 Sample.sharedId (mkOptions None None (Some (Int 1)))
           = Ok r
           /\ recorded "phases_truncated" (ValidatePlanResult.changes r) = false
           /\ recorded "steps_truncated" (ValidatePlanResult.changes r) = false
           /\ map (fun s => (PlanStep.id s, PlanStep.dependencies s))
                  (TaskPlan.steps (ValidatePlanResult.plan r))
              = [("z", ["x"])]
           /\ noDanglingDependencies
                (TaskPlan.steps (ValidatePlanResult.plan r)) = false).
Proof.
  split.
  - split; [reflexivity |]. split; [exact editTestEdit_acyclic |].
    eexists. split; [vm_compute; reflexivity |].
    intros Hacyclic. apply (Hacyclic "a").
    apply t_trans with "b"; apply t_step.
    + eexists. split; [left; reflexivity |]. simpl.
      repeat split; auto.
    + eexists. split; [right; left; reflexivity |]. simpl.
      repeat split; auto.
  - split; [reflexivity |].
    eexists. split; [vm_compute; reflexivity |]. repeat split; reflexivity.
Qed.

(** Truncation to one step per phase drops [b] from the first phase and
    leaves the edge from [c], in the second phase, to [b] dangling: the
    dependencies are only stripped from the kept steps of the phase that
    lost the step.  Truncation to one phase does not strip any edge. *)
Lemma truncation_leaves_dangling_edges :
  taskPlanSchema Sample.twoPhases = true
  /\ (exists r,
         validatePlan 0 Sample.twoPhases (mkOptions None (Some (Int 1)) None) = Ok r
         /\ map (fun s => (PlanStep.id s, PlanStep.dependencies s))
                (TaskPlan.steps (ValidatePlanResult.plan r))
            = [("a", []); ("c", ["b"])]
         /\ noDanglingDependencies (TaskPlan.steps (ValidatePlanResult.plan r))
            = false)
  /\ taskPlanSchema Sample.lateSteps = true
  /\ (exists r,
         validatePlan 0 Sample.lateSteps (mkOptions (Some (Int 1)) None None) = Ok r
         /\ map (fun s => (PlanStep.id s, PlanStep.phaseId s))
                (TaskPlan.steps (ValidatePlanResult.plan r))
            = [("a", "p1")]).
Proof.
  split; [reflexivity |]. split.
  - eexists. split; [vm_compute; reflexivity |]. split; reflexivity.
  - split; [reflexivity |]. eexists. split; [vm_compute; reflexivity |]. reflexivity.
Qed.

(** ** Scope completeness *)

Lemma scopeResolved_same scopes t s :
  PlanStep.scopeId t = PlanStep.scopeId s ->
  scopeResolved scopes t = scopeResolved scopes s.
Proof. unfold scopeResolved. now intros ->. Qed.

(** ** Sorting by start line *)

Section SortedBy.
Variable A : Type.
Variable key : A -> Z.

Local Abbreviation byKey := (fun a b : A => (key a <= key b)%Z).

Lemma insertSorted_sorted x (sorted : list A) :
StronglySorted byKey sorted -> StronglySorted byKey (insertSorted key x sorted).
Proof.
induction sorted as [| y rest IH]; simpl; intros Hs.
- constructor; [constructor | constructor].
- inversion Hs as [| ? ? Hrest Hall]; subst.
destruct (key x <=? key y)%Z eqn:E.
+ apply Z.leb_le in E. constructor; [assumption |].
constructor; [assumption |].
rewrite Forall_forall in *. intros z Hz. specialize (Hall z Hz).
simpl in *. lia.
+ apply Z.leb_gt in E. constructor; [now apply IH |].
rewrite Forall_forall in *. intros z Hz.
apply insertSorted_In in Hz. destruct Hz as [-> | Hz].
* simpl. lia.
* now apply Hall.
Qed.

Lemma sortBy_sorted (xs : list A) : StronglySorted byKey (sortBy key xs).
Proof.
induction xs as [| x xs IH]; simpl; [constructor |].
now apply insertSorted_sorted.
Qed.

Lemma sorted_skipn n (xs : list A) :
StronglySorted byKey xs -> StronglySorted byKey (skipn n xs).
Proof.
revert xs. induction n as [| n IH]; intros [| x xs] Hs; simpl; auto.
inversion Hs; subst. now apply IH.
Qed.

Lemma sorted_firstn n (xs : list A) :
StronglySorted byKey xs -> StronglySorted byKey (firstn n xs).
Proof.
revert xs. induction n as [| n IH]; intros [| x xs] Hs; simpl;
try constructor.
- inversion Hs; subst. now apply IH.
- inversion Hs as [| ? ? _ Hall]; subst.
rewrite Forall_forall in *. intros z Hz. apply Hall.
now apply in_firstn in Hz.
Qed.
End SortedBy.

Lemma fold_min_head (zs : list Z) (z : Z) :
  Forall (fun y => (z <= y)%Z) zs -> fold_left Z.min zs z = z.
Proof.
  revert z. induction zs as [| y zs IH]; simpl; intros z H; [reflexivity |].
  inversion H as [| ? ? Hy Hrest]; subst.
  rewrite Z.min_l by assumption. now apply IH.
Qed.

Lemma last_cons_default (A : Type) (a : A) (l : list A) (d d' : A) :
  last (a :: l) d = last (a :: l) d'.
Proof.
  revert a. induction l as [| b l IH]; intros a; [reflexivity |].
  change (last (b :: l) d = last (b :: l) d'). apply IH.
Qed.

Lemma fold_max_last (zs : list Z) (z : Z) :
  StronglySorted Z.le (z :: zs) -> fold_left Z.max zs z = last zs z.
Proof.
  revert z. induction zs as [| y zs IH]; intros z H; [reflexivity |].
  inversion H as [| ? ? Hrest Hall]; subst.
  inversion Hall as [| ? ? Hy _]; subst.
  cbn [fold_left]. rewrite Z.max_r by assumption. rewrite (IH y Hrest).
  destruct zs as [| z0 zs]; [reflexivity |].
  change (last (z0 :: zs) y = last (z0 :: zs) z). apply last_cons_default.
Qed.

Lemma last_map (A B : Type) (f : A -> B) (l : list A) (d : A) :
  last (map f l) (f d) = f (last l d).
Proof.
  induction l as [| a l IH]; simpl; [reflexivity |].
  destruct l; simpl in *; [reflexivity | exact IH].
Qed.

Lemma StronglySorted_map (A B : Type) (f : A -> B) (R : B -> B -> Prop) (l : list A) :
  StronglySorted (fun a b => R (f a) (f b)) l -> StronglySorted R (map f l).
Proof.
  induction 1 as [| a l Hs IH Hall]; simpl; constructor; auto.
  rewrite Forall_forall in *. intros y Hy. apply in_map_iff in Hy.
  destruct Hy as [x [<- Hx]]. now apply Hall.
Qed.

(** The Summary chunk built from a batch taken from chunks sorted by start
    line. *)
Lemma summaryChunk_summarizes src filePath first others :
  StronglySorted (fun a b => (CodeChunk.startLine a <= CodeChunk.startLine b)%Z)
                 (first :: others) ->
  summarizes (summaryChunk src filePath (first :: others) first
                           (last (first :: others) first))
             first others.
Proof.
  intros Hsorted. unfold summarizes, summaryChunk.
  assert (Hlast : last (first :: others) first = last others first).
  { destruct others; reflexivity. }
  rewrite Hlast. simpl CodeChunk.type. simpl CodeChunk.startLine.
  simpl CodeChunk.endLine. cbn [CodeChunk.metadata ChunkMetadata.mergedFrom].
  split; [reflexivity |]. split; [reflexivity |]. split; [| split; [reflexivity |]].
  - unfold minStartLine. symmetry. apply fold_min_head.
    inversion Hsorted as [| ? ? _ Hall]; subst.
    rewrite Forall_forall in *. intros y Hy. apply in_map_iff in Hy.
    destruct Hy as [x [<- Hx]]. now apply Hall.
  - intros Hends. unfold maxEndLine.
    rewrite fold_max_last.
    + now rewrite last_map.
    + change (StronglySorted Z.le (map CodeChunk.endLine (first :: others))).
      apply StronglySorted_map. exact Hends.
Qed.

(** ** The merge loop of dechunking *)

Lemma firstn_single (A : Type) (limit : nat) (x : A) (after : list A) (single : A) :
  firstn limit (x :: after) = [single] ->
  single = x /\ (limit = 1 \/ after = []).
Proof.
  destruct limit as [| [| l]]; simpl; try discriminate.
  - intros [= <-]. auto.
  - destruct after; [intros [= <-]; auto | discriminate].
Qed.

(** With a positive limit and fuel for one iteration per chunk, the loop
    over the chunks of a file, sorted by start line, ends normally; each
    chunk it appends is one of the file's chunks, unchanged, or the Summary
    of a batch of two or more of them. *)
Lemma mergeFileChunks_spec ids limit filePath : forall fuel remaining st,
  0 < limit ->
  length remaining <= fuel ->
  StronglySorted (fun a b => (CodeChunk.startLine a <= CodeChunk.startLine b)%Z)
                 remaining ->
  exists st',
    mergeFileChunks fuel ids limit filePath remaining st = Ok st'
    /\ forall c, In c (Dechunk.mergedChunks st') ->
         In c (Dechunk.mergedChunks st)
         \/ In c remaining
         \/ exists first others,
              others <> []
              /\ (forall x, In x (first :: others) -> In x remaining)
              /\ CodeChunk.filePath c = filePath
              /\ startsAscending (first :: others)
              /\ summarizes c first others.
Proof.
  induction fuel as [| fuel IH]; intros remaining st Hlimit Hfuel Hsorted.
  - destruct remaining; [| simpl in Hfuel; lia].
    exists st. split; [reflexivity | auto].
  - destruct remaining as [| x after]; [exists st; split; [reflexivity | auto] |].
    cbn [mergeFileChunks].
    destruct (firstn limit (x :: after)) as [| b0 [| b1 bs]] eqn:Hbatch.
    + destruct limit; [lia | discriminate].
    + (* a batch of one chunk *)
      apply firstn_single in Hbatch. destruct Hbatch as [-> _].
      destruct (IH after
                  (Dechunk.mk (Dechunk.mergedChunks st ++ [x])
                              (Dechunk.warnings st) (Dechunk.idCalls st)))
        as [st' [Hrun Hst']].
      * assumption.
      * simpl in Hfuel. lia.
      * now inversion Hsorted.
      * exists st'. split; [exact Hrun |].
        intros c Hc. destruct (Hst' c Hc) as [Hin | [Hin | Hsum]].
        -- simpl in Hin. apply in_app_iff in Hin.
           destruct Hin as [Hin | [<- | []]]; [now left | right; left; now left].
        -- right. left. now right.
        -- right. right. destruct Hsum as [first [others [Hne [Hin H]]]].
           exists first, others. split; [assumption |].
           split; [| assumption]. intros y Hy. right. now apply Hin.
    + (* a batch of several chunks *)
      set (batch := b0 :: b1 :: bs) in *.
      assert (Hsub : forall y, In y batch -> In y (x :: after)).
      { intros y Hy. rewrite <- Hbatch in Hy. now apply in_firstn in Hy. }
      assert (Hbsorted : StronglySorted
                           (fun a b => (CodeChunk.startLine a <= CodeChunk.startLine b)%Z)
                           batch).
      { rewrite <- Hbatch. now apply sorted_firstn. }
      match goal with
      | |- exists st', mergeFileChunks fuel ids limit filePath ?rest ?st1 = Ok st' /\ _ =>
          destruct (IH rest st1) as [st' [Hrun Hst']]
      end.
      * assumption.
      * rewrite length_skipn. simpl length. simpl in Hfuel. lia.
      * now apply sorted_skipn.
      * exists st'. split; [exact Hrun |].
        intros c Hc. destruct (Hst' c Hc) as [Hin | [Hin | Hsum]].
        -- simpl in Hin. apply in_app_iff in Hin.
           destruct Hin as [Hin | [<- | []]]; [now left |].
           right. right. exists b0, (b1 :: bs).
           split; [discriminate |]. split; [exact Hsub |].
           split; [reflexivity |]. split; [exact Hbsorted |].
           apply (summaryChunk_summarizes (ids (Dechunk.idCalls st)) filePath
                                          (first := b0) (others := b1 :: bs)).
           exact Hbsorted.
        -- right. left. now apply in_skipn in Hin.
        -- right. right. destruct Hsum as [first [others [Hne [Hin H]]]].
           exists first, others. split; [assumption |].
           split; [| assumption]. intros y Hy.
           apply (in_skipn (length batch)). now apply Hin.
Qed.

(** Dechunking ends normally whenever the limit is positive, and every
    chunk of its result is a chunk of the input or the Summary of two or more
    chunks of the input that belong to the same file. *)
Lemma dechunkFiles_spec ids limit chunks : forall groups st,
  0 < limit ->
  (forall g x, In g groups -> In x (snd g) ->
               In x chunks /\ CodeChunk.filePath x = fst g) ->
  exists st',
    fold_left (dechunkFile ids limit) groups (Ok st) = Ok st'
    /\ forall c, In c (Dechunk.mergedChunks st') ->
         In c (Dechunk.mergedChunks st)
         \/ In c chunks
         \/ exists first others,
              others <> []
              /\ (forall x, In x (first :: others) ->
                            In x chunks /\ CodeChunk.filePath x = CodeChunk.filePath c)
              /\ startsAscending (first :: others)
              /\ summarizes c first others.
Proof.
  induction groups as [| g groups IH]; intros st Hlimit Hgroups.
  - exists st. split; [reflexivity | auto].
  - cbn [fold_left]. unfold dechunkFile at 2. cbn [bind].
    destruct (@mergeFileChunks_spec ids limit (fst g)
                (length (sortBy CodeChunk.startLine (snd g)))
                (sortBy CodeChunk.startLine (snd g)) st Hlimit (le_n _)
                (sortBy_sorted CodeChunk.startLine (snd g)))
      as [st1 [Hrun Hst1]].
    rewrite Hrun.
    destruct (IH st1 Hlimit) as [st' [Hfold Hst']].
    { intros g' x Hg' Hx. apply (Hgroups g' x); [now right | assumption]. }
    exists st'. split; [exact Hfold |].
    assert (Hmember : forall x, In x (sortBy CodeChunk.startLine (snd g)) ->
                                In x chunks /\ CodeChunk.filePath x = fst g).
    { intros x Hx. apply sortBy_In in Hx. apply (Hgroups g x); [now left | assumption]. }
    intros c Hc. destruct (Hst' c Hc) as [Hin | Hrest]; [| now right].
    destruct (Hst1 c Hin) as [Hin1 | [Hin1 | Hsum]].
    + now left.
    + right. left. now apply Hmember.
    + right. right. destruct Hsum as [first [others [Hne [Hsub [Hfile H]]]]].
      exists first, others. split; [assumption |]. split; [| assumption].
      intros x Hx. destruct (Hmember x (Hsub x Hx)) as [Hin' Hf]. split; congruence.
Qed.

(** C4 (amended). Every chunk of the result of [applyDechunking] is either a
    chunk of the input, passed through as it is, or a chunk of kind Summary
    that absorbed two or more input chunks of the same file and carries their
    ids, in the order of their start lines ([startsAscending]), as
    [mergedFrom]; its [startLine] is the minimum of the contributors' start
    lines and its [endLine] is the end line of the contributor that starts
    last (the last of the list in that order), which is the maximum of the
    contributors' end lines when those do not decrease along the start
    lines (as for chunks that do not enclose one another). *)
Theorem C4_summary_lineage (ids : nat -> IdSource) (chunks : list CodeChunk.t)
        (options : MergedOptions.t) :
  0 < MergedOptions.maxChunksPerStep options ->
  exists out warnings,
    applyDechunking ids chunks options = Ok (out, warnings)
    /\ forall c, In c out ->
         In c chunks
         \/ exists first others,
              others <> []
              /\ (forall x, In x (first :: others) ->
                            In x chunks /\ CodeChunk.filePath x = CodeChunk.filePath c)
              /\ startsAscending (first :: others)
              /\ summarizes c first others.
Proof.
  intros Hlimit. unfold applyDechunking.
  destruct (length chunks <=? MergedOptions.maxChunksPerStep options).
  - exists chunks, []. split; [reflexivity | auto].
  - destruct (@dechunkFiles_spec ids _ chunks (groupByFile chunks) Dechunk.empty Hlimit)
      as [st' [Hfold Hst']].
    { intros [k g] x Hg Hx. simpl.
      now apply (groupBy_sound CodeChunk.filePath chunks k g x Hg Hx). }
    rewrite Hfold. cbn [bind]. eexists. eexists. split; [reflexivity |].
    intros c Hc. destruct (Hst' c Hc) as [[] | H]. exact H.
Qed.

Lemma C4_witness :
  exists out warnings,
    applyDechunking (Sample.clock 0) Sample.nested (Sample.options 2)
    = Ok (out, warnings)
    /\ forall c, In c out ->
         In c Sample.nested
         \/ exists first others,
              others <> []
              /\ (forall x, In x (first :: others) ->
                            In x Sample.nested
                            /\ CodeChunk.filePath x = CodeChunk.filePath c)
              /\ startsAscending (first :: others)
              /\ summarizes c first others.
Proof.
  apply C4_summary_lineage. simpl. lia.
Defined.

(** The claim as stated fails on chunks that enclose one another: the
    Summary of [outer] (lines 1-100) and [inner] (lines 10-20) ends at line
    20, while the greatest end line of its contributors is 100. *)
Lemma C4_counterexample :
  exists out warnings c,
    applyDechunking (Sample.clock 0) Sample.nested (Sample.options 2)
    = Ok (out, warnings)
    /\ In c out
    /\ CodeChunk.type c = Summary
    /\ ChunkMetadata.mergedFrom (CodeChunk.metadata c) = Some ["outer"; "inner"]
    /\ CodeChunk.endLine c = 20%Z
    /\ maxEndLine (Sample.chunk "outer" "test.ts" 1 100)
                  [Sample.chunk "inner" "test.ts" 10 20] = 100%Z.
Proof.
  eexists. eexists. eexists.
  split; [vm_compute; reflexivity |].
  split; [left; reflexivity |].
  repeat split.
Qed.

(** ** The per-file cap of dechunking *)

Lemma groupBy_same_key (A : Type) (keyOf : A -> string) (k : string) (xs : list A) :
  xs <> [] -> (forall x, In x xs -> keyOf x = k) -> groupBy keyOf xs = [(k, xs)].
Proof.
  assert (Hfold : forall rest pre,
             (forall x, In x rest -> keyOf x = k) ->
             fold_left (fun m x => pushToGroup m (keyOf x) x) rest [(k, pre)]
             = [(k, pre ++ rest)]).
  { induction rest as [| x rest IH]; intros pre Hkey; simpl.
    - now rewrite app_nil_r.
    - rewrite (Hkey x) by now left. rewrite String.eqb_refl.
      rewrite IH; [now rewrite <- app_assoc |].
      intros y Hy. apply Hkey. now right. }
  destruct xs as [| x rest]; [congruence |]. intros _ Hkey.
  unfold groupBy. simpl. rewrite (Hkey x) by now left.
  apply (Hfold rest [x]). intros y Hy. apply Hkey. now right.
Qed.

(** The instance of the merge cap given in the specification: ten chunks of
    one file, merged with a limit of five, leave two chunks, both of kind
    Summary with the ids of five chunks as [mergedFrom]. *)
Lemma ten_same_file_chunks (ids : nat -> IdSource) (chunks : list CodeChunk.t)
      (filePath : string) :
  length chunks = 10 ->
  (forall c, In c chunks -> CodeChunk.filePath c = filePath) ->
  exists out warnings,
    applyDechunking ids chunks (Sample.options 5) = Ok (out, warnings)
    /\ length out = 2
    /\ forall c, In c out ->
         CodeChunk.type c = Summary
         /\ exists merged,
              ChunkMetadata.mergedFrom (CodeChunk.metadata c) = Some merged
              /\ length merged = 5.
Proof.
  intros Hlen Hfile. unfold applyDechunking. rewrite Hlen. simpl Nat.leb. cbv iota.
  unfold groupByFile.
  rewrite (@groupBy_same_key _ CodeChunk.filePath filePath chunks);
    [| intros ->; discriminate | assumption].
  cbn [fold_left]. unfold dechunkFile. cbn [bind fst snd].
  pose proof (sortBy_length CodeChunk.startLine chunks) as Hsorted.
  rewrite Hlen in Hsorted. rewrite Hsorted.
  destruct (sortBy CodeChunk.startLine chunks)
    as [| c0 [| c1 [| c2 [| c3 [| c4 [| c5 [| c6 [| c7 [| c8 [| c9 [| c10 rest]]]]]]]]]]];
    try discriminate.
  cbn [mergeFileChunks firstn skipn length Sample.options
       MergedOptions.maxChunksPerStep bind Dechunk.mergedChunks Dechunk.warnings
       Dechunk.idCalls Dechunk.empty app last].
  eexists. eexists. split; [reflexivity |]. split; [reflexivity |].
  intros c [<- | [<- | []]]; (split; [reflexivity |]); eexists; split; reflexivity.
Qed.


Lemma ceilDiv_zero n : 0 < n -> ceilDiv 0 n = 0.
Proof. intros Hn. unfold ceilDiv. apply Nat.div_small. lia. Qed.

Lemma ceilDiv_batch m n :
  0 < n -> 0 < m -> ceilDiv m n = S (ceilDiv (m - Nat.min n m) n).
Proof.
  intros Hn Hm. unfold ceilDiv.
  replace (m + n - 1) with ((m - 1) + 1 * n) by lia.
  rewrite Nat.div_add by lia.
  destruct (Nat.le_gt_cases m n) as [Hle | Hgt].
  - rewrite Nat.min_r by assumption.
    replace (m - m + n - 1) with (n - 1) by lia.
    rewrite (Nat.div_small (m - 1)) by lia.
    rewrite (Nat.div_small (n - 1)) by lia. lia.
  - rewrite Nat.min_l by lia.
    replace (m - n + n - 1) with (m - 1) by lia. lia.
Qed.

(** The number of chunks one file is left with: one per batch. *)
Lemma mergeFileChunks_count ids limit filePath : forall fuel remaining st,
  1 <= limit ->
  length remaining <= fuel ->
  (forall x, In x remaining -> CodeChunk.filePath x = filePath) ->
  exists st' new,
    mergeFileChunks fuel ids limit filePath remaining st = Ok st'
    /\ Dechunk.mergedChunks st' = Dechunk.mergedChunks st ++ new
    /\ length new = ceilDiv (length remaining) limit
    /\ forall c, In c new -> CodeChunk.filePath c = filePath.
Proof.
  induction fuel as [| fuel IH]; intros remaining st Hlimit Hfuel Hfile.
  - destruct remaining; [| simpl in Hfuel; lia].
    exists st, []. rewrite app_nil_r, ceilDiv_zero by lia.
    repeat split. intros c [].
  - destruct remaining as [| x after].
    { exists st, []. rewrite app_nil_r, ceilDiv_zero by lia.
      repeat split. intros c []. }
    cbn [mergeFileChunks].
    assert (Hbatchlen : length (firstn limit (x :: after))
                        = Nat.min limit (length (x :: after))).
    { apply length_firstn. }
    rewrite (ceilDiv_batch (m := length (x :: after)) (n := limit))
      by (simpl; lia).
    destruct (firstn limit (x :: after)) as [| b0 [| b1 bs]] eqn:Hbatch.
    + simpl in Hbatchlen. lia.
    + (* a chunk alone in its batch: the limit is 1, or it is the last *)
      apply firstn_single in Hbatch. destruct Hbatch as [-> Hone].
      destruct (IH after
                  (Dechunk.mk (Dechunk.mergedChunks st ++ [x])
                              (Dechunk.warnings st) (Dechunk.idCalls st)))
        as [st' [new [Hrun [Hmerged [Hlen Hnew]]]]];
        [assumption | simpl in Hfuel; lia
         | intros y Hy; apply Hfile; now right |].
      exists st', ([x] ++ new). split; [exact Hrun |].
      split; [rewrite Hmerged; simpl; now rewrite <- app_assoc |].
      split.
      * rewrite length_app, Hlen. simpl length.
        destruct Hone as [-> | ->].
        -- rewrite Nat.min_l by lia. now rewrite Nat.sub_succ, Nat.sub_0_r.
        -- rewrite Nat.min_r by (simpl; lia). simpl length.
           now rewrite Nat.sub_diag.
      * intros c Hc. apply in_app_iff in Hc. destruct Hc as [[<- | []] | Hc].
        -- apply Hfile. now left.
        -- now apply Hnew.
    + (* a batch of several chunks *)
      match goal with
      | |- exists st' new, mergeFileChunks fuel ids limit filePath ?rest ?st1 = Ok st' /\ _ =>
          destruct (IH rest st1) as [st' [new [Hrun [Hmerged [Hlen Hnew]]]]]
      end.
      * assumption.
      * rewrite length_skipn. simpl length. simpl in Hfuel. lia.
      * intros y Hy. apply Hfile. now apply in_skipn in Hy.
      * match type of Hmerged with
        | _ = Dechunk.mergedChunks (Dechunk.mk (_ ++ [?summary]) _ _) ++ _ =>
            exists st', ([summary] ++ new)
        end.
        split; [exact Hrun |].
        split; [rewrite Hmerged; simpl; now rewrite <- app_assoc |].
        split.
        -- rewrite length_app, Hlen, length_skipn, Hbatchlen. reflexivity.
        -- intros c Hc. apply in_app_iff in Hc. destruct Hc as [[<- | []] | Hc].
           ++ reflexivity.
           ++ now apply Hnew.
Qed.

Lemma filter_none (A : Type) (f : A -> bool) (l : list A) :
  (forall x, In x l -> f x = false) -> filter f l = [].
Proof.
  induction l as [| a l IH]; simpl; intros H; [reflexivity |].
  rewrite (H a) by now left. apply IH. intros x Hx. apply H. now right.
Qed.

Lemma filter_all (A : Type) (f : A -> bool) (l : list A) :
  (forall x, In x l -> f x = true) -> filter f l = l.
Proof.
  induction l as [| a l IH]; simpl; intros H; [reflexivity |].
  rewrite (H a) by now left. f_equal. apply IH. intros x Hx. apply H. now right.
Qed.

Lemma chunksOfFile_app filePath l1 l2 :
  chunksOfFile filePath (l1 ++ l2)
  = chunksOfFile filePath l1 ++ chunksOfFile filePath l2.
Proof. apply filter_app. Qed.

Lemma chunksOfFile_same filePath l :
  (forall c, In c l -> CodeChunk.filePath c = filePath) ->
  chunksOfFile filePath l = l.
Proof.
  intros H. apply filter_all. intros c Hc. rewrite (H c Hc). apply String.eqb_refl.
Qed.

Lemma chunksOfFile_other filePath k l :
  String.eqb filePath k = false ->
  (forall c, In c l -> CodeChunk.filePath c = k) ->
  chunksOfFile filePath l = [].
Proof.
  intros E H. apply filter_none. intros c Hc.
  rewrite (H c Hc), String.eqb_sym. exact E.
Qed.

(** After the loop over the files, each file is left with one chunk per
    batch of its group. *)
Lemma dechunkFiles_count ids limit chunks filePath : forall groups st,
  1 <= limit ->
  NoDup (map fst groups) ->
  (forall k g, In (k, g) groups -> g = chunksOfFile k chunks) ->
  exists st',
    fold_left (dechunkFile ids limit) groups (Ok st) = Ok st'
    /\ length (chunksOfFile filePath (Dechunk.mergedChunks st'))
       = length (chunksOfFile filePath (Dechunk.mergedChunks st))
         + (if existsb (String.eqb filePath) (map fst groups)
            then ceilDiv (length (chunksOfFile filePath chunks)) limit
            else 0).
Proof.
  induction groups as [| [k g] groups IH]; intros st Hlimit Hkeys Hgroups.
  - exists st. split; [reflexivity |]. simpl. lia.
  - cbn [fold_left]. unfold dechunkFile at 2. cbn [bind fst snd].
    inversion Hkeys as [| ? ? Hnotin Hrest]; subst.
    assert (Hg : g = chunksOfFile k chunks) by (apply Hgroups; now left).
    destruct (@mergeFileChunks_count ids limit k
                (length (sortBy CodeChunk.startLine g))
                (sortBy CodeChunk.startLine g) st Hlimit (le_n _))
      as [st1 [new [Hrun [Hmerged [Hlen Hnew]]]]].
    { intros x Hx. apply sortBy_In in Hx. rewrite Hg in Hx.
      apply filter_In in Hx. destruct Hx as [_ Hx]. now apply String.eqb_eq. }
    rewrite Hrun.
    destruct (IH st1 Hlimit Hrest) as [st' [Hfold Hcount]].
    { intros k' g' Hin. apply Hgroups. now right. }
    exists st'. split; [exact Hfold |].
    rewrite Hcount, Hmerged, chunksOfFile_app, length_app.
    rewrite sortBy_length in Hlen. cbn [map fst existsb].
    destruct (String.eqb filePath k) eqn:E.
    + apply String.eqb_eq in E. subst k.
      rewrite (@chunksOfFile_same filePath new Hnew).
      assert (Hothers : existsb (String.eqb filePath) (map fst groups) = false).
      { destruct (existsb _ _) eqn:Hex; [| reflexivity]. exfalso.
        apply existsb_exists in Hex. destruct Hex as [k' [Hk' Heq]].
        apply String.eqb_eq in Heq. subst k'. contradiction. }
      rewrite Hothers. simpl orb. rewrite Hlen, Hg. lia.
    + rewrite (@chunksOfFile_other filePath k new E Hnew).
      simpl. lia.
Qed.

Lemma ceilDiv_square m n : 0 < n -> m <= n * n -> ceilDiv m n <= n.
Proof.
  intros Hn Hm. unfold ceilDiv.
  transitivity ((n * n + (n - 1)) / n).
  - apply Nat.Div0.div_le_mono. lia.
  - rewrite Nat.div_add_l by lia. rewrite (Nat.div_small (n - 1)) by lia. lia.
Qed.

(** C3.  [applyDechunking] walks the chunks of each file once, in batches
    of N = [maxChunksPerStep]: for every chunk list longer than N, with N at
    least 1, it ends normally and leaves a file that had m chunks with one
    chunk per batch, that is ceil(m / N) chunks; the count is per file.
    This is at most N when m is at most N * N: ten chunks of one file with
    N = 5 leave two chunks, both of kind Summary with the ids of five chunks
    as [mergedFrom].  It is more than N otherwise: five chunks of one file
    with N = 2 leave three chunks of that file, and with N = 1 nothing is
    merged and two chunks of one file are both passed through. *)
Theorem C3_per_file_batches :
  (forall (ids : nat -> IdSource) (chunks : list CodeChunk.t)
          (options : MergedOptions.t),
      1 <= MergedOptions.maxChunksPerStep options ->
      MergedOptions.maxChunksPerStep options < length chunks ->
      exists out warnings,
        applyDechunking ids chunks options = Ok (out, warnings)
        /\ forall filePath,
             length (chunksOfFile filePath out)
             = ceilDiv (length (chunksOfFile filePath chunks))
                       (MergedOptions.maxChunksPerStep options)
             /\ (length (chunksOfFile filePath chunks)
                 <= MergedOptions.maxChunksPerStep options
                    * MergedOptions.maxChunksPerStep options ->
                 length (chunksOfFile filePath out)
                 <= MergedOptions.maxChunksPerStep options))
  /\ (forall (ids : nat -> IdSource) (chunks : list CodeChunk.t) (filePath : string),
         length chunks = 10 ->
         (forall c, In c chunks -> CodeChunk.filePath c = filePath) ->
         exists out warnings,
           applyDechunking ids chunks (Sample.options 5) = Ok (out, warnings)
           /\ length out = 2
           /\ forall c, In c out ->
                CodeChunk.type c = Summary
                /\ exists merged,
                     ChunkMetadata.mergedFrom (CodeChunk.metadata c) = Some merged
                     /\ length merged = 5)
  /\ (exists out warnings,
         applyDechunking (Sample.clock 0) (Sample.tenLineChunks 5)
                         (Sample.options 2)
         = Ok (out, warnings)
         /\ map CodeChunk.type out = [Summary; Summary; Symbol]
         /\ length (chunksOfFile "test.ts" out) = 3)
  /\ (exists out warnings,
         applyDechunking (Sample.clock 0) (Sample.tenLineChunks 2)
                         (Sample.options 1)
         = Ok (out, warnings)
         /\ out = Sample.tenLineChunks 2
         /\ length (chunksOfFile "test.ts" out) = 2).
Proof.
  split; [| split; [exact ten_same_file_chunks |]].
  2:{ split; eexists; eexists; (split; [vm_compute; reflexivity |]);
        repeat split. }
  intros ids chunks options Hlimit Hlong. unfold applyDechunking.
  apply Nat.leb_gt in Hlong. rewrite Hlong.
  set (N := MergedOptions.maxChunksPerStep options) in *.
  destruct (groupBy_grouped CodeChunk.filePath chunks) as [Hkeys Hmembers Htotal].
  assert (Hrun : forall filePath,
             exists st',
               fold_left (dechunkFile ids N) (groupByFile chunks) (Ok Dechunk.empty)
               = Ok st'
               /\ length (chunksOfFile filePath (Dechunk.mergedChunks st'))
                  = ceilDiv (length (chunksOfFile filePath chunks)) N).
  { intros filePath.
    destruct (@dechunkFiles_count ids N chunks filePath (groupByFile chunks)
                Dechunk.empty Hlimit Hkeys) as [st' [Hfold Hcount]].
    { intros k g Hin. now destruct (Hmembers k g Hin). }
    exists st'. split; [exact Hfold |]. rewrite Hcount. simpl.
    destruct (existsb _ _) eqn:Hex; [reflexivity |].
    assert (Hnone : chunksOfFile filePath chunks = []).
    { apply filter_none. intros c Hc.
      destruct (String.eqb (CodeChunk.filePath c) filePath) eqn:E; [| reflexivity].
      apply String.eqb_eq in E. exfalso.
      assert (Hin : In filePath (map fst (groupBy CodeChunk.filePath chunks))).
      { rewrite <- E. now apply Htotal. }
      assert (Hyes : existsb (String.eqb filePath)
                             (map fst (groupByFile chunks)) = true).
      { apply existsb_exists. exists filePath.
        split; [exact Hin | apply String.eqb_refl]. }
      congruence. }
    rewrite Hnone. simpl. symmetry. apply ceilDiv_zero. lia. }
  destruct (Hrun EmptyString) as [st' [Hfold _]].
  rewrite Hfold. cbn [bind]. eexists. eexists. split; [reflexivity |].
  intros filePath. destruct (Hrun filePath) as [st'' [Hfold' Hcount]].
  assert (st'' = st') by congruence. subst st''.
  split; [exact Hcount |].
  intros Hsquare. rewrite Hcount. apply ceilDiv_square; lia.
Qed.

(** Twenty-six chunks of one file with N = 5: six chunks are left. *)
Lemma C3_witness :
  exists out warnings,
    applyDechunking (Sample.clock 0) (Sample.tenLineChunks 26) (Sample.options 5)
    = Ok (out, warnings)
    /\ length (chunksOfFile "test.ts" (Sample.tenLineChunks 26)) = 26
    /\ length (chunksOfFile "test.ts" out) = 6.
Proof.
  destruct (proj1 C3_per_file_batches (Sample.clock 0) (Sample.tenLineChunks 26)
                  (Sample.options 5)) as [out [warnings [Hrun Hcount]]];
    [simpl; lia | simpl; lia |].
  exists out, warnings. split; [exact Hrun |]. split; [reflexivity |].
  rewrite (proj1 (Hcount "test.ts")). reflexivity.
Defined.

(** ** What depends on the clock and on the random source *)

Lemma ensureGlobalScope_clock now now' scopes :
  1 <= globalScopeCount scopes ->
  ensureGlobalScope now scopes = ensureGlobalScope now' scopes.
Proof.
  unfold ensureGlobalScope, globalScopeCount. intros Hcount.
  destruct (find _ scopes) eqn:Hfind; [reflexivity |].
  exfalso. induction scopes as [| s scopes IH]; cbn in *; [lia |].
  destruct (isGlobal (PlanScope.kind s)); [discriminate |]. auto.
Qed.

Lemma validatePlanLevels_scopes plan :
  TaskPlan.scopes (Stage.plan (validatePlanLevels plan)) = TaskPlan.scopes plan.
Proof. reflexivity. Qed.

Lemma validatePlan_clock now now' plan options :
  1 <= globalScopeCount (TaskPlan.scopes plan) ->
  validatePlan now plan options = validatePlan now' plan options.
Proof.
  intros Hcount. unfold validatePlan.
  assert (Hscopes : validatePlanScopes now (Stage.plan (validatePlanLevels plan))
                    = validatePlanScopes now' (Stage.plan (validatePlanLevels plan))).
  { unfold validatePlanScopes. rewrite validatePlanLevels_scopes.
    now rewrite (@ensureGlobalScope_clock now now' _ Hcount). }
  now rewrite Hscopes.
Qed.

Lemma agree_bind (A B : Type) (R : A -> A -> Prop) (Q : B -> B -> Prop)
      (r r' : result A) (k k' : A -> result B) :
  agree R r r' ->
  (forall a b, R a b -> agree Q (k a) (k' b)) ->
  agree Q (bind r k) (bind r' k').
Proof.
  destruct r, r'; cbn; intros Hr Hk; try contradiction; auto.
Qed.

Lemma agree_eraseIds (r r' : result (list CodeChunk.t)) :
  agree sameChunks r r' <-> eraseIds r = eraseIds r'.
Proof.
  unfold sameChunks.
  destruct r, r'; cbn; split; intros H; try congruence; try contradiction;
    try discriminate; auto.
Qed.

Lemma sameChunks_length a b : sameChunks a b -> length a = length b.
Proof.
  unfold sameChunks. intros H.
  rewrite <- (length_map eraseId a), H. apply length_map.
Qed.

Lemma fileWindows_ids fuel ids ids' filePath maxLines endLine :
  forall currentStart chunkIndex,
    agree sameChunks
          (fileWindows fuel ids filePath maxLines endLine currentStart chunkIndex)
          (fileWindows fuel ids' filePath maxLines endLine currentStart chunkIndex).
Proof.
  induction fuel as [| fuel IH]; intros currentStart chunkIndex; cbn;
    destruct (currentStart <=? endLine)%Z; cbn; try reflexivity; auto.
  eapply agree_bind; [apply IH |].
  intros a b Hab. unfold sameChunks in *. cbn. now rewrite Hab.
Qed.

Lemma chunkByFileRange_ids fuel ids ids' filePath startLine endLine options :
  eraseIds (chunkByFileRange fuel ids filePath startLine endLine options)
  = eraseIds (chunkByFileRange fuel ids' filePath startLine endLine options).
Proof.
  apply agree_eraseIds. unfold chunkByFileRange.
  destruct (_ <=? _)%Z; [reflexivity | apply fileWindows_ids].
Qed.

Lemma sameChunks_snoc a b x y :
  sameChunks a b -> eraseId x = eraseId y -> sameChunks (a ++ [x]) (b ++ [y]).
Proof.
  unfold sameChunks. intros Hab Hxy. rewrite !map_app. cbn. congruence.
Qed.

Lemma mergeFileChunks_ids fuel ids ids' limit filePath :
  forall remaining st st',
    sameDechunk st st' ->
    agree sameDechunk
          (mergeFileChunks fuel ids limit filePath remaining st)
          (mergeFileChunks fuel ids' limit filePath remaining st').
Proof.
  induction fuel as [| fuel IH]; intros remaining st st' [Hchunks Hwarn];
    destruct remaining as [| c after]; cbn [mergeFileChunks agree];
    try (split; assumption); auto.
  destruct (firstn limit (c :: after)) as [| firstChunk [| second others]];
    [reflexivity | |].
  - apply IH. split; cbn; [now apply sameChunks_snoc | assumption].
  - apply IH. split; cbn; [now apply sameChunks_snoc | congruence].
Qed.

Lemma dechunkFiles_ids ids ids' limit byFile :
  forall acc acc',
    agree sameDechunk acc acc' ->
    agree sameDechunk (fold_left (dechunkFile ids limit) byFile acc)
          (fold_left (dechunkFile ids' limit) byFile acc').
Proof.
  induction byFile as [| entry byFile IH]; intros acc acc' Hacc;
    cbn [fold_left]; [assumption |].
  apply IH. unfold dechunkFile. eapply agree_bind; [exact Hacc |].
  intros a b Hab. now apply mergeFileChunks_ids.
Qed.

Lemma applyDechunking_ids ids ids' chunks options :
  agree sameDechunked (applyDechunking ids chunks options)
        (applyDechunking ids' chunks options).
Proof.
  unfold applyDechunking. destruct (_ <=? _).
  - cbn. split; reflexivity.
  - eapply agree_bind.
    + apply dechunkFiles_ids. cbn. split; reflexivity.
    + intros a b [Hchunks Hwarn]. cbn. split; assumption.
Qed.

Section LargeSymbolIds.
Variables ids ids' : nat -> IdSource.
Variables filePath symbolName symbolKind : string.
Variable startLine : Z.
Variable lines : list string.
Variable blocks : list BlockInfo.t.
Variable maxLines : Z.
Variable withContent : bool.

Local Abbreviation windows src :=
(symbolWindows src filePath symbolName symbolKind startLine lines blocks
   maxLines withContent).
Local Abbreviation walk src :=
(walkBoundaries src filePath symbolName symbolKind startLine lines blocks
    maxLines withContent).

Lemma symbolWindows_ids fuel chunkEnd :
forall currentStart chunkIndex,
agree sameChunks (windows ids fuel chunkEnd currentStart chunkIndex)
(windows ids' fuel chunkEnd currentStart chunkIndex).
Proof.
induction fuel as [| fuel IH]; intros currentStart chunkIndex; cbn;
destruct (currentStart <=? chunkEnd)%Z; cbn; try reflexivity; auto.
eapply agree_bind; [apply IH |].
intros a b Hab. unfold sameChunks in *. cbn. now rewrite Hab.
Qed.

Lemma walkBoundaries_ids fuel boundaries :
forall chunkIndex,
agree sameChunks (walk ids fuel boundaries chunkIndex)
(walk ids' fuel boundaries chunkIndex).
Proof.
induction boundaries as [| chunkStart tail IH]; intros chunkIndex;
[reflexivity |].
destruct tail as [| chunkEnd later]; [reflexivity |].
cbn [walkBoundaries].
destruct (_ && _); [apply IH |].
destruct (_ <? _)%Z.
- eapply agree_bind; [apply symbolWindows_ids |].
intros a b Hab. rewrite (sameChunks_length Hab).
eapply agree_bind; [apply IH |].
intros a' b' Hab'. unfold sameChunks in *. cbn. rewrite !map_app.
congruence.
- eapply agree_bind; [apply IH |].
intros a b Hab. unfold sameChunks in *. cbn. now rewrite Hab.
Qed.
End LargeSymbolIds.

Lemma chunkLargeSymbol_ids fuel ids ids' filePath symbolName symbolKind
      startLine endLine code options :
  eraseIds (chunkLargeSymbol fuel ids filePath symbolName symbolKind
                             startLine endLine code options)
  = eraseIds (chunkLargeSymbol fuel ids' filePath symbolName symbolKind
                               startLine endLine code options).
Proof. apply agree_eraseIds, walkBoundaries_ids. Qed.

Lemma chunkBySymbol_ids ids ids' scope options :
  agree sameChunkingResult (chunkBySymbol ids scope options)
        (chunkBySymbol ids' scope options).
Proof.
  unfold chunkBySymbol.
  destruct (ScopeResolution.symbolName scope) as [[| c rest] |].
  - cbn. destruct (MergedOptions.applyDechunking _); cbn;
      repeat split; reflexivity.
  - cbn [length].
    destruct (MergedOptions.applyDechunking _ && _) eqn:Hmerge.
    + apply andb_true_iff in Hmerge as [_ Hlimit].
      apply Nat.ltb_lt in Hlimit.
      assert (Hzero : MergedOptions.maxChunksPerStep (mergeOptions options) = 0)
        by (cbn in Hlimit; lia).
      unfold applyDechunking. rewrite Hzero. cbn. reflexivity.
    + cbn. repeat split; reflexivity.
  - cbn. destruct (MergedOptions.applyDechunking _); cbn;
      repeat split; reflexivity.
Qed.

(** C7 (amended). The operations are functions of their arguments together
    with the clock and the random source read for generated ids.
    [validatePlan] does not depend on the clock when the plan has a global
    scope; the four chunk operations return, for any two id sources, results
    that agree in everything but the [id] field of the chunks they create
    (same failure, same chunks, same warnings and statistics). *)
Theorem C7_deterministic_up_to_generated_ids :
  (forall now now' plan options,
      1 <= globalScopeCount (TaskPlan.scopes plan) ->
      validatePlan now plan options = validatePlan now' plan options)
  /\ (forall ids ids' chunks options,
         agree sameDechunked (applyDechunking ids chunks options)
               (applyDechunking ids' chunks options))
  /\ (forall fuel ids ids' filePath startLine endLine options,
         eraseIds (chunkByFileRange fuel ids filePath startLine endLine options)
         = eraseIds (chunkByFileRange fuel ids' filePath startLine endLine
                                      options))
  /\ (forall fuel ids ids' filePath symbolName symbolKind startLine endLine
             code options,
         eraseIds (chunkLargeSymbol fuel ids filePath symbolName symbolKind
                                    startLine endLine code options)
         = eraseIds (chunkLargeSymbol fuel ids' filePath symbolName symbolKind
                                      startLine endLine code options))
  /\ (forall ids ids' scope options,
         agree sameChunkingResult (chunkBySymbol ids scope options)
               (chunkBySymbol ids' scope options)).
Proof.
  split; [intros; now apply validatePlan_clock |].
  split; [intros; apply applyDechunking_ids |].
  split; [intros; apply chunkByFileRange_ids |].
  split; [intros; apply chunkLargeSymbol_ids |].
  intros; apply chunkBySymbol_ids.
Qed.

Lemma C7_witness :
  1 <= globalScopeCount (TaskPlan.scopes Sample.editTestEdit)
  /\ validatePlan 0 Sample.editTestEdit (mkOptions None None (Some (Int 2)))
     = validatePlan 1 Sample.editTestEdit (mkOptions None None (Some (Int 2))).
Proof.
  split; [vm_compute; lia |].
  apply (proj1 C7_deterministic_up_to_generated_ids). vm_compute. lia.
Defined.

(** C7 as stated does not hold: the same plan validated at two clock readings
    gets two different scope ids, and each chunk operation called twice on
    the same arguments returns chunks with different ids. *)
Lemma C7_counterexample :
  validatePlan 0 Sample.noGlobal Sample.noLimits
  <> validatePlan 1 Sample.noGlobal Sample.noLimits
  /\ chunkByFileRange 1 (Sample.clock 0) "test.ts" 1 10 None
     <> chunkByFileRange 1 (Sample.clock 1) "test.ts" 1 10 None
  /\ applyDechunking (Sample.clock 0) (Sample.tenLineChunks 10)
                     (Sample.options 5)
     <> applyDechunking (Sample.clock 1) (Sample.tenLineChunks 10)
                        (Sample.options 5)
  /\ chunkLargeSymbol 20 (Sample.clock 0) "test.ts" "work" "function" 1 20
                      (Sample.linesWithComment 20 10) (Sample.maxLines 15)
     <> chunkLargeSymbol 20 (Sample.clock 1) "test.ts" "work" "function" 1 20
                         (Sample.linesWithComment 20 10) (Sample.maxLines 15)
  /\ chunkBySymbol (Sample.clock 0)
                   (ScopeResolution.mk "symbol" (Some "work") None) None
     <> chunkBySymbol (Sample.clock 1)
                      (ScopeResolution.mk "symbol" (Some "work") None) None.
Proof.
  repeat split; intros H; vm_compute in H; discriminate.
Qed.

(** ** The boundaries of a large symbol *)

Lemma zset_add_In (s : list Z) (x y : Z) :
  In y (zset_add s x) <-> In y s \/ y = x.
Proof.
  unfold zset_add. destruct (existsb (Z.eqb x) s) eqn:Hhas.
  - apply existsb_exists in Hhas as [z [Hz Heq]].
    apply Z.eqb_eq in Heq. subst z. split; [tauto |].
    intros [H | ->]; assumption.
  - rewrite in_app_iff. cbn. intuition.
Qed.

Lemma zset_add_NoDup (s : list Z) (x : Z) : NoDup s -> NoDup (zset_add s x).
Proof.
  unfold zset_add. intros Hs. destruct (existsb (Z.eqb x) s) eqn:Hhas;
    [assumption |].
  apply NoDup_app; [assumption | constructor; [intros [] | constructor] |].
  intros z Hz [Heq | []]. subst z.
  assert (Hyes : existsb (Z.eqb x) s = true)
    by (apply existsb_exists; exists x; split; [assumption | apply Z.eqb_refl]).
  congruence.
Qed.

Lemma zset_fold (candidates : list Z) :
  forall s, NoDup s ->
    NoDup (fold_left zset_add candidates s)
    /\ (forall y, In y (fold_left zset_add candidates s)
                  <-> In y s \/ In y candidates).
Proof.
  induction candidates as [| x candidates IH]; intros s Hs; cbn [fold_left].
  - split; [assumption |]. intros y. cbn. tauto.
  - destruct (IH (zset_add s x) (zset_add_NoDup x Hs)) as [Hnd Hin].
    split; [assumption |]. intros y. rewrite Hin, zset_add_In. cbn.
    intuition.
Qed.

Lemma insertSorted_strict (x : Z) (sorted : list Z) :
  StronglySorted Z.lt sorted -> ~ In x sorted ->
  StronglySorted Z.lt (insertSorted (fun z => z) x sorted).
Proof.
  induction sorted as [| y rest IH]; cbn; intros Hsorted Hfresh.
  - constructor; constructor.
  - inversion Hsorted as [| ? ? Hrest Hall]; subst.
    destruct (x <=? y)%Z eqn:Hle.
    + apply Z.leb_le in Hle. assert (x < y)%Z by lia.
      constructor; [assumption |]. constructor; [assumption |].
      rewrite Forall_forall in *. intros z Hz. specialize (Hall z Hz). lia.
    + apply Z.leb_gt in Hle. constructor; [apply IH; tauto |].
      rewrite Forall_forall in *. intros z Hz.
      apply insertSorted_In in Hz as [-> | Hz]; auto.
Qed.

Lemma sortBy_strict (xs : list Z) :
  NoDup xs -> StronglySorted Z.lt (sortBy (fun z => z) xs).
Proof.
  induction xs as [| x xs IH]; cbn; intros Hnd; [constructor |].
  inversion Hnd as [| ? ? Hfresh Hrest]; subst.
  apply insertSorted_strict; [auto |].
  intros Hin. apply Hfresh.
  exact (proj1 (@sortBy_In Z (fun z => z) x xs) Hin).
Qed.

Lemma sortedBoundariesOf_spec (candidates : list Z) :
  StronglySorted Z.lt (sortedBoundariesOf candidates)
  /\ (forall b, In b (sortedBoundariesOf candidates) <-> In b candidates).
Proof.
  unfold sortedBoundariesOf.
  destruct (@zset_fold candidates [] (NoDup_nil Z)) as [Hnd Hin].
  split; [now apply sortBy_strict |].
  intros b. rewrite sortBy_In, Hin. cbn. tauto.
Qed.

Lemma detectBlocksFrom_range (lo : Z) (lines : list string) :
  forall lineNum stack depth blocks b,
    (lo <= lineNum)%Z ->
    (forall f, In f stack -> (lo <= Frame.startLine f < lineNum)%Z) ->
    (forall b', In b' blocks ->
                (lo <= BlockInfo.startLine b' < lineNum)%Z
                /\ (lo <= BlockInfo.endLine b' < lineNum)%Z) ->
    In b (detectBlocksFrom lines lineNum stack depth blocks) ->
    (lo <= BlockInfo.startLine b < lineNum + Z.of_nat (length lines))%Z
    /\ (lo <= BlockInfo.endLine b < lineNum + Z.of_nat (length lines))%Z.
Proof.
  induction lines as [| line rest IH];
    intros lineNum stack depth blocks b Hlo Hstack Hblocks Hb.
  - cbn in *. specialize (Hblocks b Hb). lia.
  - cbn [detectBlocksFrom] in Hb. cbn [length].
    set (pushed := match blockStart line with
                   | Some type => (Frame.mk type lineNum depth :: stack,
                                   (depth + 1)%Z)
                   | None => (stack, depth)
                   end) in Hb.
    assert (Hpushed : forall f, In f (fst pushed) ->
                                (lo <= Frame.startLine f < lineNum + 1)%Z).
    { subst pushed. intros f Hf. destruct (blockStart line); cbn in Hf.
      - destruct Hf as [<- | Hf]; [cbn; lia | specialize (Hstack f Hf); lia].
      - specialize (Hstack f Hf). lia. }
    assert (Hkept : forall b', In b' blocks ->
                (lo <= BlockInfo.startLine b' < lineNum + 1)%Z
                /\ (lo <= BlockInfo.endLine b' < lineNum + 1)%Z).
    { intros b' Hb'. specialize (Hblocks b' Hb'). lia. }
    destruct pushed as [stack1 depth1]. cbn [fst] in Hpushed.
    assert (Hgoal : forall stack2 depth2 blocks2,
               (forall f, In f stack2 ->
                          (lo <= Frame.startLine f < lineNum + 1)%Z) ->
               (forall b', In b' blocks2 ->
                  (lo <= BlockInfo.startLine b' < lineNum + 1)%Z
                  /\ (lo <= BlockInfo.endLine b' < lineNum + 1)%Z) ->
               In b (detectBlocksFrom rest (lineNum + 1) stack2 depth2 blocks2) ->
               (lo <= BlockInfo.startLine b
                < lineNum + Z.of_nat (S (length rest)))%Z
               /\ (lo <= BlockInfo.endLine b
                   < lineNum + Z.of_nat (S (length rest)))%Z).
    { intros stack2 depth2 blocks2 H1 H2 H3.
      assert (Hstep := IH (lineNum + 1)%Z stack2 depth2 blocks2 b
                          ltac:(lia) H1 H2 H3).
      lia. }
    destruct (_ <? 0)%Z; [| now apply (Hgoal stack1 depth1 blocks)].
    destruct stack1 as [| block stack1];
      [now apply (Hgoal [] depth1 blocks) |].
    apply (Hgoal _ _ _ (fun f Hf => Hpushed f (or_intror Hf))) in Hb;
      [assumption |].
    intros b' Hb'. apply in_app_iff in Hb' as [Hb' | [<- | []]]; [auto |].
    cbn. specialize (Hpushed block (or_introl eq_refl)). lia.
Qed.

Lemma commentBoundariesFrom_range (lines : list string) :
  forall lineNum b,
    In b (commentBoundariesFrom lines lineNum) ->
    (lineNum <= b < lineNum + Z.of_nat (length lines))%Z.
Proof.
  induction lines as [| line rest IH]; intros lineNum b Hb; [destruct Hb |].
  cbn [commentBoundariesFrom length] in *.
  repeat (apply in_app_iff in Hb as [Hb | Hb]);
    try (destruct (_ : bool) in Hb; [destruct Hb as [<- | []]; lia | destruct Hb]).
  specialize (IH _ _ Hb). lia.
Qed.

(** ** The sub-chunks of a large symbol *)

Lemma bind_ret_app (A : Type) (r : result (list A)) :
  (rest <- r ;; Ok ([] ++ rest)) = r.
Proof. destruct r; reflexivity. Qed.

Lemma bind_Ok (A B : Type) (r : result A) (k : A -> result B) (b : B) :
  bind r k = Ok b -> exists a, r = Ok a /\ k a = Ok b.
Proof. destruct r; cbn; intros H; try discriminate. eauto. Qed.

Lemma consecutive_cons lo hi b boundaries :
  consecutive lo hi boundaries -> consecutive lo hi (b :: boundaries).
Proof.
  intros [before [after ->]]. now exists (b :: before), after.
Qed.

Lemma consecutive_head lo hi after : consecutive lo hi (lo :: hi :: after).
Proof. now exists [], after. Qed.

Lemma sorted_head (a b : Z) (rest : list Z) :
  StronglySorted Z.lt (a :: b :: rest) ->
  (a < b)%Z /\ StronglySorted Z.lt (b :: rest).
Proof.
  intros H. inversion H as [| ? ? Hrest Hall]; subst.
  inversion Hall; subst. tauto.
Qed.

Section LargeSymbolSpans.
Variable ids : nat -> IdSource.
Variables filePath symbolName symbolKind : string.
Variable startLine : Z.
Variable lines : list string.
Variable blocks : list BlockInfo.t.
Variable maxLines : Z.
Variable withContent : bool.
Hypothesis positiveLimit : (1 <= maxLines)%Z.

Local Abbreviation piece :=
(subChunk ids filePath symbolName symbolKind startLine lines blocks
withContent).
Local Abbreviation windows :=
(symbolWindows ids filePath symbolName symbolKind startLine lines blocks
   maxLines withContent).
Local Abbreviation walk :=
(walkBoundaries ids filePath symbolName symbolKind startLine lines blocks
    maxLines withContent).
Local Abbreviation within lo hi := (inSpan lo hi maxLines symbolName).

Lemma subChunk_inSpan lo hi from to k :
(lo <= from)%Z -> (from <= to)%Z -> (to <= hi)%Z ->
(to - from + 1 <= maxLines)%Z ->
within lo hi (piece from to k).
Proof. unfold inSpan. cbn. intuition. Qed.

(** The windows of a span start at its first line, end at its last line and
are at most [maxLines] long. *)
Lemma symbolWindows_spec fuel chunkEnd :
forall currentStart k,
Z.to_nat (chunkEnd - currentStart + 1) <= fuel ->
exists chunks,
windows fuel chunkEnd currentStart k = Ok chunks
/\ (forall c, In c chunks -> within currentStart chunkEnd c)
/\ ((currentStart <= chunkEnd)%Z ->
exists first others,
chunks = first :: others
/\ CodeChunk.startLine first = currentStart
/\ CodeChunk.endLine (last chunks first) = chunkEnd).
Proof.
induction fuel as [| fuel IH]; intros currentStart k Hfuel;
cbn [symbolWindows]; destruct (currentStart <=? chunkEnd)%Z eqn:Hmore;
try (apply Z.leb_gt in Hmore; exists []; split; [reflexivity |];
 split; [intros c [] | lia]).
- apply Z.leb_le in Hmore. lia.
- apply Z.leb_le in Hmore.
set (currentEnd := Z.min (currentStart + maxLines - 1) chunkEnd).
destruct (IH (currentEnd + 1)%Z (S k)) as [rest [Hrun [Hin Hends]]];
[subst currentEnd; lia |].
rewrite Hrun. cbn [bind]. eexists. split; [reflexivity |]. split.
+ intros c [<- | Hc].
* apply subChunk_inSpan; subst currentEnd; lia.
* destruct (Hin c Hc) as [H1 H2]. split; [subst currentEnd; lia |].
exact H2.
+ intros _. eexists _, _. split; [reflexivity |]. split; [reflexivity |].
destruct (Z.le_gt_cases (currentEnd + 1) chunkEnd) as [Hnext | Hlast].
* destruct (Hends Hnext) as [first [others [-> [_ Hlast]]]].
match goal with
| |- CodeChunk.endLine (last (?c :: _) ?d) = _ =>
change (CodeChunk.endLine (last (first :: others) d) = chunkEnd);
rewrite (last_cons_default first others d first)
end.
exact Hlast.
* assert (Hnone : rest = []).
{ destruct fuel; cbn [symbolWindows] in Hrun;
destruct (currentEnd + 1 <=? chunkEnd)%Z eqn:Hcmp;
try (apply Z.leb_le in Hcmp; lia); congruence. }
subst rest. cbn. subst currentEnd. lia.
Qed.

(** The windows of a span follow one another: each starts on the line after
the one before ends. *)
Lemma symbolWindows_tiles fuel chunkEnd :
forall currentStart k,
(currentStart <= chunkEnd + 1)%Z ->
Z.to_nat (chunkEnd - currentStart + 1) <= fuel ->
exists chunks,
windows fuel chunkEnd currentStart k = Ok chunks
/\ tiles currentStart chunkEnd chunks.
Proof.
induction fuel as [| fuel IH]; intros currentStart k Hlo Hfuel;
cbn [symbolWindows]; destruct (currentStart <=? chunkEnd)%Z eqn:Hmore;
try (apply Z.leb_gt in Hmore; exists []; split; [reflexivity | cbn; lia]).
- apply Z.leb_le in Hmore. lia.
- apply Z.leb_le in Hmore.
set (currentEnd := Z.min (currentStart + maxLines - 1) chunkEnd).
destruct (IH (currentEnd + 1)%Z (S k)) as [rest [Hrun Htiles]];
[subst currentEnd; lia | subst currentEnd; lia |].
rewrite Hrun. cbn [bind]. eexists. split; [reflexivity |].
cbn. split; [reflexivity |]. split; [subst currentEnd; lia | exact Htiles].
Qed.

(** What the loop body pushes for the pair [lo, hi], and how the loop goes
on. *)
Lemma walkBoundaries_pair fuel lo hi after k :
(lo <= hi)%Z -> Z.to_nat (hi - lo + 1) <= fuel ->
exists emitted,
walk fuel (lo :: hi :: after) k
= (rest <- walk fuel (hi :: after) (k + length emitted) ;;
 Ok (emitted ++ rest))
/\ (forall c, In c emitted -> within lo hi c)
/\ (omitted lo hi after = true -> emitted = [])
/\ (omitted lo hi after = false ->
exists first others,
emitted = first :: others
/\ CodeChunk.startLine first = lo
/\ CodeChunk.endLine (last emitted first) = hi)
/\ spanChunks lo hi after maxLines emitted.
Proof.
intros Hle Hfuel. cbn [walkBoundaries]. unfold spanChunks.
change ((hi - lo + 1 <? 5)%Z && match after with [] => false | _ => true end)
with (omitted lo hi after).
destruct (omitted lo hi after).
- exists []. rewrite Nat.add_0_r, bind_ret_app.
split; [reflexivity |]. split; [intros c [] |].
split; [reflexivity |]. split; [discriminate | reflexivity].
- destruct (maxLines <? hi - lo + 1)%Z eqn:Hlong.
+ destruct (@symbolWindows_spec fuel hi lo k Hfuel)
as [emitted [Hrun [Hin Hends]]].
destruct (@symbolWindows_tiles fuel hi lo k ltac:(lia) Hfuel)
as [emitted' [Hrun' Htiles]].
rewrite Hrun in Hrun'. injection Hrun' as <-.
exists emitted. rewrite Hrun. cbn [bind].
split; [reflexivity |]. split; [exact Hin |].
split; [discriminate |]. split; [intros _; apply Hends, Hle | exact Htiles].
+ apply Z.ltb_ge in Hlong. exists [piece lo hi k].
rewrite Nat.add_1_r.
split; [reflexivity |]. split; [| split; [discriminate | split]].
* intros c [<- | []]. apply subChunk_inSpan; lia.
* intros _. eexists _, _. split; [reflexivity |]. split; reflexivity.
* reflexivity.
Qed.

Section Ranged.
Variables lowest highest : Z.
Variable fuel : nat.
Hypothesis enoughFuel : Z.to_nat (highest - lowest + 1) <= fuel.

Local Abbreviation ranged boundaries :=
(StronglySorted Z.lt boundaries
 /\ forall b, In b boundaries -> (lowest <= b <= highest)%Z).

Lemma ranged_tail a boundaries : ranged (a :: boundaries) -> ranged boundaries.
Proof.
intros [Hsorted Hrange]. split; [now inversion Hsorted |].
intros b Hb. apply Hrange. now right.
Qed.

Lemma ranged_pair lo hi after :
ranged (lo :: hi :: after) ->
(lo <= hi)%Z /\ Z.to_nat (hi - lo + 1) <= fuel.
Proof.
intros [Hsorted Hrange]. apply sorted_head in Hsorted as [Hlt _].
assert (lowest <= lo <= highest)%Z by (apply Hrange; cbn; tauto).
assert (lowest <= hi <= highest)%Z by (apply Hrange; cbn; tauto).
lia.
Qed.

Lemma ranged_suffix before boundaries :
ranged (before ++ boundaries) -> ranged boundaries.
Proof.
induction before as [| a before IH]; [tauto |].
intros H. apply IH. exact (ranged_tail H).
Qed.

(** The loop ends normally, and every sub-chunk lies within a pair of
neighbouring boundaries. *)
Lemma walkBoundaries_spec boundaries :
ranged boundaries ->
forall k, exists chunks,
walk fuel boundaries k = Ok chunks
/\ forall c, In c chunks ->
     betweenBoundaries boundaries maxLines symbolName c.
Proof.
induction boundaries as [| lo tail IH]; intros Hranged k.
- exists []. split; [reflexivity | intros c []].
- destruct tail as [| hi after].
+ exists []. split; [reflexivity | intros c []].
+ destruct (ranged_pair Hranged) as [Hle Hfuel].
destruct (@walkBoundaries_pair fuel lo hi after k Hle Hfuel)
as [emitted [Hstep [Hin _]]].
destruct (IH (ranged_tail Hranged) (k + length emitted))
as [rest [Hrest Hbetween]].
exists (emitted ++ rest). rewrite Hstep, Hrest.
split; [reflexivity |].
intros c Hc. apply in_app_iff in Hc as [Hc | Hc].
* exists lo, hi. split; [apply consecutive_head | now apply Hin].
* destruct (Hbetween c Hc) as [lo' [hi' [Hnear Hspan]]].
exists lo', hi'. split; [now apply consecutive_cons | assumption].
Qed.

(** The output splits at every boundary [b]: what was pushed for the pairs
up to [b], then what the loop pushes from [b] on. *)
Lemma walkBoundaries_split before :
forall b rest k chunks,
ranged (before ++ b :: rest) ->
walk fuel (before ++ b :: rest) k = Ok chunks ->
exists l1 l2 k',
chunks = l1 ++ l2
/\ walk fuel (b :: rest) k' = Ok l2
/\ forall c, In c l1 ->
     betweenBoundaries (before ++ [b]) maxLines symbolName c.
Proof.
induction before as [| lo before IH]; intros b rest k chunks Hranged Hrun.
- exists [], chunks, k. repeat split; [assumption | intros c []].
- cbn [List.app] in Hranged, Hrun |- *.
destruct (before ++ b :: rest) as [| hi after] eqn:Htail;
[destruct before; discriminate |].
destruct (ranged_pair Hranged) as [Hle Hfuel].
destruct (@walkBoundaries_pair fuel lo hi after k Hle Hfuel)
as [emitted [Hstep [Hin _]]].
rewrite Hstep in Hrun. apply bind_Ok in Hrun as [tailChunks [Htailrun Heq]].
injection Heq as <-. rewrite <- Htail in Htailrun.
assert (Htailranged := ranged_tail Hranged). rewrite <- Htail in Htailranged.
destruct (IH b rest _ tailChunks Htailranged Htailrun)
as [l1 [l2 [k' [-> [Hsuffix Hbetween]]]]].
exists (emitted ++ l1), l2, k'. rewrite app_assoc.
split; [reflexivity |]. split; [assumption |].
intros c Hc. apply in_app_iff in Hc as [Hc | Hc].
+ exists lo, hi. split; [| now apply Hin].
destruct before as [| x before']; cbn in Htail |- *.
* injection Htail as -> _. apply consecutive_head.
* injection Htail as -> _. apply consecutive_head.
+ destruct (Hbetween c Hc) as [lo' [hi' [Hnear Hspan]]].
exists lo', hi'. split; [now apply consecutive_cons | assumption].
Qed.

(** Two neighbouring pairs that are both kept: the last sub-chunk of the
first ends on the line on which the first sub-chunk of the second
starts. *)
Lemma kept_pairs_share_boundary before lo mid hi after k chunks :
ranged (before ++ lo :: mid :: hi :: after) ->
walk fuel (before ++ lo :: mid :: hi :: after) k = Ok chunks ->
omitted lo mid (hi :: after) = false ->
omitted mid hi after = false ->
exists l1 c1 c2 l2,
chunks = l1 ++ c1 :: c2 :: l2
/\ within lo mid c1 /\ within mid hi c2
/\ CodeChunk.endLine c1 = mid /\ CodeChunk.startLine c2 = mid.
Proof.
intros Hranged Hrun Hkept1 Hkept2.
destruct (walkBoundaries_split _ _ _ _ Hranged Hrun)
as [l1 [l2 [k' [-> [Hsuffix _]]]]].
apply ranged_suffix in Hranged.
destruct (ranged_pair Hranged) as [Hle1 Hfuel1].
destruct (ranged_pair (ranged_tail Hranged)) as [Hle2 Hfuel2].
destruct (@walkBoundaries_pair fuel lo mid (hi :: after) k' Hle1 Hfuel1)
as [e1 [Hstep1 [Hin1 [_ [Hends1 _]]]]].
rewrite Hstep1 in Hsuffix.
apply bind_Ok in Hsuffix as [r1 [Hrun1 Heq1]]. injection Heq1 as <-.
destruct (@walkBoundaries_pair fuel mid hi after (k' + length e1) Hle2 Hfuel2)
as [e2 [Hstep2 [Hin2 [_ [Hends2 _]]]]].
rewrite Hstep2 in Hrun1.
apply bind_Ok in Hrun1 as [r2 [_ Heq2]]. injection Heq2 as <-.
destruct (Hends1 Hkept1) as [f1 [o1 [He1 [_ Hlast]]]].
destruct (Hends2 Hkept2) as [f2 [o2 [He2 [Hfirst _]]]].
assert (Hsplit : e1 = removelast e1 ++ [last e1 f1])
by (apply app_removelast_last; rewrite He1; discriminate).
exists (l1 ++ removelast e1), (last e1 f1), f2, (o2 ++ r2).
split; [| split; [| split; [| split; assumption]]].
- rewrite Hsplit at 1. rewrite He2. rewrite <- !app_assoc. reflexivity.
- apply Hin1. rewrite Hsplit at 2. apply in_or_app. right. now left.
- apply Hin2. rewrite He2. now left.
Qed.

(** A pair that is omitted leaves nothing in the output: every sub-chunk
comes from a pair before it or from a pair after it. *)
Lemma omitted_pair_emits_nothing before lo hi after k chunks :
ranged (before ++ lo :: hi :: after) ->
walk fuel (before ++ lo :: hi :: after) k = Ok chunks ->
omitted lo hi after = true ->
exists l1 l2,
chunks = l1 ++ l2
/\ (forall c, In c l1 ->
    betweenBoundaries (before ++ [lo]) maxLines symbolName c)
/\ (forall c, In c l2 ->
    betweenBoundaries (hi :: after) maxLines symbolName c).
Proof.
intros Hranged Hrun Homitted.
destruct (walkBoundaries_split _ _ _ _ Hranged Hrun)
as [l1 [l2 [k' [-> [Hsuffix Hbefore]]]]].
apply ranged_suffix in Hranged.
destruct (ranged_pair Hranged) as [Hle Hfuel].
destruct (@walkBoundaries_pair fuel lo hi after k' Hle Hfuel)
as [emitted [Hstep [_ [Hnone _]]]].
rewrite Hstep, (Hnone Homitted), Nat.add_0_r, bind_ret_app in Hsuffix.
destruct (walkBoundaries_spec (ranged_tail Hranged) k')
as [chunks [Hrun' Hafter]].
rewrite Hrun' in Hsuffix. injection Hsuffix as ->.
exists l1, l2. split; [reflexivity |]. split; assumption.
Qed.

(** The output around any pair of neighbouring boundaries: what the pairs
before it gave, what this pair gives, what the pairs after it give. *)
Lemma pair_output before lo hi after k chunks :
ranged (before ++ lo :: hi :: after) ->
walk fuel (before ++ lo :: hi :: after) k = Ok chunks ->
exists l1 emitted l2,
chunks = l1 ++ emitted ++ l2
/\ spanChunks lo hi after maxLines emitted
/\ (forall c, In c emitted -> within lo hi c)
/\ (forall c, In c l1 ->
    betweenBoundaries (before ++ [lo]) maxLines symbolName c)
/\ (forall c, In c l2 ->
    betweenBoundaries (hi :: after) maxLines symbolName c).
Proof.
intros Hranged Hrun.
destruct (walkBoundaries_split _ _ _ _ Hranged Hrun)
as [l1 [l2 [k' [-> [Hsuffix Hbefore]]]]].
apply ranged_suffix in Hranged.
destruct (ranged_pair Hranged) as [Hle Hfuel].
destruct (@walkBoundaries_pair fuel lo hi after k' Hle Hfuel)
as [emitted [Hstep [Hin [_ [_ Hshape]]]]].
rewrite Hstep in Hsuffix.
apply bind_Ok in Hsuffix as [rest [Hrest Heq]]. injection Heq as <-.
destruct (walkBoundaries_spec (ranged_tail Hranged) (k' + length emitted))
as [rest' [Hrun' Hafter]].
rewrite Hrun' in Hrest. injection Hrest as <-.
exists l1, emitted, rest'.
split; [reflexivity |]. split; [exact Hshape |]. split; [exact Hin |].
split; [exact Hbefore | exact Hafter].
Qed.
End Ranged.
End LargeSymbolSpans.

Lemma sortedBoundaries_ranged startLine endLine code :
  (startLine <= endLine)%Z ->
  (Z.of_nat (length (splitLines code)) <= endLine - startLine + 1)%Z ->
  StronglySorted Z.lt (sortedBoundaries startLine endLine code)
  /\ (forall b, In b (sortedBoundaries startLine endLine code) ->
                (startLine <= b <= endLine)%Z)
  /\ In startLine (sortedBoundaries startLine endLine code)
  /\ In endLine (sortedBoundaries startLine endLine code).
Proof.
  intros Hle Hlines. unfold sortedBoundaries.
  destruct (sortedBoundariesOf_spec
              (boundaryCandidates startLine endLine
                 (detectLogicalBlocks code startLine)
                 (findCommentBoundaries code startLine))) as [Hsorted Hin].
  split; [assumption |]. unfold boundaryCandidates in *.
  split; [| split; apply Hin; cbn; rewrite ?in_app_iff; cbn; tauto].
  intros b Hb. apply Hin in Hb. cbn in Hb.
  destruct Hb as [<- | Hb]; [lia |].
  rewrite !in_app_iff in Hb. destruct Hb as [Hb | [Hb | [<- | []]]]; [| | lia].
  - apply in_flat_map in Hb as [block [Hblock Hb]].
    apply (@detectBlocksFrom_range startLine) in Hblock;
      [| lia | intros f [] | intros b' []].
    destruct Hb as [<- | [<- | []]]; lia.
  - apply commentBoundariesFrom_range in Hb. lia.
Qed.

(** C10 (amended). For a symbol on line numbers within the safe integers
    whose text is no longer than its line range, with a positive line limit
    and enough fuel for the inner loop, [chunkLargeSymbol] returns; the
    boundaries are strictly increasing lines of the symbol; every sub-chunk
    spans a closed interval inside a pair of neighbouring boundaries and has
    a [lineCount] of at most the limit.  The output is made, pair by pair, of
    what each pair of neighbouring boundaries gives: nothing for a pair
    shorter than five lines that is not the last one, one sub-chunk from
    boundary to boundary for a pair that fits the limit, and for a longer
    pair windows that follow one another, each starting on the line after
    the one before ends.  When two neighbouring pairs are both kept, the
    sub-chunk that closes the first ends on the line on which the second
    starts.  Both an overlap and a gap occur: with boundaries 1, 10, 20 line
    10 is in two sub-chunks, and with boundaries 1, 3, 30 lines 1 and 2 are
    in none. *)
Theorem C10_sub_chunks_between_boundaries :
  (forall fuel ids filePath symbolName symbolKind startLine endLine code options,
      let maxLines := fst (largeSymbolOptions options) in
      let boundaries := sortedBoundaries startLine endLine code in
      lineNumber startLine -> lineNumber endLine ->
      (1 <= maxLines)%Z ->
      (startLine <= endLine)%Z ->
      (Z.of_nat (length (splitLines code)) <= endLine - startLine + 1)%Z ->
      Z.to_nat (endLine - startLine + 1) <= fuel ->
      exists chunks,
        chunkLargeSymbol fuel ids filePath symbolName symbolKind
                         startLine endLine code options = Ok chunks
        /\ StronglySorted Z.lt boundaries
        /\ (forall b, In b boundaries -> (startLine <= b <= endLine)%Z)
        /\ (forall c, In c chunks ->
                      betweenBoundaries boundaries maxLines symbolName c)
        /\ (forall before lo hi after,
               boundaries = before ++ lo :: hi :: after ->
               exists l1 emitted l2,
                 chunks = l1 ++ emitted ++ l2
                 /\ spanChunks lo hi after maxLines emitted
                 /\ (forall c, In c emitted ->
                       inSpan lo hi maxLines symbolName c)
                 /\ (forall c, In c l1 ->
                       betweenBoundaries (before ++ [lo]) maxLines symbolName c)
                 /\ (forall c, In c l2 ->
                       betweenBoundaries (hi :: after) maxLines symbolName c))
        /\ (forall before lo mid hi after,
               boundaries = before ++ lo :: mid :: hi :: after ->
               omitted lo mid (hi :: after) = false ->
               omitted mid hi after = false ->
               exists l1 c1 c2 l2,
                 chunks = l1 ++ c1 :: c2 :: l2
                 /\ inSpan lo mid maxLines symbolName c1
                 /\ inSpan mid hi maxLines symbolName c2
                 /\ CodeChunk.endLine c1 = mid
                 /\ CodeChunk.startLine c2 = mid))
  /\ (exists chunks,
         chunkLargeSymbol 20 (Sample.clock 0) "test.ts" "work" "function" 1 20
                          (Sample.linesWithComment 20 10) (Sample.maxLines 15)
         = Ok chunks
         /\ sortedBoundaries 1 20 (Sample.linesWithComment 20 10) = [1; 10; 20]%Z
         /\ map span chunks = [(1, 10); (10, 20)]%Z
         /\ length (chunksAt 10 chunks) = 2)
  /\ (exists chunks,
         chunkLargeSymbol 30 (Sample.clock 0) "test.ts" "work" "function" 1 30
                          (Sample.linesWithComment 30 3) (Sample.maxLines 28)
         = Ok chunks
         /\ sortedBoundaries 1 30 (Sample.linesWithComment 30 3) = [1; 3; 30]%Z
         /\ map span chunks = [(3, 30)]%Z
         /\ chunksAt 1 chunks = [] /\ chunksAt 2 chunks = []).
Proof.
  split; [| split].
  - intros fuel ids filePath symbolName symbolKind startLine endLine code
           options maxLines boundaries _ _ Hlimit Hle Hlines Hfuel.
    destruct (sortedBoundaries_ranged code Hle Hlines)
      as [Hsorted [Hrange _]].
    fold boundaries in Hsorted, Hrange.
    unfold chunkLargeSymbol. fold maxLines boundaries.
    set (walked := walkBoundaries _ _ _ _ _ _ _ _ _ _ _ _).
    destruct (@walkBoundaries_spec ids filePath symbolName symbolKind startLine
                (splitLines code) (detectLogicalBlocks code startLine)
                maxLines (snd (largeSymbolOptions options)) Hlimit
                startLine endLine fuel Hfuel boundaries
                (conj Hsorted Hrange) 0) as [chunks [Hrun Hbetween]].
    fold walked in Hrun.
    exists chunks. split; [exact Hrun |]. split; [exact Hsorted |].
    split; [exact Hrange |]. split; [exact Hbetween |]. split.
    + intros before lo hi after Hshape.
      subst walked. rewrite Hshape in Hrun, Hsorted, Hrange.
      eapply pair_output
        with (lowest := startLine) (highest := endLine);
        [exact Hlimit | exact Hfuel | exact (conj Hsorted Hrange)
         | exact Hrun].
    + intros before lo mid hi after Hshape Hkept1 Hkept2.
      subst walked. rewrite Hshape in Hrun, Hsorted, Hrange.
      eapply kept_pairs_share_boundary
        with (lowest := startLine) (highest := endLine);
        [exact Hlimit | exact Hfuel | exact (conj Hsorted Hrange)
         | exact Hrun | exact Hkept1 | exact Hkept2].
  - eexists. split; [vm_compute; reflexivity |].
    repeat split; vm_compute; reflexivity.
  - eexists. split; [vm_compute; reflexivity |].
    repeat split; vm_compute; reflexivity.
Qed.

Lemma C10_witness :
  lineNumber 1 /\ lineNumber 30
  /\ (1 <= fst (largeSymbolOptions (Sample.maxLines 10)))%Z
  /\ (Z.of_nat (length (splitLines (Sample.linesWithComment 30 3)))
      <= 30 - 1 + 1)%Z
  /\ sortedBoundaries 1 30 (Sample.linesWithComment 30 3) = [1; 3; 30]%Z
  /\ exists chunks,
      chunkLargeSymbol 30 (Sample.clock 0) "test.ts" "work" "function" 1 30
                       (Sample.linesWithComment 30 3) (Sample.maxLines 10)
      = Ok chunks
      /\ (forall c, In c chunks ->
            betweenBoundaries [1; 3; 30]%Z 10 "work" c)
      /\ exists l1 emitted l2,
           chunks = l1 ++ emitted ++ l2
           /\ tiles 3 30 emitted
           /\ (forall c, In c emitted -> inSpan 3 30 10 "work" c).
Proof.
  assert (H0 : lineNumber 1) by (unfold lineNumber, MAX_SAFE_INTEGER; lia).
  assert (H0' : lineNumber 30) by (unfold lineNumber, MAX_SAFE_INTEGER; lia).
  assert (H1 : (1 <= fst (largeSymbolOptions (Sample.maxLines 10)))%Z)
    by (apply Z.leb_le; vm_compute; reflexivity).
  assert (H2 : (1 <= 30)%Z) by lia.
  assert (H3 : (Z.of_nat (length (splitLines (Sample.linesWithComment 30 3)))
                <= 30 - 1 + 1)%Z)
    by (apply Z.leb_le; vm_compute; reflexivity).
  assert (H4 : Z.to_nat (30 - 1 + 1) <= 30) by (vm_compute; lia).
  assert (H5 : sortedBoundaries 1 30 (Sample.linesWithComment 30 3)
               = [1; 3; 30]%Z) by (vm_compute; reflexivity).
  split; [exact H0 |]. split; [exact H0' |]. split; [exact H1 |].
  split; [exact H3 |]. split; [exact H5 |].
  destruct (proj1 C10_sub_chunks_between_boundaries 30 (Sample.clock 0)
                  "test.ts" "work" "function" 1%Z 30%Z
                  (Sample.linesWithComment 30 3) (Sample.maxLines 10)
                  H0 H0' H1 H2 H3 H4)
    as [chunks [Hrun [_ [_ [Hbetween [Hpair _]]]]]].
  exists chunks. split; [exact Hrun |].
  rewrite H5 in Hbetween, Hpair.
  change (fst (largeSymbolOptions (Sample.maxLines 10))) with 10%Z
    in Hbetween, Hpair.
  split; [exact Hbetween |].
  destruct (Hpair [1%Z] 3%Z 30%Z [] eq_refl)
    as [l1 [emitted [l2 [Heq [Hshape [Hin _]]]]]].
  exists l1, emitted, l2. split; [exact Heq |]. split; [exact Hshape | exact Hin].
Defined.
(** ** The stages that copy *)

Lemma alloc_frame h s :
  Heap.next (fst (Heap.alloc h s)) = S (Heap.next h)
  /\ Heap.read (fst (Heap.alloc h s)) (snd (Heap.alloc h s)) = s
  /\ forall r, r < Heap.next h ->
               Heap.read (fst (Heap.alloc h s)) r = Heap.read h r.
Proof.
  unfold Heap.alloc, Heap.read. cbn. rewrite Nat.eqb_refl.
  split; [reflexivity |]. split; [reflexivity |].
  intros r Hr. destruct (Nat.eqb_spec r (Heap.next h)); [lia | reflexivity].
Qed.

Lemma deref_frame h h' refs :
  (forall r, r < Heap.next h -> Heap.read h' r = Heap.read h r) ->
  forallb (fun r => r <? Heap.next h) refs = true ->
  Heap.deref h' refs = Heap.deref h refs.
Proof.
  intros Hsame Hrefs. unfold Heap.deref. apply map_ext_in.
  intros r Hr. apply Hsame. rewrite forallb_forall in Hrefs.
  now apply Nat.ltb_lt, Hrefs.
Qed.

(** New objects only: the store grows, the objects it held are as they
    were, and the new array holds the values the callback returned. *)
Lemma allocAll_spec ss :
  forall h,
    Heap.next h <= Heap.next (fst (Heap.allocAll h ss))
    /\ (forall r, r < Heap.next h ->
                  Heap.read (fst (Heap.allocAll h ss)) r = Heap.read h r)
    /\ Heap.deref (fst (Heap.allocAll h ss)) (snd (Heap.allocAll h ss)) = ss
    /\ forallb (fun r => r <? Heap.next (fst (Heap.allocAll h ss)))
               (snd (Heap.allocAll h ss)) = true.
Proof.
  induction ss as [| s ss IH]; intros h; cbn [Heap.allocAll fst snd].
  - split; [lia |]. split; [reflexivity |]. split; reflexivity.
  - destruct (alloc_frame h s) as [Hnext [Hnew Hold]].
    destruct (IH (fst (Heap.alloc h s))) as [Hgrow [Hkeep [Hvalues Hrefs]]].
    split; [lia |]. split; [| split].
    + intros r Hr. rewrite Hkeep by lia. now apply Hold.
    + cbn [Heap.deref map]. f_equal; [| exact Hvalues].
      rewrite Hkeep by (cbn; lia). exact Hnew.
    + cbn [forallb]. rewrite Hrefs, andb_true_r.
      apply Nat.ltb_lt. cbn in *. lia.
Qed.

Lemma mapSteps_spec callback :
  (forall s, snd (callback s) = [] -> fst (callback s) = s) ->
  forall refs h,
    forallb (fun r => r <? Heap.next h) refs = true ->
    Heap.next h <= Heap.next (fst (Shared.mapSteps callback h refs))
    /\ (forall r, r < Heap.next h ->
                  Heap.read (fst (Shared.mapSteps callback h refs)) r
                  = Heap.read h r)
    /\ Heap.deref (fst (Shared.mapSteps callback h refs))
                  (snd (Shared.mapSteps callback h refs))
       = map (fun s => fst (callback s)) (Heap.deref h refs)
    /\ forallb (fun r => r <? Heap.next (fst (Shared.mapSteps callback h refs)))
               (snd (Shared.mapSteps callback h refs)) = true.
Proof.
  intros Hsame. induction refs as [| r refs IH]; intros h Hrefs.
  - cbn. split; [lia |]. split; [reflexivity |]. split; reflexivity.
  - cbn [forallb] in Hrefs. apply andb_true_iff in Hrefs as [Hr Hrefs].
    apply Nat.ltb_lt in Hr.
    cbn [Shared.mapSteps fst snd].
    set (stored := match snd (callback (Heap.read h r)) with
                   | [] => (h, r)
                   | _ => Heap.alloc h (fst (callback (Heap.read h r)))
                   end).
    assert (Hstored : Heap.next h <= Heap.next (fst stored)
                      /\ (forall r', r' < Heap.next h ->
                            Heap.read (fst stored) r' = Heap.read h r')
                      /\ snd stored < Heap.next (fst stored)
                      /\ Heap.read (fst stored) (snd stored)
                         = fst (callback (Heap.read h r))).
    { subst stored. destruct (snd (callback (Heap.read h r))) eqn:Hchanges.
      - cbn. rewrite (Hsame _ Hchanges). repeat split; auto.
      - destruct (alloc_frame h (fst (callback (Heap.read h r))))
          as [Hnext [Hnew Hold]].
        split; [lia |]. split; [exact Hold |].
        split; [cbn; lia | exact Hnew]. }
    destruct Hstored as [Hgrow [Hkeep [Hin Hvalue]]].
    assert (Hrefs' : forallb (fun r' => r' <? Heap.next (fst stored)) refs = true).
    { rewrite forallb_forall in *. intros r' Hr'.
      specialize (Hrefs r' Hr'). apply Nat.ltb_lt in Hrefs.
      apply Nat.ltb_lt. lia. }
    destruct (IH (fst stored) Hrefs') as [Hgrow' [Hkeep' [Hvalues Hout]]].
    split; [lia |]. split; [| split].
    + intros r' Hr'. rewrite Hkeep' by lia. now apply Hkeep.
    + cbn [Heap.deref map]. f_equal.
      * rewrite Hkeep' by exact Hin. exact Hvalue.
      * fold (Heap.deref (fst (Shared.mapSteps callback (fst stored) refs))
                         (snd (Shared.mapSteps callback (fst stored) refs))).
        rewrite Hvalues. f_equal. now apply deref_frame.
    + cbn [forallb]. rewrite Hout, andb_true_r. apply Nat.ltb_lt. lia.
Qed.

Lemma correctStepLevel_unchanged phases s :
  snd (correctStepLevel phases s) = [] -> fst (correctStepLevel phases s) = s.
Proof.
  unfold correctStepLevel. destruct (find _ phases); [| reflexivity].
  destruct (negb _); [discriminate | reflexivity].
Qed.

Lemma repairStepScope_unchanged valid globalScopeId s :
  snd (repairStepScope valid globalScopeId s) = [] ->
  fst (repairStepScope valid globalScopeId s) = s.
Proof.
  unfold repairStepScope. destruct (PlanStep.scopeId s); [| reflexivity].
  destruct (negb _); [discriminate | reflexivity].
Qed.

Ltac plan_fields :=
  unfold PlanObj.snapshot, PlanObj.with_steps, TaskPlan.with_steps,
    TaskPlan.with_scopes_steps;
  cbn [PlanObj.steps PlanObj.goal PlanObj.taskKind PlanObj.contextSummary
       PlanObj.phases PlanObj.scopes PlanObj.metadata PlanObj.with_steps
       PlanObj.snapshot Stage.plan TaskPlan.with_steps TaskPlan.with_scopes_steps
       TaskPlan.steps TaskPlan.goal TaskPlan.taskKind TaskPlan.contextSummary
       TaskPlan.phases TaskPlan.scopes TaskPlan.metadata fst snd].

Lemma snapshot_frame h h' (p : PlanObj.t) :
  (forall r, r < Heap.next h -> Heap.read h' r = Heap.read h r) ->
  PlanObj.allocated h p = true ->
  PlanObj.snapshot h' p = PlanObj.snapshot h p.
Proof.
  intros Hsame Hp. unfold PlanObj.snapshot. f_equal. now apply deref_frame.
Qed.

(** Level validation, scope validation and dynamic chunking build new step
    objects: every plan held by a caller reads as before, and the plan
    returned is the one of the value model. *)
Lemma validatePlanLevels_copies h plan :
  PlanObj.allocated h plan = true ->
  (forall held, PlanObj.allocated h held = true ->
                PlanObj.snapshot (fst (Shared.validatePlanLevels h plan)) held
                = PlanObj.snapshot h held)
  /\ PlanObj.snapshot (fst (Shared.validatePlanLevels h plan))
                      (snd (Shared.validatePlanLevels h plan))
     = Stage.plan (validatePlanLevels (PlanObj.snapshot h plan))
  /\ PlanObj.allocated (fst (Shared.validatePlanLevels h plan))
                       (snd (Shared.validatePlanLevels h plan)) = true
  /\ Heap.next h <= Heap.next (fst (Shared.validatePlanLevels h plan)).
Proof.
  intros Hplan. unfold Shared.validatePlanLevels, PlanObj.allocated in *.
  destruct (mapSteps_spec (correctStepLevel (PlanObj.phases plan))
              (correctStepLevel_unchanged (PlanObj.phases plan))
              (PlanObj.steps plan) h Hplan)
    as [Hgrow [Hkeep [Hvalues Hrefs]]].
  cbn [fst snd]. split; [| split; [| split]].
  - intros held Hheld. now apply snapshot_frame.
  - unfold validatePlanLevels. plan_fields.
    rewrite Hvalues, map_map. reflexivity.
  - exact Hrefs.
  - exact Hgrow.
Qed.

Lemma validatePlanScopes_copies now h plan :
  PlanObj.allocated h plan = true ->
  (forall held, PlanObj.allocated h held = true ->
                PlanObj.snapshot (fst (Shared.validatePlanScopes now h plan)) held
                = PlanObj.snapshot h held)
  /\ PlanObj.snapshot (fst (Shared.validatePlanScopes now h plan))
                      (snd (Shared.validatePlanScopes now h plan))
     = Stage.plan (validatePlanScopes now (PlanObj.snapshot h plan))
  /\ PlanObj.allocated (fst (Shared.validatePlanScopes now h plan))
                       (snd (Shared.validatePlanScopes now h plan)) = true
  /\ Heap.next h <= Heap.next (fst (Shared.validatePlanScopes now h plan)).
Proof.
  intros Hplan. unfold Shared.validatePlanScopes, PlanObj.allocated in *.
  set (ensured := ensureGlobalScope now (PlanObj.scopes plan)).
  set (valid := set_of_list _).
  destruct (mapSteps_spec (repairStepScope valid (snd (fst ensured)))
              (repairStepScope_unchanged valid (snd (fst ensured)))
              (PlanObj.steps plan) h Hplan)
    as [Hgrow [Hkeep [Hvalues Hrefs]]].
  cbn [fst snd]. split; [| split; [| split]].
  - intros held Hheld. now apply snapshot_frame.
  - unfold validatePlanScopes. plan_fields.
    fold ensured. fold valid. rewrite Hvalues, map_map. reflexivity.
  - exact Hrefs.
  - exact Hgrow.
Qed.

Lemma applyDynamicChunking_copies h plan limit :
  PlanObj.allocated h plan = true ->
  agree (fun out stage =>
           (forall held, PlanObj.allocated h held = true ->
                         PlanObj.snapshot (fst out) held
                         = PlanObj.snapshot h held)
           /\ PlanObj.snapshot (fst out) (snd out) = Stage.plan stage
           /\ PlanObj.allocated (fst out) (snd out) = true
           /\ Heap.next h <= Heap.next (fst out))
        (Shared.applyDynamicChunking h plan limit)
        (applyDynamicChunking (PlanObj.snapshot h plan) limit).
Proof.
  intros Hplan. unfold Shared.applyDynamicChunking.
  destruct (truthy limit) as [n |] eqn:Hlimit.
  - destruct (applyDynamicChunking (PlanObj.snapshot h plan) limit)
      as [stage | message |] eqn:Hvalue; cbn; try reflexivity; try exact I.
    destruct (allocAll_spec (TaskPlan.steps (Stage.plan stage)) h)
      as [Hgrow [Hkeep [Hvalues Hrefs]]].
    split; [| split; [| split]].
    + intros held Hheld. now apply snapshot_frame.
    + plan_fields. rewrite Hvalues.
      destruct (applyDynamicChunking_limit _ _ Hlimit Hvalue)
        as [st [_ [_ ->]]]. reflexivity.
    + exact Hrefs.
    + exact Hgrow.
  - rewrite (applyDynamicChunking_off _ _ Hlimit). cbn.
    split; [reflexivity |]. split; [reflexivity |]. split; [exact Hplan | lia].
Qed.

Lemma allocated_mono h h' (p : PlanObj.t) :
  Heap.next h <= Heap.next h' ->
  PlanObj.allocated h p = true -> PlanObj.allocated h' p = true.
Proof.
  unfold PlanObj.allocated. rewrite !forallb_forall. intros Hgrow Hp r Hr.
  specialize (Hp r Hr). apply Nat.ltb_lt in Hp. apply Nat.ltb_lt. lia.
Qed.

(** ** What the caller's plan holds after a call *)

(** C6. Level validation, scope validation and dynamic chunking build new
    step objects, so the plan a caller holds reads the same after them.
    [applyGlobalLimits] and [validatePlan] assign to step objects they share
    with the caller: with a limit of one step per phase, [applyGlobalLimits]
    keeps step [a] of the plan [a (depends on b), b] and strips [b] from the
    dependencies of the object the caller's plan holds; and when truncation
    to one phase leaves no step, [validatePlan] moves the caller's first step
    to the remaining phase.  In both cases the plan returned is the one the
    value model computes. *)
Theorem C6_caller_plan_is_mutated :
  (forall now h plan limit,
      PlanObj.allocated h plan = true ->
      let levels := Shared.validatePlanLevels h plan in
      let scopes := Shared.validatePlanScopes now (fst levels) (snd levels) in
      PlanObj.snapshot (fst levels) plan = PlanObj.snapshot h plan
      /\ PlanObj.snapshot (fst scopes) plan = PlanObj.snapshot h plan
      /\ forall out,
          Shared.applyDynamicChunking (fst scopes) (snd scopes) limit = Ok out ->
          PlanObj.snapshot (fst out) plan = PlanObj.snapshot h plan)
  /\ (let start := Sample.loaded Sample.forwardDependency in
      let after :=
        Shared.applyGlobalLimits (fst start) (snd start) None (Some (Int 1)) in
      PlanObj.allocated (fst start) (snd start) = true
      /\ PlanObj.snapshot (fst start) (snd start) = Sample.forwardDependency
      /\ map PlanStep.dependencies
             (TaskPlan.steps (PlanObj.snapshot (fst start) (snd start)))
         = [["b"]; []]
      /\ map PlanStep.dependencies
             (TaskPlan.steps (PlanObj.snapshot (fst after) (snd start)))
         = [[]; []]
      /\ PlanObj.snapshot (fst after) (snd after)
         = Stage.plan (applyGlobalLimits Sample.forwardDependency None (Some (Int 1))))
  /\ (let start := Sample.loaded Sample.forwardDependency in
      exists h' returned r,
        Shared.validatePlan 0 (fst start) (snd start) (Sample.stepsPerPhase 1)
        = Ok (h', returned)
        /\ map PlanStep.dependencies
               (TaskPlan.steps (PlanObj.snapshot h' (snd start)))
           = [[]; []]
        /\ validatePlan 0 Sample.forwardDependency (Sample.stepsPerPhase 1) = Ok r
        /\ PlanObj.snapshot h' returned = ValidatePlanResult.plan r)
  /\ (let start := Sample.loaded Sample.lateSteps in
      exists h' returned r,
        PlanObj.snapshot (fst start) (snd start) = Sample.lateSteps
        /\ Shared.validatePlan 0 (fst start) (snd start) (Sample.phasesAtMost 1)
           = Ok (h', returned)
        /\ map PlanStep.phaseId (TaskPlan.steps Sample.lateSteps) = ["p2"; "p2"]
        /\ map PlanStep.phaseId
               (TaskPlan.steps (PlanObj.snapshot h' (snd start)))
           = ["p1"; "p2"]
        /\ validatePlan 0 Sample.lateSteps (Sample.phasesAtMost 1) = Ok r
        /\ PlanObj.snapshot h' returned = ValidatePlanResult.plan r).
Proof.
  split; [| split; [| split]].
  - intros now h plan limit Hplan levels scopes.
    destruct (validatePlanLevels_copies h plan Hplan)
      as [Hheld1 [_ [Hnew1 Hgrow1]]].
    fold levels in Hheld1, Hnew1, Hgrow1.
    destruct (validatePlanScopes_copies now (fst levels) (snd levels) Hnew1)
      as [Hheld2 [_ [Hnew2 Hgrow2]]].
    fold scopes in Hheld2, Hnew2, Hgrow2.
    assert (Hplan1 := @allocated_mono _ _ plan Hgrow1 Hplan).
    assert (Hplan2 := @allocated_mono _ _ plan Hgrow2 Hplan1).
    split; [now apply Hheld1 |].
    split; [now rewrite Hheld2, Hheld1 |].
    intros out Hout.
    pose proof (applyDynamicChunking_copies (fst scopes) (snd scopes) limit
                                            Hnew2) as Hchunk.
    rewrite Hout in Hchunk.
    destruct (applyDynamicChunking _ limit); cbn in Hchunk; try contradiction.
    destruct Hchunk as [Hheld3 _].
    now rewrite Hheld3, Hheld2, Hheld1.
  - cbn zeta. repeat split; vm_compute; reflexivity.
  - cbn zeta.
    destruct (Shared.validatePlan 0 _ _ _) as [[h' returned] | |] eqn:Hrun;
      try (vm_compute in Hrun; discriminate).
    destruct (validatePlan 0 Sample.forwardDependency (Sample.stepsPerPhase 1))
      as [r | |] eqn:Hvalue; try (vm_compute in Hvalue; discriminate).
    exists h', returned, r. split; [reflexivity |].
    vm_compute in Hrun. injection Hrun as <- <-.
    vm_compute in Hvalue. injection Hvalue as <-.
    repeat split.
  - cbn zeta.
    destruct (Shared.validatePlan 0 _ _ _) as [[h' returned] | |] eqn:Hrun;
      try (vm_compute in Hrun; discriminate).
    destruct (validatePlan 0 Sample.lateSteps (Sample.phasesAtMost 1))
      as [r | |] eqn:Hvalue; try (vm_compute in Hvalue; discriminate).
    exists h', returned, r. split; [vm_compute; reflexivity |].
    split; [reflexivity |].
    vm_compute in Hrun. injection Hrun as <- <-.
    vm_compute in Hvalue. injection Hvalue as <-.
    repeat split.
Qed.

Lemma C6_witness :
  let start := Sample.loaded Sample.editTestEdit in
  let levels := Shared.validatePlanLevels (fst start) (snd start) in
  let scopes := Shared.validatePlanScopes 0 (fst levels) (snd levels) in
  PlanObj.allocated (fst start) (snd start) = true
  /\ PlanObj.snapshot (fst levels) (snd start) = Sample.editTestEdit
  /\ PlanObj.snapshot (fst scopes) (snd start) = Sample.editTestEdit
  /\ forall out,
      Shared.applyDynamicChunking (fst scopes) (snd scopes) (Some (Int 2)) = Ok out ->
      PlanObj.snapshot (fst out) (snd start) = Sample.editTestEdit.
Proof.
  intros start levels scopes.
  assert (Hstart : PlanObj.allocated (fst start) (snd start) = true)
    by (vm_compute; reflexivity).
  assert (Hload : PlanObj.snapshot (fst start) (snd start) = Sample.editTestEdit)
    by (vm_compute; reflexivity).
  split; [exact Hstart |].
  destruct (proj1 C6_caller_plan_is_mutated 0%Z (fst start) (snd start)
                  (Some (Int 2)) Hstart) as [Hlevels [Hscopes Hchunk]].
  fold levels in Hlevels. fold scopes in Hscopes, Hchunk.
  rewrite <- Hload.
  split; [exact Hlevels |]. split; [exact Hscopes | exact Hchunk].
Defined.

(** ** A line limit below one *)

Section NoProgress.
Variable ids : nat -> IdSource.
Variables filePath symbolName symbolKind : string.
Variable startLine : Z.
Variable lines : list string.
Variable blocks : list BlockInfo.t.
Variable maxLines : Z.
Variable withContent : bool.
Hypothesis noLimit : (maxLines <= 0)%Z.

(** With a limit of zero or less [currentStart] never advances: the inner
loop is still running whatever the fuel. *)
Lemma symbolWindows_loops fuel chunkEnd :
forall currentStart k,
(currentStart <= chunkEnd)%Z ->
symbolWindows ids filePath symbolName symbolKind startLine lines blocks
        maxLines withContent fuel chunkEnd currentStart k
= OutOfFuel.
Proof.
induction fuel as [| fuel IH]; intros currentStart k Hmore;
cbn [symbolWindows];
destruct (currentStart <=? chunkEnd)%Z eqn:Hcmp;
try (apply Z.leb_gt in Hcmp; lia); [reflexivity |].
rewrite IH by lia. reflexivity.
Qed.

Lemma walkBoundaries_loops fuel boundaries :
forall lo hi k,
StronglySorted Z.lt (lo :: hi :: boundaries) ->
walkBoundaries ids filePath symbolName symbolKind startLine lines blocks
         maxLines withContent fuel (lo :: hi :: boundaries) k
= OutOfFuel.
Proof.
induction boundaries as [| next boundaries IH]; intros lo hi k Hsorted;
apply sorted_head in Hsorted as [Hlt Htail]; cbn [walkBoundaries].
- rewrite andb_false_r.
assert (Hlong : (maxLines <? hi - lo + 1)%Z = true)
by (apply Z.ltb_lt; lia).
rewrite Hlong, symbolWindows_loops by lia. reflexivity.
- rewrite andb_true_r. destruct (hi - lo + 1 <? 5)%Z.
+ now apply IH.
+ assert (Hlong : (maxLines <? hi - lo + 1)%Z = true)
by (apply Z.ltb_lt; lia).
rewrite Hlong, symbolWindows_loops by lia. reflexivity.
Qed.
End NoProgress.

(** With a limit below one, [chunkLargeSymbol] does not return on a symbol
    of two lines or more. *)
Lemma chunkLargeSymbol_loops fuel ids filePath symbolName symbolKind
      startLine endLine code options :
  (fst (largeSymbolOptions options) <= 0)%Z ->
  (startLine < endLine)%Z ->
  (Z.of_nat (length (splitLines code)) <= endLine - startLine + 1)%Z ->
  chunkLargeSymbol fuel ids filePath symbolName symbolKind startLine endLine
                   code options = OutOfFuel.
Proof.
  intros Hlimit Hlt Hlines. unfold chunkLargeSymbol.
  destruct (@sortedBoundaries_ranged startLine endLine code ltac:(lia) Hlines)
    as [Hsorted [Hrange [Hfirst Hlast]]].
  destruct (sortedBoundaries startLine endLine code) as [| lo [| hi rest]].
  - destruct Hfirst.
  - destruct Hfirst as [<- | []]. destruct Hlast as [Heq | []]. lia.
  - now apply walkBoundaries_loops.
Qed.

(* ------------------------------------------------------------------ *)
(** * Further properties of the code                                    *)
(* ------------------------------------------------------------------ *)

(** ** [chunkByFileRange] *)

Lemma pow53 : (2 ^ 53 = 9007199254740992)%Z.
Proof. reflexivity. Qed.

Lemma toDouble_exact z :
  (- 9007199254740992 <= z <= 9007199254740992)%Z -> toDouble z = z.
Proof.
  intros Hz. unfold toDouble. rewrite pow53.
  destruct (Z.abs z <=? 9007199254740992)%Z eqn:Hcmp; [reflexivity |].
  apply Z.leb_gt in Hcmp. lia.
Qed.

Lemma toDouble_opp z : toDouble (- z) = (- toDouble z)%Z.
Proof.
  unfold toDouble. rewrite Z.abs_opp, Z.sgn_opp.
  destruct (Z.abs z <=? 2 ^ 53)%Z; [reflexivity |].
  cbv zeta. ring.
Qed.

(** Beyond 2^53 the nearest double is 2^53 or more. *)
Lemma toDouble_high z :
  (9007199254740992 <= z)%Z -> (9007199254740992 <= toDouble z)%Z.
Proof.
  intros Hz. unfold toDouble. rewrite pow53.
  destruct (Z.abs z <=? 9007199254740992)%Z eqn:Hcmp; [exact Hz |].
  apply Z.leb_gt in Hcmp. rewrite Z.abs_eq in * by lia.
  rewrite Z.sgn_pos by lia. cbv zeta.
  assert (Hlog : (53 <= Z.log2 z)%Z).
  { change 53%Z with (Z.log2 (2 ^ 53)). apply Z.log2_le_mono.
    rewrite pow53. lia. }
  destruct (Z.log2_spec z ltac:(lia)) as [Hlo _].
  set (e := (Z.log2 z - 52)%Z) in *.
  assert (He : (1 <= e)%Z) by (subst e; lia).
  assert (Hsplit : (2 ^ Z.log2 z = 2 ^ 52 * 2 ^ e)%Z).
  { replace (Z.log2 z) with (52 + e)%Z by (subst e; lia).
    apply Z.pow_add_r; lia. }
  assert (Hulp : (2 <= 2 ^ e)%Z).
  { change 2%Z with (2 ^ 1)%Z at 1. apply Z.pow_le_mono_r; lia. }
  assert (Hq : (2 ^ 52 <= z / 2 ^ e)%Z).
  { apply Z.div_le_lower_bound; [lia |]. rewrite Z.mul_comm, <- Hsplit. exact Hlo. }
  change (2 ^ 52)%Z with 4503599627370496%Z in Hq.
  destruct (_ || _); nia.
Qed.

Lemma toDouble_low z :
  (z <= - 9007199254740992)%Z -> (toDouble z <= - 9007199254740992)%Z.
Proof.
  intros Hz. pose proof (@toDouble_high (- z) ltac:(lia)) as H.
  rewrite toDouble_opp in H. lia.
Qed.

(** Rounding does not cross a bound that is itself within the exact
    range. *)
Lemma toDouble_le z u :
  (- 9007199254740992 <= u <= 9007199254740992)%Z ->
  (z <= u)%Z -> (toDouble z <= u)%Z.
Proof.
  intros Hu Hz. destruct (Z.le_gt_cases (- 9007199254740992) z) as [Hin | Hout].
  - rewrite toDouble_exact by lia. exact Hz.
  - pose proof (@toDouble_low z ltac:(lia)). lia.
Qed.

Lemma toDouble_ge z l :
  (- 9007199254740992 <= l <= 9007199254740992)%Z ->
  (l <= z)%Z -> (l <= toDouble z)%Z.
Proof.
  intros Hl Hz. destruct (Z.le_gt_cases z 9007199254740992) as [Hin | Hout].
  - rewrite toDouble_exact by lia. exact Hz.
  - pose proof (@toDouble_high z ltac:(lia)). lia.
Qed.

(** On line numbers the end of the window is what exact arithmetic gives,
    also when [currentStart + maxLines] is rounded. *)
Lemma window_end currentStart maxLines endLine :
  lineNumber currentStart -> lineNumber endLine ->
  (1 <= maxLines)%Z ->
  Z.min (minus (plus currentStart maxLines) 1) endLine
  = Z.min (currentStart + maxLines - 1) endLine.
Proof.
  unfold lineNumber, MAX_SAFE_INTEGER, plus, minus. intros Hs He Hmax.
  destruct (Z.le_gt_cases (currentStart + maxLines) 9007199254740992)
    as [Hin | Hout].
  - rewrite (@toDouble_exact (currentStart + maxLines)) by lia.
    rewrite toDouble_exact by lia. reflexivity.
  - pose proof (@toDouble_high (currentStart + maxLines) ltac:(lia)) as Ha.
    pose proof (@toDouble_ge (toDouble (currentStart + maxLines) - 1)
                             9007199254740991 ltac:(lia) ltac:(lia)) as Hb.
    rewrite !Z.min_r by lia. reflexivity.
Qed.

Lemma fileWindows_tiles ids filePath maxLines endLine :
  (1 <= maxLines)%Z ->
  lineNumber endLine ->
  forall fuel currentStart k,
    (0 <= currentStart <= endLine + 1)%Z ->
    Z.to_nat (endLine - currentStart + 1) <= fuel ->
    exists chunks,
      fileWindows fuel ids filePath maxLines endLine currentStart k = Ok chunks
      /\ tiles currentStart endLine chunks
      /\ Z.of_nat (length chunks)
         = ((endLine - currentStart + maxLines) / maxLines)%Z
      /\ forall c, In c chunks ->
           CodeChunk.filePath c = filePath
           /\ CodeChunk.type c = FileRange
           /\ ChunkMetadata.lineCount (CodeChunk.metadata c)
              = (CodeChunk.endLine c - CodeChunk.startLine c + 1)%Z
           /\ (1 <= ChunkMetadata.lineCount (CodeChunk.metadata c)
               <= maxLines)%Z
           /\ ((CodeChunk.endLine c < endLine)%Z ->
               ChunkMetadata.lineCount (CodeChunk.metadata c) = maxLines).
Proof.
  intros Hmax Hend. induction fuel as [| fuel IH]; intros currentStart k Hlo Hfuel;
    cbn [fileWindows]; destruct (currentStart <=? endLine)%Z eqn:Hmore;
    try (apply Z.leb_gt in Hmore; exists [];
         split; [reflexivity |]; split; [cbn; lia |];
         split; [cbn; symmetry; apply Z.div_small; lia | intros c []]).
  - apply Z.leb_le in Hmore. lia.
  - apply Z.leb_le in Hmore.
    assert (Hstart : lineNumber currentStart).
    { unfold lineNumber in *. lia. }
    rewrite (window_end Hstart Hend Hmax).
    set (currentEnd := Z.min (currentStart + maxLines - 1) endLine).
    assert (Hrange : (currentStart <= currentEnd <= endLine)%Z)
      by (subst currentEnd; lia).
    assert (Hnext : plus currentEnd 1 = (currentEnd + 1)%Z).
    { unfold plus. apply toDouble_exact.
      unfold lineNumber, MAX_SAFE_INTEGER in *. lia. }
    assert (Hcount1 : plus (minus currentEnd currentStart) 1
                      = (currentEnd - currentStart + 1)%Z).
    { unfold plus, minus. unfold lineNumber, MAX_SAFE_INTEGER in *.
      rewrite (@toDouble_exact (currentEnd - currentStart)) by lia.
      apply toDouble_exact. lia. }
    rewrite Hnext, Hcount1.
    destruct (IH (currentEnd + 1)%Z (S k)) as [rest [Hrun [Htiles [Hcount Hin]]]];
      [lia | lia |].
    rewrite Hrun. cbn [bind]. eexists. split; [reflexivity |].
    split; [| split].
    + cbn. split; [reflexivity |]. split; [lia | exact Htiles].
    + cbn [length]. rewrite Nat2Z.inj_succ, Hcount. subst currentEnd.
      destruct (Z.le_gt_cases (currentStart + maxLines - 1) endLine) as [Hfull | Hlast].
      * rewrite Z.min_l by lia.
        replace (endLine - currentStart + maxLines)%Z
          with ((endLine - (currentStart + maxLines - 1 + 1) + maxLines)
                + 1 * maxLines)%Z by lia.
        rewrite Z.div_add by lia. lia.
      * rewrite Z.min_r by lia.
        replace (endLine - (endLine + 1) + maxLines)%Z with (maxLines - 1)%Z by lia.
        rewrite Z.div_small by lia.
        replace (endLine - currentStart + maxLines)%Z
          with ((endLine - currentStart) + 1 * maxLines)%Z by lia.
        rewrite Z.div_add by lia. rewrite Z.div_small by lia. lia.
    + intros c [<- | Hc]; [| now apply Hin].
      cbn. subst currentEnd. repeat split; lia.
Qed.

Lemma fileWindows_loops ids filePath maxLines endLine :
  (maxLines <= 0)%Z ->
  lineNumber endLine ->
  forall fuel currentStart k,
    (currentStart <= endLine)%Z ->
    fileWindows fuel ids filePath maxLines endLine currentStart k = OutOfFuel.
Proof.
  intros Hmax Hend. induction fuel as [| fuel IH]; intros currentStart k Hmore;
    cbn [fileWindows]; destruct (currentStart <=? endLine)%Z eqn:Hcmp;
    try (apply Z.leb_gt in Hcmp; lia); [reflexivity |].
  rewrite IH; [reflexivity |].
  unfold plus, minus. unfold lineNumber, MAX_SAFE_INTEGER in Hend.
  apply toDouble_le; [lia |].
  assert (Ha : (toDouble (currentStart + maxLines) <= endLine)%Z)
    by (apply toDouble_le; lia).
  assert (Hb : (toDouble (toDouble (currentStart + maxLines) - 1) <= endLine - 1)%Z)
    by (apply toDouble_le; lia).
  lia.
Qed.

(** At 2^53 the window stops advancing: [2^53 + 1] is not a double, and
    is rounded back to [2^53]. *)
Lemma fileWindows_stalls ids filePath :
  forall fuel k,
    fileWindows fuel ids filePath 2 9007199254740994 9007199254740992 k
    = OutOfFuel.
Proof.
  induction fuel as [| fuel IH]; intros k; [reflexivity |].
  cbn [fileWindows].
  change (9007199254740992 <=? 9007199254740994)%Z with true. cbv iota.
  change (Z.min (minus (plus 9007199254740992 2) 1) 9007199254740994)
    with 9007199254740992%Z.
  change (plus 9007199254740992 1) with 9007199254740992%Z.
  rewrite IH. reflexivity.
Qed.

(** X1. [chunkByFileRange] cuts a range of line numbers (integers from 0 to
    [Number.MAX_SAFE_INTEGER]) into consecutive windows.  A range that fits
    the line limit comes back as one chunk.  A longer range with a positive
    limit comes back as ceil(lineCount / limit) chunks that cover
    [startLine .. endLine] one after the other without gap or overlap, each
    of the limit's length except possibly the last.  With a limit of zero or
    less the loop never ends on a range of one line or more, and an empty
    range longer than the limit gives no chunk.  Beyond the safe integers
    the loop may never end even with a positive limit: from line 2^53 - 1 to
    line 2^53 + 2 with a limit of 2, [currentStart] reaches 2^53 and stays
    there, since [2^53 + 1] is rounded to [2^53]. *)
Theorem chunkByFileRange_tiles_the_range :
  (forall fuel ids filePath startLine endLine options,
      let maxLines := MergedOptions.maxLinesPerChunk (mergeOptions options) in
      let lineCount := (endLine - startLine + 1)%Z in
      lineNumber startLine -> lineNumber endLine ->
      ((lineCount <= maxLines)%Z ->
       chunkByFileRange fuel ids filePath startLine endLine options
       = Ok [fileRangeChunk (generateChunkId (ids 0) "file" None)
                            filePath startLine endLine lineCount])
      /\ ((1 <= maxLines < lineCount)%Z -> Z.to_nat lineCount <= fuel ->
          exists chunks,
            chunkByFileRange fuel ids filePath startLine endLine options
            = Ok chunks
            /\ tiles startLine endLine chunks
            /\ Z.of_nat (length chunks) = ((lineCount + maxLines - 1) / maxLines)%Z
            /\ forall c, In c chunks ->
                 CodeChunk.filePath c = filePath
                 /\ CodeChunk.type c = FileRange
                 /\ ChunkMetadata.lineCount (CodeChunk.metadata c)
                    = (CodeChunk.endLine c - CodeChunk.startLine c + 1)%Z
                 /\ (1 <= ChunkMetadata.lineCount (CodeChunk.metadata c)
                     <= maxLines)%Z
                 /\ ((CodeChunk.endLine c < endLine)%Z ->
                     ChunkMetadata.lineCount (CodeChunk.metadata c) = maxLines))
      /\ ((maxLines <= 0)%Z -> (1 <= lineCount)%Z ->
          chunkByFileRange fuel ids filePath startLine endLine options
          = OutOfFuel)
      /\ ((maxLines < lineCount <= 0)%Z ->
          chunkByFileRange fuel ids filePath startLine endLine options = Ok []))
  /\ (forall fuel ids filePath,
         chunkByFileRange fuel ids filePath MAX_SAFE_INTEGER
                          (MAX_SAFE_INTEGER + 3) (Sample.maxLines 2)
         = OutOfFuel).
Proof.
  split.
  - intros fuel ids filePath startLine endLine options maxLines lineCount
           Hstart Hend.
    assert (Hcount : plus (minus endLine startLine) 1 = lineCount).
    { unfold plus, minus. unfold lineNumber, MAX_SAFE_INTEGER in *.
      rewrite (@toDouble_exact (endLine - startLine)) by lia.
      apply toDouble_exact. subst lineCount. lia. }
    unfold chunkByFileRange. fold maxLines. cbv zeta. rewrite Hcount.
    split; [| split; [| split]].
    + intros Hfits. apply Z.leb_le in Hfits. now rewrite Hfits.
    + intros [Hmax Hlong] Hfuel.
      assert (Hcmp : (lineCount <=? maxLines)%Z = false) by (apply Z.leb_gt; lia).
      rewrite Hcmp.
      destruct (@fileWindows_tiles ids filePath maxLines endLine Hmax Hend fuel
                  startLine 0) as [chunks [Hrun [Htiles [Hcnt Hin]]]];
        [unfold lineNumber in *; subst lineCount; lia | subst lineCount; lia |].
      exists chunks. split; [exact Hrun |]. split; [exact Htiles |].
      split; [| exact Hin].
      rewrite Hcnt. f_equal. subst lineCount. lia.
    + intros Hmax Hlong.
      assert (Hcmp : (lineCount <=? maxLines)%Z = false) by (apply Z.leb_gt; lia).
      rewrite Hcmp. apply fileWindows_loops; [exact Hmax | exact Hend |].
      subst lineCount. lia.
    + intros [Hlong Hempty].
      assert (Hcmp : (lineCount <=? maxLines)%Z = false) by (apply Z.leb_gt; lia).
      rewrite Hcmp. destruct fuel; cbn [fileWindows];
        destruct (startLine <=? endLine)%Z eqn:Hmore; try reflexivity;
        apply Z.leb_le in Hmore; subst lineCount; lia.
  - intros fuel ids filePath. unfold chunkByFileRange.
    change (MergedOptions.maxLinesPerChunk (mergeOptions (Sample.maxLines 2)))
      with 2%Z.
    change (plus (minus (MAX_SAFE_INTEGER + 3) MAX_SAFE_INTEGER) 1 <=? 2)%Z
      with false. cbv iota.
    destruct fuel as [| fuel]; [reflexivity |].
    cbn [fileWindows].
    change (MAX_SAFE_INTEGER <=? MAX_SAFE_INTEGER + 3)%Z with true. cbv iota.
    change (Z.min (minus (plus MAX_SAFE_INTEGER 2) 1) (MAX_SAFE_INTEGER + 3))
      with MAX_SAFE_INTEGER.
    change (plus MAX_SAFE_INTEGER 1) with 9007199254740992%Z.
    change (MAX_SAFE_INTEGER + 3)%Z with 9007199254740994%Z.
    rewrite fileWindows_stalls. reflexivity.
Qed.

Lemma chunkByFileRange_tiles_the_range_witness :
  exists chunks,
    chunkByFileRange 25 (Sample.clock 0) "test.ts" 1 25 (Sample.maxLines 10)
    = Ok chunks
    /\ tiles 1 25 chunks
    /\ Z.of_nat (length chunks) = 3%Z.
Proof.
  destruct (proj1 (proj2 (proj1 chunkByFileRange_tiles_the_range
                            25 (Sample.clock 0) "test.ts" 1%Z 25%Z
                            (Sample.maxLines 10)
                            ltac:(unfold lineNumber, MAX_SAFE_INTEGER; lia)
                            ltac:(unfold lineNumber, MAX_SAFE_INTEGER; lia))))
    as [chunks [Hrun [Htiles [Hcount _]]]].
  - cbn. lia.
  - cbn. lia.
  - exists chunks. split; [exact Hrun |]. split; [exact Htiles |].
    rewrite Hcount. reflexivity.
Defined.

(** ** [applyDechunking] with a limit of zero *)

Lemma dechunkFiles_throw ids limit message groups :
  fold_left (dechunkFile ids limit) groups (Throw message) = Throw message.
Proof. induction groups as [| g groups IH]; cbn; auto. Qed.

(** X2. [mergeOptions] keeps an explicit [maxChunksPerStep: 0] (it fills in
    defaults with [??]), and with that limit the merge loop collects an
    empty batch and reads [endLine] of [undefined]: [applyDechunking] throws
    a TypeError on every non-empty chunk list, and so does [chunkBySymbol]
    for a symbol scope unless dechunking is switched off. *)
Theorem applyDechunking_zero_limit_throws :
  (forall ids chunks options,
      MergedOptions.maxChunksPerStep options = 0 ->
      chunks <> [] ->
      applyDechunking ids chunks options
      = Throw "TypeError: Cannot read properties of undefined (reading 'endLine')")
  /\ (forall ids scope o name,
         ScopeResolution.symbolName scope = Some name ->
         name <> EmptyString ->
         ChunkingOptions.maxChunksPerStep o = Some 0 ->
         ChunkingOptions.applyDechunking o <> Some false ->
         chunkBySymbol ids scope (Some o)
         = Throw "TypeError: Cannot read properties of undefined (reading 'endLine')").
Proof.
  assert (Hfirst : forall ids chunks options,
             MergedOptions.maxChunksPerStep options = 0 ->
             chunks <> [] ->
             applyDechunking ids chunks options
             = Throw "TypeError: Cannot read properties of undefined (reading 'endLine')").
  { intros ids chunks options Hzero Hchunks. unfold applyDechunking.
    rewrite Hzero.
    destruct chunks as [| c chunks]; [contradiction |]. cbn [length Nat.leb].
    destruct (groupByFile (c :: chunks)) as [| [k g] groups] eqn:Hgroups.
    - destruct (@groupBy_complete _ CodeChunk.filePath (c :: chunks) c
                  (or_introl eq_refl)) as [g [Hin _]].
      unfold groupByFile in Hgroups. rewrite Hgroups in Hin. destruct Hin.
    - assert (Hg : g <> []).
      { destruct (groupBy_grouped CodeChunk.filePath (c :: chunks))
          as [_ Hmembers _].
        unfold groupByFile in Hgroups. rewrite Hgroups in Hmembers.
        now destruct (Hmembers k g (or_introl eq_refl)). }
      cbn [fold_left]. unfold dechunkFile at 2. cbn [bind fst snd].
      assert (Hsorted : sortBy CodeChunk.startLine g <> []).
      { intros Hnil. apply (f_equal (@length _)) in Hnil.
        rewrite sortBy_length in Hnil. destruct g; [contradiction | discriminate]. }
      destruct (sortBy CodeChunk.startLine g) as [| x sorted]; [contradiction |].
      cbn [length mergeFileChunks firstn]. now rewrite dechunkFiles_throw. }
  split; [exact Hfirst |].
  intros ids scope o name Hname Hnonempty Hzero Hon.
  unfold chunkBySymbol. rewrite Hname.
  destruct name as [| ch rest]; [contradiction |].
  assert (Hlimit : MergedOptions.maxChunksPerStep (mergeOptions (Some o)) = 0)
    by (cbn; now rewrite Hzero).
  assert (Hdechunk : MergedOptions.applyDechunking (mergeOptions (Some o)) = true).
  { cbn. destruct (ChunkingOptions.applyDechunking o) as [[|] |];
      [reflexivity | contradiction | reflexivity]. }
  rewrite Hdechunk, Hlimit. cbn [length Nat.ltb Nat.leb andb].
  rewrite Hfirst by (assumption || discriminate). reflexivity.
Qed.

Lemma applyDechunking_zero_limit_throws_witness :
  applyDechunking (Sample.clock 0) (Sample.tenLineChunks 3) (Sample.options 0)
  = Throw "TypeError: Cannot read properties of undefined (reading 'endLine')".
Proof.
  apply (proj1 applyDechunking_zero_limit_throws); [reflexivity | discriminate].
Defined.

(** ** No chunk is lost by dechunking *)



Lemma pushToGroup_perm (A : Type) (m : list (string * list A)) k (x : A) :
  Permutation (flat_map snd (pushToGroup m k x)) (x :: flat_map snd m).
Proof.
  induction m as [| [k' members] rest IH]; cbn; [apply Permutation_refl |].
  destruct (String.eqb k' k); cbn.
  - rewrite <- app_assoc. cbn. symmetry. apply Permutation_middle.
  - apply perm_trans with (members ++ x :: flat_map snd rest).
    + now apply Permutation_app_head.
    + symmetry. apply Permutation_middle.
Qed.

Lemma groupBy_perm (A : Type) (keyOf : A -> string) (xs : list A) :
  Permutation (flat_map snd (groupBy keyOf xs)) xs.
Proof.
  unfold groupBy.
  assert (H : forall m : list (string * list A),
             Permutation
               (flat_map snd (fold_left (fun m x => pushToGroup m (keyOf x) x) xs m))
               (flat_map snd m ++ xs)).
  { induction xs as [| x xs IH]; intros m; cbn [fold_left].
    - rewrite app_nil_r. apply Permutation_refl.
    - apply perm_trans with (flat_map snd (pushToGroup m (keyOf x) x) ++ xs);
        [apply IH |].
      apply perm_trans with ((x :: flat_map snd m) ++ xs).
      + apply Permutation_app_tail, pushToGroup_perm.
      + cbn. apply Permutation_middle. }
  apply (H []).
Qed.






(** ** The limits are respected *)

Lemma limitPhaseSteps_appends maxSteps groups : forall acc,
  fst (fold_left (limitPhaseSteps maxSteps) groups acc)
  = fst acc ++ flat_map (fun g => fst (limitPhaseSteps maxSteps ([], 0) g)) groups.
Proof.
  induction groups as [| g groups IH]; intros acc; cbn [fold_left flat_map].
  - now rewrite app_nil_r.
  - rewrite IH, app_assoc. f_equal.
    unfold limitPhaseSteps. destruct (exceeds (length (snd g)) maxSteps);
      reflexivity.
Qed.

(** Numbers of 1 or more. *)
Lemma fits_one_truthy x : fits 1 x = true -> isTruthy x = true.
Proof.
  destruct x as [z | below shown | negative shown |]; cbn;
    try reflexivity; try discriminate.
  intros H%Z.leb_le. apply negb_true_iff, Z.eqb_neq. lia.
Qed.

Lemma fits_le m n x : m <= n -> fits n x = true -> fits m x = true.
Proof.
  intros Hle. destruct x as [z | below shown | negative shown |]; cbn;
    try (intros H; exact H); intros H%Z.leb_le; apply Z.leb_le; lia.
Qed.

Lemma sliceIndex_fits len x :
  fits 1 x = true -> exceeds len x = true ->
  fits (sliceIndex len x) x = true /\ 0 < sliceIndex len x.
Proof.
  destruct x as [z | below shown | [] shown |]; cbn [fits exceeds sliceIndex];
    try discriminate.
  - intros Hone%Z.leb_le Hover%Z.ltb_lt. unfold relIndex.
    destruct (z <? 0)%Z eqn:E; [lia |]. split; [apply Z.leb_le |]; lia.
  - intros Hone%Z.leb_le Hover%Z.ltb_lt.
    destruct (below <? 0)%Z eqn:E; [lia |]. unfold relIndex. rewrite E.
    split; [apply Z.leb_le |]; lia.
Qed.

Lemma limitPhaseSteps_kept maxSteps k g :
  (forall s, In s g -> PlanStep.phaseId s = k) ->
  let kept := fst (limitPhaseSteps maxSteps ([], 0) (k, g)) in
  (fits 1 maxSteps = true -> fits (length kept) maxSteps = true)
  /\ (g <> [] -> fits 1 maxSteps = true -> kept <> [])
  /\ forall t, In t kept -> PlanStep.phaseId t = k.
Proof.
  intros Hkey. cbn zeta. unfold limitPhaseSteps. cbn [fst snd].
  destruct (exceeds (length g) maxSteps) eqn:Hover; cbn [fst List.app].
  - split; [| split].
    + intros Hone. rewrite length_map, sliceTo_length, sortBy_length.
      now apply sliceIndex_fits.
    + intros Hg Hone Hnil. apply (f_equal (@length _)) in Hnil.
      rewrite length_map, sliceTo_length, sortBy_length in Hnil.
      destruct (@sliceIndex_fits _ _ Hone Hover) as [_ Hpos]. cbn in Hnil. lia.
    + intros t Ht. apply in_map_iff in Ht. destruct Ht as [s [<- Hs]].
      apply in_sliceTo, sortBy_In in Hs.
      unfold stripDependencies, PlanStep.with_dependencies.
      cbn [PlanStep.phaseId]. now apply Hkey.
  - split; [| split; auto]. intros Hone.
    rewrite (@fits_exceeds _ _ (@fits_one_truthy _ Hone)), Hover. reflexivity.
Qed.

Lemma stepsOfPhase_app phaseId l1 l2 :
  stepsOfPhase phaseId (l1 ++ l2)
  = stepsOfPhase phaseId l1 ++ stepsOfPhase phaseId l2.
Proof. apply filter_app. Qed.

Lemma stepsOfPhase_other phaseId k steps :
  (forall s, In s steps -> PlanStep.phaseId s = k) -> k <> phaseId ->
  stepsOfPhase phaseId steps = [].
Proof.
  intros Hkey Hother. apply filter_none. intros s Hs.
  unfold hasKey. rewrite (Hkey s Hs). now apply String.eqb_neq.
Qed.

Lemma limited_groups_count maxSteps phaseId groups :
  fits 1 maxSteps = true ->
  NoDup (map fst groups) ->
  (forall k g s, In (k, g) groups -> In s g -> PlanStep.phaseId s = k) ->
  fits (length (stepsOfPhase phaseId
                  (flat_map (fun g => fst (limitPhaseSteps maxSteps ([], 0) g))
                            groups)))
       maxSteps = true
  /\ (~ In phaseId (map fst groups) ->
      stepsOfPhase phaseId
        (flat_map (fun g => fst (limitPhaseSteps maxSteps ([], 0) g)) groups)
      = []).
Proof.
  intros Hone. induction groups as [| [k g] groups IH]; intros Hkeys Hmembers.
  - cbn [flat_map stepsOfPhase filter length].
    split; [apply (@fits_le 0 1); [lia | exact Hone] | reflexivity].
  - inversion Hkeys as [| ? ? Hfresh Hrest]; subst.
    destruct IH as [IHcount IHnone];
      [assumption | intros k' g' s Hg'; apply (Hmembers k' g' s); now right |].
    destruct (@limitPhaseSteps_kept maxSteps k g
                (fun s => Hmembers k g s (or_introl eq_refl)))
      as [Hlen [_ Hphase]].
    cbn [flat_map]. rewrite stepsOfPhase_app, length_app.
    destruct (String.eqb_spec k phaseId) as [-> | Hother].
    + split.
      * rewrite (IHnone Hfresh). cbn [length]. rewrite Nat.add_0_r.
        eapply fits_le; [apply filter_length_le | now apply Hlen].
      * intros Hnot. exfalso. apply Hnot. now left.
    + rewrite (@stepsOfPhase_other phaseId k _ Hphase Hother).
      cbn [length List.app].
      split; [exact IHcount |].
      intros Hnot. apply IHnone. intros Hin. apply Hnot. now right.
Qed.

Lemma applyStepLimit_count maxSteps steps phaseId :
  fits 1 maxSteps = true ->
  fits (length (stepsOfPhase phaseId (fst (applyStepLimit maxSteps steps))))
       maxSteps = true.
Proof.
  intros Hone. unfold applyStepLimit.
  set (limited := fold_left _ _ _).
  assert (Hcount : fits (length (stepsOfPhase phaseId (fst limited))) maxSteps
                   = true).
  { subst limited. rewrite limitPhaseSteps_appends. cbn [fst List.app].
    destruct (groupBy_grouped PlanStep.phaseId steps) as [Hkeys Hmembers _].
    apply limited_groups_count; [assumption | exact Hkeys |].
    intros k g s Hg Hs.
    now destruct (groupBy_sound PlanStep.phaseId steps k g s Hg Hs). }
  destruct (fst limited) as [| x xs] eqn:Hfst.
  - destruct steps as [| first rest]; cbn [fst]; [rewrite Hfst; exact Hcount |].
    cbn [List.app stepsOfPhase filter].
    apply (@fits_le _ 1); [| exact Hone].
    destruct (hasKey _ _ _); cbn; lia.
  - destruct steps; cbn [fst]; rewrite Hfst; exact Hcount.
Qed.

Lemma applyPhaseLimit_spec plan maxPhases x :
  truthy maxPhases = Some x ->
  fst (fst (applyPhaseLimit plan maxPhases))
  = (if exceeds (length (TaskPlan.phases plan)) x
     then sliceTo (TaskPlan.phases plan) x else TaskPlan.phases plan)
  /\ (exceeds (length (TaskPlan.phases plan)) x = true ->
      forall t, In t (snd (fst (applyPhaseLimit plan maxPhases))) ->
                exists p, In p (sliceTo (TaskPlan.phases plan) x)
                          /\ PlanPhase.id p = PlanStep.phaseId t).
Proof.
  intros Hm. unfold applyPhaseLimit. rewrite Hm.
  destruct (exceeds (length (TaskPlan.phases plan)) x) eqn:Hover;
    cbn [fst snd].
  - split; [reflexivity |]. intros _ t Ht. apply filter_In in Ht.
    destruct Ht as [_ Hkept]. apply set_has_of_list in Hkept.
    apply in_map_iff in Hkept. destruct Hkept as [p [Hid Hp]]. now exists p.
  - split; [reflexivity | discriminate].
Qed.

Lemma applyStepLimit_phase maxSteps steps t :
  In t (fst (applyStepLimit maxSteps steps)) ->
  exists s, In s steps /\ PlanStep.phaseId t = PlanStep.phaseId s.
Proof.
  unfold applyStepLimit. set (limited := fold_left _ _ _).
  assert (Hfold : forall t', In t' (fst limited) ->
             exists s, In s steps /\ PlanStep.phaseId t' = PlanStep.phaseId s).
  { subst limited. rewrite limitPhaseSteps_appends. cbn [fst List.app].
    intros t' Ht'. apply in_flat_map in Ht'. destruct Ht' as [[k g] [Hg Ht']].
    assert (Hkey : forall s, In s g -> PlanStep.phaseId s = k).
    { intros s Hs.
      now destruct (groupBy_sound PlanStep.phaseId steps k g s Hg Hs). }
    destruct (@limitPhaseSteps_kept maxSteps k g Hkey) as [_ [_ Hphase]].
    destruct (groupBy_grouped PlanStep.phaseId steps) as [_ Hmembers _].
    destruct (Hmembers k g Hg) as [_ Hne].
    destruct g as [| s0 g']; [contradiction |].
    exists s0. split.
    - now destruct (groupBy_sound PlanStep.phaseId steps k (s0 :: g') s0 Hg
                                  (or_introl eq_refl)).
    - rewrite (Hphase t' Ht'). symmetry. apply Hkey. now left. }
  destruct (fst limited) as [| x xs] eqn:Hfst.
  - destruct steps as [| first rest]; cbn [fst].
    + rewrite Hfst. intros [].
    + cbn. intros [<- | []]. exists first. split; [now left | reflexivity].
  - destruct steps; cbn [fst]; rewrite Hfst; apply Hfold.
Qed.

Lemma preserveFirstStep_phase_known planBefore currentPlan t :
  In t (TaskPlan.steps (fst (preserveFirstStep planBefore currentPlan))) ->
  In t (TaskPlan.steps currentPlan)
  \/ ((exists p, In p (TaskPlan.phases currentPlan)
                 /\ PlanPhase.id p = PlanStep.phaseId t)
      /\ TaskPlan.steps (fst (preserveFirstStep planBefore currentPlan)) = [t]).
Proof.
  unfold preserveFirstStep.
  destruct (TaskPlan.steps currentPlan) as [| c cs] eqn:Hcur;
    [| cbn; rewrite Hcur; tauto].
  destruct (TaskPlan.steps planBefore) as [| first rest];
    [cbn; rewrite Hcur; tauto |].
  destruct (find _ _) as [p |] eqn:Hfind.
  - cbn. intros [<- | []]. right. split; [| reflexivity].
    apply find_some in Hfind. destruct Hfind as [Hp Hid].
    apply String.eqb_eq in Hid. now exists p.
  - destruct (TaskPlan.phases currentPlan) as [| phase0 phases] eqn:Hphases.
    + cbn. rewrite Hcur. tauto.
    + cbn. intros [<- | []]. right. split; [| reflexivity].
      exists phase0. split; [now left | reflexivity].
Qed.

(** X4. [validatePlan] always returns, whatever numbers its limits are.
    With a truthy phase limit that the number of phases exceeds, the phases
    of the result are [slice(0, limit)] of the phases of the input, and every
    remaining step belongs to a phase that was kept; otherwise the phases are
    those of the input.  For a limit that the input schema accepts, a positive
    integer m, these are the first m phases in both cases.  With a step limit
    of 1 or more, an integer or not, no phase of the result has more steps
    than the limit. *)
Theorem validatePlan_respects_the_limits :
  forall now plan options,
  exists r,
    validatePlan now plan options = Ok r
    /\ (forall x, truthy (targetMaxPhases options) = Some x ->
          (exceeds (length (TaskPlan.phases plan)) x = false ->
           TaskPlan.phases (ValidatePlanResult.plan r) = TaskPlan.phases plan)
          /\ (exceeds (length (TaskPlan.phases plan)) x = true ->
              TaskPlan.phases (ValidatePlanResult.plan r)
              = sliceTo (TaskPlan.phases plan) x
              /\ forall t, In t (TaskPlan.steps (ValidatePlanResult.plan r)) ->
                   exists p, In p (TaskPlan.phases (ValidatePlanResult.plan r))
                             /\ PlanPhase.id p = PlanStep.phaseId t))
    /\ (forall m, targetMaxPhases options = Some (natural (S m)) ->
          TaskPlan.phases (ValidatePlanResult.plan r)
          = firstn (S m) (TaskPlan.phases plan))
    /\ (forall x, targetMaxSteps options = Some x -> fits 1 x = true ->
          forall phaseId,
            fits (length (stepsOfPhase phaseId
                            (TaskPlan.steps (ValidatePlanResult.plan r))))
                 x = true).
Proof.
  intros now plan options.
  destruct (validatePlan_stages now plan options)
    as [chunked [r [Hchunk [Hrun [Hplan _]]]]].
  exists r. split; [exact Hrun |]. rewrite Hplan. clear Hplan Hrun.
  destruct (applyDynamicChunking_phases _ _ Hchunk) as [Hphases _].
  cbn [Stage.plan validatePlanScopes validatePlanLevels TaskPlan.phases
       TaskPlan.with_scopes_steps TaskPlan.with_steps] in Hphases.
  set (current := Stage.plan chunked) in *.
  set (limited := Stage.plan (applyGlobalLimits current (targetMaxPhases options)
                                                (targetMaxSteps options))).
  assert (Hlimphases : TaskPlan.phases limited
                       = fst (fst (applyPhaseLimit current (targetMaxPhases options))))
    by apply applyGlobalLimits_phases.
  assert (Hgeneral : forall x, truthy (targetMaxPhases options) = Some x ->
          (exceeds (length (TaskPlan.phases plan)) x = false ->
           TaskPlan.phases (fst (preserveFirstStep plan limited))
           = TaskPlan.phases plan)
          /\ (exceeds (length (TaskPlan.phases plan)) x = true ->
              TaskPlan.phases (fst (preserveFirstStep plan limited))
              = sliceTo (TaskPlan.phases plan) x
              /\ forall t,
                   In t (TaskPlan.steps (fst (preserveFirstStep plan limited))) ->
                   exists p,
                     In p (TaskPlan.phases (fst (preserveFirstStep plan limited)))
                     /\ PlanPhase.id p = PlanStep.phaseId t)).
  { intros x Hx. rewrite preserveFirstStep_phases, Hlimphases.
    destruct (applyPhaseLimit_spec current _ Hx) as [Hfirst Hkept].
    rewrite Hfirst, Hphases. split; [now intros -> |].
    intros Hover. rewrite Hover. split; [reflexivity |].
    intros t Ht. rewrite <- Hphases in Hover |- *.
    assert (Hsteps : forall t, In t (TaskPlan.steps limited) ->
               exists p, In p (sliceTo (TaskPlan.phases current) x)
                         /\ PlanPhase.id p = PlanStep.phaseId t).
    { intros t' Ht'. subst limited. unfold applyGlobalLimits in Ht'.
      destruct (truthy (targetMaxSteps options)) as [n |];
        cbn [Stage.plan TaskPlan.steps TaskPlan.with_phases_steps] in Ht'.
      - apply applyStepLimit_phase in Ht'. destruct Ht' as [s [Hs ->]].
        now apply Hkept.
      - now apply Hkept. }
    apply preserveFirstStep_phase_known in Ht.
    destruct Ht as [Ht | [[p [Hp Hid]] _]].
    + now apply Hsteps.
    + exists p. split; [| exact Hid].
      rewrite Hlimphases, Hfirst, Hover in Hp. exact Hp. }
  split; [exact Hgeneral |]. split.
  - intros m Hm.
    assert (Hx : truthy (targetMaxPhases options) = Some (natural (S m)))
      by now rewrite Hm.
    destruct (Hgeneral _ Hx) as [Hwithin Hover].
    destruct (exceeds (length (TaskPlan.phases plan)) (natural (S m))) eqn:Hcmp.
    + destruct (Hover eq_refl) as [-> _]. apply sliceTo_natural.
    + rewrite (Hwithin eq_refl). rewrite exceeds_natural in Hcmp.
      apply Nat.ltb_ge in Hcmp. now rewrite firstn_all2.
  - intros x Hx Hone phaseId.
    assert (Hn : truthy (targetMaxSteps options) = Some x).
    { rewrite Hx. cbn. now rewrite (@fits_one_truthy _ Hone). }
    assert (Hcount : fits (length (stepsOfPhase phaseId (TaskPlan.steps limited)))
                          x = true).
    { subst limited. unfold applyGlobalLimits. rewrite Hn.
      cbn [Stage.plan TaskPlan.steps TaskPlan.with_phases_steps].
      now apply applyStepLimit_count. }
    destruct (TaskPlan.steps (fst (preserveFirstStep plan limited)))
      as [| t ts] eqn:Hout;
      [cbn; apply (@fits_le _ 1); [lia | exact Hone] |].
    assert (Ht : In t (TaskPlan.steps (fst (preserveFirstStep plan limited))))
      by (rewrite Hout; now left).
    apply preserveFirstStep_phase_known in Ht.
    destruct Ht as [Ht | [_ Hsingle]].
    + assert (Hsame : TaskPlan.steps (fst (preserveFirstStep plan limited))
                      = TaskPlan.steps limited).
      { unfold preserveFirstStep.
        destruct (TaskPlan.steps limited) eqn:Hlimited;
          [destruct Ht | cbn [fst]; exact Hlimited]. }
      rewrite <- Hout, Hsame. exact Hcount.
    + rewrite Hout in Hsingle. injection Hsingle as ->.
      apply (@fits_le _ 1); [| exact Hone].
      cbn. destruct (hasKey _ _ _); cbn; lia.
Qed.

Lemma validatePlan_respects_the_limits_witness :
  exists r,
    validatePlan 0 Sample.twoPhases
      (mkOptions (Some (Int 1)) (Some (Frac 1 "1.5")) None) = Ok r
    /\ TaskPlan.phases (ValidatePlanResult.plan r)
       = firstn 1 (TaskPlan.phases Sample.twoPhases)
    /\ length (stepsOfPhase "p1" (TaskPlan.steps (ValidatePlanResult.plan r)))
       <= 1.
Proof.
  destruct (validatePlan_respects_the_limits
              0%Z Sample.twoPhases
              (mkOptions (Some (Int 1)) (Some (Frac 1 "1.5")) None))
    as [r [Hrun [_ [Hphases Hsteps]]]].
  exists r. split; [exact Hrun |].
  split; [now apply (Hphases 0) |].
  specialize (Hsteps (Frac 1 "1.5") eq_refl eq_refl "p1").
  cbn [fits] in Hsteps. apply Z.leb_le in Hsteps. lia.
Defined.
(** ** Plans the validator leaves alone *)

Lemma map_unchanged (A B : Type) (f : A -> A * list B) (l : list A) :
  (forall x, In x l -> f x = (x, [])) ->
  map fst (map f l) = l /\ flat_map snd (map f l) = [].
Proof.
  induction l as [| a l IH]; cbn; intros Hf; [split; reflexivity |].
  destruct IH as [IH1 IH2]; [intros x Hx; apply Hf; now right |].
  rewrite (Hf a (or_introl eq_refl)). cbn. split; congruence.
Qed.

Lemma with_steps_same plan : TaskPlan.with_steps plan (TaskPlan.steps plan) = plan.
Proof. now destruct plan. Qed.

Lemma validatePlanLevels_unchanged plan :
  levelsFollowPolicy plan = true ->
  validatePlanLevels plan = Stage.mk plan [].
Proof.
  intros Hlevels. unfold validatePlanLevels, levelsFollowPolicy in *.
  rewrite forallb_forall in Hlevels.
  destruct (@map_unchanged _ _ (correctStepLevel (TaskPlan.phases plan))
                           (TaskPlan.steps plan)) as [Hsteps Hchanges].
  { intros step Hstep. specialize (Hlevels step Hstep). unfold correctStepLevel.
    destruct (find _ _); [| reflexivity]. now rewrite Hlevels. }
  now rewrite Hsteps, Hchanges, with_steps_same.
Qed.

Lemma ensureGlobalScope_found now (plan : TaskPlan.t) :
  hasGlobalScope plan = true ->
  exists existing,
    ensureGlobalScope now (TaskPlan.scopes plan)
    = (TaskPlan.scopes plan, PlanScope.id existing, []).
Proof.
  unfold hasGlobalScope, ensureGlobalScope. intros Hglobal.
  destruct (find _ _) as [existing |] eqn:Hfind; [now exists existing |].
  apply existsb_exists in Hglobal. destruct Hglobal as [s [Hs Hkind]].
  apply (find_none _ _ Hfind) in Hs. congruence.
Qed.

Lemma taskPlanSchema_scopes plan step :
  taskPlanSchema plan = true -> In step (TaskPlan.steps plan) ->
  match PlanStep.scopeId step with
  | None => True
  | Some sc =>
      set_has (set_of_list (map PlanScope.id (TaskPlan.scopes plan))) sc = true
  end.
Proof.
  unfold taskPlanSchema. intros H Hstep.
  repeat (apply andb_prop in H; destruct H as [H ?]).
  match goal with
  | Hscopes : forallb (fun step => match PlanStep.scopeId step with _ => _ end) _
              = true |- _ =>
      rewrite forallb_forall in Hscopes; specialize (Hscopes step Hstep)
  end.
  destruct (PlanStep.scopeId step); [assumption | exact I].
Qed.

Lemma validatePlanScopes_unchanged now plan :
  taskPlanSchema plan = true -> hasGlobalScope plan = true ->
  validatePlanScopes now plan = Stage.mk plan [].
Proof.
  intros Hschema Hglobal. unfold validatePlanScopes.
  destruct (ensureGlobalScope_found now plan Hglobal) as [existing ->].
  cbn [fst snd].
  destruct (@map_unchanged _ _
              (repairStepScope
                 (set_of_list (map PlanScope.id (TaskPlan.scopes plan)))
                 (PlanScope.id existing))
              (TaskPlan.steps plan)) as [Hsteps Hchanges].
  { intros step Hstep. pose proof (taskPlanSchema_scopes plan step Hschema Hstep).
    unfold repairStepScope. destruct (PlanStep.scopeId step); [| reflexivity].
    now rewrite H. }
  rewrite Hsteps, Hchanges. cbn. now destruct plan.
Qed.

Lemma validatePlan_unchanged now plan options :
  taskPlanSchema plan = true ->
  levelsFollowPolicy plan = true ->
  hasGlobalScope plan = true ->
  truthy (targetMaxPhases options) = None ->
  truthy (targetMaxSteps options) = None ->
  truthy (maxMicroStepsPerPhase options) = None ->
  validatePlan now plan options
  = Ok (ValidatePlanResult.mk plan [] []
          (mkStats (length (TaskPlan.phases plan)) (length (TaskPlan.phases plan))
                   (length (TaskPlan.steps plan)) (length (TaskPlan.steps plan))
                   0 0%Z 0 0)
          (toToonFriendly plan)).
Proof.
  intros Hschema Hlevels Hglobal Hphases Hsteps Hmicro. unfold validatePlan.
  rewrite (validatePlanLevels_unchanged _ Hlevels). cbn [Stage.plan Stage.changes].
  rewrite (validatePlanScopes_unchanged now _ Hschema Hglobal).
  cbn [Stage.plan Stage.changes].
  rewrite (applyDynamicChunking_off _ _ Hmicro). cbn [bind Stage.plan Stage.changes].
  assert (Hlimits : applyGlobalLimits plan (targetMaxPhases options)
                                      (targetMaxSteps options)
                    = Stage.mk plan []).
  { unfold applyGlobalLimits, applyPhaseLimit. rewrite Hphases, Hsteps.
    cbn. now destruct plan. }
  rewrite Hlimits. cbn [Stage.plan Stage.changes List.app].
  assert (Hkeep : preserveFirstStep plan plan = (plan, [])).
  { unfold preserveFirstStep.
    destruct (taskPlanSchema_steps plan Hschema) as [Hne _].
    destruct (TaskPlan.steps plan); [contradiction | reflexivity]. }
  rewrite Hkeep. cbn [fst snd].
  assert (Hfinal : finalValidation plan = (plan, [])).
  { unfold finalValidation, validateTaskPlan. now rewrite Hschema. }
  rewrite Hfinal. reflexivity.
Qed.

(** X5. A plan that passes the schema, has a global scope and whose steps
    have the levels the policy expects is a fixed point of [validatePlan]
    when no limit is given: the plan comes back as it is, with no change, no
    warning and statistics that count nothing. *)
Theorem validatePlan_leaves_sound_plans_alone :
  forall now plan options,
    taskPlanSchema plan = true ->
    levelsFollowPolicy plan = true ->
    hasGlobalScope plan = true ->
    truthy (targetMaxPhases options) = None ->
    truthy (targetMaxSteps options) = None ->
    truthy (maxMicroStepsPerPhase options) = None ->
    exists r,
      validatePlan now plan options = Ok r
      /\ ValidatePlanResult.plan r = plan
      /\ ValidatePlanResult.changes r = []
      /\ ValidatePlanResult.warnings r = []
      /\ ValidatePlanResult.stats r
         = mkStats (length (TaskPlan.phases plan)) (length (TaskPlan.phases plan))
                   (length (TaskPlan.steps plan)) (length (TaskPlan.steps plan))
                   0 0%Z 0 0.
Proof.
  intros now plan options Hschema Hlevels Hglobal Hphases Hsteps Hmicro.
  eexists. split; [now apply validatePlan_unchanged |].
  repeat split.
Qed.

Lemma validatePlan_leaves_sound_plans_alone_witness :
  exists r,
    validatePlan 0 Sample.twoPhases (mkOptions None (Some (Int 0)) None) = Ok r
    /\ ValidatePlanResult.plan r = Sample.twoPhases
    /\ ValidatePlanResult.changes r = []
    /\ ValidatePlanResult.warnings r = [].
Proof.
  destruct (validatePlan_leaves_sound_plans_alone
              0%Z Sample.twoPhases (mkOptions None (Some (Int 0)) None))
    as [r [Hrun [Hplan [Hchanges [Hwarnings _]]]]];
    try (vm_compute; reflexivity).
  exists r. auto.
Defined.

(** ** Plans built by [buildTaskPlan] *)













Lemma levelsFollowPolicy_intro plan :
  (forall step phase,
      In step (TaskPlan.steps plan) -> In phase (TaskPlan.phases plan) ->
      PlanPhase.id phase = PlanStep.phaseId step ->
      PlanStep.level step
      = getExpectedLevelForStepKind (PlanStep.kind step) (PlanPhase.level phase)) ->
  levelsFollowPolicy plan = true.
Proof.
  intros H. unfold levelsFollowPolicy. apply forallb_forall. intros step Hstep.
  destruct (find _ _) as [phase |] eqn:Hfind; [| reflexivity].
  apply find_some in Hfind. destruct Hfind as [Hphase Hid].
  apply String.eqb_eq in Hid. apply PlanLevel_eqb_eq. now apply H.
Qed.










(* ------------------------------------------------------------------ *)
(** ** Executing a plan step by step *)

Lemma lastWithId_cons s rest d :
  lastWithId (s :: rest) d
  = match lastWithId rest d with
    | Some later => Some later
    | None => if String.eqb (PlanStep.id s) d then Some s else None
    end.
Proof.
  unfold lastWithId. cbn [List.rev].
  induction (List.rev rest) as [| x xs IH]; cbn [List.app find].
  - reflexivity.
  - destruct (String.eqb (PlanStep.id x) d); [reflexivity | exact IH].
Qed.

Lemma lastWithId_none steps d :
  lastWithId steps d = None <-> ~ In d (map PlanStep.id steps).
Proof.
  induction steps as [| s rest IH].
  - cbn. tauto.
  - rewrite lastWithId_cons. cbn [map In].
    destruct (lastWithId rest d) as [later |] eqn:Hl.
    + split; [discriminate |]. intros Hn. exfalso.
      assert (Hin : In d (map PlanStep.id rest)).
      { destruct (in_dec string_dec d (map PlanStep.id rest)) as [Hi | Hi];
          [exact Hi |]. apply IH in Hi. discriminate. }
      tauto.
    + destruct (String.eqb (PlanStep.id s) d) eqn:E.
      * apply String.eqb_eq in E. split; [discriminate | tauto].
      * apply String.eqb_neq in E. split; [| reflexivity].
        intros _ [H | H]; [contradiction |]. now apply (proj1 IH).
Qed.

(** The last step with an id, as a decomposition of the list. *)
Lemma lastWithId_spec steps d dep :
  lastWithId steps d = Some dep
  <-> exists pre post,
        steps = pre ++ dep :: post /\ PlanStep.id dep = d
        /\ ~ In d (map PlanStep.id post).
Proof.
  revert dep. induction steps as [| s rest IH]; intros dep.
  - cbn. split; [discriminate |]. intros [pre [post [H _]]].
    now destruct pre.
  - rewrite lastWithId_cons.
    destruct (lastWithId rest d) as [later |] eqn:Hl.
    + split.
      * intros [= <-]. destruct (proj1 (IH later) eq_refl)
          as [pre [post [Hs [Hid Hn]]]].
        exists (s :: pre), post. rewrite Hs. now repeat split.
      * intros [pre [post [Hs [Hid Hn]]]]. destruct pre as [| s' pre].
        -- cbn in Hs. injection Hs as -> ->.
           apply lastWithId_none in Hn. congruence.
        -- cbn in Hs. injection Hs as -> Hr.
           assert (Hdep : Some later = Some dep); [| exact Hdep].
           apply IH. now exists pre, post.
    + pose proof (proj1 (lastWithId_none rest d) Hl) as Hnone.
      destruct (String.eqb (PlanStep.id s) d) eqn:E.
      * apply String.eqb_eq in E. split.
        -- intros [= <-]. exists [], rest. now repeat split.
        -- intros [pre [post [Hs [Hid Hn]]]]. destruct pre as [| s' pre].
           ++ cbn in Hs. now injection Hs as -> ->.
           ++ cbn in Hs. injection Hs as -> Hr. exfalso. apply Hnone.
              rewrite Hr, map_app, in_app_iff. right. cbn. now left.
      * apply String.eqb_neq in E. split; [discriminate |].
        intros [pre [post [Hs [Hid Hn]]]]. destruct pre as [| s' pre].
        -- cbn in Hs. injection Hs as -> ->. contradiction.
        -- cbn in Hs. injection Hs as -> Hr. exfalso. apply Hnone.
           rewrite Hr, map_app, in_app_iff. right. cbn. now left.
Qed.

(** [new Map(steps.map(s => [s.id, s])).get(d)] is the last step with id [d]. *)
Lemma stepMap_fold steps : forall m d,
  map_get (fold_left (fun m entry => map_set m (fst entry) (snd entry))
                     (map (fun s => (PlanStep.id s, s)) steps) m) d
  = match lastWithId steps d with
    | Some s => Some s
    | None => map_get m d
    end.
Proof.
  induction steps as [| s rest IH]; intros m d.
  - reflexivity.
  - cbn [map fold_left fst snd]. rewrite IH, lastWithId_cons, map_get_set.
    destruct (lastWithId rest d); [reflexivity |].
    now destruct (String.eqb (PlanStep.id s) d).
Qed.

Lemma stepMap_get steps d :
  map_get (map_of_list (map (fun s => (PlanStep.id s, s)) steps)) d
  = lastWithId steps d.
Proof.
  unfold map_of_list. rewrite stepMap_fold. now destruct (lastWithId steps d).
Qed.

Lemma isDone_iff status : isDone status = true <-> status = Some Done.
Proof. destruct status as [[] |]; cbn; split; congruence. Qed.

Lemma isStepExecutable_iff step plan :
  isStepExecutable step plan = true
  <-> notStarted step
      /\ forall d, In d (PlanStep.dependencies step) ->
           exists dep, lastWithId (TaskPlan.steps plan) d = Some dep
                       /\ PlanStep.status dep = Some Done.
Proof.
  unfold isStepExecutable, notStarted.
  assert (Hdeps :
    forallb (fun depId =>
               match map_get (map_of_list (map (fun s => (PlanStep.id s, s))
                                               (TaskPlan.steps plan))) depId with
               | Some dep => isDone (PlanStep.status dep)
               | None => false
               end) (PlanStep.dependencies step) = true
    <-> forall d, In d (PlanStep.dependencies step) ->
          exists dep, lastWithId (TaskPlan.steps plan) d = Some dep
                      /\ PlanStep.status dep = Some Done).
  { rewrite forallb_forall. split; intros H d Hd; specialize (H d Hd).
    - rewrite stepMap_get in H.
      destruct (lastWithId (TaskPlan.steps plan) d) as [dep |];
        [| discriminate]. exists dep. split; [reflexivity |].
      now apply isDone_iff.
    - rewrite stepMap_get. destruct H as [dep [-> Hdone]].
      now apply isDone_iff. }
  destruct (PlanStep.status step) as [[] |];
    try (split; [discriminate | intros [[H | H] _]; discriminate]).
  - destruct (PlanStep.dependencies step) as [| d0 ds] eqn:Hd.
    + split; [| reflexivity]. intros _. split; [now right |].
      intros d [].
    + rewrite Hdeps. split; [intros H; split; [now right | exact H] | tauto].
  - destruct (PlanStep.dependencies step) as [| d0 ds] eqn:Hd.
    + split; [| reflexivity]. intros _. split; [now left |].
      intros d [].
    + rewrite Hdeps. split; [intros H; split; [now left | exact H] | tauto].
Qed.

Section ComparatorSortFacts.
Variable A : Type.
Variable compare : A -> A -> Z.

Lemma insertWith_perm x sorted :
Permutation (insertWith compare x sorted) (x :: sorted).
Proof.
induction sorted as [| y rest IH]; cbn [insertWith].
- apply Permutation_refl.
- destruct (compare x y <=? 0)%Z; [apply Permutation_refl |].
eapply perm_trans; [apply perm_skip, IH | apply perm_swap].
Qed.

Lemma sortWith_perm xs : Permutation (sortWith compare xs) xs.
Proof.
induction xs as [| x rest IH]; cbn [sortWith fold_right].
- apply perm_nil.
- eapply perm_trans; [apply insertWith_perm |]. now apply perm_skip.
Qed.


End ComparatorSortFacts.




Lemma getExecutableSteps_In plan step :
  In step (getExecutableSteps plan)
  <-> In step (TaskPlan.steps plan) /\ isStepExecutable step plan = true.
Proof.
  unfold getExecutableSteps.
  pose proof (filter_In (fun s => isStepExecutable s plan) step
                        (TaskPlan.steps plan)) as Hfilter.
  cbn beta in Hfilter. rewrite <- Hfilter. split; intros H.
  - exact (Permutation_in _ (sortWith_perm _ _) H).
  - exact (Permutation_in _ (Permutation_sym (sortWith_perm _ _)) H).
Qed.



Lemma setStatusOfFirst_none steps stepId status :
  ~ In stepId (map PlanStep.id steps) ->
  setStatusOfFirst steps stepId status = None.
Proof.
  induction steps as [| s rest IH]; intros Hn; cbn [setStatusOfFirst].
  - reflexivity.
  - cbn [map In] in Hn. destruct (String.eqb (PlanStep.id s) stepId) eqn:E.
    + apply String.eqb_eq in E. tauto.
    + rewrite IH; [reflexivity | tauto].
Qed.

Lemma setStatusOfFirst_some steps stepId status :
  In stepId (map PlanStep.id steps) ->
  exists pre step post,
    steps = pre ++ step :: post /\ PlanStep.id step = stepId
    /\ ~ In stepId (map PlanStep.id pre)
    /\ setStatusOfFirst steps stepId status
       = Some (pre ++ with_status step status :: post).
Proof.
  induction steps as [| s rest IH]; intros Hin; [destruct Hin |].
  cbn [setStatusOfFirst]. destruct (String.eqb (PlanStep.id s) stepId) eqn:E.
  - apply String.eqb_eq in E. exists [], s, rest. now repeat split.
  - apply String.eqb_neq in E. cbn [map In] in Hin.
    destruct Hin as [Hin | Hin]; [contradiction |].
    destruct (IH Hin) as [pre [step [post [Hs [Hid [Hn Hset]]]]]].
    exists (s :: pre), step, post. rewrite Hset, Hs.
    repeat split; auto. cbn [map In]. tauto.
Qed.

(** The schema does not read the status of a step. *)
Lemma taskPlanSchema_status plan pre step post status :
  TaskPlan.steps plan = pre ++ step :: post ->
  taskPlanSchema (TaskPlan.with_steps plan (pre ++ with_status step status :: post))
  = taskPlanSchema plan.
Proof.
  intros Hs. unfold taskPlanSchema, TaskPlan.with_steps.
  cbn [TaskPlan.goal TaskPlan.phases TaskPlan.scopes TaskPlan.steps].
  rewrite Hs.
  assert (Hids : map PlanStep.id (pre ++ with_status step status :: post)
                 = map PlanStep.id (pre ++ step :: post))
    by (now rewrite !map_app).
  assert (Hlen : length (pre ++ with_status step status :: post)
                 = length (pre ++ step :: post))
    by (now rewrite !length_app).
  rewrite Hids, Hlen. rewrite !forallb_app. cbn [forallb].
  unfold planStepSchema, with_status.
  cbn [PlanStep.id PlanStep.phaseId PlanStep.order PlanStep.title
       PlanStep.summary PlanStep.scopeId PlanStep.dependencies].
  reflexivity.
Qed.

Lemma updateStepStatus_spec plan stepId status :
  (~ In stepId (map PlanStep.id (TaskPlan.steps plan)) ->
   updateStepStatus plan stepId status
   = Throw ("Step with id " ++ dquote ++ stepId ++ dquote
            ++ " not found in plan")%string)
  /\ (In stepId (map PlanStep.id (TaskPlan.steps plan)) ->
      exists pre step post,
        TaskPlan.steps plan = pre ++ step :: post
        /\ PlanStep.id step = stepId
        /\ ~ In stepId (map PlanStep.id pre)
        /\ (taskPlanSchema plan = true ->
            updateStepStatus plan stepId status
            = Ok (TaskPlan.with_steps plan
                    (pre ++ with_status step status :: post)))
        /\ (taskPlanSchema plan = false ->
            exists message,
              updateStepStatus plan stepId status = Throw message)).
Proof.
  unfold updateStepStatus. split.
  - intros Hn. now rewrite setStatusOfFirst_none.
  - intros Hin.
    destruct (setStatusOfFirst_some (TaskPlan.steps plan) stepId status Hin)
      as [pre [step [post [Hs [Hid [Hn Hset]]]]]].
    exists pre, step, post. rewrite Hset. unfold validateTaskPlan.
    rewrite (taskPlanSchema_status plan pre step post status Hs).
    repeat split; auto.
    + intros ->. reflexivity.
    + intros ->. now eexists.
Qed.



Lemma lastWithId_app pre post d :
  lastWithId (pre ++ post) d
  = match lastWithId post d with
    | Some later => Some later
    | None => lastWithId pre d
    end.
Proof.
  induction pre as [| s rest IH]; cbn [List.app].
  - unfold lastWithId at 3. cbn. now destruct (lastWithId post d).
  - rewrite !lastWithId_cons, IH. now destruct (lastWithId post d).
Qed.

Lemma with_status_id s status : PlanStep.id (with_status s status) = PlanStep.id s.
Proof. reflexivity. Qed.


Lemma NoDup_ids_last pre s post :
  NoDup (map PlanStep.id (pre ++ s :: post)) ->
  lastWithId (pre ++ s :: post) (PlanStep.id s) = Some s.
Proof.
  intros Hnd. apply lastWithId_spec. exists pre, post.
  repeat split. rewrite map_app in Hnd. cbn [map] in Hnd.
  apply NoDup_remove_2 in Hnd. rewrite in_app_iff in Hnd. tauto.
Qed.





Lemma first_not_done (steps : list PlanStep.t) :
  (forall s, In s steps -> PlanStep.status s = Some Done)
  \/ exists pre s post,
       steps = pre ++ s :: post
       /\ (forall x, In x pre -> PlanStep.status x = Some Done)
       /\ PlanStep.status s <> Some Done.
Proof.
  induction steps as [| s rest IH].
  - left. intros s [].
  - destruct (isDone (PlanStep.status s)) eqn:E.
    + apply isDone_iff in E. destruct IH as [Hall | [pre [x [post [Hs [Hp Hx]]]]]].
      * left. intros y [<- | Hy]; auto.
      * right. exists (s :: pre), x, post. rewrite Hs.
        repeat split; auto. intros y [<- | Hy]; auto.
    + right. exists [], s, rest. repeat split.
      * intros x [].
      * intros H. apply isDone_iff in H. congruence.
Qed.

Lemma dependenciesComeFirst_middle pre : forall earlier s post,
  dependenciesComeFirst earlier (pre ++ s :: post) ->
  forall d, In d (PlanStep.dependencies s) ->
    In d (earlier ++ map PlanStep.id pre).
Proof.
  induction pre as [| x pre IH]; intros earlier s post H d Hd.
  - cbn in *. rewrite app_nil_r. now apply (proj1 H).
  - cbn [List.app dependenciesComeFirst] in H. destruct H as [_ H].
    specialize (IH _ _ _ H d Hd). rewrite <- app_assoc in IH. exact IH.
Qed.

Lemma dependenciesComeFirst_status pre s post status : forall earlier,
  dependenciesComeFirst earlier (pre ++ s :: post) ->
  dependenciesComeFirst earlier (pre ++ with_status s status :: post).
Proof.
  induction pre as [| x pre IH]; intros earlier H.
  - exact H.
  - cbn [List.app dependenciesComeFirst] in *. destruct H as [Hx H].
    split; [exact Hx | now apply IH].
Qed.

Lemma NoDup_ids_lookup steps dep :
  NoDup (map PlanStep.id steps) -> In dep steps ->
  lastWithId steps (PlanStep.id dep) = Some dep.
Proof.
  intros Hnd Hin. apply in_split in Hin. destruct Hin as [pre [post ->]].
  now apply NoDup_ids_last.
Qed.

Lemma doneCount_middle pre s post :
  length (filter (fun x => isDone (PlanStep.status x)) (pre ++ s :: post))
  = length (filter (fun x => isDone (PlanStep.status x)) pre)
    + (if isDone (PlanStep.status s) then 1 else 0)
    + length (filter (fun x => isDone (PlanStep.status x)) post).
Proof.
  rewrite filter_app, length_app. cbn [filter].
  destruct (isDone (PlanStep.status s)); cbn [length]; lia.
Qed.

(** Progress: a well-ordered plan with a step that is not done has an
    executable step. *)
Lemma wellOrdered_progress plan :
  wellOrdered plan ->
  (forall s, In s (TaskPlan.steps plan) -> PlanStep.status s = Some Done)
  \/ exists next, getNextExecutableStep plan = Some next.
Proof.
  intros [Hschema [Hnd [Hdeps Hstatus]]].
  destruct (first_not_done (TaskPlan.steps plan))
    as [Hall | [pre [s [post [Hs [Hpre Hnot]]]]]]; [now left | right].
  assert (Hexec : isStepExecutable s plan = true).
  { apply isStepExecutable_iff. split.
    - assert (Hin : In s (TaskPlan.steps plan))
        by (rewrite Hs, in_app_iff; right; now left).
      destruct (Hstatus s Hin) as [H1 H2]. unfold notStarted.
      destruct (PlanStep.status s) as [[] |]; auto; congruence.
    - intros d Hd. rewrite Hs in Hdeps.
      pose proof (dependenciesComeFirst_middle _ _ _ _ Hdeps d Hd) as Hin.
      cbn [List.app] in Hin. apply in_map_iff in Hin.
      destruct Hin as [dep [Hid Hdep]]. exists dep. split.
      + rewrite <- Hid. apply NoDup_ids_lookup; [exact Hnd |].
        rewrite Hs, in_app_iff. now left.
      + now apply Hpre. }
  unfold getNextExecutableStep.
  destruct (getExecutableSteps plan) as [| first rest] eqn:E;
    [| now exists first].
  assert (Hin : In s (getExecutableSteps plan)).
  { apply getExecutableSteps_In. split; [| exact Hexec].
    rewrite Hs, in_app_iff. right. now left. }
  rewrite E in Hin. destruct Hin.
Qed.

(** Preservation: marking an executable step done keeps the plan
    well-ordered and adds one to the number of steps that are done. *)
Lemma wellOrdered_preserved plan next :
  wellOrdered plan -> In next (TaskPlan.steps plan) ->
  isStepExecutable next plan = true ->
  exists plan',
    markStepDone plan (PlanStep.id next) = Ok plan'
    /\ wellOrdered plan'
    /\ doneCount plan' = S (doneCount plan)
    /\ map PlanStep.id (TaskPlan.steps plan')
       = map PlanStep.id (TaskPlan.steps plan).
Proof.
  intros [Hschema [Hnd [Hdeps Hstatus]]] Hin Hexec.
  destruct (proj2 (updateStepStatus_spec plan (PlanStep.id next) Done)
                  (in_map PlanStep.id _ _ Hin))
    as [pre [s [post [Hs [Hid [Hpre [Hok _]]]]]]].
  assert (Hsame : s = next).
  { apply (NoDup_map_injective PlanStep.id (TaskPlan.steps plan)); auto.
    rewrite Hs, in_app_iff. right. now left. }
  subst s. eexists. split; [exact (Hok Hschema) |].
  assert (Hids : map PlanStep.id (pre ++ with_status next Done :: post)
                 = map PlanStep.id (TaskPlan.steps plan))
    by (rewrite Hs, !map_app; reflexivity).
  split; [| split].
  - unfold wellOrdered. cbn [TaskPlan.with_steps TaskPlan.steps].
    split; [| split; [| split]].
    + change (taskPlanSchema
                (TaskPlan.with_steps plan (pre ++ with_status next Done :: post))
              = true).
      now rewrite (taskPlanSchema_status plan pre next post Done Hs).
    + now rewrite Hids.
    + apply dependenciesComeFirst_status. now rewrite <- Hs.
    + intros step Hstep. rewrite in_app_iff in Hstep. cbn [In] in Hstep.
      destruct Hstep as [Hstep | [<- | Hstep]].
      * apply Hstatus. rewrite Hs, in_app_iff. now left.
      * cbn. split; discriminate.
      * apply Hstatus. rewrite Hs, in_app_iff. right. now right.
  - unfold doneCount. cbn [TaskPlan.with_steps TaskPlan.steps].
    rewrite Hs, !doneCount_middle. cbn [with_status PlanStep.status isDone].
    apply isStepExecutable_iff in Hexec. destruct Hexec as [[Hn | Hn] _];
      rewrite Hn; cbn [isDone]; lia.
  - exact Hids.
Qed.

(** X10. A plan that passes the schema, has distinct step ids, dependencies
    that name earlier steps only, and no step in progress or blocked, never
    stalls: either all its steps are done, or [getNextExecutableStep] returns
    a step, [markStepDone] on that step succeeds, and the plan it returns has
    the same properties and one more step that is done. *)
Theorem wellOrdered_plans_run_to_completion :
  forall plan,
    wellOrdered plan ->
    (forall step, In step (TaskPlan.steps plan) ->
       PlanStep.status step = Some Done)
    \/ exists next plan',
         getNextExecutableStep plan = Some next
         /\ markStepDone plan (PlanStep.id next) = Ok plan'
         /\ wellOrdered plan'
         /\ doneCount plan' = S (doneCount plan)
         /\ length (TaskPlan.steps plan') = length (TaskPlan.steps plan).
Proof.
  intros plan Hplan.
  destruct (wellOrdered_progress Hplan) as [Hall | [next Hnext]];
    [now left | right].
  assert (Hin : In next (getExecutableSteps plan)).
  { unfold getNextExecutableStep in Hnext.
    destruct (getExecutableSteps plan); [discriminate |].
    injection Hnext as ->. now left. }
  apply getExecutableSteps_In in Hin. destruct Hin as [Hin Hexec].
  destruct (@wellOrdered_preserved plan next Hplan Hin Hexec)
    as [plan' [Hdone [Hwell [Hcount Hids]]]].
  exists next, plan'. split; [exact Hnext |]. split; [exact Hdone |].
  split; [exact Hwell |]. split; [exact Hcount |].
  now rewrite <- (length_map PlanStep.id), Hids, length_map.
Qed.

Lemma wellOrdered_plans_run_to_completion_witness :
  (forall step, In step (TaskPlan.steps Sample.twoPhases) ->
     PlanStep.status step = Some Done)
  \/ exists next plan',
       getNextExecutableStep Sample.twoPhases = Some next
       /\ markStepDone Sample.twoPhases (PlanStep.id next) = Ok plan'
       /\ wellOrdered plan'
       /\ doneCount plan' = S (doneCount Sample.twoPhases)
       /\ length (TaskPlan.steps plan') = length (TaskPlan.steps Sample.twoPhases).
Proof.
  apply wellOrdered_plans_run_to_completion.
  split; [reflexivity |]. split.
  - cbn. repeat constructor; cbn; intuition discriminate.
  - split.
    + cbn. intuition.
    + cbn. intros step [<- | [<- | [<- | []]]]; split; discriminate.
Defined.

(** ** Repeated step ids *)

Lemma updateStepStatus_steps plan stepId status plan' :
  updateStepStatus plan stepId status = Ok plan' ->
  exists pre s post,
    TaskPlan.steps plan = pre ++ s :: post
    /\ PlanStep.id s = stepId
    /\ ~ In stepId (map PlanStep.id pre)
    /\ taskPlanSchema plan = true
    /\ plan' = TaskPlan.with_steps plan (pre ++ with_status s status :: post).
Proof.
  intros Hrun.
  destruct (in_dec string_dec stepId (map PlanStep.id (TaskPlan.steps plan)))
    as [Hin | Hn].
  - destruct (proj2 (updateStepStatus_spec plan stepId status) Hin)
      as [pre [s [post [Hs [Hid [Hpre [Hok Hbad]]]]]]].
    exists pre, s, post. destruct (taskPlanSchema plan) eqn:Hschema.
    + rewrite (Hok eq_refl) in Hrun. injection Hrun as <-. auto.
    + destruct (Hbad eq_refl) as [message Hthrow]. congruence.
  - rewrite (proj1 (updateStepStatus_spec plan stepId status) Hn) in Hrun.
    discriminate.
Qed.

Lemma stepsWithId_none d steps :
  ~ In d (map PlanStep.id steps) -> stepsWithId d steps = [].
Proof.
  induction steps as [| s rest IH]; intros Hn; [reflexivity |].
  cbn [stepsWithId filter]. cbn [map In] in Hn.
  destruct (String.eqb (PlanStep.id s) d) eqn:E.
  - apply String.eqb_eq in E. tauto.
  - apply IH. tauto.
Qed.

Lemma stepsWithId_middle d pre s post :
  length (stepsWithId d (pre ++ s :: post))
  = length (stepsWithId d pre)
    + (if String.eqb (PlanStep.id s) d then 1 else 0)
    + length (stepsWithId d post).
Proof.
  unfold stepsWithId. rewrite filter_app, length_app. cbn [filter].
  destruct (String.eqb (PlanStep.id s) d); cbn [length]; lia.
Qed.


(** A status update reaches the first step with the id: when two steps
    carry the id, the last of them is out of its reach. *)
Lemma update_keeps_last d dep pre s post status :
  ~ In (PlanStep.id s) (map PlanStep.id pre) ->
  2 <= length (stepsWithId d (pre ++ s :: post)) ->
  lastWithId (pre ++ s :: post) d = Some dep ->
  2 <= length (stepsWithId d (pre ++ with_status s status :: post))
  /\ lastWithId (pre ++ with_status s status :: post) d = Some dep.
Proof.
  intros Hpre Hcount Hlast. split.
  - now rewrite stepsWithId_middle, with_status_id, <- stepsWithId_middle.
  - rewrite lastWithId_app, lastWithId_cons, with_status_id.
    rewrite lastWithId_app, lastWithId_cons in Hlast.
    destruct (lastWithId post d) as [later |] eqn:Hpost; [exact Hlast |].
    destruct (String.eqb (PlanStep.id s) d) eqn:E; [| exact Hlast].
    exfalso. apply String.eqb_eq in E. subst d.
    rewrite stepsWithId_middle, String.eqb_refl in Hcount.
    rewrite (stepsWithId_none _ _ Hpre) in Hcount.
    rewrite (stepsWithId_none _ _ (proj1 (lastWithId_none _ _) Hpost)) in Hcount.
    cbn in Hcount. lia.
Qed.

Lemma runUpdates_keeps_last d dep updates : forall plan plan',
  2 <= length (stepsWithId d (TaskPlan.steps plan)) ->
  lastWithId (TaskPlan.steps plan) d = Some dep ->
  runUpdates plan updates = Ok plan' ->
  2 <= length (stepsWithId d (TaskPlan.steps plan'))
  /\ lastWithId (TaskPlan.steps plan') d = Some dep.
Proof.
  induction updates as [| [stepId status] rest IH]; intros plan plan' Hc Hl Hrun.
  - cbn in Hrun. injection Hrun as <-. auto.
  - cbn [runUpdates] in Hrun.
    destruct (updateStepStatus plan stepId status) as [updated | |] eqn:Hup;
      cbn [bind] in Hrun; try discriminate.
    apply updateStepStatus_steps in Hup.
    destruct Hup as [pre [s [post [Hs [Hid [Hpre [_ ->]]]]]]].
    rewrite Hs in Hc, Hl. rewrite <- Hid in Hpre.
    destruct (@update_keeps_last d dep pre s post status Hpre Hc Hl) as [Hc' Hl'].
    exact (IH (TaskPlan.with_steps plan (pre ++ with_status s status :: post))
              plan' Hc' Hl' Hrun).
Qed.


Lemma waits_for_last plan d dep step :
  lastWithId (TaskPlan.steps plan) d = Some dep ->
  PlanStep.status dep <> Some Done ->
  In d (PlanStep.dependencies step) ->
  isStepExecutable step plan = false.
Proof.
  intros Hlast Hnot Hd. destruct (isStepExecutable step plan) eqn:E;
    [| reflexivity].
  apply isStepExecutable_iff in E. destruct E as [_ Hdeps].
  destruct (Hdeps d Hd) as [dep' [Hl Hdone]]. congruence.
Qed.

Lemma lastWithId_In steps d dep :
  lastWithId steps d = Some dep -> In dep steps.
Proof.
  intros H. apply lastWithId_spec in H. destruct H as [pre [post [-> _]]].
  rewrite in_app_iff. right. now left.
Qed.

(** X11. When two or more steps of a plan carry the same id, a dependency on
    that id waits for the last of them, and a status update reaches only the
    first: if the last one is not done, then after any sequence of status
    updates it is still in the plan with the status it had, and no step that
    depends on the id is executable. *)
Theorem a_repeated_id_blocks_its_dependents :
  forall plan d pre dep post,
    TaskPlan.steps plan = pre ++ dep :: post ->
    PlanStep.id dep = d ->
    In d (map PlanStep.id pre) ->
    ~ In d (map PlanStep.id post) ->
    PlanStep.status dep <> Some Done ->
    forall updates plan',
      runUpdates plan updates = Ok plan' ->
      In dep (TaskPlan.steps plan')
      /\ forall step,
           In step (TaskPlan.steps plan') ->
           In d (PlanStep.dependencies step) ->
           isStepExecutable step plan' = false.
Proof.
  intros plan d pre dep post Hs Hid Hpre Hpost Hnot updates plan' Hrun.
  assert (Hlast : lastWithId (TaskPlan.steps plan) d = Some dep)
    by (apply lastWithId_spec; now exists pre, post).
  assert (Hcount : 2 <= length (stepsWithId d (TaskPlan.steps plan))).
  { rewrite Hs, stepsWithId_middle, Hid, String.eqb_refl.
    apply in_map_iff in Hpre. destruct Hpre as [x [Hx Hin]].
    apply in_split in Hin. destruct Hin as [l1 [l2 ->]].
    rewrite stepsWithId_middle, Hx, String.eqb_refl. lia. }
  destruct (@runUpdates_keeps_last d dep updates plan plan' Hcount Hlast Hrun)
    as [_ Hlast'].
  split; [now apply (@lastWithId_In _ d) |].
  intros step _ Hd. now apply (@waits_for_last plan' d dep step Hlast').
Qed.

Lemma a_repeated_id_blocks_its_dependents_witness :
  exists plan',
    runUpdates Sample.repeatedIds [("s1", Done); ("s2", Done); ("s1", Done)]
    = Ok plan'
    /\ forall step,
         In step (TaskPlan.steps plan') ->
         In "s1" (PlanStep.dependencies step) ->
         isStepExecutable step plan' = false.
Proof.
  destruct (runUpdates Sample.repeatedIds
                       [("s1", Done); ("s2", Done); ("s1", Done)])
    as [plan' | message |] eqn:Hrun;
    [| exfalso; vm_compute in Hrun; discriminate
     | exfalso; vm_compute in Hrun; discriminate].
  exists plan'. split; [reflexivity |].
  refine (proj2 (@a_repeated_id_blocks_its_dependents
                   Sample.repeatedIds "s1"
                   [Sample.step "s1" "p1" EditCode 1 [];
                    Sample.step "s2" "p1" RunTests 2 ["s1"]]
                   (Sample.step "s1" "p2" EditCode 1 ["s2"])
                   [Sample.step "s2" "p2" RunTests 2 ["s1"]]
                   eq_refl eq_refl _ _ _ _ plan' Hrun)).
  - cbn. now left.
  - cbn. intros [H | []]. discriminate.
  - cbn. discriminate.
Defined.

(** ** Plans built by [buildTaskPlan], executed *)









(** ** [chunkLargeSymbol] without a positive limit *)

(** X13. With a line limit of zero or less, [chunkLargeSymbol] does not
    return on a symbol of two or more lines: its inner [while] loop never
    advances, whatever the number of iterations it is given. *)
Theorem chunkLargeSymbol_needs_a_positive_limit :
  forall fuel ids filePath symbolName symbolKind startLine endLine code
         options limit,
    ChunkingOptions.maxLinesPerChunk options = Some limit ->
    (limit <= 0)%Z ->
    (startLine < endLine)%Z ->
    (Z.of_nat (length (splitLines code)) <= endLine - startLine + 1)%Z ->
    chunkLargeSymbol fuel ids filePath symbolName symbolKind startLine endLine
                     code (Some options) = OutOfFuel.
Proof.
  intros fuel ids filePath symbolName symbolKind startLine endLine code
         options limit Hlimit Hle Hlt Hlines.
  apply chunkLargeSymbol_loops; [| exact Hlt | exact Hlines].
  cbn [largeSymbolOptions fst]. rewrite Hlimit. exact Hle.
Qed.

Lemma chunkLargeSymbol_needs_a_positive_limit_witness :
  chunkLargeSymbol 1000 (Sample.clock 0) "test.ts" "work" "function" 1 20
                   (Sample.linesWithComment 20 10)
                   (Some (ChunkingOptions.mk None (Some 0%Z) None None None))
  = OutOfFuel.
Proof.
  apply (@chunkLargeSymbol_needs_a_positive_limit
           1000 (Sample.clock 0) "test.ts" "work" "function" 1%Z 20%Z
           (Sample.linesWithComment 20 10)
           (ChunkingOptions.mk None (Some 0%Z) None None None) 0%Z).
  - reflexivity.
  - lia.
  - lia.
  - apply Z.leb_le. vm_compute. reflexivity.
Defined.

(** ** The boundary detectors *)












(** ** [mergeSteps] on two or more steps *)

Lemma set_add_NoDup (s : StringSet) (x : string) :
  NoDup s -> NoDup (set_add s x).
Proof.
  intros Hnd. unfold set_add. destruct (set_has s x) eqn:E; [exact Hnd |].
  apply set_has_false in E. apply NoDup_app_remove_l with (l := []).
  cbn [List.app]. clear -Hnd E. induction s as [| y s IH]; cbn [List.app].
  - constructor; [intros [] | constructor].
  - inversion Hnd as [| ? ? Hy Hs]; subst. constructor.
    + rewrite in_app_iff. intros [H | [H | []]]; [contradiction |].
      subst. apply E. now left.
    + apply IH; [exact Hs |]. intros H. apply E. now right.
Qed.

Lemma set_of_list_NoDup (xs : list string) : NoDup (set_of_list xs).
Proof.
  unfold set_of_list.
  assert (H : forall acc, NoDup acc -> NoDup (fold_left set_add xs acc)).
  { induction xs as [| x xs IH]; intros acc Hacc; cbn [fold_left];
      [exact Hacc |]. apply IH. now apply set_add_NoDup. }
  apply H. constructor.
Qed.

Lemma fold_min_least (zs : list Z) (z : Z) :
  (fold_left Z.min zs z <= z)%Z
  /\ (forall y, In y zs -> (fold_left Z.min zs z <= y)%Z)
  /\ (fold_left Z.min zs z = z \/ In (fold_left Z.min zs z) zs).
Proof.
  revert z. induction zs as [| y zs IH]; intros z; cbn [fold_left].
  - split; [lia |]. split; [intros y [] | now left].
  - destruct (IH (Z.min z y)) as [H1 [H2 H3]]. split; [lia |]. split.
    + intros w [<- | Hw]; [lia | now apply H2].
    + destruct H3 as [H3 | H3]; [| right; now right].
      rewrite H3. destruct (Z.min_spec z y) as [[_ ->] | [_ ->]];
        [now left | right; now left].
Qed.

(** X16. Merging two or more steps keeps the id, phase, level, kind, scope
    and status of the first one.  The order of the merged step is the least
    order of the steps.  Its dependencies are the dependencies of the steps,
    each listed once, and so are its suggested tools; the ids of the merged
    steps themselves are not removed from the dependencies. *)
Theorem mergeSteps_unites_the_steps :
  forall base second rest,
    let steps := base :: second :: rest in
    exists merged,
      mergeSteps steps = Ok merged
      /\ PlanStep.id merged = PlanStep.id base
      /\ PlanStep.phaseId merged = PlanStep.phaseId base
      /\ PlanStep.level merged = PlanStep.level base
      /\ PlanStep.kind merged = PlanStep.kind base
      /\ PlanStep.scopeId merged = PlanStep.scopeId base
      /\ PlanStep.status merged = PlanStep.status base
      /\ PlanStep.title merged
         = (PlanStep.title base ++ " (merged " ++ showNat (length steps)
            ++ " steps)")%string
      /\ (forall s, In s steps -> (PlanStep.order merged <= PlanStep.order s)%Z)
      /\ (exists s, In s steps /\ PlanStep.order merged = PlanStep.order s)
      /\ (forall d, In d (PlanStep.dependencies merged)
                    <-> exists s, In s steps /\ In d (PlanStep.dependencies s))
      /\ NoDup (PlanStep.dependencies merged)
      /\ (forall t, In t (PlanStep.suggestedTools merged)
                    <-> exists s, In s steps /\ In t (PlanStep.suggestedTools s))
      /\ NoDup (PlanStep.suggestedTools merged).
Proof.
  intros base second rest steps. eexists. split; [reflexivity |].
  cbn [PlanStep.id PlanStep.phaseId PlanStep.level PlanStep.kind
       PlanStep.scopeId PlanStep.status PlanStep.title PlanStep.order
       PlanStep.dependencies PlanStep.suggestedTools].
  do 7 (split; [reflexivity |]).
  destruct (fold_min_least (map PlanStep.order (second :: rest))
                           (PlanStep.order base)) as [Hbase [Hleast Hattained]].
  split; [| split; [| split; [| split; [| split]]]].
  - intros s [<- | Hs]; [exact Hbase |]. apply Hleast. now apply in_map.
  - destruct Hattained as [Heq | Hin].
    + exists base. split; [now left | exact Heq].
    + apply in_map_iff in Hin. destruct Hin as [s [Hs Hin]].
      exists s. split; [now right | now rewrite Hs].
  - intros d. rewrite set_of_list_In.
    apply (in_flat_map PlanStep.dependencies steps).
  - apply set_of_list_NoDup.
  - intros t. rewrite set_of_list_In.
    apply (in_flat_map PlanStep.suggestedTools steps).
  - apply set_of_list_NoDup.
Qed.

Lemma mergeSteps_unites_the_steps_witness :
  exists merged,
    mergeSteps (TaskPlan.steps Sample.editTestEdit) = Ok merged
    /\ PlanStep.id merged = "a".
Proof.
  destruct (mergeSteps_unites_the_steps
              (Sample.step "a" "p1" EditCode 0 [])
              (Sample.step "b" "p1" RunTests 1 ["a"])
              [Sample.step "c" "p1" EditCode 2 ["b"]])
    as [merged [Hrun [Hid _]]].
  exists merged. split; [exact Hrun | exact Hid].
Defined.


(** ** The planner's levels and the validator's policy *)

Lemma getStepLevel_expected kind phaseLevel :
  getStepLevel kind phaseLevel = getExpectedLevelForStepKind kind phaseLevel.
Proof. destruct kind; reflexivity. Qed.

(** X17. The level that the planner's [getStepLevel] gives to a step is the
    level that the validator's [getExpectedLevelForStepKind] expects, for
    every kind of step and level of phase; so [validatePlanLevels] changes
    nothing in a plan whose steps carry the level [getStepLevel] gives them
    for their phase. *)
Theorem getStepLevel_agrees_with_the_validator :
  (forall kind phaseLevel,
      getStepLevel kind phaseLevel
      = getExpectedLevelForStepKind kind phaseLevel)
  /\ forall plan,
       (forall step phase,
           In step (TaskPlan.steps plan) -> In phase (TaskPlan.phases plan) ->
           PlanPhase.id phase = PlanStep.phaseId step ->
           PlanStep.level step
           = getStepLevel (PlanStep.kind step) (PlanPhase.level phase)) ->
       validatePlanLevels plan = Stage.mk plan [].
Proof.
  split; [apply getStepLevel_expected |].
  intros plan Hlevels. apply validatePlanLevels_unchanged.
  apply levelsFollowPolicy_intro. intros step phase Hstep Hphase Hid.
  rewrite <- getStepLevel_expected. now apply Hlevels.
Qed.

Lemma getStepLevel_agrees_with_the_validator_witness :
  validatePlanLevels Sample.twoPhases = Stage.mk Sample.twoPhases [].
Proof.
  apply (proj2 getStepLevel_agrees_with_the_validator).
  intros step phase Hstep Hphase Hid. cbn in Hstep, Hphase.
  destruct Hstep as [<- | [<- | [<- | []]]];
    destruct Hphase as [<- | [<- | []]]; reflexivity.
Defined.

(** ** [inferTaskKind] *)

Lemma dropPrefix_spec p : forall s rest,
  dropPrefix p s = Some rest <-> s = (p ++ rest)%string.
Proof.
  induction p as [| a p IH]; intros s rest; cbn [dropPrefix String.append].
  - split; [now intros [= ->] | now intros ->].
  - destruct s as [| b s]; [split; discriminate |].
    destruct (Ascii.eqb a b) eqn:E.
    + apply Ascii.eqb_eq in E. subst b. rewrite IH. split.
      * now intros ->.
      * now intros [= ->].
    + apply Ascii.eqb_neq in E. split; [discriminate |].
      intros [= H _]. congruence.
Qed.

Lemma startsWith_spec s p :
  startsWith s p = true <-> exists rest, s = (p ++ rest)%string.
Proof.
  unfold startsWith. destruct (dropPrefix p s) as [rest |] eqn:E.
  - apply dropPrefix_spec in E. split; [now exists rest | reflexivity].
  - split; [discriminate |]. intros [rest H].
    apply dropPrefix_spec in H. congruence.
Qed.

Lemma includes_spec s sub :
  includes s sub = true
  <-> exists pre post, s = (pre ++ sub ++ post)%string.
Proof.
  induction s as [| c s IH].
  - cbn [includes]. rewrite orb_false_r, startsWith_spec. split.
    + intros [rest H]. now exists EmptyString, rest.
    + intros [pre [post H]]. destruct pre; [now exists post | discriminate].
  - cbn [includes]. rewrite orb_true_iff, startsWith_spec, IH. split.
    + intros [[rest H] | [pre [post H]]].
      * now exists EmptyString, rest.
      * exists (String c pre), post. cbn. now rewrite H.
    + intros [pre [post H]]. destruct pre as [| a pre].
      * left. now exists post.
      * right. cbn in H. injection H as _ H. now exists pre, post.
Qed.

Lemma mentions_iff goal keywords :
  existsb (fun keyword => includes (toLowerCase goal) keyword) keywords = true
  <-> mentions goal keywords.
Proof.
  rewrite existsb_exists. unfold mentions. split.
  - intros [keyword [Hin H]]. apply includes_spec in H.
    destruct H as [pre [post H]]. now exists keyword, pre, post.
  - intros [keyword [pre [post [Hin H]]]]. exists keyword.
    split; [exact Hin |]. apply includes_spec. now exists pre, post.
Qed.

Lemma lowerChar_idempotent c : lowerChar (lowerChar c) = lowerChar c.
Proof. destruct c as [[] [] [] [] [] [] [] []]; vm_compute; reflexivity. Qed.

Lemma toLowerCase_idempotent s : toLowerCase (toLowerCase s) = toLowerCase s.
Proof.
  induction s as [| c s IH]; cbn [toLowerCase]; [reflexivity |].
  now rewrite lowerChar_idempotent, IH.
Qed.

Lemma toLowerCase_app a b :
  toLowerCase (a ++ b) = (toLowerCase a ++ toLowerCase b)%string.
Proof.
  induction a as [| c a IH]; cbn [toLowerCase String.append]; [reflexivity |].
  now rewrite IH.
Qed.

(** X18. [inferTaskKind] looks for its keywords anywhere in the goal, also
    inside a longer word, and without regard to case; the bugfix keywords
    come before the feature keywords, and these before the refactoring
    keywords.  So a goal that contains a bugfix keyword as a part of any word
    is a bugfix, whatever else it says. *)
Theorem inferTaskKind_reads_keywords_anywhere :
  forall goal,
    (inferTaskKind goal = Bugfix <-> mentions goal bugfixKeywords)
    /\ (inferTaskKind goal = Feature
        <-> ~ mentions goal bugfixKeywords /\ mentions goal featureKeywords)
    /\ (inferTaskKind goal = Refactor
        <-> ~ mentions goal bugfixKeywords /\ ~ mentions goal featureKeywords
            /\ mentions goal refactorKeywords)
    /\ (inferTaskKind goal = Other
        <-> ~ mentions goal bugfixKeywords /\ ~ mentions goal featureKeywords
            /\ ~ mentions goal refactorKeywords)
    /\ inferTaskKind (toLowerCase goal) = inferTaskKind goal
    /\ (forall keyword pre post,
           In keyword bugfixKeywords ->
           goal = (pre ++ keyword ++ post)%string ->
           inferTaskKind goal = Bugfix).
Proof.
  intros goal.
  assert (Hcases :
    (inferTaskKind goal = Bugfix <-> mentions goal bugfixKeywords)
    /\ (inferTaskKind goal = Feature
        <-> ~ mentions goal bugfixKeywords /\ mentions goal featureKeywords)
    /\ (inferTaskKind goal = Refactor
        <-> ~ mentions goal bugfixKeywords /\ ~ mentions goal featureKeywords
            /\ mentions goal refactorKeywords)
    /\ (inferTaskKind goal = Other
        <-> ~ mentions goal bugfixKeywords /\ ~ mentions goal featureKeywords
            /\ ~ mentions goal refactorKeywords)).
  { unfold inferTaskKind. cbv zeta.
    rewrite <- !mentions_iff.
    destruct (existsb _ bugfixKeywords);
      destruct (existsb _ featureKeywords);
      destruct (existsb _ refactorKeywords);
      repeat split; intros; try discriminate; try congruence;
      try (intuition congruence). }
  destruct Hcases as [Hbug [Hfeat [Href Hother]]].
  split; [exact Hbug |]. split; [exact Hfeat |]. split; [exact Href |].
  split; [exact Hother |]. split.
  - unfold inferTaskKind. cbv zeta. now rewrite toLowerCase_idempotent.
  - intros keyword pre post Hin Hgoal. apply Hbug.
    exists keyword, (toLowerCase pre), (toLowerCase post).
    split; [exact Hin |]. rewrite Hgoal, !toLowerCase_app. f_equal. f_equal.
    cbn in Hin.
    repeat (destruct Hin as [<- | Hin]; [reflexivity |]). destruct Hin.
Qed.

Lemma inferTaskKind_reads_keywords_anywhere_witness :
  inferTaskKind "Add a prefix option" = Bugfix.
Proof.
  apply (proj2 (proj2 (proj2 (proj2 (proj2
           (inferTaskKind_reads_keywords_anywhere "Add a prefix option"))))))
    with (keyword := "fix") (pre := "Add a pre") (post := " option").
  - cbn. tauto.
  - reflexivity.
Defined.

(** ** Resolving the scope of a step *)

Lemma validatePlan_scopesResolved now plan options r :
  firstStepScopeResolved plan = true ->
  validatePlan now plan options = Ok r ->
  scopesResolved (ValidatePlanResult.plan r) = true.
Proof.
  intros Hfirst Hok.
  destruct (validatePlan_stages now plan options)
    as [chunked [r' [Hchunk [Hrun [Hplan _]]]]].
  cbn zeta in *. rewrite Hrun in Hok. injection Hok as ->.
  set (leveled := Stage.plan (validatePlanLevels plan)) in *.
  set (validated := Stage.plan (validatePlanScopes now leveled)) in *.
  set (limited := applyGlobalLimits (Stage.plan chunked) (targetMaxPhases options)
                                    (targetMaxSteps options)) in *.
  assert (Hscopes : TaskPlan.scopes (ValidatePlanResult.plan r)
                    = TaskPlan.scopes validated).
  { rewrite Hplan, preserveFirstStep_scopes. unfold limited.
    rewrite applyGlobalLimits_scopes.
    now destruct (applyDynamicChunking_phases _ _ Hchunk). }
  unfold scopesResolved. rewrite Hscopes. apply forallb_forall. intros t Ht.
  rewrite Hplan in Ht. apply preserveFirstStep_cases in Ht.
  destruct Ht as [Ht | [_ [first [rest [Hbefore [_ [Hsc _]]]]]]].
  - apply applyGlobalLimits_provenance in Ht.
    destruct Ht as [c [Hc [_ [Hsc _]]]].
    destruct (applyDynamicChunking_provenance _ _ Hchunk) as [Hdesc _].
    destruct (Hdesc c Hc) as [v [Hv [_ Hsc']]].
    rewrite (scopeResolved_same _ t v) by congruence.
    pose proof (validatePlanScopes_resolved now leveled) as Hall.
    unfold scopesResolved in Hall. rewrite forallb_forall in Hall.
    now apply Hall.
  - rewrite (scopeResolved_same _ t first Hsc).
    unfold firstStepScopeResolved in Hfirst. rewrite Hbefore in Hfirst.
    apply (scopeResolved_incl (TaskPlan.scopes plan)); [| assumption].
    intros s Hs. now apply ensureGlobalScope_incl.
Qed.

Lemma getStepScope_found step plan :
  scopeResolved (TaskPlan.scopes plan) step = true ->
  (getStepScope step plan = None <-> PlanStep.scopeId step = None)
  /\ forall sc, PlanStep.scopeId step = Some sc ->
       exists pre scope post,
         getStepScope step plan = Some scope
         /\ TaskPlan.scopes plan = pre ++ scope :: post
         /\ PlanScope.id scope = sc
         /\ ~ In sc (map PlanScope.id pre).
Proof.
  unfold scopeResolved, getStepScope.
  destruct (PlanStep.scopeId step) as [sc |];
    [| intros _; split; [split; reflexivity | discriminate]].
  intros Hres.
  assert (Hfind : exists pre scope post,
             find (fun s => String.eqb (PlanScope.id s) sc) (TaskPlan.scopes plan)
             = Some scope
             /\ TaskPlan.scopes plan = pre ++ scope :: post
             /\ PlanScope.id scope = sc
             /\ ~ In sc (map PlanScope.id pre)).
  { induction (TaskPlan.scopes plan) as [| s scopes IH]; [discriminate |].
    cbn [existsb find] in *. destruct (String.eqb (PlanScope.id s) sc) eqn:E.
    - apply String.eqb_eq in E. exists [], s, scopes. now repeat split.
    - apply String.eqb_neq in E. destruct (IH Hres) as [pre [scope [post H]]].
      destruct H as [Hf [Hs [Hid Hn]]].
      exists (s :: pre), scope, post.
      split; [exact Hf |]. split; [now rewrite Hs |]. split; [exact Hid |].
      cbn [map In]. intros [H | H]; [contradiction | now apply Hn]. }
  destruct Hfind as [pre [scope [post [Hf H]]]]. split.
  - rewrite Hf. split; discriminate.
  - intros sc' [= <-]. now exists pre, scope, post.
Qed.

(** X19. In a plan that [validatePlanScopes] returns, and in a plan that
    [validatePlan] returns when the scope of the first step of its input
    was null or known, [getStepScope] returns null only for a step without a
    scope: for a step with a scope id it returns the first scope of the plan
    that has this id. *)
Theorem getStepScope_finds_the_scope_after_validation :
  (forall now plan step,
      let validated := Stage.plan (validatePlanScopes now plan) in
      In step (TaskPlan.steps validated) ->
      (getStepScope step validated = None <-> PlanStep.scopeId step = None)
      /\ forall sc, PlanStep.scopeId step = Some sc ->
           exists pre scope post,
             getStepScope step validated = Some scope
             /\ TaskPlan.scopes validated = pre ++ scope :: post
             /\ PlanScope.id scope = sc
             /\ ~ In sc (map PlanScope.id pre))
  /\ (forall now plan options r step,
         firstStepScopeResolved plan = true ->
         validatePlan now plan options = Ok r ->
         In step (TaskPlan.steps (ValidatePlanResult.plan r)) ->
         (getStepScope step (ValidatePlanResult.plan r) = None
          <-> PlanStep.scopeId step = None)
         /\ forall sc, PlanStep.scopeId step = Some sc ->
              exists pre scope post,
                getStepScope step (ValidatePlanResult.plan r) = Some scope
                /\ TaskPlan.scopes (ValidatePlanResult.plan r)
                   = pre ++ scope :: post
                /\ PlanScope.id scope = sc
                /\ ~ In sc (map PlanScope.id pre)).
Proof.
  split.
  - intros now plan step validated Hstep. apply getStepScope_found.
    pose proof (validatePlanScopes_resolved now plan) as Hall.
    unfold scopesResolved in Hall. rewrite forallb_forall in Hall.
    now apply Hall.
  - intros now plan options r step Hfirst Hrun Hstep.
    apply getStepScope_found.
    pose proof (validatePlan_scopesResolved now plan options Hfirst Hrun)
      as Hall.
    unfold scopesResolved in Hall. rewrite forallb_forall in Hall.
    now apply Hall.
Qed.

Lemma getStepScope_finds_the_scope_after_validation_witness :
  (In (PlanStep.with_scopeId (Sample.scoped "b" "gone" 1) (Some "ws"))
      (TaskPlan.steps (Stage.plan (validatePlanScopes 0 Sample.strayScopeLater)))
   /\ exists pre scope post,
        getStepScope
          (PlanStep.with_scopeId (Sample.scoped "b" "gone" 1) (Some "ws"))
          (Stage.plan (validatePlanScopes 0 Sample.strayScopeLater))
        = Some scope
        /\ TaskPlan.scopes
             (Stage.plan (validatePlanScopes 0 Sample.strayScopeLater))
           = pre ++ scope :: post
        /\ PlanScope.id scope = "ws"
        /\ ~ In "ws" (map PlanScope.id pre))
  /\ exists r step,
       firstStepScopeResolved Sample.strayScopeLater = true
       /\ validatePlan 0 Sample.strayScopeLater (Sample.phasesAtMost 1) = Ok r
       /\ In step (TaskPlan.steps (ValidatePlanResult.plan r))
       /\ PlanStep.scopeId step = Some "ws"
       /\ exists pre scope post,
            getStepScope step (ValidatePlanResult.plan r) = Some scope
            /\ TaskPlan.scopes (ValidatePlanResult.plan r) = pre ++ scope :: post
            /\ PlanScope.id scope = "ws"
            /\ ~ In "ws" (map PlanScope.id pre).
Proof.
  split.
  - assert (Hin : In (PlanStep.with_scopeId (Sample.scoped "b" "gone" 1) (Some "ws"))
                     (TaskPlan.steps
                        (Stage.plan (validatePlanScopes 0 Sample.strayScopeLater))))
      by (right; left; reflexivity).
    split; [exact Hin |].
    exact (proj2 (proj1 getStepScope_finds_the_scope_after_validation
                        0%Z Sample.strayScopeLater _ Hin) "ws" eq_refl).
  - destruct (validatePlan 0 Sample.strayScopeLater (Sample.phasesAtMost 1))
      as [r | message |] eqn:Hrun;
      [| vm_compute in Hrun; discriminate | vm_compute in Hrun; discriminate].
    pose proof Hrun as Hvalue. vm_compute in Hvalue. injection Hvalue as Hvalue.
    exists r.
    exists (PlanStep.with_phaseId (Sample.scoped "a" "ws" 0) "p1").
    assert (Hin : In (PlanStep.with_phaseId (Sample.scoped "a" "ws" 0) "p1")
                     (TaskPlan.steps (ValidatePlanResult.plan r)))
      by (rewrite <- Hvalue; left; reflexivity).
    split; [reflexivity |]. split; [reflexivity |]. split; [exact Hin |].
    split; [reflexivity |].
    exact (proj2 (proj2 getStepScope_finds_the_scope_after_validation
                        0%Z Sample.strayScopeLater (Sample.phasesAtMost 1) r _
                        eq_refl Hrun Hin) "ws" eq_refl).
Defined.

(** ** [applyDynamicChunking] when no group is over the limit *)

Lemma keepGroup_fresh_all groupSteps : forall st,
  NoDup (MergeState.processedStepIds st ++ stepIds groupSteps) ->
  keepGroup st groupSteps
  = MergeState.mk (MergeState.mergedSteps st ++ groupSteps)
                  (MergeState.processedStepIds st ++ stepIds groupSteps)
                  (MergeState.stepsToRemove st) (MergeState.changes st).
Proof.
  unfold keepGroup.
  induction groupSteps as [| x rest IH]; intros st Hnd; cbn [fold_left stepIds map].
  - rewrite !app_nil_r. now destruct st.
  - assert (Hfresh : set_has (MergeState.processedStepIds st) (PlanStep.id x)
                     = false).
    { apply set_has_false. intros Hin.
      apply (NoDup_app_disjoint _ _ Hnd _ Hin). now left. }
    rewrite Hfresh. cbn [negb]. rewrite IH.
    + cbn [MergeState.mergedSteps MergeState.processedStepIds
           MergeState.stepsToRemove MergeState.changes].
      unfold set_add. rewrite Hfresh, <- !app_assoc. reflexivity.
    + cbn [MergeState.processedStepIds]. unfold set_add. rewrite Hfresh.
      rewrite <- app_assoc. exact Hnd.
Qed.

Lemma keepGroups_all limit groups : forall st,
  Forall (fun g => fits (length (snd g)) limit = true) groups ->
  NoDup (MergeState.processedStepIds st
         ++ flat_map (fun g => stepIds (snd g)) groups) ->
  fold_left (processGroup limit) groups (Ok st)
  = Ok (MergeState.mk
          (MergeState.mergedSteps st ++ flat_map snd groups)
          (MergeState.processedStepIds st
           ++ flat_map (fun g => stepIds (snd g)) groups)
          (MergeState.stepsToRemove st) (MergeState.changes st)).
Proof.
  induction groups as [| g groups IH]; intros st Hall Hnd;
    cbn [fold_left flat_map].
  - rewrite !app_nil_r. now destruct st.
  - inversion Hall as [| ? ? Hg Hrest]; subst.
    unfold processGroup at 2. cbn [bind].
    rewrite Hg.
    cbn [flat_map] in Hnd. rewrite app_assoc in Hnd.
    rewrite keepGroup_fresh_all
      by (exact (NoDup_app_remove_r _ _ Hnd)).
    rewrite IH; [| exact Hrest | exact Hnd].
    cbn [MergeState.mergedSteps MergeState.processedStepIds
         MergeState.stepsToRemove MergeState.changes].
    now rewrite <- !app_assoc.
Qed.

Lemma redirect_none limit mergedSteps groups : forall m,
  Forall (fun g => exceeds (length (snd g)) limit = false) groups ->
  fold_left (redirectGroup limit mergedSteps) groups m = m.
Proof.
  induction groups as [| g groups IH]; intros m Hall; [reflexivity |].
  inversion Hall as [| ? ? Hg Hrest]; subst. cbn [fold_left].
  unfold redirectGroup at 2. destruct (snd g) as [| first rest] eqn:Hs.
  - now apply IH.
  - rewrite Hg. now apply IH.
Qed.

Lemma rewriteDependencies_nil step :
  rewriteDependencies [] step
  = PlanStep.with_dependencies step
      (filter (fun id => negb (String.eqb id (PlanStep.id step)))
              (set_of_list (PlanStep.dependencies step))).
Proof.
  unfold rewriteDependencies. cbn [map_get strOr]. now rewrite map_id.
Qed.

(** X20. With a limit that no group of execution-level steps exceeds,
    [applyDynamicChunking] merges nothing and records no change, but it does
    not return the steps as they were: the execution-level steps come first,
    group by group, followed by the other steps in their order, and in every
    step the repeated dependencies and the dependencies on the step itself
    are dropped. *)
Theorem applyDynamicChunking_lists_execution_steps_first :
  forall plan limit n,
    truthy limit = Some n ->
    NoDup (stepIds (TaskPlan.steps plan)) ->
    (forall g, In g (buildGroups (TaskPlan.steps plan)) ->
       exceeds (length (snd g)) n = false) ->
    exists stage,
      applyDynamicChunking plan limit = Ok stage
      /\ Stage.changes stage = []
      /\ TaskPlan.phases (Stage.plan stage) = TaskPlan.phases plan
      /\ TaskPlan.scopes (Stage.plan stage) = TaskPlan.scopes plan
      /\ TaskPlan.steps (Stage.plan stage)
         = map (fun step =>
                  PlanStep.with_dependencies step
                    (filter (fun id => negb (String.eqb id (PlanStep.id step)))
                            (set_of_list (PlanStep.dependencies step))))
               (flat_map snd (buildGroups (TaskPlan.steps plan))
                ++ filter (fun step =>
                             negb (PlanLevel_eqb (PlanStep.level step) Execution))
                          (TaskPlan.steps plan))
      /\ Permutation (stepIds (TaskPlan.steps (Stage.plan stage)))
                     (stepIds (TaskPlan.steps plan)).
Proof.
  intros plan limit n Hlimit Hnd Hgroups.
  set (steps := TaskPlan.steps plan) in *.
  set (isExec := fun s => PlanLevel_eqb (PlanStep.level s) Execution).
  assert (Hperm : Permutation (flat_map snd (buildGroups steps))
                              (filter isExec steps)).
  { rewrite buildGroups_groupBy. apply groupBy_perm. }
  assert (Hids : flat_map (fun g => stepIds (snd g)) (buildGroups steps)
                 = stepIds (flat_map snd (buildGroups steps))).
  { generalize (buildGroups steps) as gs. clear. unfold stepIds.
    induction gs as [| g gs IH]; cbn [flat_map map]; [reflexivity |].
    now rewrite map_app, IH. }
  assert (Hnone : Forall (fun g => exceeds (length (snd g)) n = false)
                         (buildGroups steps))
    by (now apply Forall_forall).
  assert (Hall : Forall (fun g => fits (length (snd g)) n = true)
                        (buildGroups steps)).
  { apply Forall_forall. intros g Hg.
    rewrite (@fits_exceeds _ _ (proj2 (truthy_Some _ Hlimit))).
    now rewrite (Hgroups g Hg). }
  assert (Hfold :
    fold_left (processGroup n) (buildGroups steps) (Ok MergeState.empty)
    = Ok (MergeState.mk (flat_map snd (buildGroups steps))
                        (stepIds (flat_map snd (buildGroups steps))) [] [])).
  { rewrite keepGroups_all; [| exact Hall |].
    - cbn [MergeState.empty MergeState.mergedSteps
           MergeState.processedStepIds MergeState.stepsToRemove
           MergeState.changes List.app]. now rewrite Hids.
    - cbn [MergeState.empty MergeState.processedStepIds List.app].
      rewrite Hids.
      apply (Permutation_NoDup
               (Permutation_sym (Permutation_map PlanStep.id Hperm))).
      now apply NoDup_map_filter. }
  assert (Hrest :
    filter (fun step =>
              negb (set_has (stepIds (flat_map snd (buildGroups steps)))
                            (PlanStep.id step))) steps
    = filter (fun step => negb (isExec step)) steps).
  { apply filter_ext_in. intros s Hs. f_equal.
    destruct (isExec s) eqn:E.
    - apply set_has_In. unfold stepIds. apply in_map.
      apply (Permutation_in _ (Permutation_sym Hperm)).
      apply filter_In. now split.
    - apply set_has_false. intros Hin. unfold stepIds in Hin.
      apply in_map_iff in Hin. destruct Hin as [e [Hid He]].
      apply (Permutation_in _ Hperm) in He. apply filter_In in He.
      destruct He as [He Hexec].
      assert (e = s) by (apply (NoDup_map_injective PlanStep.id steps); auto).
      subst e. congruence. }
  eexists. unfold applyDynamicChunking. rewrite Hlimit. fold steps.
  rewrite Hfold. cbn [bind MergeState.mergedSteps MergeState.processedStepIds
                      MergeState.stepsToRemove MergeState.changes].
  rewrite Hrest, redirect_none by exact Hnone.
  rewrite filter_all by (intros x _; reflexivity).
  split; [reflexivity |].
  cbn [Stage.changes Stage.plan TaskPlan.with_steps TaskPlan.phases
       TaskPlan.scopes TaskPlan.steps].
  split; [reflexivity |]. split; [reflexivity |]. split; [reflexivity |].
  split.
  - apply map_ext. intros step. apply rewriteDependencies_nil.
  - unfold stepIds. rewrite map_map.
    rewrite (map_ext _ PlanStep.id) by (intros step; apply rewriteDependencies_id).
    rewrite map_app.
    eapply perm_trans;
      [apply Permutation_app_tail, (Permutation_map PlanStep.id Hperm) |].
    rewrite <- map_app. apply Permutation_map.
    clear. induction steps as [| s rest IH]; cbn [filter]; [constructor |].
    destruct (isExec s); cbn [negb List.app].
    + now constructor.
    + eapply perm_trans; [apply Permutation_sym, Permutation_middle |].
      now constructor.
Qed.

Lemma applyDynamicChunking_lists_execution_steps_first_witness :
  exists stage,
    applyDynamicChunking Sample.scanThenEdit (Some (Int 5)) = Ok stage
    /\ Stage.changes stage = []
    /\ stepIds (TaskPlan.steps Sample.scanThenEdit) = ["a"; "b"]
    /\ stepIds (TaskPlan.steps (Stage.plan stage)) = ["b"; "a"].
Proof.
  destruct (@applyDynamicChunking_lists_execution_steps_first
              Sample.scanThenEdit (Some (Int 5)) (Int 5) eq_refl)
    as [stage [Hrun [Hchanges [_ [_ [Hsteps _]]]]]].
  - cbn. repeat constructor; cbn; intuition discriminate.
  - intros g Hg. vm_compute in Hg. destruct Hg as [<- | []]. reflexivity.
  - exists stage. split; [exact Hrun |]. split; [exact Hchanges |].
    split; [reflexivity |]. rewrite Hsteps. reflexivity.
Defined.

(** ** Levels in the plan that [validatePlan] returns *)








Lemma mergeSteps_role first rest merged :
  mergeSteps (first :: rest) = Ok merged -> sameRole merged first.
Proof.
  destruct rest as [| second rest]; cbn; intros [= <-]; now repeat split.
Qed.






Lemma preserveFirstStep_quiet planBefore currentPlan :
  (forall w, In w (snd (preserveFirstStep planBefore currentPlan)) ->
     PlanWarning.type w <> "steps_preserved") ->
  fst (preserveFirstStep planBefore currentPlan) = currentPlan.
Proof.
  unfold preserveFirstStep.
  destruct (TaskPlan.steps currentPlan) as [| c cs]; [| reflexivity].
  destruct (TaskPlan.steps planBefore) as [| firstStep rest]; [reflexivity |].
  destruct (find _ _) as [phase |].
  - cbn [snd]. intros H. exfalso. apply (H _ (or_introl eq_refl)). reflexivity.
  - destruct (TaskPlan.phases currentPlan) as [| phase0 phases];
      [reflexivity |].
    cbn [snd]. intros H. exfalso. apply (H _ (or_introl eq_refl)). reflexivity.
Qed.




(** ** What [applyDynamicChunking] leaves of the groups *)

Lemma executionStepsOf_app key a b :
  executionStepsOf key (a ++ b)
  = executionStepsOf key a ++ executionStepsOf key b.
Proof. apply filter_app. Qed.

Lemma executionStepsOf_length key steps :
  length (executionStepsOf key steps) <= length steps.
Proof. apply filter_length_le. Qed.

Lemma executionStepsOf_other key kg g :
  kg <> key -> (forall s, In s g -> groupKey s = kg) ->
  executionStepsOf key g = [].
Proof.
  intros Hne Hkey. apply filter_none. intros s Hs.
  apply andb_false_iff. right. apply String.eqb_neq.
  rewrite (Hkey s Hs). exact Hne.
Qed.

Lemma keepGroup_count key groupSteps : forall st,
  length (executionStepsOf key (MergeState.mergedSteps (keepGroup st groupSteps)))
  <= length (executionStepsOf key (MergeState.mergedSteps st))
     + length (executionStepsOf key groupSteps).
Proof.
  unfold keepGroup. induction groupSteps as [| x rest IH]; intros st;
    cbn [fold_left]; [lia |].
  change (x :: rest) with ([x] ++ rest).
  rewrite (executionStepsOf_app key [x] rest), length_app.
  destruct (negb (set_has (MergeState.processedStepIds st) (PlanStep.id x))).
  - eapply Nat.le_trans; [apply IH |].
    cbn [MergeState.mergedSteps].
    rewrite executionStepsOf_app, length_app. lia.
  - eapply Nat.le_trans; [apply IH |]. lia.
Qed.

Lemma mergeSteps_groupKey first rest merged :
  mergeSteps (first :: rest) = Ok merged ->
  groupKey merged = groupKey first
  /\ PlanStep.level merged = PlanStep.level first.
Proof.
  intros H. destruct (mergeSteps_identity _ _ H) as [_ [Hsc [Hp _]]].
  destruct (mergeSteps_role _ _ H) as [_ [Hl Hk]].
  unfold groupKey. now rewrite Hsc, Hp, Hk.
Qed.

(** One group adds to a key either a number of steps within the limit or
    one step. *)
Lemma processGroup_count limit key st g st1 :
  (forall s, In s (snd g) -> groupKey s = fst g) ->
  processGroup limit (Ok st) g = Ok st1 ->
  (fst g <> key ->
   length (executionStepsOf key (MergeState.mergedSteps st1))
   <= length (executionStepsOf key (MergeState.mergedSteps st)))
  /\ exists c,
       length (executionStepsOf key (MergeState.mergedSteps st1))
       <= length (executionStepsOf key (MergeState.mergedSteps st)) + c
       /\ (fits c limit = true \/ c <= 1).
Proof.
  intros Hkey Hstep. apply processGroup_spec in Hstep.
  destruct Hstep as [[Hlen ->] | [Hlen Hmerge]].
  - pose proof (keepGroup_count key (snd g) st) as Hcount.
    pose proof (executionStepsOf_length key (snd g)) as Hle. split.
    + intros Hne.
      rewrite (@executionStepsOf_other key (fst g) (snd g) Hne Hkey) in Hcount.
      cbn [length] in Hcount. lia.
    + exists (length (snd g)). split; [lia | now left].
  - apply mergeGroup_spec in Hmerge.
    destruct Hmerge as [merged [Hm [-> _]]].
    rewrite executionStepsOf_app, length_app.
    pose proof (executionStepsOf_length key [merged]) as Hle.
    cbn [length] in Hle. split; [| exists 1; split; [lia | now right]].
    intros Hne. destruct (snd g) as [| first rest] eqn:Hg; [discriminate |].
    destruct (mergeSteps_groupKey _ _ Hm) as [Hk _].
    rewrite (@executionStepsOf_other key (fst g) [merged] Hne); [cbn; lia |].
    intros s [<- | []]. rewrite Hk. apply Hkey. now left.
Qed.

Lemma processGroups_count limit key groups : forall st final,
  NoDup (map fst groups) ->
  (forall g s, In g groups -> In s (snd g) -> groupKey s = fst g) ->
  fold_left (processGroup limit) groups (Ok st) = Ok final ->
  (~ In key (map fst groups) ->
   length (executionStepsOf key (MergeState.mergedSteps final))
   <= length (executionStepsOf key (MergeState.mergedSteps st)))
  /\ exists c,
       length (executionStepsOf key (MergeState.mergedSteps final))
       <= length (executionStepsOf key (MergeState.mergedSteps st)) + c
       /\ (fits c limit = true \/ c <= 1).
Proof.
  induction groups as [| g groups IH]; intros st final Hnd Hkeys Hfold.
  - cbn in Hfold. injection Hfold as <-.
    split; [intros _; lia | exists 0; split; [lia | right; lia]].
  - apply processGroups_step in Hfold. destruct Hfold as [st1 [Hstep Hfold]].
    cbn [map] in Hnd. inversion Hnd as [| ? ? Hfresh Hrest]; subst.
    destruct (@processGroup_count limit key st g st1
                (fun s Hs => Hkeys g s (or_introl eq_refl) Hs) Hstep)
      as [Hother [c [Hany Hc]]].
    destruct (IH st1 final Hrest
                 (fun g' s Hg' Hs => Hkeys g' s (or_intror Hg') Hs) Hfold)
      as [Hlater [c' [Hlater' Hc']]].
    split.
    + intros Hn. cbn [map In] in Hn.
      assert (fst g <> key) by tauto.
      assert (~ In key (map fst groups)) by tauto.
      specialize (Hother ltac:(assumption)).
      specialize (Hlater ltac:(assumption)). lia.
    + destruct (string_dec (fst g) key) as [Heq | Hne].
      * subst key. specialize (Hlater Hfresh). exists c. split; [lia | exact Hc].
      * specialize (Hother Hne). exists c'. split; [lia | exact Hc'].
Qed.

Lemma processGroups_processed limit groups : forall st final,
  fold_left (processGroup limit) groups (Ok st) = Ok final ->
  forall g x, In g groups -> In x (stepIds (snd g)) ->
    In x (MergeState.processedStepIds final).
Proof.
  induction groups as [| g groups IH]; intros st final Hfold g' x Hg' Hx;
    [destruct Hg' |].
  apply processGroups_step in Hfold. destruct Hfold as [st1 [Hstep Hfold]].
  destruct Hg' as [<- | Hg']; [| now apply (IH st1 final Hfold g' x)].
  destruct (processGroups_mono _ _ _ Hfold) as [_ [_ Hmono]]. apply Hmono.
  apply processGroup_spec in Hstep. destruct Hstep as [[_ ->] | [_ Hmerge]].
  - destruct (keepGroup_spec (snd g) st) as [_ [_ [_ [_ K5]]]].
    cbn zeta in K5. apply K5. now right.
  - apply mergeGroup_spec in Hmerge.
    destruct Hmerge as [merged [_ [_ [_ [Hp _]]]]]. apply Hp. now right.
Qed.

(** With distinct ids, the merge loop pushes, group after group, the steps
    of the group or the step they are merged into. *)
Lemma processGroups_pushed limit groups : forall st final,
  fold_left (processGroup limit) groups (Ok st) = Ok final ->
  NoDup (flat_map (fun g => stepIds (snd g)) groups) ->
  (forall g x, In g groups -> In x (stepIds (snd g)) ->
               ~ In x (MergeState.processedStepIds st)) ->
  MergeState.mergedSteps final
  = MergeState.mergedSteps st
    ++ flat_map (fun g => chunkOf limit (snd g)) groups.
Proof.
  induction groups as [| g groups IH]; intros st final Hfold Hnd Hfresh.
  - cbn in Hfold. injection Hfold as <-. cbn. now rewrite app_nil_r.
  - apply processGroups_step in Hfold. destruct Hfold as [st1 [Hstep Hfold]].
    cbn [flat_map] in Hnd. apply NoDup_app_remove_l in Hnd as Hnd'.
    assert (Hnd0 : NoDup (stepIds (snd g)))
      by now apply NoDup_app_remove_r in Hnd.
    assert (Hdisj : forall x, In x (stepIds (snd g)) ->
                              forall g', In g' groups -> ~ In x (stepIds (snd g'))).
    { intros x Hx g' Hg' Hx'. apply (NoDup_app_disjoint _ _ Hnd x Hx).
      apply in_flat_map. now exists g'. }
    apply processGroup_spec in Hstep.
    assert (Hpushed : MergeState.mergedSteps st1
                      = MergeState.mergedSteps st ++ chunkOf limit (snd g)
                      /\ forall x, In x (MergeState.processedStepIds st1) ->
                           In x (MergeState.processedStepIds st)
                           \/ In x (stepIds (snd g))).
    { unfold chunkOf. destruct Hstep as [[Hlen ->] | [Hlen Hmerge]];
        rewrite Hlen.
      - split.
        + apply keepGroup_fresh; [exact Hnd0 |].
          intros x Hx. apply (Hfresh g); [now left | exact Hx].
        + intros x Hx. now apply (keepGroup_spec (snd g) st).
      - apply mergeGroup_spec in Hmerge.
        destruct Hmerge as [merged [Hms [M1 [_ [M3 _]]]]].
        rewrite Hms. split; [exact M1 |]. intros x Hx. now apply M3. }
    destruct Hpushed as [Hsteps Hprocessed].
    rewrite (IH st1 final Hfold Hnd'), Hsteps.
    + cbn [flat_map]. now rewrite <- app_assoc.
    + intros g' x Hg' Hx Hin. destruct (Hprocessed x Hin) as [Hc | Hc].
      * apply (Hfresh g' x); [now right | exact Hx | exact Hc].
      * now apply (Hdisj x Hc g' Hg').
Qed.

Section ChunkingLayout.
Variable steps : list PlanStep.t.
Variable limit : JsNumber.
Variable st : MergeState.t.

Let groups := buildGroups steps.
Let isExecution := fun s => PlanLevel_eqb (PlanStep.level s) Execution.
Let mergedSteps :=
MergeState.mergedSteps st
++ filter (fun step => negb (set_has (MergeState.processedStepIds st)
                         (PlanStep.id step))) steps.
Let mergedStepIds := fold_left (redirectGroup limit mergedSteps) groups [].

Hypothesis Htruthy : isTruthy limit = true.
Hypothesis Hfold :
fold_left (processGroup limit) groups (Ok MergeState.empty) = Ok st.
Hypothesis Hdistinct : NoDup (stepIds steps).

Lemma group_ids_distinct g : In g groups -> NoDup (stepIds (snd g)).
Proof using Hdistinct.
intros Hg. pose proof (@groups_distinct steps Hdistinct) as Hnd.
fold groups in Hnd. clear - Hg Hnd.
induction groups as [| g0 gs IH]; [destruct Hg |].
cbn [flat_map] in Hnd. destruct Hg as [-> | Hg].
- now apply NoDup_app_remove_r in Hnd.
- apply IH; [exact Hg | now apply NoDup_app_remove_l in Hnd].
Qed.

Lemma execution_step_grouped s :
In s steps -> isExecution s = true ->
exists g, In g groups /\ In s (snd g).
Proof using Type.
intros Hs Hexec. unfold groups. rewrite buildGroups_groupBy.
assert (Hin : In s (filter (fun s => PlanLevel_eqb (PlanStep.level s) Execution)
                     steps))
by (apply filter_In; now split).
destruct (groupBy_complete groupKey _ s Hin) as [g [Hg Hmem]].
now exists (groupKey s, g).
Qed.

(** The steps the merge loop has not processed are those that are not
execution-level. *)
Lemma unprocessed_steps :
filter (fun step => negb (set_has (MergeState.processedStepIds st)
                       (PlanStep.id step))) steps
= filter (fun step => negb (isExecution step)) steps.
Proof using Hfold Hdistinct.
apply filter_ext_in. intros s Hs. f_equal.
destruct (isExecution s) eqn:E.
- apply set_has_In. destruct (execution_step_grouped s Hs E) as [g [Hg Hmem]].
apply (processGroups_processed _ _ _ Hfold g); [exact Hg |].
unfold stepIds. now apply in_map.
- apply set_has_false. intros Hin.
destruct (processGroups_sound _ _ _ Hfold) as [_ [_ Hp]].
destruct (Hp _ Hin) as [[] | [[k g] [Hg Hid]]]. cbn [snd] in Hid.
apply in_map_iff in Hid. destruct Hid as [e [Hid He]].
destruct (@group_member steps k g e Hg He) as [Hes _].
assert (Hexec : isExecution e = true).
{ unfold groups in Hg. rewrite buildGroups_groupBy in Hg.
destruct (groupBy_sound _ _ _ _ _ Hg He) as [Hf _].
apply filter_In in Hf. tauto. }
assert (e = s) by (apply (NoDup_map_injective PlanStep.id steps); auto).
subst e. congruence.
Qed.

(** What the merge loop pushed. *)
Lemma pushed_steps :
MergeState.mergedSteps st = flat_map (fun g => chunkOf limit (snd g)) groups.
Proof using Hfold Hdistinct.
rewrite (processGroups_pushed _ _ _ Hfold).
- reflexivity.
- exact (@groups_distinct steps Hdistinct).
- intros ? ? _ _ [].
Qed.

(** No step that the loop pushed or left is marked for removal. *)
Lemma none_removed u :
In u mergedSteps -> ~ In (PlanStep.id u) (MergeState.stepsToRemove st).
Proof using Hfold Hdistinct.
intros Hu Hrem.
destruct (processGroups_sound _ _ _ Hfold) as [Hm [Hr _]].
destruct (Hr _ Hrem) as [[] | [g [merged [Hg [Hlen [Hmerge [Hin Hneq]]]]]]].
apply in_map_iff in Hin. destruct Hin as [e [Hid He]].
unfold mergedSteps in Hu. apply in_app_iff in Hu. destruct Hu as [Hu | Hu].
- destruct (Hm u Hu) as [[] | [g' [Hg' [[Hfits Hmem] | [Hover Hmerge']]]]].
+ destruct (@same_id_same_group steps Hdistinct g g' e u Hg Hg' He Hmem Hid)
as [-> _]. congruence.
+ destruct (snd g') as [| first' rest'] eqn:Hsnd'; [discriminate |].
destruct (mergeSteps_identity _ _ Hmerge') as [Hid' _].
assert (Hfirst : In first' (snd g')) by (rewrite Hsnd'; now left).
destruct (@same_id_same_group steps Hdistinct g g' e first' Hg Hg' He Hfirst)
as [-> _]; [congruence |].
rewrite Hsnd' in Hmerge. congruence.
- apply filter_In in Hu. destruct Hu as [Hu Hfresh].
apply negb_true_iff, set_has_false in Hfresh. apply Hfresh.
apply (processGroups_processed _ _ _ Hfold g); [exact Hg |].
rewrite <- Hid. unfold stepIds. now apply in_map.
Qed.

(** The redirection map holds one entry for every step that was merged
away. *)
Lemma redirection_map d v :
map_get mergedStepIds d = Some v <-> redirects limit groups d v.
Proof using Htruthy Hfold Hdistinct.
assert (Hsound : forall d v, map_get mergedStepIds d = Some v ->
                redirects limit groups d v).
{ intros d' v' Hget. unfold mergedStepIds in Hget.
apply redirect_sound in Hget.
destruct Hget as [Hget | [g [first [rest [Hg [Hsnd [Hlen [-> [Hin Hneq]]]]]]]]];
[discriminate |].
exists g, first, rest. repeat split; auto.
rewrite Hsnd in Hin. cbn [stepIds map In] in Hin.
destruct Hin as [Heq | Hin]; [congruence | exact Hin]. }
split; [apply Hsound |].
intros [g [first [rest [Hg [Hsnd [Hlen [Hin ->]]]]]]].
assert (Hnd : NoDup (stepIds (snd g))) by now apply group_ids_distinct.
rewrite Hsnd in Hnd. cbn [stepIds map] in Hnd.
inversion Hnd as [| ? ? Hfresh _]; subst.
assert (Hneq : d <> PlanStep.id first) by (intros ->; contradiction).
assert (Hsome : map_get mergedStepIds d <> None).
{ unfold mergedStepIds.
apply redirect_complete with (g := g) (first := first) (rest := rest);
auto.
- assert (Hfresh' : forall g x, In g groups -> In x (stepIds (snd g)) ->
                     ~ In x (MergeState.processedStepIds MergeState.empty)).
{ intros ? ? _ _ []. }
destruct (processGroups_complete _ _ _ Hfold
          (@groups_distinct steps Hdistinct) Hfresh' g Hg)
as [_ Hover].
destruct (Hover (proj1 (@exceeds_iff _ _ Htruthy) Hlen))
as [merged [Hmerge [Hmerged _]]].
rewrite Hsnd in Hmerge.
destruct (mergeSteps_identity _ _ Hmerge) as [Hid _].
rewrite <- Hid. unfold mergedSteps, stepIds. rewrite map_app, in_app_iff.
left. now apply in_map.
- rewrite Hsnd. cbn [stepIds map In]. now right. }
destruct (map_get mergedStepIds d) as [v |] eqn:Hget; [| congruence].
destruct (Hsound _ _ Hget) as [g' [first' [rest' [Hg' [Hsnd' [_ [Hin' ->]]]]]]].
apply in_map_iff in Hin. destruct Hin as [e [He Hine]].
apply in_map_iff in Hin'. destruct Hin' as [e' [He' Hine']].
assert (Hmem : In e (snd g)) by (rewrite Hsnd; now right).
assert (Hmem' : In e' (snd g')) by (rewrite Hsnd'; now right).
destruct (@same_id_same_group steps Hdistinct g g' e e' Hg Hg' Hmem Hmem')
as [-> _]; [congruence |].
rewrite Hsnd in Hsnd'. now injection Hsnd' as <- _.
Qed.
End ChunkingLayout.

(** X22. With a truthy limit, whatever number it is, [applyDynamicChunking]
    returns.  For every combination of phase, scope and kind, the
    execution-level steps of the result are within the limit, or there is
    at most one of them (a limit below 1 has every group merged into one
    step).  When the step ids of the plan are distinct, the steps of the
    result are, in this order: group after group (phase, scope and kind, in
    the order of first appearance), the steps of the group as they are when
    the group is within the limit, and otherwise the single step that
    [mergeSteps] makes of them; then the steps that are not execution-level;
    each with its dependencies rewritten: the id of a step that was merged
    away is replaced by the id of the first step of its group, and repeated
    ids and the id of the step itself are dropped.  When an id is used twice
    steps are lost even where no group is over the limit: of the four steps
    [s1], [s2] (first phase), [s1], [s2] (second phase) with a limit of 5,
    only the first two are returned. *)
Theorem applyDynamicChunking_honours_the_limit :
  (forall plan limit x,
      truthy limit = Some x ->
      exists stage,
        applyDynamicChunking plan limit = Ok stage
        /\ (forall key,
              fits (length (executionStepsOf key
                              (TaskPlan.steps (Stage.plan stage)))) x = true
              \/ length (executionStepsOf key
                           (TaskPlan.steps (Stage.plan stage))) <= 1)
        /\ (NoDup (stepIds (TaskPlan.steps plan)) ->
            exists m,
              (forall d v, map_get m d = Some v
                           <-> redirects x (buildGroups (TaskPlan.steps plan)) d v)
              /\ TaskPlan.steps (Stage.plan stage)
                 = map (rewriteDependencies m)
                       (flat_map (fun g => chunkOf x (snd g))
                                 (buildGroups (TaskPlan.steps plan))
                        ++ filter (fun step =>
                                     negb (PlanLevel_eqb (PlanStep.level step)
                                                         Execution))
                                  (TaskPlan.steps plan))))
  /\ (exists stage,
         applyDynamicChunking Sample.repeatedIds (Some (Int 5)) = Ok stage
         /\ map (fun s => (PlanStep.id s, PlanStep.phaseId s))
                (TaskPlan.steps Sample.repeatedIds)
            = [("s1", "p1"); ("s2", "p1"); ("s1", "p2"); ("s2", "p2")]
         /\ map (fun s => (PlanStep.id s, PlanStep.phaseId s))
                (TaskPlan.steps (Stage.plan stage))
            = [("s1", "p1"); ("s2", "p1")]).
Proof.
  split;
    [| eexists; split; [vm_compute; reflexivity | split; reflexivity]].
  intros plan limit x Hlimit.
  destruct (applyDynamicChunking_ok plan limit) as [stage Hchunk].
  exists stage. split; [exact Hchunk |].
  destruct (applyDynamicChunking_limit _ _ Hlimit Hchunk)
    as [st [Hfold [_ ->]]].
  cbn [TaskPlan.with_steps TaskPlan.steps].
  set (steps := TaskPlan.steps plan) in *.
  pose proof (proj2 (truthy_Some _ Hlimit)) as Htruthy.
  split.
  - intros key.
    assert (Hgroups : grouped groupKey
                        (filter (fun s => PlanLevel_eqb (PlanStep.level s) Execution)
                                steps)
                        (buildGroups steps)).
    { rewrite buildGroups_groupBy. apply groupBy_grouped. }
    destruct (@processGroups_count x key (buildGroups steps) MergeState.empty st
                (grouped_keys Hgroups)) as [_ [c [Hcount Hc]]];
      [| exact Hfold |].
    { intros [k g] s Hg Hs. cbn [fst snd] in *.
      rewrite buildGroups_groupBy in Hg.
      now destruct (groupBy_sound groupKey _ k g s Hg Hs). }
    cbn [MergeState.empty MergeState.mergedSteps] in Hcount.
    unfold executionStepsOf at 2 in Hcount. cbn [filter length] in Hcount.
    (* the steps the merge loop did not process are not execution-level *)
    assert (Hrest :
      executionStepsOf key
        (filter (fun step =>
                   negb (set_has (MergeState.processedStepIds st) (PlanStep.id step)))
                steps) = []).
    { apply filter_none. intros s Hs. apply filter_In in Hs.
      destruct Hs as [Hs Hfresh]. apply andb_false_iff. left.
      destruct (PlanLevel_eqb (PlanStep.level s) Execution) eqn:E;
        [exfalso | reflexivity].
      apply negb_true_iff, set_has_false in Hfresh. apply Hfresh.
      assert (Hexec : In s (filter (fun s => PlanLevel_eqb (PlanStep.level s)
                                                           Execution) steps))
        by (apply filter_In; now split).
      pose proof (grouped_total Hgroups s Hexec) as Hk.
      apply in_map_iff in Hk. destruct Hk as [[k g] [Hfst Hg]].
      cbn [fst] in Hfst. subst k.
      destruct (grouped_members Hgroups _ _ Hg) as [-> _].
      apply (@processGroups_processed x (buildGroups steps) MergeState.empty st
               Hfold _ (PlanStep.id s) Hg).
      cbn [snd]. unfold stepIds. apply in_map. apply filter_In.
      split; [exact Hexec |]. unfold hasKey. apply String.eqb_refl. }
    (* rewriting the dependencies and removing steps adds no step to a group *)
    set (mergedSteps := MergeState.mergedSteps st ++ filter _ steps) in *.
    set (redirect := fold_left _ _ _).
    assert (Hle : length (executionStepsOf key
                            (filter (fun step =>
                                       negb (set_has (MergeState.stepsToRemove st)
                                                     (PlanStep.id step)))
                                    (map (rewriteDependencies redirect) mergedSteps)))
                  <= c).
    { eapply Nat.le_trans; [| exact Hcount].
      unfold executionStepsOf at 1.
      match goal with
      | |- length (filter ?p (filter ?q ?l)) <= _ =>
          apply Nat.le_trans with (length (filter p l))
      end.
      - clear. induction (map _ _) as [| y ys IH]; cbn [filter]; [lia |].
        match goal with
        | |- context [if ?c then y :: _ else _] => destruct c
        end; cbn [filter];
        match goal with
        | |- context [if ?c then y :: _ else _] => destruct c
        end; cbn [length]; lia.
      - assert (Hmap : forall l,
                  length (filter (fun step =>
                                    PlanLevel_eqb (PlanStep.level step) Execution
                                    && String.eqb (groupKey step) key)
                                 (map (rewriteDependencies redirect) l))
                  = length (executionStepsOf key l)).
        { clear. induction l as [| y ys IH]; [reflexivity |].
          unfold executionStepsOf in *. cbn [map filter].
          assert (Hkey : groupKey (rewriteDependencies redirect y) = groupKey y)
            by reflexivity.
          assert (Hlevel : PlanStep.level (rewriteDependencies redirect y)
                           = PlanStep.level y) by reflexivity.
          rewrite Hkey, Hlevel.
          destruct (_ && _); cbn [length]; now rewrite IH. }
        rewrite Hmap. unfold mergedSteps.
        rewrite executionStepsOf_app, length_app, Hrest. cbn [length]. lia. }
    destruct Hc as [Hc | Hc]; [left | right; lia].
    now apply (@fits_le _ c).
  - intros Hdistinct.
    exists (fold_left
              (redirectGroup x
                 (MergeState.mergedSteps st
                  ++ filter (fun step =>
                               negb (set_has (MergeState.processedStepIds st)
                                             (PlanStep.id step))) steps))
              (buildGroups steps) []).
    split.
    + intros d v. apply (@redirection_map steps x st Htruthy Hfold Hdistinct).
    + rewrite filter_all.
      * rewrite (@unprocessed_steps steps x st Hfold Hdistinct).
        now rewrite (@pushed_steps steps x st Hfold Hdistinct).
      * intros u Hu. apply in_map_iff in Hu. destruct Hu as [u0 [<- Hu0]].
        rewrite rewriteDependencies_id. apply negb_true_iff, set_has_false.
        now apply (@none_removed steps x st Hfold Hdistinct).
Qed.

Lemma applyDynamicChunking_honours_the_limit_witness :
  exists stage,
    applyDynamicChunking Sample.editTestEdit (Some (Int 1)) = Ok stage
    /\ stepIds (TaskPlan.steps Sample.editTestEdit) = ["a"; "b"; "c"]
    /\ stepIds (TaskPlan.steps (Stage.plan stage)) = ["a"; "b"]
    /\ forall key,
         length (executionStepsOf key (TaskPlan.steps (Stage.plan stage))) <= 1.
Proof.
  destruct (proj1 applyDynamicChunking_honours_the_limit
                  Sample.editTestEdit (Some (Int 1)) (Int 1) eq_refl)
    as [stage [Hrun [Hcount Hlayout]]].
  exists stage. split; [exact Hrun |]. split; [reflexivity |]. split.
  - destruct Hlayout as [m [_ ->]].
    + cbn. repeat constructor; cbn; intuition discriminate.
    + reflexivity.
  - intros key. destruct (Hcount key) as [Hfits | Hle]; [| exact Hle].
    cbn [fits] in Hfits. apply Z.leb_le in Hfits. lia.
Defined.

(** ** The statistics of [validatePlan] *)

(** *** Reading back the number of merged steps *)

Lemma isDigit_shown d c rest :
  NilEmpty.string_of_uint d = String c rest -> isDigit c = true.
Proof. destruct d; cbn; intros [= <- _]; reflexivity. Qed.

Lemma takeDigits_shown d tail :
  (forall c rest, tail = String c rest -> isDigit c = false) ->
  takeDigits (NilEmpty.string_of_uint d ++ tail)
  = (NilEmpty.string_of_uint d, tail).
Proof.
  intros Htail. induction d as [| d IH | d IH | d IH | d IH | d IH | d IH
                                | d IH | d IH | d IH | d IH];
    cbn [NilEmpty.string_of_uint String.append takeDigits];
    try (change (isDigit _) with true; cbv iota; now rewrite IH).
  destruct tail as [| c rest]; [reflexivity |].
  cbn [takeDigits]. now rewrite (Htail c rest eq_refl).
Qed.

Lemma parseInt10_shown d : forall acc,
  parseInt10 (Z.of_nat acc) (NilEmpty.string_of_uint d)
  = Z.of_nat (Nat.of_uint_acc d acc).
Proof.
  induction d as [| d IH | d IH | d IH | d IH | d IH | d IH
                  | d IH | d IH | d IH | d IH]; intros acc;
    cbn [NilEmpty.string_of_uint parseInt10 Nat.of_uint_acc];
    [reflexivity | ..];
    rewrite <- IH; f_equal; rewrite Nat.tail_mul_spec;
    match goal with
    | |- context [nat_of_ascii ?c] =>
        let v := eval vm_compute in (nat_of_ascii c - 48) in
        change (nat_of_ascii c - 48) with v
    end; lia.
Qed.

Lemma showNat_digits n :
  exists d, showNat n = NilEmpty.string_of_uint d
            /\ showNat n <> EmptyString
            /\ Nat.of_uint d = n.
Proof.
  unfold showNat, NilZero.string_of_uint.
  pose proof (DecimalNat.Unsigned.of_to n) as Hback.
  destruct (Nat.to_uint n) eqn:E.
  - exists (D0 Nil). cbn. split; [reflexivity |]. split; [discriminate |].
    now rewrite <- Hback.
  - eexists; split; [reflexivity |]; split; [discriminate | exact Hback].
  - eexists; split; [reflexivity |]; split; [discriminate | exact Hback].
  - eexists; split; [reflexivity |]; split; [discriminate | exact Hback].
  - eexists; split; [reflexivity |]; split; [discriminate | exact Hback].
  - eexists; split; [reflexivity |]; split; [discriminate | exact Hback].
  - eexists; split; [reflexivity |]; split; [discriminate | exact Hback].
  - eexists; split; [reflexivity |]; split; [discriminate | exact Hback].
  - eexists; split; [reflexivity |]; split; [discriminate | exact Hback].
  - eexists; split; [reflexivity |]; split; [discriminate | exact Hback].
  - eexists; split; [reflexivity |]; split; [discriminate | exact Hback].
Qed.

Lemma substring_all s : substring 0 (String.length s) s = s.
Proof. induction s as [| c s IH]; cbn; [reflexivity | now rewrite IH]. Qed.

Lemma prefix_append p s : String.prefix p (p ++ s) = true.
Proof.
  induction p as [| a p IH]; cbn [String.append String.prefix].
  - now destruct s.
  - destruct (ascii_dec a a); [exact IH | contradiction].
Qed.

(** The description of a merge, read back by the regular expression of the
    statistics. *)
Lemma matchMerged_description n title :
  matchMerged ("Merged " ++ showNat n ++ " steps into chunk: " ++ title)
  = Some (Z.of_nat n).
Proof.
  destruct (showNat_digits n) as [d [Hshown [Hne Hback]]].
  assert (Hat :
    matchMergedAt ("Merged " ++ showNat n ++ " steps into chunk: " ++ title)
    = Some (Z.of_nat n)).
  { unfold matchMergedAt.
    rewrite prefix_append.
    assert (Hsub :
      substring 7
        (String.length ("Merged " ++ showNat n ++ " steps into chunk: " ++ title)
         - 7)
        ("Merged " ++ showNat n ++ " steps into chunk: " ++ title)
      = (showNat n ++ " steps into chunk: " ++ title)%string).
    { cbn [String.append String.length]. cbn [Nat.sub substring].
      rewrite Nat.sub_0_r. apply substring_all. }
    rewrite Hsub, Hshown.
    rewrite takeDigits_shown
      by (intros c rest [= <- _]; reflexivity).
    change (" steps into chunk: " ++ title)%string
      with (" steps" ++ (" into chunk: " ++ title))%string.
    rewrite prefix_append.
    change 0%Z with (Z.of_nat 0). rewrite parseInt10_shown.
    unfold Nat.of_uint in Hback. rewrite Hback.
    rewrite Hshown in Hne.
    destruct (NilEmpty.string_of_uint d); [contradiction | reflexivity]. }
  destruct ("Merged " ++ showNat n ++ " steps into chunk: " ++ title)%string
    eqn:E; cbn [matchMerged]; now rewrite Hat.
Qed.

(** *** The changes of each stage, by type *)

Lemma level_changes phases steps :
  let changes := flat_map snd (map (correctStepLevel phases) steps) in
  filter (hasType "steps_merged") changes = []
  /\ filter (hasType "scope_reassigned") changes = []
  /\ length (filter (hasType "level_corrected") changes)
     = length (filter (levelOutOfPolicy phases) steps).
Proof.
  cbv zeta. induction steps as [| s steps [IH1 [IH2 IH3]]];
    [now repeat split |].
  cbn [map flat_map filter]. rewrite !filter_app, IH1, IH2, !length_app, IH3.
  unfold correctStepLevel, levelOutOfPolicy.
  destruct (find _ phases) as [phase |]; [| now repeat split].
  destruct (negb _); now repeat split.
Qed.

Lemma scope_changes now scopes steps :
  let ensured := ensureGlobalScope now scopes in
  let changes :=
    snd ensured
    ++ flat_map snd
         (map (repairStepScope
                 (set_of_list (map PlanScope.id (fst (fst ensured))))
                 (snd (fst ensured))) steps) in
  filter (hasType "steps_merged") changes = []
  /\ filter (hasType "level_corrected") changes = []
  /\ length (filter (hasType "scope_reassigned") changes)
     = length (filter (fun s => negb (scopeResolved (fst (fst ensured)) s))
                      steps).
Proof.
  cbv zeta. rewrite !filter_app, length_app.
  set (updated := fst (fst (ensureGlobalScope now scopes))).
  set (globalId := snd (fst (ensureGlobalScope now scopes))).
  assert (Hensured :
    filter (hasType "steps_merged") (snd (ensureGlobalScope now scopes)) = []
    /\ filter (hasType "level_corrected") (snd (ensureGlobalScope now scopes)) = []
    /\ filter (hasType "scope_reassigned") (snd (ensureGlobalScope now scopes)) = []).
  { unfold ensureGlobalScope. destruct (find _ scopes); now repeat split. }
  destruct Hensured as [-> [-> ->]]. cbn [List.app length Nat.add].
  induction steps as [| s steps [IH1 [IH2 IH3]]]; [now repeat split |].
  cbn [map flat_map filter]. rewrite !filter_app, IH1, IH2, !length_app, IH3.
  unfold repairStepScope, scopeResolved.
  destruct (PlanStep.scopeId s) as [sc |]; [| now repeat split].
  assert (Hsame : set_has (set_of_list (map PlanScope.id updated)) sc
                  = existsb (fun x => String.eqb (PlanScope.id x) sc) updated).
  { apply eq_true_iff_eq. rewrite set_has_of_list, existsb_exists, in_map_iff.
    split.
    - intros [x [Hid Hx]]. exists x. split; [exact Hx |].
      now apply String.eqb_eq.
    - intros [x [Hx Hid]]. exists x. split; [now apply String.eqb_eq | exact Hx]. }
  rewrite Hsame. destruct (existsb _ updated); now repeat split.
Qed.

Lemma limit_changes plan maxPhases maxSteps :
  let changes := Stage.changes (applyGlobalLimits plan maxPhases maxSteps) in
  filter (hasType "steps_merged") changes = []
  /\ filter (hasType "level_corrected") changes = []
  /\ filter (hasType "scope_reassigned") changes = [].
Proof.
  cbv zeta. unfold applyGlobalLimits.
  assert (Hphase :
    filter (hasType "steps_merged") (snd (applyPhaseLimit plan maxPhases)) = []
    /\ filter (hasType "level_corrected") (snd (applyPhaseLimit plan maxPhases)) = []
    /\ filter (hasType "scope_reassigned") (snd (applyPhaseLimit plan maxPhases)) = []).
  { unfold applyPhaseLimit. destruct (truthy maxPhases); [| now repeat split].
    destruct (exceeds _ _); now repeat split. }
  destruct Hphase as [H1 [H2 H3]].
  destruct (truthy maxSteps) as [n |]; cbn [Stage.changes]; [| now repeat split].
  destruct (0 <? _); [| now repeat split].
  rewrite !filter_app, H1, H2, H3. now repeat split.
Qed.


Lemma mergeGroup_change st groupSteps st' :
  mergeGroup st groupSteps = Ok st' ->
  exists merged,
    mergeSteps groupSteps = Ok merged
    /\ MergeState.changes st'
       = MergeState.changes st
         ++ [PlanChange.mk "steps_merged"
               ("Merged " ++ showNat (length groupSteps)
                ++ " steps into chunk: " ++ PlanStep.title merged)%string
               (Some (PlanStep.id merged))].
Proof.
  unfold mergeGroup. destruct (mergeSteps groupSteps) as [merged | |];
    cbn [bind]; try discriminate.
  intros [= <-]. exists merged. split; [reflexivity |].
  cbn [MergeState.changes].
  match goal with
  | |- MergeState.changes (fold_left _ groupSteps ?init) ++ _ = _ =>
      destruct (mergeGroup_marks groupSteps (PlanStep.id merged) init)
        as [_ [Hch _]]
  end.
  cbv zeta in Hch. rewrite Hch. reflexivity.
Qed.

Lemma processGroups_changes limit groups : forall st final,
  fold_left (processGroup limit) groups (Ok st) = Ok final ->
  exists merges,
    MergeState.changes final = MergeState.changes st ++ merges
    /\ Forall2 recordsMerge
               (filter (fun g => negb (fits (length (snd g)) limit)) groups)
               merges.
Proof.
  induction groups as [| g groups IH]; intros st final Hfold.
  - cbn in Hfold. injection Hfold as <-. exists []. rewrite app_nil_r.
    split; [reflexivity | constructor].
  - apply processGroups_step in Hfold. destruct Hfold as [st1 [Hstep Hfold]].
    destruct (IH _ _ Hfold) as [merges [Hch Hall]]. cbn [filter].
    apply processGroup_spec in Hstep.
    destruct Hstep as [[Hlen ->] | [Hlen Hmerge]].
    + destruct (keepGroup_spec (snd g) st) as [_ [_ [_ [K4 _]]]].
      cbv zeta in K4. rewrite K4 in Hch.
      rewrite Hlen. now exists merges.
    + apply mergeGroup_change in Hmerge.
      destruct Hmerge as [merged [_ Hone]]. rewrite Hone, <- app_assoc in Hch.
      rewrite Hlen. cbn [negb].
      eexists. split; [exact Hch |]. cbn [List.app]. constructor; [| exact Hall].
      split; [reflexivity |]. now exists (PlanStep.title merged).
Qed.

Lemma merge_changes (groups : list (string * list PlanStep.t)) merges :
  Forall2 recordsMerge groups merges ->
  filter (hasType "steps_merged") merges = merges
  /\ filter (hasType "level_corrected") merges = []
  /\ filter (hasType "scope_reassigned") merges = []
  /\ length merges = length groups
  /\ forall sum,
       fold_left
         (fun sum c =>
            (sum + match matchMerged (PlanChange.description c) with
                   | Some n => n - 1
                   | None => 0
                   end)%Z) merges sum
       = fold_left (fun sum g => (sum + (Z.of_nat (length (snd g)) - 1))%Z)
                   groups sum.
Proof.
  induction 1 as [| g c groups merges [Hty [title Hdesc]] Hrest
                    [IH1 [IH2 [IH3 [IH4 IH5]]]]].
  - now repeat split.
  - assert (T1 : hasType "steps_merged" c = true)
      by (unfold hasType; now rewrite Hty).
    assert (T2 : hasType "level_corrected" c = false)
      by (unfold hasType; now rewrite Hty).
    assert (T3 : hasType "scope_reassigned" c = false)
      by (unfold hasType; now rewrite Hty).
    cbn [filter length fold_left]. rewrite T1, T2, T3, IH1, IH2, IH3, IH4.
    split; [reflexivity |]. split; [reflexivity |]. split; [reflexivity |].
    split; [reflexivity |].
    intros sum. rewrite Hdesc, matchMerged_description. apply IH5.
Qed.

Lemma chunk_changes plan limit stage :
  applyDynamicChunking plan limit = Ok stage ->
  Forall2 recordsMerge (overLimitGroups limit (TaskPlan.steps plan))
          (Stage.changes stage).
Proof.
  intros Hchunk. unfold overLimitGroups.
  destruct (truthy limit) as [n |] eqn:Hlimit.
  - destruct (applyDynamicChunking_limit _ _ Hlimit Hchunk)
      as [st [Hfold [-> _]]].
    destruct (@processGroups_changes _ _ _ _ Hfold) as [merges [Hch Hall]].
    rewrite Hch. cbn [MergeState.empty MergeState.changes List.app].
    erewrite filter_ext; [exact Hall |].
    intros g. cbn beta.
    rewrite (@fits_exceeds _ _ (proj2 (truthy_Some _ Hlimit))).
    now rewrite negb_involutive.
  - rewrite (applyDynamicChunking_off _ _ Hlimit) in Hchunk.
    injection Hchunk as <-. constructor.
Qed.

Lemma scopeResolved_leveled scopes phases steps :
  filter (fun s => negb (scopeResolved scopes s))
         (map (fun s => fst (correctStepLevel phases s)) steps)
  = map (fun s => fst (correctStepLevel phases s))
        (filter (fun s => negb (scopeResolved scopes s)) steps).
Proof.
  induction steps as [| s steps IH]; [reflexivity |]. cbn [map filter].
  assert (Hsame : scopeResolved scopes (fst (correctStepLevel phases s))
                  = scopeResolved scopes s)
    by (unfold scopeResolved; now rewrite correctStepLevel_scopeId).
  rewrite Hsame. destruct (scopeResolved scopes s); cbn [negb map];
    now rewrite IH.
Qed.

Lemma validatePlan_stats now plan options r :
  validatePlan now plan options = Ok r ->
  ValidatePlanResult.stats r
  = computeStats plan (ValidatePlanResult.plan r) (ValidatePlanResult.changes r).
Proof.
  unfold validatePlan. cbv zeta.
  destruct (applyDynamicChunking _ _); cbn [bind]; try discriminate.
  intros [= <-]. reflexivity.
Qed.

(** X23. The statistics of [validatePlan] count what was done.  The call
    returns, and its statistics hold: the numbers of phases and steps of the
    plan passed in and of the plan returned; as chunks created the number of
    groups of execution-level steps that are over the limit once levels and
    scopes are validated; as steps merged all but one step of each such
    group (the size of a group is read back from the description of its
    change); as levels corrected the number of steps passed in whose phase is
    found and whose level is not the one the policy expects; as scopes
    reassigned the number of steps passed in whose scope id is not null and
    not the id of a scope, the global scope included. *)
Theorem validatePlan_statistics_count_the_changes :
  forall now plan options,
  exists r,
    validatePlan now plan options = Ok r
    /\ let validated :=
         Stage.plan
           (validatePlanScopes now (Stage.plan (validatePlanLevels plan))) in
       let merged :=
         overLimitGroups (maxMicroStepsPerPhase options)
                         (TaskPlan.steps validated) in
       ValidatePlanResult.stats r
       = mkStats
           (length (TaskPlan.phases plan))
           (length (TaskPlan.phases (ValidatePlanResult.plan r)))
           (length (TaskPlan.steps plan))
           (length (TaskPlan.steps (ValidatePlanResult.plan r)))
           (length merged)
           (mergedAway merged)
           (length (filter (levelOutOfPolicy (TaskPlan.phases plan))
                           (TaskPlan.steps plan)))
           (length (filter (fun s =>
                              negb (scopeResolved (TaskPlan.scopes validated) s))
                           (TaskPlan.steps plan))).
Proof.
  intros now plan options.
  destruct (validatePlan_stages now plan options)
    as [chunked [r [Hchunk [Hrun [_ Hchanges]]]]].
  exists r. split; [exact Hrun |]. cbv zeta in *.
  rewrite (validatePlan_stats _ _ _ Hrun), Hchanges.
  unfold computeStats, createPlanStats. cbv zeta.
  destruct (level_changes (TaskPlan.phases plan) (TaskPlan.steps plan))
    as [L1 [L2 L3]].
  destruct (scope_changes now (TaskPlan.scopes plan)
              (TaskPlan.steps (Stage.plan (validatePlanLevels plan))))
    as [S1 [S2 S3]].
  destruct (limit_changes (Stage.plan chunked) (targetMaxPhases options)
                          (targetMaxSteps options)) as [G1 [G2 G3]].
  pose proof (chunk_changes _ _ Hchunk) as Hmerges.
  destruct (merge_changes Hmerges) as [C1 [C2 [C3 [C4 C5]]]].
  cbv zeta in *.
  change (Stage.changes (validatePlanLevels plan))
    with (flat_map snd (map (correctStepLevel (TaskPlan.phases plan))
                            (TaskPlan.steps plan))).
  change (Stage.changes
            (validatePlanScopes now (Stage.plan (validatePlanLevels plan))))
    with (snd (ensureGlobalScope now (TaskPlan.scopes plan))
          ++ flat_map snd
               (map (repairStepScope
                       (set_of_list
                          (map PlanScope.id
                               (fst (fst (ensureGlobalScope now
                                            (TaskPlan.scopes plan))))))
                       (snd (fst (ensureGlobalScope now (TaskPlan.scopes plan)))))
                    (TaskPlan.steps (Stage.plan (validatePlanLevels plan))))).
  set (levelChanges :=
         flat_map snd (map (correctStepLevel (TaskPlan.phases plan))
                           (TaskPlan.steps plan)))
    in L1, L2, L3 |- *.
  set (scopeChanges :=
         snd (ensureGlobalScope now (TaskPlan.scopes plan)) ++ _)
    in S1, S2, S3 |- *.
  rewrite !filter_app, !length_app.
  rewrite L1, L2, L3, S1, S2, S3, G1, G2, G3, C1, C2, C3.
  cbn [List.app length Nat.add]. rewrite !app_nil_r, C4, C5.
  rewrite !Nat.add_0_r.
  f_equal.
  change (TaskPlan.steps (Stage.plan (validatePlanLevels plan)))
    with (map fst (map (correctStepLevel (TaskPlan.phases plan))
                       (TaskPlan.steps plan))).
  rewrite map_map, scopeResolved_leveled, length_map. reflexivity.
Qed.

(** ** The global scopes and the scope of every step *)

Lemma ensureGlobalScope_scopes now scopes :
  let updated := fst (fst (ensureGlobalScope now scopes)) in
  globalScopeCount updated = Nat.max 1 (globalScopeCount scopes)
  /\ (1 <= globalScopeCount scopes -> updated = scopes)
  /\ (globalScopeCount scopes = 0 ->
      updated
      = scopes
        ++ [PlanScope.mk ("scope-global-" ++ showZ now) Global "Workspace"
              "workspace root" (Some "Entire workspace (auto-created)")]).
Proof.
  unfold ensureGlobalScope, globalScopeCount.
  destruct (find _ scopes) as [g |] eqn:Hfind; cbn [fst snd].
  - apply find_some_filter in Hfind. repeat split; [lia | lia].
  - apply find_none_filter in Hfind. rewrite filter_app, Hfind.
    cbn. repeat split. lia.
Qed.

Lemma validatePlan_scopes now plan options r :
  validatePlan now plan options = Ok r ->
  TaskPlan.scopes (ValidatePlanResult.plan r)
  = fst (fst (ensureGlobalScope now (TaskPlan.scopes plan))).
Proof.
  intros Hok.
  destruct (validatePlan_stages now plan options)
    as [chunked [r' [Hchunk [Hrun [Hplan _]]]]].
  cbn zeta in *. rewrite Hrun in Hok. injection Hok as ->.
  rewrite Hplan, preserveFirstStep_scopes, applyGlobalLimits_scopes.
  destruct (applyDynamicChunking_phases _ _ Hchunk) as [_ ->]. reflexivity.
Qed.

Lemma validatePlan_quiet now plan options r :
  validatePlan now plan options = Ok r ->
  (forall w, In w (ValidatePlanResult.warnings r) ->
     PlanWarning.type w <> "steps_preserved") ->
  forall t, In t (TaskPlan.steps (ValidatePlanResult.plan r)) ->
    scopeResolved (TaskPlan.scopes (ValidatePlanResult.plan r)) t = true.
Proof.
  intros Hok Hquiet t Ht.
  pose proof (validatePlan_scopes _ _ _ Hok) as Hscopes. rewrite Hscopes.
  unfold validatePlan in Hok. cbv zeta in Hok.
  destruct (applyDynamicChunking _ _) as [chunked | |] eqn:Hchunk;
    cbn [bind] in Hok; try discriminate.
  injection Hok as <-.
  cbn [ValidatePlanResult.warnings ValidatePlanResult.plan] in *.
  rewrite finalValidation_plan in Ht.
  rewrite preserveFirstStep_quiet in Ht
    by (intros w Hw; apply Hquiet, in_app_iff; now left).
  apply applyGlobalLimits_provenance in Ht.
  destruct Ht as [c [Hc [_ [Hsc _]]]].
  destruct (applyDynamicChunking_provenance _ _ Hchunk) as [Hdesc _].
  destruct (Hdesc c Hc) as [v [Hv [_ Hsc']]].
  rewrite (scopeResolved_same _ t v) by congruence.
  pose proof (validatePlanScopes_resolved now (Stage.plan (validatePlanLevels plan)))
    as Hall.
  unfold scopesResolved in Hall. rewrite forallb_forall in Hall.
  now apply Hall.
Qed.

(** C5 (amended). Scope validation keeps every scope of its input, in
    order, and appends one scope of kind global exactly when the input has
    none: the result has as many global scopes as the input, and one when
    the input has none (so exactly one only when the input has at most one).
    After [validatePlanScopes] every step's [scopeId] is null or the id of a
    scope of the result.  The plan that [validatePlan] returns has the scopes
    that scope validation leaves, and each of its steps has a [scopeId] that
    is null or resolves, unless that step is the one the safety net put back
    (warning [steps_preserved]): that step carries the [scopeId] of the first
    step of the input as it was passed in, and is then the only step. *)
Theorem C5_scope_completeness :
  (forall (now : Z) (plan : TaskPlan.t),
      let validated := Stage.plan (validatePlanScopes now plan) in
      globalScopeCount (TaskPlan.scopes validated)
      = Nat.max 1 (globalScopeCount (TaskPlan.scopes plan))
      /\ (1 <= globalScopeCount (TaskPlan.scopes plan) ->
          TaskPlan.scopes validated = TaskPlan.scopes plan)
      /\ (globalScopeCount (TaskPlan.scopes plan) = 0 ->
          TaskPlan.scopes validated
          = TaskPlan.scopes plan
            ++ [PlanScope.mk ("scope-global-" ++ showZ now) Global "Workspace"
                  "workspace root" (Some "Entire workspace (auto-created)")])
      /\ scopesResolved validated = true)
  /\ (forall (now : Z) (plan : TaskPlan.t) (options : ValidatePlanOptions),
         exists r,
           validatePlan now plan options = Ok r
           /\ TaskPlan.scopes (ValidatePlanResult.plan r)
              = TaskPlan.scopes (Stage.plan (validatePlanScopes now plan))
           /\ ((forall w, In w (ValidatePlanResult.warnings r) ->
                  PlanWarning.type w <> "steps_preserved")
               \/ firstStepScopeResolved plan = true ->
               scopesResolved (ValidatePlanResult.plan r) = true)
           /\ (forall t, In t (TaskPlan.steps (ValidatePlanResult.plan r)) ->
                 scopeResolved (TaskPlan.scopes (ValidatePlanResult.plan r)) t
                 = false ->
                 TaskPlan.steps (ValidatePlanResult.plan r) = [t]
                 /\ (exists w, In w (ValidatePlanResult.warnings r)
                               /\ PlanWarning.type w = "steps_preserved")
                 /\ exists first rest,
                      TaskPlan.steps plan = first :: rest
                      /\ PlanStep.id t = PlanStep.id first
                      /\ PlanStep.scopeId t = PlanStep.scopeId first)).
Proof.
  split.
  - intros now plan. cbn zeta.
    destruct (ensureGlobalScope_scopes now (TaskPlan.scopes plan)) as [H1 [H2 H3]].
    cbn zeta in *. repeat split; try assumption.
    apply validatePlanScopes_resolved.
  - intros now plan options.
    destruct (validatePlan_stages now plan options)
      as [chunked [r [Hchunk [Hrun [Hplan _]]]]].
    cbn zeta in *. exists r. split; [exact Hrun |].
    pose proof (validatePlan_scopes _ _ _ Hrun) as Hscopes.
    split; [exact Hscopes |].
    assert (Hstep : forall t, In t (TaskPlan.steps (ValidatePlanResult.plan r)) ->
              scopeResolved (TaskPlan.scopes (ValidatePlanResult.plan r)) t = true
              \/ (TaskPlan.steps (ValidatePlanResult.plan r) = [t]
                  /\ (exists w, In w (ValidatePlanResult.warnings r)
                                /\ PlanWarning.type w = "steps_preserved")
                  /\ exists first rest,
                       TaskPlan.steps plan = first :: rest
                       /\ PlanStep.id t = PlanStep.id first
                       /\ PlanStep.scopeId t = PlanStep.scopeId first)).
    { intros t Ht.
      assert (Hwarn : (forall w, In w (ValidatePlanResult.warnings r) ->
                         PlanWarning.type w <> "steps_preserved")
                      \/ exists w, In w (ValidatePlanResult.warnings r)
                                   /\ PlanWarning.type w = "steps_preserved").
      { induction (ValidatePlanResult.warnings r) as [| w ws IH].
        - left. intros w [].
        - destruct (string_dec (PlanWarning.type w) "steps_preserved") as [E | E].
          + right. exists w. split; [now left | exact E].
          + destruct IH as [IH | [w' [Hw' E']]].
            * left. intros w' [<- | Hw']; [exact E | now apply IH].
            * right. exists w'. split; [now right | exact E']. }
      destruct Hwarn as [Hquiet | Hloud].
      - left. now apply (validatePlan_quiet _ _ _ Hrun Hquiet).
      - pose proof Ht as Ht'. rewrite Hplan in Ht'.
        apply preserveFirstStep_cases in Ht'.
        destruct Ht' as [Hin | [Hnone [first [rest [Hbefore [Hid [Hsc _]]]]]]].
        + left. rewrite Hscopes.
          apply applyGlobalLimits_provenance in Hin.
          destruct Hin as [c [Hc [_ [Hsc _]]]].
          destruct (applyDynamicChunking_provenance _ _ Hchunk) as [Hdesc _].
          destruct (Hdesc c Hc) as [v [Hv [_ Hsc']]].
          rewrite (scopeResolved_same _ t v) by congruence.
          pose proof (validatePlanScopes_resolved now
                        (Stage.plan (validatePlanLevels plan))) as Hall.
          unfold scopesResolved in Hall. rewrite forallb_forall in Hall.
          now apply Hall.
        + right. split; [| split; [exact Hloud | now exists first, rest]].
          rewrite Hplan in Ht |- *. revert Ht. unfold preserveFirstStep.
          rewrite Hnone, Hbefore.
          destruct (find _ _).
          * cbn. now intros [-> | []].
          * destruct (TaskPlan.phases _); cbn.
            -- rewrite Hnone. intros [].
            -- now intros [-> | []]. }
    split.
    + intros Hcase. unfold scopesResolved. apply forallb_forall. intros t Ht.
      destruct (Hstep t Ht) as [Hres | [_ [[w [Hw Hty]] [first [rest [Hbefore [_ Hsc]]]]]]];
        [exact Hres |].
      destruct Hcase as [Hquiet | Hfirst]; [now elim (Hquiet w Hw) |].
      rewrite (scopeResolved_same _ t first Hsc), Hscopes.
      unfold firstStepScopeResolved in Hfirst. rewrite Hbefore in Hfirst.
      apply (scopeResolved_incl (TaskPlan.scopes plan)); [| assumption].
      intros s Hs. now apply ensureGlobalScope_incl.
    + intros t Ht Hun. destruct (Hstep t Ht) as [Hres | Hput]; [congruence | exact Hput].
Qed.

Lemma C5_witness :
  (exists r,
      validatePlan 0 Sample.strayScopeLater (Sample.phasesAtMost 1) = Ok r
      /\ map PlanStep.scopeId (TaskPlan.steps Sample.strayScopeLater)
         = [Some "ws"; Some "gone"]
      /\ map PlanWarning.type (ValidatePlanResult.warnings r) = ["steps_preserved"]
      /\ scopesResolved (ValidatePlanResult.plan r) = true)
  /\ (exists r,
         validatePlan 0 Sample.strayScopeLater Sample.noLimits = Ok r
         /\ map PlanStep.scopeId (TaskPlan.steps (ValidatePlanResult.plan r))
            = [Some "ws"; Some "ws"]
         /\ scopesResolved (ValidatePlanResult.plan r) = true).
Proof.
  split.
  - destruct (proj2 C5_scope_completeness 0%Z Sample.strayScopeLater
                    (Sample.phasesAtMost 1)) as [r [Hrun [_ [Hres _]]]].
    exists r. split; [exact Hrun |]. split; [reflexivity |].
    split; [| apply Hres; right; reflexivity].
    vm_compute in Hrun. injection Hrun as <-. reflexivity.
  - destruct (proj2 C5_scope_completeness 0%Z Sample.strayScopeLater
                    Sample.noLimits) as [r [Hrun [_ [Hres _]]]].
    exists r. split; [exact Hrun |].
    split; [vm_compute in Hrun; injection Hrun as <-; reflexivity |].
    apply Hres. left. vm_compute in Hrun. injection Hrun as <-.
    intros w [].
Defined.

(** The claim as stated fails in two ways.  A plan that comes with two
    global scopes keeps both.  And when the limit on phases removes every
    step, the step that is put back is the first step of the plan as it was
    passed in: here its [scopeId] is [gone], which scope validation had
    replaced, and which is the id of no scope of the result. *)
Lemma C5_counterexample :
  (globalScopeCount
     (TaskPlan.scopes (Stage.plan (validatePlanScopes 0 Sample.twoGlobals))) = 2
   /\ exists r,
        validatePlan 0 Sample.twoGlobals Sample.noLimits = Ok r
        /\ globalScopeCount (TaskPlan.scopes (ValidatePlanResult.plan r)) = 2)
  /\ exists r,
       validatePlan 0 Sample.strayScope (Sample.phasesAtMost 1) = Ok r
       /\ map PlanScope.id (TaskPlan.scopes (ValidatePlanResult.plan r)) = ["ws"]
       /\ map (fun s => (PlanStep.id s, PlanStep.scopeId s))
              (TaskPlan.steps (ValidatePlanResult.plan r))
          = [("a", Some "gone")]
       /\ scopesResolved (ValidatePlanResult.plan r) = false.
Proof.
  split.
  - split; [reflexivity |]. eexists. split; [vm_compute; reflexivity | reflexivity].
  - eexists. split; [vm_compute; reflexivity |]. repeat split.
Qed.

(** ** Batches of one chunk *)

Lemma skipn_batch (A : Type) (limit : nat) (remaining batch : list A) :
  firstn limit remaining = batch ->
  skipn (length batch) remaining = skipn limit remaining.
Proof.
  intros <-. rewrite length_firstn.
  destruct (Nat.le_ge_cases limit (length remaining)) as [H | H].
  - now rewrite Nat.min_l.
  - rewrite Nat.min_r by assumption.
    rewrite skipn_all. symmetry. now apply skipn_all2.
Qed.

(** The loop over the chunks of one file keeps what was appended before it
    started, and appends, as it is, the chunk of every batch
    [fileChunks.slice(i, i + limit)], [i = k * limit], that holds one
    chunk. *)
Lemma mergeFileChunks_single ids limit filePath : forall fuel remaining st,
  0 < limit ->
  length remaining <= fuel ->
  exists st',
    mergeFileChunks fuel ids limit filePath remaining st = Ok st'
    /\ (forall c, In c (Dechunk.mergedChunks st) -> In c (Dechunk.mergedChunks st'))
    /\ forall k single,
         firstn limit (skipn (k * limit) remaining) = [single] ->
         In single (Dechunk.mergedChunks st').
Proof.
  induction fuel as [| fuel IH]; intros remaining st Hlimit Hfuel.
  - destruct remaining; [| cbn in Hfuel; lia].
    exists st. split; [reflexivity |]. split; [auto |].
    intros k single. rewrite skipn_nil, firstn_nil. discriminate.
  - destruct remaining as [| x after].
    { exists st. split; [reflexivity |]. split; [auto |].
      intros k single. rewrite skipn_nil, firstn_nil. discriminate. }
    cbn [mergeFileChunks].
    destruct (firstn limit (x :: after)) as [| b0 [| b1 bs]] eqn:Hbatch.
    + destruct limit; [lia | discriminate].
    + pose proof (skipn_batch _ _ Hbatch) as Hskip. cbn [length skipn] in Hskip.
      destruct (IH after
                  (Dechunk.mk (Dechunk.mergedChunks st ++ [b0])
                              (Dechunk.warnings st) (Dechunk.idCalls st))
                  Hlimit) as [st' [Hrun [Hkeep Hsingle]]].
      { cbn in Hfuel. lia. }
      exists st'. split; [exact Hrun |]. split.
      * intros c Hc. apply Hkeep. cbn. apply in_app_iff. now left.
      * intros [| k] single Hk.
        -- cbn [Nat.mul skipn] in Hk. rewrite Hbatch in Hk. injection Hk as <-.
           apply Hkeep. cbn. apply in_app_iff. right. now left.
        -- apply (Hsingle k). rewrite <- Hk. f_equal.
           cbn [Nat.mul]. rewrite Nat.add_comm, <- skipn_skipn.
           now rewrite <- Hskip.
    + pose proof (skipn_batch _ _ Hbatch) as Hskip.
      match goal with
      | |- exists st', mergeFileChunks fuel ids limit filePath ?rest ?st1 = Ok st' /\ _ =>
          destruct (IH rest st1 Hlimit) as [st' [Hrun [Hkeep Hsingle]]]
      end.
      { rewrite length_skipn. cbn [length] in *. lia. }
      exists st'. split; [exact Hrun |]. split.
      * intros c Hc. apply Hkeep. cbn. apply in_app_iff. now left.
      * intros [| k] single Hk.
        -- cbn [Nat.mul skipn] in Hk. rewrite Hbatch in Hk. discriminate.
        -- apply (Hsingle k). rewrite <- Hk. f_equal.
           cbn [Nat.mul]. rewrite Nat.add_comm, <- skipn_skipn.
           now rewrite <- Hskip.
Qed.

Lemma dechunkFiles_single ids limit : forall groups st,
  0 < limit ->
  exists st',
    fold_left (dechunkFile ids limit) groups (Ok st) = Ok st'
    /\ (forall c, In c (Dechunk.mergedChunks st) -> In c (Dechunk.mergedChunks st'))
    /\ forall g k single,
         In g groups ->
         firstn limit (skipn (k * limit) (sortBy CodeChunk.startLine (snd g)))
         = [single] ->
         In single (Dechunk.mergedChunks st').
Proof.
  induction groups as [| g groups IH]; intros st Hlimit.
  - exists st. split; [reflexivity |]. split; [auto |]. intros g k single [].
  - cbn [fold_left]. unfold dechunkFile at 2. cbn [bind].
    destruct (@mergeFileChunks_single ids limit (fst g)
                (length (sortBy CodeChunk.startLine (snd g)))
                (sortBy CodeChunk.startLine (snd g)) st Hlimit (le_n _))
      as [st1 [Hrun [Hkeep1 Hsingle1]]].
    rewrite Hrun.
    destruct (IH st1 Hlimit) as [st' [Hfold [Hkeep Hsingle]]].
    exists st'. split; [exact Hfold |]. split; [auto |].
    intros g' k single [<- | Hg'] Hk.
    + apply Hkeep. now apply (Hsingle1 k).
    + now apply (Hsingle g' k).
Qed.

(** C9. Merging no step throws; merging a single step returns that very
    step.  In [applyDechunking], the chunks of each file are taken by start
    line in batches [fileChunks.slice(i, i + maxChunksPerStep)]; whenever
    such a batch holds a single chunk, the run ends normally and that very
    chunk (same id, same kind, same everything) is in the result. *)
Theorem C9_empty_merge_throws_single_merge_is_identity :
  mergeSteps [] = Throw "Cannot merge empty array of steps"
  /\ (forall step, mergeSteps [step] = Ok step)
  /\ (forall ids chunks options filePath fileChunks k single,
         In (filePath, fileChunks) (groupByFile chunks) ->
         firstn (MergedOptions.maxChunksPerStep options)
                (skipn (k * MergedOptions.maxChunksPerStep options)
                       (sortBy CodeChunk.startLine fileChunks))
         = [single] ->
         exists out warnings,
           applyDechunking ids chunks options = Ok (out, warnings)
           /\ In single out).
Proof.
  split; [reflexivity |]. split; [reflexivity |].
  intros ids chunks options filePath fileChunks k single Hgroup Hbatch.
  assert (Hlimit : 0 < MergedOptions.maxChunksPerStep options).
  { destruct (MergedOptions.maxChunksPerStep options); [discriminate | lia]. }
  unfold applyDechunking.
  destruct (length chunks <=? MergedOptions.maxChunksPerStep options).
  - exists chunks, []. split; [reflexivity |].
    assert (Hin : In single (sortBy CodeChunk.startLine fileChunks)).
    { apply (in_skipn (k * MergedOptions.maxChunksPerStep options)).
      apply (in_firstn (MergedOptions.maxChunksPerStep options)).
      rewrite Hbatch. now left. }
    apply sortBy_In in Hin.
    now apply (groupBy_sound CodeChunk.filePath chunks filePath fileChunks single Hgroup Hin).
  - destruct (@dechunkFiles_single ids (MergedOptions.maxChunksPerStep options)
                (groupByFile chunks) Dechunk.empty Hlimit)
      as [st' [Hfold [_ Hsingle]]].
    rewrite Hfold. cbn [bind]. eexists. eexists. split; [reflexivity |].
    apply (Hsingle (filePath, fileChunks) k single Hgroup Hbatch).
Qed.

Lemma C9_witness :
  mergeSteps [] = Throw "Cannot merge empty array of steps"
  /\ mergeSteps [Sample.step "a" "p1" EditCode 0 []]
     = Ok (Sample.step "a" "p1" EditCode 0 [])
  /\ exists out warnings,
       applyDechunking (Sample.clock 0) Sample.threeChunks (Sample.options 2)
       = Ok (out, warnings)
       /\ In (Sample.chunk "c3" "test.ts" 21 30) out.
Proof.
  destruct C9_empty_merge_throws_single_merge_is_identity as [H0 [H1 H2]].
  split; [exact H0 |]. split; [apply H1 |].
  apply (H2 (Sample.clock 0) Sample.threeChunks (Sample.options 2)
            "test.ts" Sample.threeChunks 1).
  - left. reflexivity.
  - reflexivity.
Defined.

(** ** Sub-chunks that share no line *)

(** The claim as stated fails: sub-chunks that follow one another in the
    output need not share a line.  The windows of a pair that is longer than
    the limit start on the line after the one before ends (a symbol of 30
    lines without inner boundary, limit 10), and the sub-chunks on both sides
    of an omitted pair are apart (boundaries 1, 10, 12, 30).  The claim also
    needs a positive limit (with a limit of 0 the call never returns) and a
    text that is no longer than the line range: with 30 lines of text for
    the lines 1 to 20 and a comment on the 25th line, a sub-chunk ends on
    line 25. *)
Lemma C10_counterexample :
  (exists chunks,
      chunkLargeSymbol 30 (Sample.clock 0) "test.ts" "work" "function" 1 30
                       (Sample.linesWithComment 30 0) (Sample.maxLines 10)
      = Ok chunks
      /\ sortedBoundaries 1 30 (Sample.linesWithComment 30 0) = [1; 30]%Z
      /\ map span chunks = [(1, 10); (11, 20); (21, 30)]%Z)
  /\ (exists chunks,
         chunkLargeSymbol 30 (Sample.clock 0) "test.ts" "work" "function" 1 30
                          (Sample.linesWithComments 30 10 12) (Sample.maxLines 28)
         = Ok chunks
         /\ sortedBoundaries 1 30 (Sample.linesWithComments 30 10 12)
            = [1; 10; 12; 30]%Z
         /\ map span chunks = [(1, 10); (12, 30)]%Z)
  /\ (forall fuel,
         chunkLargeSymbol fuel (Sample.clock 0) "test.ts" "work" "function" 1 20
                          (Sample.linesWithComment 20 10) (Sample.maxLines 0)
         = OutOfFuel)
  /\ (exists chunks,
         chunkLargeSymbol 30 (Sample.clock 0) "test.ts" "work" "function" 1 20
                          (Sample.linesWithComment 30 25) (Sample.maxLines 28)
         = Ok chunks
         /\ sortedBoundaries 1 20 (Sample.linesWithComment 30 25)
            = [1; 20; 25]%Z
         /\ map span chunks = [(1, 20); (20, 25)]%Z).
Proof.
  split; [| split; [| split]].
  - eexists. split; [vm_compute; reflexivity |]. split; vm_compute; reflexivity.
  - eexists. split; [vm_compute; reflexivity |]. split; vm_compute; reflexivity.
  - intros fuel. apply chunkLargeSymbol_loops.
    + vm_compute. discriminate.
    + lia.
    + apply Z.leb_le. vm_compute. reflexivity.
  - eexists. split; [vm_compute; reflexivity |]. split; vm_compute; reflexivity.
Qed.
